(** * HGraph: a hierarchical proximity-graph index

    A shallow embedding of [src/algorithm/hgraph.cpp] and
    [src/impl/basic_searcher.cpp]: the capacity arithmetic, the
    duplicate-label pre-pass of [Add], the level and entry-point bookkeeping
    of [hnsw_add], the two beam searchers, [RangeSearch], and the at-rest
    byte format.

    Conventions.
    - Unsigned 64-bit and signed 32-bit integers are [Z] with the wrap-around
      written out ([wrap64], [sint32]).
    - A [float] distance is a rational ([Q]): the searchers only negate and
      compare distances, and on finite floats those coincide with the
      operations on the rationals they denote.
    - Behaviour that C++ leaves undefined (popping an empty priority queue,
      reading past the end of a vector, an over-wide shift) is a [fault]:
      the model stops there instead of inventing a value. *)

From Stdlib Require Import ZArith QArith Qround Lqa Lia List Bool.
From Stdlib Require Import Strings.Byte Strings.Ascii.
From stdpp Require Import base option list gmap strings.

Local Open Scope Z_scope.

(** ** Outcomes of fallible code *)

Inductive ErrorType :=
| INVALID_ARGUMENT
| INDEX_NOT_EMPTY
| READ_ERROR
| NO_ENOUGH_MEMORY.

Inductive fault :=
| Raised (e : ErrorType)        (* an [Error] returned through tl::expected *)
| RuntimeError                  (* std::runtime_error thrown and not caught *)
| UndefinedShift                (* shift count not below the operand width *)
| PopOnEmptyHeap                (* priority_queue::pop on an empty queue *)
| TopOnEmptyHeap                (* priority_queue::top on an empty queue *)
| OutOfBounds                   (* operator[] past the end *)
| NullPointer                   (* use of a null pointer *)
| OutOfRange                    (* std::out_of_range thrown by at() *)
| OutOfFuel.                    (* the loop bound of the model was reached *)

Inductive outcome (A : Type) :=
| Ok (a : A)
| Fault (f : fault).
Arguments Ok {A} a.
Arguments Fault {A} f.

#[global] Instance outcome_ret : MRet outcome := fun A a => Ok a.
#[global] Instance outcome_bind : MBind outcome := fun A B k m =>
  match m with
  | Ok a => k a
  | Fault f => Fault f
  end.

#[global] Instance outcome_fmap : FMap outcome := fun A B f m =>
  match m with
  | Ok a => Ok (f a)
  | Fault e => Fault e
  end.

Definition of_option {A} (f : fault) (o : option A) : outcome A :=
  match o with
  | Some a => Ok a
  | None => Fault f
  end.

(** ** Machine integers *)

Definition wrap64 (z : Z) : Z := z mod 2 ^ 64.

(** The value of a 32-bit pattern read as a signed [int]. *)
Definition sint32 (z : Z) : Z :=
  let u := z mod 2 ^ 32 in
  if u <? 2 ^ 31 then u else u - 2 ^ 32.

(** Bitwise complement of a [uint64_t]. *)
Definition not64 (z : Z) : Z := wrap64 (Z.lnot z).

(** [1 << n] where the literal [1] is an [int] and [n] a [uint64_t]: the
    result has type [int].  A count of 32 or more is undefined; a count of 31
    yields the sign bit, i.e. [INT_MIN]. *)
Definition int_one_shl (n : Z) : outcome Z :=
  if 32 <=? n then Fault UndefinedShift else Ok (sint32 (Z.shiftl 1 n)).

(** ** Capacity arithmetic (hgraph.cpp, lines 32-40) *)

Definition next_multiple_of_power_of_two (x n : Z) : outcome Z :=
  if 63 <? n then Fault RuntimeError
  else
    yi ← int_one_shl n;
    let y := wrap64 yi in                       (* uint64_t y = 1 << n; *)
    let result := Z.land (wrap64 (x + y - 1)) (not64 (y - 1)) in
    Ok result.

(** The value the name promises: the least multiple of [2^n] that is at
    least [x]. *)
Definition round_up_to_multiple (x n : Z) : Z := 2 ^ n * ((x + 2 ^ n - 1) / 2 ^ n).

(** ** Distances *)

Definition Qltb (a b : Q) : bool := negb (Qle_bool b a).

(** [std::numeric_limits<float>::max()], exactly. *)
Definition FLT_MAX : Q := inject_Z ((2 ^ 24 - 1) * 2 ^ 104).

(** Modelled from the spec: the constant [THRESHOLD_ERROR] is declared
    outside the translated files; section 4.4 gives its value as 2e-6. *)
Definition THRESHOLD_ERROR : Q := (2 # 1000000)%Q.

(** ** Identifiers and heaps *)

Definition InnerIdType := nat.
Definition LabelType := Z.

(** [MaxHeap] is a [std::priority_queue] of [(float, InnerIdType)] pairs
    ordered by distance.  The queue is kept as a list in descending order of
    distance, so that [top] is the head. *)
Module Heap.
Definition item : Type := Q * InnerIdType.
Definition t : Type := list item.

Fixpoint emplace (d : Q) (id : InnerIdType) (h : t) : t :=
  match h with
  | [] => [(d, id)]
  | y :: h' =>
      if Qle_bool y.1 d then (d, id) :: y :: h' else y :: emplace d id h'
  end.

Definition top (h : t) : outcome item :=
  match h with
  | [] => Fault TopOnEmptyHeap
  | x :: _ => Ok x
  end.

Definition pop (h : t) : outcome t :=
  match h with
  | [] => Fault PopOnEmptyHeap
  | _ :: h' => Ok h'
  end.

Definition size (h : t) : Z := Z.of_nat (length h).

Definition empty (h : t) : bool :=
  match h with
  | [] => true
  | _ => false
  end.

(** Descending order of distance. *)
Fixpoint descending (h : t) : Prop :=
  match h with
  | [] => True
  | x :: h' => Forall (fun y => (y.1 <= x.1)%Q) h' /\ descending h'
  end.
End Heap.

Abbreviation MaxHeap := Heap.t.

(** ** Per-layer adjacency store

    The graph cells are collaborators; the searchers use them through
    [GetNeighbors], [MaximumDegree] and [TotalCount] only. *)
Record GraphCell := {
  maximum_degree_ : nat;
  total_count_ : nat;
  graph_max_capacity_ : Z;
  adjacency_ : gmap InnerIdType (list InnerIdType)
}.

Definition MaximumDegree (g : GraphCell) : nat := maximum_degree_ g.
Definition TotalCount (g : GraphCell) : nat := total_count_ g.
Definition GetNeighbors (g : GraphCell) (id : InnerIdType) : list InnerIdType :=
  default [] (adjacency_ g !! id).
Definition InsertNeighborsById (g : GraphCell) (id : InnerIdType)
    (ns : list InnerIdType) : GraphCell :=
  {| maximum_degree_ := maximum_degree_ g;
     total_count_ := total_count_ g;
     graph_max_capacity_ := graph_max_capacity_ g;
     adjacency_ := <[id := ns]> (adjacency_ g) |}.
Definition IncreaseTotalCount (g : GraphCell) (n : nat) : GraphCell :=
  {| maximum_degree_ := maximum_degree_ g;
     total_count_ := (total_count_ g + n)%nat;
     graph_max_capacity_ := graph_max_capacity_ g;
     adjacency_ := adjacency_ g |}.
Definition Resize (g : GraphCell) (new_size : Z) : GraphCell :=
  {| maximum_degree_ := maximum_degree_ g;
     total_count_ := total_count_ g;
     graph_max_capacity_ := new_size;
     adjacency_ := adjacency_ g |}.
(** What the pruner does to a cell: it replaces the adjacency. *)
Definition with_adjacency (g : GraphCell)
    (adj : gmap InnerIdType (list InnerIdType)) : GraphCell :=
  {| maximum_degree_ := maximum_degree_ g;
     total_count_ := total_count_ g;
     graph_max_capacity_ := graph_max_capacity_ g;
     adjacency_ := adj |}.

(** ** Visited lists

    A visited list is an array of tags and the tag of the current
    traversal: cell [i] is visited iff [mass[i] = curV]. *)
Record VisitedList := {
  mass : list Z;
  curV : Z
}.

Definition vl_Get (vl : VisitedList) (id : InnerIdType) : outcome bool :=
  match mass vl !! id with
  | None => Fault OutOfBounds
  | Some t => Ok (t =? curV vl)
  end.

Definition vl_Set (vl : VisitedList) (id : InnerIdType) : outcome VisitedList :=
  if decide (id < length (mass vl))%nat
  then Ok {| mass := <[id := curV vl]> (mass vl); curV := curV vl |}
  else Fault OutOfBounds.

Arguments vl_Get : simpl never.
Arguments vl_Set : simpl never.

Definition is_visited (vl : VisitedList) (id : InnerIdType) : Prop :=
  mass vl !! id = Some (curV vl).

(** A list as the pool hands it out: no cell carries the current tag. *)
Definition fresh_visited_list (vl : VisitedList) : Prop :=
  forall id, ~ is_visited vl id.

(** Modelled from the spec: the visited-list pool is declared outside the
    translated files; by section 4.2 [Acquire] returns an array of length
    [max_capacity] together with a tag that no cell carries. *)
Definition getFreeVisitedList (capacity : nat) : VisitedList :=
  {| mass := replicate capacity 0; curV := 1 |}.

(** ** Search parameters *)

Inductive InnerSearchMode := KNN_SEARCH_MODE | RANGE_SEARCH_MODE.

Definition is_range (mode : InnerSearchMode) : bool :=
  match mode with
  | RANGE_SEARCH_MODE => true
  | KNN_SEARCH_MODE => false
  end.

Definition is_knn (mode : InnerSearchMode) : bool := negb (is_range mode).

(** A run of a searcher: the inner ids handed to [Codec.Query], in call
    order, and the heap returned or the fault that ended the run. *)
Definition traced (A : Type) : Type := list InnerIdType * outcome A.

(** ** The searcher inside HGraph (hgraph.cpp, lines 368-473) *)

Module HGraphSearch.

Record InnerSearchParam := {
ep_ : InnerIdType;
ef_ : Z;
is_id_allowed_ : option (LabelType -> bool);   (* [None] is [nullptr] *)
radius_ : Q
}.

Section search_one_graph.
Variable mode : InnerSearchMode.
(** [computer id] is the distance that [flatten->Query] reports for [id]
    with the computer built from the query. *)
Variable computer : InnerIdType -> Q.
(** The label of an inner id; [None] when the id is past the end of the
    label vector. *)
Variable get_label_by_id : InnerIdType -> option LabelType.
Variable graph : GraphCell.
Variable inner_search_param : InnerSearchParam.

Let ef : Z := wrap64 (ef_ inner_search_param).   (* compared with size_t *)

(** The filter test: a null filter admits every id; otherwise the filter
    is asked about the label of the id. *)
Definition id_allowed (id : InnerIdType) : outcome bool :=
  match is_id_allowed_ inner_search_param with
  | None => Ok true
  | Some f => l ← of_option OutOfBounds (get_label_by_id id); Ok (f l)
  end.

(** Lines 430-444: the neighbours that do not carry the tag are copied to
    [to_be_visited], a vector of [MaximumDegree] slots, and tagged. *)
Fixpoint collect_unvisited (neighbors : list InnerIdType)
    (to_be_visited : list InnerIdType) (vl : VisitedList)
    : outcome (list InnerIdType * VisitedList) :=
  match neighbors with
  | [] => Ok (to_be_visited, vl)
  | neighbor :: rest =>
      seen ← vl_Get vl neighbor;
      if (seen : bool) then collect_unvisited rest to_be_visited vl
      else if decide (length to_be_visited < MaximumDegree graph)%nat then
        vl' ← vl_Set vl neighbor;
        collect_unvisited rest (to_be_visited ++ [neighbor]) vl'
      else Fault OutOfBounds
  end.

(** Lines 448-469: one pass over the distances of the fresh neighbours. *)
Fixpoint relax (to_be_visited : list InnerIdType)
    (candidate_set cur_result : MaxHeap) (lower_bound : Q)
    : outcome (MaxHeap * MaxHeap * Q) :=
  match to_be_visited with
  | [] => Ok (candidate_set, cur_result, lower_bound)
  | id :: rest =>
      let dist := computer id in
      if (Heap.size cur_result <? ef) || Qltb dist lower_bound ||
         (is_range mode && Qle_bool dist (radius_ inner_search_param))
      then
        let candidate_set := Heap.emplace (- dist)%Q id candidate_set in
        ok ← id_allowed id;
        let cur_result :=
          if (ok : bool) then Heap.emplace dist id cur_result else cur_result in
        cur_result ←
          (if is_knn mode && (ef <? Heap.size cur_result)
           then Heap.pop cur_result else Ok cur_result);
        let lower_bound :=
          match cur_result with
          | [] => lower_bound
          | t :: _ => t.1
          end in
        relax rest candidate_set cur_result lower_bound
      else relax rest candidate_set cur_result lower_bound
  end.

(** Lines 406-470: the main loop.  Every iteration pops one candidate, so
    [fuel] bounds the number of candidates that are ever popped. *)
Fixpoint search_loop (fuel : nat) (candidate_set cur_result : MaxHeap)
    (lower_bound : Q) (vl : VisitedList) : traced MaxHeap :=
  match candidate_set with
  | [] => ([], Ok cur_result)
  | current_node_pair :: popped =>
      if is_knn mode && Qltb lower_bound (- current_node_pair.1)%Q &&
         (Heap.size cur_result =? ef)
      then ([], Ok cur_result)
      else
        match fuel with
        | O => ([], Fault OutOfFuel)
        | S fuel' =>
            let neighbors := GetNeighbors graph current_node_pair.2 in
            match collect_unvisited neighbors [] vl with
            | Fault f => ([], Fault f)
            | Ok (to_be_visited, vl') =>
                (* flatten->Query(tmp_result, computer, to_be_visited, n) *)
                match relax to_be_visited popped cur_result lower_bound with
                | Fault f => (to_be_visited, Fault f)
                | Ok (candidate_set', cur_result', lower_bound') =>
                    let '(log, r) :=
                      search_loop fuel' candidate_set' cur_result'
                        lower_bound' vl' in
                    (to_be_visited ++ log, r)
                end
            end
        end
  end.

(** Lines 385-400: what happens to the entry point before the loop. *)
Definition search_init (vl : VisitedList)
    : outcome (MaxHeap * MaxHeap * Q * VisitedList) :=
  let ep := ep_ inner_search_param in
  let dist := computer ep in
  ok ← id_allowed ep;
  let cur_result : MaxHeap := if (ok : bool) then [(dist, ep)] else [] in
  let lower_bound := if ok then dist else FLT_MAX in
  cur_result ←
    (if is_range mode && Qltb (radius_ inner_search_param) dist
     then Heap.pop cur_result else Ok cur_result);
  let candidate_set := Heap.emplace (- dist)%Q ep [] in
  vl' ← vl_Set vl ep;
  Ok (candidate_set, cur_result, lower_bound, vl').

Definition search_one_graph (vl : VisitedList) : traced MaxHeap :=
  let ep := ep_ inner_search_param in
  (* flatten->Query(&dist, computer, &ep, 1) *)
  match search_init vl with
  | Fault f => ([ep], Fault f)
  | Ok (candidate_set, cur_result, lower_bound, vl') =>
      let '(log, r) :=
        search_loop (length (mass vl)) candidate_set cur_result
          lower_bound vl' in
      (ep :: log, r)
  end.
End search_one_graph.

End HGraphSearch.

(** ** Loops that pop the worst element *)

(** [while (heap.size() > k) heap.pop();] with [k] compared as a [size_t]. *)
Fixpoint pop_while_larger (k : Z) (h : MaxHeap) : MaxHeap :=
  match h with
  | [] => []
  | _ :: h' => if k <? Heap.size h then pop_while_larger k h' else h
  end.

(** [while (not heap.empty() && heap.top().first > bound) heap.pop();] *)
Fixpoint pop_while_beyond (bound : Q) (h : MaxHeap) : MaxHeap :=
  match h with
  | [] => []
  | x :: h' => if Qltb bound x.1 then pop_while_beyond bound h' else h
  end.

(** ** The stand-alone searcher (basic_searcher.cpp) *)

Module BasicSearcher.

Record InnerSearchParam := {
ep : InnerIdType;
ef : Z;
topk : Z;
radius : Q;
is_inner_id_allowed : option (InnerIdType -> bool);   (* [CheckValid] *)
search_mode : InnerSearchMode;
range_search_limit_size : Z
}.

Section search_impl.
(** Number of neighbours whose visit bits are prefetched ahead; a member
    constant declared outside the translated files. *)
Variable prefetch_jump_visit_size_ : nat.
Variable mode : InnerSearchMode.
Variable graph : option GraphCell.                     (* [None] is null *)
Variable flatten : option (InnerIdType -> Q).          (* [None] is null *)
Variable inner_search_param : InnerSearchParam.

Let ef64 : Z := wrap64 (ef inner_search_param).

Definition id_allowed (id : InnerIdType) : bool :=
  match is_inner_id_allowed inner_search_param with
  | None => true
  | Some f => f id
  end.

(** Lines 46-56 of [visit]. *)
Fixpoint visit_loop (maxdeg : nat) (neighbors : list InnerIdType)
    (to_be_visited_id : list InnerIdType) (vl : VisitedList)
    : outcome (list InnerIdType * VisitedList) :=
  match neighbors with
  | [] => Ok (to_be_visited_id, vl)
  | neighbor :: rest =>
      seen ← vl_Get vl neighbor;
      if (seen : bool) then visit_loop maxdeg rest to_be_visited_id vl
      else if decide (length to_be_visited_id < maxdeg)%nat then
        vl' ← vl_Set vl neighbor;
        visit_loop maxdeg rest (to_be_visited_id ++ [neighbor]) vl'
      else Fault OutOfBounds
  end.

(** [visit]: lines 42-44 read [neighbors[i]] for every
    [i < prefetch_jump_visit_size_], whatever the length of [neighbors]. *)
Definition visit (g : GraphCell) (vl : VisitedList)
    (current_node_pair : Heap.item)
    : outcome (list InnerIdType * VisitedList) :=
  let neighbors := GetNeighbors g current_node_pair.2 in
  if decide (length neighbors < prefetch_jump_visit_size_)%nat
  then Fault OutOfBounds
  else visit_loop (MaximumDegree g) neighbors [] vl.

(** Lines 136-156. *)
Fixpoint relax (computer : InnerIdType -> Q)
    (to_be_visited_id : list InnerIdType)
    (candidate_set top_candidates : MaxHeap) (lower_bound : Q)
    : outcome (MaxHeap * MaxHeap * Q) :=
  match to_be_visited_id with
  | [] => Ok (candidate_set, top_candidates, lower_bound)
  | id :: rest =>
      let dist := computer id in
      if (Heap.size top_candidates <? ef64) || Qltb dist lower_bound ||
         (is_range mode && Qle_bool dist (radius inner_search_param))
      then
        let candidate_set := Heap.emplace (- dist)%Q id candidate_set in
        let top_candidates :=
          if id_allowed id then Heap.emplace dist id top_candidates
          else top_candidates in
        top_candidates ←
          (if is_knn mode && (ef64 <? Heap.size top_candidates)
           then Heap.pop top_candidates else Ok top_candidates);
        let lower_bound :=
          match top_candidates with
          | [] => lower_bound
          | t :: _ => t.1
          end in
        relax computer rest candidate_set top_candidates lower_bound
      else relax computer rest candidate_set top_candidates lower_bound
  end.

(** Lines 115-157. *)
Fixpoint search_loop (g : GraphCell) (computer : InnerIdType -> Q)
    (fuel : nat) (candidate_set top_candidates : MaxHeap)
    (lower_bound : Q) (vl : VisitedList) : traced MaxHeap :=
  match candidate_set with
  | [] => ([], Ok top_candidates)
  | current_node_pair :: popped =>
      if is_knn mode && Qltb lower_bound (- current_node_pair.1)%Q &&
         (Heap.size top_candidates =? ef64)
      then ([], Ok top_candidates)
      else
        match fuel with
        | O => ([], Fault OutOfFuel)
        | S fuel' =>
            match visit g vl current_node_pair with
            | Fault f => ([], Fault f)
            | Ok (to_be_visited_id, vl') =>
                match relax computer to_be_visited_id popped
                        top_candidates lower_bound with
                | Fault f => (to_be_visited_id, Fault f)
                | Ok (candidate_set', top_candidates', lower_bound') =>
                    let '(log, r) :=
                      search_loop g computer fuel' candidate_set'
                        top_candidates' lower_bound' vl' in
                    (to_be_visited_id ++ log, r)
                end
            end
        end
  end.

(** Lines 102-113. *)
Definition search_init (computer : InnerIdType -> Q) (vl : VisitedList)
    : outcome (MaxHeap * MaxHeap * Q * VisitedList) :=
  let ep := ep inner_search_param in
  let dist := computer ep in
  let ok := id_allowed ep in
  let top_candidates : MaxHeap := if ok then [(dist, ep)] else [] in
  let lower_bound := if ok then dist else FLT_MAX in
  top_candidates ←
    (if is_range mode && Qltb (radius inner_search_param) dist &&
        negb (Heap.empty top_candidates)
     then Heap.pop top_candidates else Ok top_candidates);
  let candidate_set := Heap.emplace (- dist)%Q ep [] in
  vl' ← vl_Set vl ep;
  Ok (candidate_set, top_candidates, lower_bound, vl').

(** Lines 159-173. *)
Definition post_process (top_candidates : MaxHeap) : MaxHeap :=
  match mode with
  | KNN_SEARCH_MODE =>
      pop_while_larger (wrap64 (topk inner_search_param)) top_candidates
  | RANGE_SEARCH_MODE =>
      let limit := range_search_limit_size inner_search_param in
      let top_candidates :=
        if 0 <? limit then pop_while_larger (wrap64 limit) top_candidates
        else top_candidates in
      pop_while_beyond (radius inner_search_param + THRESHOLD_ERROR)%Q
        top_candidates
  end.

Definition search_impl (vl : VisitedList) : traced MaxHeap :=
  match graph, flatten with
  | Some g, Some computer =>
      let ep := ep inner_search_param in
      match search_init computer vl with
      | Fault f => ([ep], Fault f)
      | Ok (candidate_set, top_candidates, lower_bound, vl') =>
          let '(log, r) :=
            search_loop g computer (length (mass vl)) candidate_set
              top_candidates lower_bound vl' in
          (ep :: log, post_process <$> r)
      end
  | _, _ => ([], Ok [])
  end.
End search_impl.

(** [Search], lines 60-70: dispatch on the mode of the parameters. *)
Definition Search (prefetch_jump_visit_size_ : nat) (graph : option GraphCell)
  (flatten : option (InnerIdType -> Q)) (vl : VisitedList)
  (inner_search_param : InnerSearchParam) : traced MaxHeap :=
match search_mode inner_search_param with
| KNN_SEARCH_MODE =>
    search_impl prefetch_jump_visit_size_ KNN_SEARCH_MODE graph flatten
      inner_search_param vl
| RANGE_SEARCH_MODE =>
    search_impl prefetch_jump_visit_size_ RANGE_SEARCH_MODE graph flatten
      inner_search_param vl
end.

End BasicSearcher.

(** ** Byte streams

    [StreamWriter::WriteObj] copies the [sizeof] bytes of an object to the
    stream and [StreamReader::ReadObj] copies them back; integers are laid
    out least significant byte first.  A [double] is carried as its 64-bit
    pattern. *)

Definition byte_of_Z (z : Z) : byte :=
  default x00 (Byte.of_N (Z.to_N (z mod 256))).
Definition Z_of_byte (b : byte) : Z := Z.of_N (Byte.to_N b).

Fixpoint encode_le (width : nat) (z : Z) : list byte :=
  match width with
  | O => []
  | S w => byte_of_Z z :: encode_le w (z / 256)
  end.

Fixpoint decode_le (bs : list byte) : Z :=
  match bs with
  | [] => 0
  | b :: bs' => Z_of_byte b + 256 * decode_le bs'
  end.

(** The value of a 64-bit pattern read as an [int64_t]. *)
Definition sint64 (z : Z) : Z :=
  let u := wrap64 z in
  if u <? 2 ^ 63 then u else u - 2 ^ 64.

Module Stream.
Definition WriteObj (width : nat) (value : Z) (writer : list byte)
    : list byte :=
  writer ++ encode_le width value.

Fixpoint read_bytes (width : nat) (reader : list byte)
    : outcome (list byte * list byte) :=
  match width with
  | O => Ok ([], reader)
  | S w =>
      match reader with
      | [] => Fault RuntimeError            (* the stream is exhausted *)
      | b :: reader' =>
          '(bs, rest) ← read_bytes w reader';
          Ok (b :: bs, rest)
      end
  end.

Definition ReadObj (width : nat) (reader : list byte)
    : outcome (Z * list byte) :=
  '(bs, rest) ← read_bytes width reader;
  Ok (decode_le bs, rest).

(** [WriteVector]: the length as a [uint64_t], then the elements. *)
Definition WriteVector (width : nat) (values : list Z)
    (writer : list byte) : list byte :=
  foldl (fun w v => WriteObj width v w)
    (WriteObj 8 (Z.of_nat (length values)) writer) values.

Fixpoint read_elements (width : nat) (count : nat) (reader : list byte)
    : outcome (list Z * list byte) :=
  match count with
  | O => Ok ([], reader)
  | S count' =>
      '(v, reader) ← ReadObj width reader;
      '(vs, reader) ← read_elements width count' reader;
      Ok (v :: vs, reader)
  end.

Definition ReadVector (width : nat) (reader : list byte)
    : outcome (list Z * list byte) :=
  '(size, reader) ← ReadObj 8 reader;
  read_elements width (Z.to_nat size) reader.
End Stream.

(** ** Collaborators of the index *)

(** A vector codec ("flatten store").  [FactoryComputer c q id] is the
    distance that [Query] reports for the stored code [id] with the
    computer built from the query [q]. *)
Class FlattenInterface (Codec : Type) := {
  Train : Codec -> list Q -> Z -> Codec;
  BatchInsertVector : Codec -> list Q -> Z -> Codec;
  FactoryComputer : Codec -> list Q -> InnerIdType -> Q;
  codec_Serialize : Codec -> list byte;             (* the bytes written *)
  codec_Deserialize : Codec -> list byte -> outcome (Codec * list byte)
}.

(** The per-id blob store. *)
Class ExtraInfoInterface (Extra : Type) := {
  BatchInsertExtraInfo : Extra -> option (list byte) -> Z -> Extra;
  GetExtraInfoById : Extra -> InnerIdType -> list byte;
  extra_Serialize : Extra -> list byte;
  extra_Deserialize : Extra -> list byte -> outcome (Extra * list byte)
}.

(** The byte format of the graph cells. *)
Class GraphInterface := {
  graph_Serialize : GraphCell -> list byte;
  graph_Deserialize : GraphCell -> list byte -> outcome (GraphCell * list byte)
}.

(** ** Datasets *)

Record Dataset := {
  NumElements : Z;
  Dim : Z;
  Ids : list LabelType;
  Float32Vectors : option (list Q);        (* [None] is [nullptr] *)
  ExtraInfos : option (list byte)          (* [None] is [nullptr] *)
}.

(** The pruner of impl/pruning_strategy.h: it rewrites the adjacency of a
    layer so that the new element and the chosen neighbours are linked, and
    returns the entry point for the next layer. *)
Class PruningStrategy (Codec : Type) := {
  mutually_connect_new_element :
    InnerIdType -> MaxHeap -> GraphCell -> Codec ->
    gmap InnerIdType (list InnerIdType) * InnerIdType
}.

(** The search parameters that are read from a parameter string. *)
Record HGraphSearchParameters := {
  ef_search : Z
}.

(** ** The index (hgraph.cpp) *)

Section HGraph.
Context {Codec Extra : Type}.
Context `{!FlattenInterface Codec} `{!ExtraInfoInterface Extra}.
Context `{!GraphInterface} `{!PruningStrategy Codec}.

Record HGraph := {
  (* construction parameters *)
  extra_info_size_ : Z;
  resize_increase_count_bit_ : Z;
  (* the eight scalars of the byte format *)
  use_reorder_ : bool;
  dim_ : Z;
  metric_ : Z;
  max_level_ : Z;
  entry_point_id_ : InnerIdType;
  ef_construct_ : Z;
  mult_ : Z;                               (* the 64-bit pattern *)
  max_capacity_ : Z;
  (* id space *)
  labels_ : list LabelType;
  label_lookup_ : gmap LabelType InnerIdType;
  (* codecs, graphs, blobs *)
  basic_flatten_codes_ : Codec;
  high_precise_codes_ : option Codec;      (* [None] is null *)
  bottom_graph_ : GraphCell;
  route_graphs_ : list GraphCell;
  extra_infos_ : option Extra;             (* [None] is null *)
  (* the capacity of the visited lists of [pool_] *)
  pool_ : nat
}.

Definition set_id_space (h : HGraph) (labels : list LabelType)
    (lookup : gmap LabelType InnerIdType) : HGraph :=
  Build_HGraph (extra_info_size_ h) (resize_increase_count_bit_ h)
    (use_reorder_ h) (dim_ h) (metric_ h) (max_level_ h)
    (entry_point_id_ h) (ef_construct_ h) (mult_ h) (max_capacity_ h)
    labels lookup
    (basic_flatten_codes_ h) (high_precise_codes_ h) (bottom_graph_ h)
    (route_graphs_ h) (extra_infos_ h) (pool_ h).

Definition set_levels (h : HGraph) (max_level : Z)
    (route_graphs : list GraphCell) : HGraph :=
  Build_HGraph (extra_info_size_ h) (resize_increase_count_bit_ h)
    (use_reorder_ h) (dim_ h) (metric_ h) max_level
    (entry_point_id_ h) (ef_construct_ h) (mult_ h) (max_capacity_ h)
    (labels_ h) (label_lookup_ h)
    (basic_flatten_codes_ h) (high_precise_codes_ h) (bottom_graph_ h)
    route_graphs (extra_infos_ h) (pool_ h).

Definition set_entry_point_id (h : HGraph) (id : InnerIdType) : HGraph :=
  Build_HGraph (extra_info_size_ h) (resize_increase_count_bit_ h)
    (use_reorder_ h) (dim_ h) (metric_ h) (max_level_ h)
    id (ef_construct_ h) (mult_ h) (max_capacity_ h)
    (labels_ h) (label_lookup_ h)
    (basic_flatten_codes_ h) (high_precise_codes_ h) (bottom_graph_ h)
    (route_graphs_ h) (extra_infos_ h) (pool_ h).

Definition set_bottom_graph (h : HGraph) (g : GraphCell) : HGraph :=
  Build_HGraph (extra_info_size_ h) (resize_increase_count_bit_ h)
    (use_reorder_ h) (dim_ h) (metric_ h) (max_level_ h)
    (entry_point_id_ h) (ef_construct_ h) (mult_ h) (max_capacity_ h)
    (labels_ h) (label_lookup_ h)
    (basic_flatten_codes_ h) (high_precise_codes_ h) g
    (route_graphs_ h) (extra_infos_ h) (pool_ h).

Definition set_pool (h : HGraph) (capacity : nat) : HGraph :=
  Build_HGraph (extra_info_size_ h) (resize_increase_count_bit_ h)
    (use_reorder_ h) (dim_ h) (metric_ h) (max_level_ h)
    (entry_point_id_ h) (ef_construct_ h) (mult_ h) (max_capacity_ h)
    (labels_ h) (label_lookup_ h)
    (basic_flatten_codes_ h) (high_precise_codes_ h) (bottom_graph_ h)
    (route_graphs_ h) (extra_infos_ h) capacity.

Inductive scalar_field :=
| USE_REORDER | DIM | METRIC | MAX_LEVEL
| ENTRY_POINT_ID | EF_CONSTRUCT | MULT | MAX_CAPACITY.

(** Storing the bytes just read into one scalar member. *)
Definition with_scalar (field : scalar_field) (v : Z) (h : HGraph)
    : HGraph :=
  Build_HGraph (extra_info_size_ h) (resize_increase_count_bit_ h)
    (match field with USE_REORDER => negb (v =? 0) | _ => use_reorder_ h end)
    (match field with DIM => sint64 v | _ => dim_ h end)
    (match field with METRIC => v | _ => metric_ h end)
    (match field with MAX_LEVEL => v | _ => max_level_ h end)
    (match field with
     | ENTRY_POINT_ID => Z.to_nat v
     | _ => entry_point_id_ h
     end)
    (match field with EF_CONSTRUCT => v | _ => ef_construct_ h end)
    (match field with MULT => v | _ => mult_ h end)
    (match field with MAX_CAPACITY => v | _ => max_capacity_ h end)
    (labels_ h) (label_lookup_ h)
    (basic_flatten_codes_ h) (high_precise_codes_ h) (bottom_graph_ h)
    (route_graphs_ h) (extra_infos_ h) (pool_ h).

Definition set_codecs (h : HGraph) (basic : Codec) (precise : option Codec)
    (extra : option Extra) : HGraph :=
  Build_HGraph (extra_info_size_ h) (resize_increase_count_bit_ h)
    (use_reorder_ h) (dim_ h) (metric_ h) (max_level_ h)
    (entry_point_id_ h) (ef_construct_ h) (mult_ h) (max_capacity_ h)
    (labels_ h) (label_lookup_ h)
    basic precise (bottom_graph_ h)
    (route_graphs_ h) extra (pool_ h).

(** Declarations of hgraph.h that the translated file relies on. *)
(** The number of elements the index reports. *)
Variable GetNumElements : HGraph -> Z.
(** The mode [search_one_graph] is instantiated with when a call names
    none (its default template argument). *)
Variable default_mode : InnerSearchMode.
(** The radius of a default-constructed [InnerSearchParam]. *)
Variable default_radius_ : Q.
(** The value [get_random_level()] returns for the point that receives
    the given inner id; by section 3 of the specification it is never
    negative. *)
Variable get_random_level : InnerIdType -> nat.
(** [HGraphSearchParameters::FromJson], declared outside the translated
    files: the parameters it reads from a parameter string, or the
    exception it throws.  [Fault (Raised INVALID_ARGUMENT)] stands for
    [std::invalid_argument], which the handlers of [KnnSearch] and
    [RangeSearch] turn into that error, as they do for [CHECK_ARGUMENT];
    any other fault is an exception that leaves the call. *)
Variable FromJson : string -> outcome HGraphSearchParameters.
(** [BitsetOrCallbackFilter], declared outside the translated files: the
    filter object that [KnnSearch] makes of a callback, as the searcher
    applies it to a label. *)
Variable BitsetOrCallbackFilter : (LabelType -> bool) -> LabelType -> bool.
(** [build_thread_count_], set by the constructor and never changed
    afterwards; [build_pool_] is not null exactly when it exceeds 1
    (lines 65-67). *)
Variable build_thread_count_ : Z.
(** The turns that the workers of [build_pool_] take during a call of
    [hnsw_add] on the given index and dataset: each entry names the worker
    that runs its next iteration. *)
Variable pool_schedule : HGraph -> Dataset -> list nat.

(** Modelled from the spec: [get_label_by_id] is declared in hgraph.h; by
    section 4.1 [LabelOf] reads the dense inner-id-to-label vector. *)
Definition get_label_by_id (h : HGraph) (id : InnerIdType)
    : option LabelType :=
  labels_ h !! id.

(** *** resize (lines 767-779) *)
Definition resize (h : HGraph) (new_size : Z) : outcome HGraph :=
  let cur_size := max_capacity_ h in
  new_size_power_2 ←
    next_multiple_of_power_of_two new_size (resize_increase_count_bit_ h);
  if cur_size <? new_size_power_2 then
    Ok (Build_HGraph (extra_info_size_ h) (resize_increase_count_bit_ h)
          (use_reorder_ h) (dim_ h) (metric_ h) (max_level_ h)
          (entry_point_id_ h) (ef_construct_ h) (mult_ h)
          new_size_power_2
          (resize (Z.to_nat new_size_power_2) 0 (labels_ h))
          (label_lookup_ h)
          (basic_flatten_codes_ h) (high_precise_codes_ h)
          (Resize (bottom_graph_ h) new_size_power_2)
          (route_graphs_ h) (extra_infos_ h)
          (Z.to_nat new_size_power_2))
  else Ok h.

(** *** split_dataset_by_duplicate_label (lines 834-878) *)

(** Lines 844-851: [n] iterations remain, [i] is the loop index. *)
Fixpoint scan_duplicates (h : HGraph) (labels : list LabelType)
    (n : nat) (i : nat) (temp_labels : gset LabelType)
    (failed_ids : list Z) : outcome (list Z) :=
  match n with
  | O => Ok failed_ids
  | S n' =>
      label ← of_option OutOfBounds (labels !! i);
      if bool_decide (is_Some (label_lookup_ h !! label)) ||
         bool_decide (label ∈ temp_labels)
      then scan_duplicates h labels n' (S i) temp_labels
             (failed_ids ++ [Z.of_nat i])
      else scan_duplicates h labels n' (S i) ({[label]} ∪ temp_labels)
             failed_ids
  end.

(** Lines 858-872: one dataset per non-empty gap between rejected
    indices.  The new datasets alias the arrays of the input. *)
Fixpoint cut_runs (dataset : Dataset) (ends : list Z) (start : Z)
    : list Dataset :=
  match ends with
  | [] => []
  | e :: ends' =>
      if e - start =? 1 then cut_runs dataset ends' e
      else
        {| NumElements := e - start - 1;
           Dim := Dim dataset;
           Ids := drop (Z.to_nat (start + 1)) (Ids dataset);
           Float32Vectors :=
             drop (Z.to_nat (Dim dataset * (start + 1)))
               <$> Float32Vectors dataset;
           ExtraInfos := None |}
        :: cut_runs dataset ends' e
  end.

Definition split_dataset_by_duplicate_label (h : HGraph)
    (dataset : Dataset) (failed_ids : list Z)
    : outcome (list Dataset * list Z) :=
  let count := NumElements dataset in
  let labels := Ids dataset in
  failed_ids ←
    scan_duplicates h labels (Z.to_nat (wrap64 count)) 0 ∅ failed_ids;
  let failed_ids := failed_ids ++ [count] in
  if (length failed_ids =? 1)%nat then Ok ([dataset], failed_ids)
  else
    let return_datasets := cut_runs dataset failed_ids (-1) in
    let failed_ids := removelast failed_ids in
    failed_ids ←
      mapM (fun failed_id =>
              if failed_id <? 0 then Fault OutOfBounds
              else of_option OutOfBounds (labels !! Z.to_nat failed_id))
           failed_ids;
    Ok (return_datasets, failed_ids).

(** *** Searching one layer *)

(** [search_one_graph] as a member: the visited list comes from [pool_],
    the filter is asked about labels.  [flatten] may be null. *)
Definition search_one_graph (h : HGraph) (mode : InnerSearchMode)
    (query : list Q) (graph : GraphCell) (flatten : option Codec)
    (inner_search_param : HGraphSearch.InnerSearchParam)
    : outcome MaxHeap :=
  codec ← of_option NullPointer flatten;
  (HGraphSearch.search_one_graph mode (FactoryComputer codec query)
     (get_label_by_id h) graph inner_search_param
     (getFreeVisitedList (pool_ h))).2.

(** The loops of lines 148-154 and 499-505: from the top route graph
    down, each result seeds the entry point of the next search. *)
Fixpoint descend_route_graphs (h : HGraph) (query : list Q)
    (graphs_top_down : list GraphCell)
    (search_param : HGraphSearch.InnerSearchParam)
    : outcome HGraphSearch.InnerSearchParam :=
  match graphs_top_down with
  | [] => Ok search_param
  | g :: rest =>
      result ←
        search_one_graph h default_mode query g
          (Some (basic_flatten_codes_ h)) search_param;
      t ← Heap.top result;
      descend_route_graphs h query rest
        {| HGraphSearch.ep_ := t.2;
           HGraphSearch.ef_ := HGraphSearch.ef_ search_param;
           HGraphSearch.is_id_allowed_ :=
             HGraphSearch.is_id_allowed_ search_param;
           HGraphSearch.radius_ := HGraphSearch.radius_ search_param |}
  end.

(** The same loops on the vectors of a query dataset: the pointer is
    handed to [search_one_graph] once for every route graph. *)
Definition descend_from_top (h : HGraph) (vectors : option (list Q))
    (search_param : HGraphSearch.InnerSearchParam)
    : outcome HGraphSearch.InnerSearchParam :=
  match route_graphs_ h with
  | [] => Ok search_param
  | _ =>
      q ← of_option NullPointer vectors;
      descend_route_graphs h q (reverse (route_graphs_ h)) search_param
  end.

(** *** reorder (lines 880-907) *)

Fixpoint reorder_refill (k : Z) (scored : list (Q * InnerIdType))
    (candidate_heap : MaxHeap) : outcome MaxHeap :=
  match scored with
  | [] => Ok candidate_heap
  | (d, id) :: rest =>
      keep ←
        (if Heap.size candidate_heap <? wrap64 k then Ok true
         else t ← Heap.top candidate_heap; Ok (Qle_bool d t.1));
      let candidate_heap :=
        if (keep : bool) then Heap.emplace d id candidate_heap
        else candidate_heap in
      candidate_heap ←
        (if wrap64 k <? Heap.size candidate_heap
         then Heap.pop candidate_heap else Ok candidate_heap);
      reorder_refill k rest candidate_heap
  end.

Definition reorder (query : list Q) (flatten_interface : option Codec)
    (candidate_heap : MaxHeap) (k : Z) : outcome MaxHeap :=
  let size := Heap.size candidate_heap in
  let k := if k <=? 0 then size else k in
  let ids := candidate_heap.*2 in              (* popped top first *)
  codec ← of_option NullPointer flatten_interface;
  let computer := FactoryComputer codec query in
  reorder_refill k ((fun id => (computer id, id)) <$> ids) [].

(** *** Emitting a result (lines 180-204 and 527-550)

    The heap is emptied from the worst element into the last slot, so
    the arrays come out in ascending order of distance. *)
Record SearchResult := {
  result_ids : list LabelType;
  result_dists : list Q;
  result_extra_infos : option (list (list byte))
}.

Definition emit_result (h : HGraph) (search_result : MaxHeap)
    : outcome SearchResult :=
  let ascending := reverse search_result in
  ids ← mapM (fun p : Heap.item => of_option OutOfRange (labels_ h !! p.2))
        ascending;
  extra ←
    (if 0 <? extra_info_size_ h then
       e ← of_option NullPointer (extra_infos_ h);
       Ok (Some ((fun p : Heap.item => GetExtraInfoById e p.2)
                   <$> ascending))
     else Ok None);
  Ok {| result_ids := ids;
        result_dists := ascending.*1;
        result_extra_infos := extra |}.

Definition check_argument (cond : bool) : outcome unit :=
  if cond then Ok tt else Fault (Raised INVALID_ARGUMENT).

(** *** KnnSearch (lines 123-210)

    [parameters] is the parameter string and [filter] the callback
    ([None] is an empty [std::function]).  A [std::invalid_argument]
    thrown inside the [try] is what the function returns as
    INVALID_ARGUMENT. *)
Definition KnnSearch (h : HGraph) (query : Dataset) (k : Z)
    (parameters : string) (filter : option (LabelType -> bool))
    : outcome SearchResult :=
  let ft := BitsetOrCallbackFilter <$> filter in
  _ ← check_argument (Dim query =? dim_ h);
  _ ← check_argument (0 <? k);
  let k := Z.min k (GetNumElements h) in
  _ ← check_argument (NumElements query =? 1);
  search_param ←
    descend_from_top h (Float32Vectors query)
      {| HGraphSearch.ep_ := entry_point_id_ h;
         HGraphSearch.ef_ := 1;
         HGraphSearch.is_id_allowed_ := None;
         HGraphSearch.radius_ := default_radius_ |};
  params ← FromJson parameters;
  let search_param :=
    {| HGraphSearch.ep_ := HGraphSearch.ep_ search_param;
       HGraphSearch.ef_ := ef_search params;
       HGraphSearch.is_id_allowed_ := ft;
       HGraphSearch.radius_ := HGraphSearch.radius_ search_param |} in
  q ← of_option NullPointer (Float32Vectors query);
  search_result ←
    search_one_graph h default_mode q (bottom_graph_ h)
      (Some (basic_flatten_codes_ h)) search_param;
  search_result ←
    (if use_reorder_ h
     then reorder q (high_precise_codes_ h) search_result k
     else Ok search_result);
  let search_result := pop_while_larger (wrap64 k) search_result in
  if Heap.empty search_result
  then Ok {| result_ids := []; result_dists := [];
             result_extra_infos := None |}
  else emit_result h search_result.

(** *** RangeSearch (lines 475-556)

    [parameters] is the parameter string; [filter_ptr] is handed to the
    searcher as it is. *)
Definition RangeSearch (h : HGraph) (query : Dataset) (radius : Q)
    (parameters : string) (filter_ptr : option (LabelType -> bool))
    (limited_size : Z) : outcome SearchResult :=
  _ ← check_argument (Dim query =? dim_ h);
  _ ← check_argument (Qle_bool 0 radius);
  _ ← check_argument (NumElements query =? 1);
  _ ← check_argument (negb (limited_size =? 0));
  search_param ←
    descend_from_top h (Float32Vectors query)
      {| HGraphSearch.ep_ := entry_point_id_ h;
         HGraphSearch.ef_ := 1;
         HGraphSearch.is_id_allowed_ := None;
         HGraphSearch.radius_ := default_radius_ |};
  params ← FromJson parameters;
  let search_param :=
    {| HGraphSearch.ep_ := HGraphSearch.ep_ search_param;
       HGraphSearch.ef_ := Z.max (ef_search params) limited_size;
       HGraphSearch.is_id_allowed_ := filter_ptr;
       HGraphSearch.radius_ := radius |} in
  q ← of_option NullPointer (Float32Vectors query);
  search_result ←
    search_one_graph h default_mode q (bottom_graph_ h)
      (Some (basic_flatten_codes_ h)) search_param;
  search_result ←
    (if use_reorder_ h
     then reorder q (high_precise_codes_ h) search_result limited_size
     else Ok search_result);
  let search_result :=
    if 0 <? limited_size
    then pop_while_larger (wrap64 limited_size) search_result
    else search_result in
  emit_result h search_result.

(** *** add_one_point (lines 726-765) *)

Definition generate_one_route_graph (h : HGraph) : GraphCell :=
  {| maximum_degree_ := MaximumDegree (bottom_graph_ h) / 2;
     total_count_ := 0;
     graph_max_capacity_ := 0;
     adjacency_ := ∅ |}.

(** Lines 741-744.  [j] is a [uint64_t]; the loop runs [n] times, from
    [j] down. *)
Fixpoint descend_above (h : HGraph) (data : list Q)
    (flatten_codes : option Codec) (n : nat) (j : Z)
    (param : HGraphSearch.InnerSearchParam)
    : outcome HGraphSearch.InnerSearchParam :=
  match n with
  | O => Ok param
  | S n' =>
      g ← of_option OutOfBounds (route_graphs_ h !! Z.to_nat j);
      result ← search_one_graph h default_mode data g flatten_codes param;
      t ← Heap.top result;
      descend_above h data flatten_codes n' (j - 1)
        {| HGraphSearch.ep_ := t.2;
           HGraphSearch.ef_ := HGraphSearch.ef_ param;
           HGraphSearch.is_id_allowed_ := HGraphSearch.is_id_allowed_ param;
           HGraphSearch.radius_ := HGraphSearch.radius_ param |}
  end.

(** Lines 747-756: the layers [j = n - 1, ..., 0] of the new point. *)
Fixpoint connect_route_layers (h : HGraph) (data : list Q)
    (flatten_codes : option Codec) (inner_id : InnerIdType) (n : nat)
    (param : HGraphSearch.InnerSearchParam) : outcome (HGraph * InnerIdType) :=
  match n with
  | O => Ok (h, HGraphSearch.ep_ param)
  | S j =>
      g ← of_option OutOfBounds (route_graphs_ h !! j);
      '(g, ep) ←
        (if negb (TotalCount g =? 0)%nat then
           result ← search_one_graph h default_mode data g flatten_codes param;
           codec ← of_option NullPointer flatten_codes;
           let '(adj, ep) :=
             mutually_connect_new_element inner_id result g codec in
           Ok (with_adjacency g adj, ep)
         else Ok (InsertNeighborsById g inner_id [], HGraphSearch.ep_ param));
      let g := IncreaseTotalCount g 1 in
      connect_route_layers
        (set_levels h (max_level_ h) (<[j := g]> (route_graphs_ h)))
        data flatten_codes inner_id j
        {| HGraphSearch.ep_ := ep;
           HGraphSearch.ef_ := HGraphSearch.ef_ param;
           HGraphSearch.is_id_allowed_ := HGraphSearch.is_id_allowed_ param;
           HGraphSearch.radius_ := HGraphSearch.radius_ param |}
  end.

Definition add_one_point (h : HGraph) (data : list Q) (level : Z)
    (inner_id : InnerIdType) : outcome HGraph :=
  let param :=
    {| HGraphSearch.ep_ := entry_point_id_ h;
       HGraphSearch.ef_ := 1;
       HGraphSearch.is_id_allowed_ := None;
       HGraphSearch.radius_ := default_radius_ |} in
  let flatten_codes :=
    if use_reorder_ h then high_precise_codes_ h
    else Some (basic_flatten_codes_ h) in
  (* for (auto j = max_level_ - 1; j > level; --j): unsigned comparison *)
  let j := wrap64 (max_level_ h - 1) in
  let n := if wrap64 level <? j then Z.to_nat (j - wrap64 level) else O in
  param ← descend_above h data flatten_codes n j param;
  let param :=
    {| HGraphSearch.ep_ := HGraphSearch.ep_ param;
       HGraphSearch.ef_ := ef_construct_ h;
       HGraphSearch.is_id_allowed_ := None;
       HGraphSearch.radius_ := HGraphSearch.radius_ param |} in
  (* for (auto j = level; j >= 0; --j) *)
  '(h, ep) ←
    connect_route_layers h data flatten_codes inner_id
      (Z.to_nat (level + 1)) param;
  let param :=
    {| HGraphSearch.ep_ := ep;
       HGraphSearch.ef_ := ef_construct_ h;
       HGraphSearch.is_id_allowed_ := None;
       HGraphSearch.radius_ := HGraphSearch.radius_ param |} in
  let bottom := bottom_graph_ h in
  bottom ←
    (if negb (TotalCount bottom =? 0)%nat then
       result ← search_one_graph h default_mode data bottom flatten_codes param;
       codec ← of_option NullPointer flatten_codes;
       let '(adj, _) :=
         mutually_connect_new_element inner_id result bottom codec in
       Ok (with_adjacency bottom adj)
     else Ok (InsertNeighborsById bottom inner_id []));
  Ok (set_bottom_graph h (IncreaseTotalCount bottom 1)).

(** *** hnsw_add (lines 310-360) *)

(** [build_func]: [n] iterations remain, [i] is the loop index. *)
Fixpoint build_func (ids : list LabelType) (datas : list Q)
    (cur_count : nat) (n : nat) (i : nat) (h : HGraph) : outcome HGraph :=
  match n with
  | O => Ok h
  | S n' =>
      let inner_id := (i + cur_count)%nat in
      let level := Z.of_nat (get_random_level inner_id) - 1 in
      label ← of_option OutOfBounds (ids !! i);
      _ ← (if decide (inner_id < length (labels_ h))%nat then Ok tt
           else Fault OutOfBounds);
      let h :=
        set_id_space h (<[inner_id := label]> (labels_ h))
          (<[label := inner_id]> (label_lookup_ h)) in
      let point := drop (Z.to_nat (Z.of_nat i * dim_ h)) datas in
      h ←
        (if (sint64 (max_level_ h) <=? level) ||
            (TotalCount (bottom_graph_ h) =? 0)%nat
         then
           let fresh :=
             replicate (Z.to_nat (level - sint64 (max_level_ h) + 1))
               (generate_one_route_graph h) in
           let h := set_levels h (level + 1) (route_graphs_ h ++ fresh) in
           h ← add_one_point h point level inner_id;
           Ok (set_entry_point_id h inner_id)
         else add_one_point h point level inner_id);
      build_func ids datas cur_count n' (S i) h
  end.

(** Lines 350-356.  The tasks of the pool: worker [j] is given
    [build_func(j * task_size, end)], whose bounds are [InnerIdType]s.  A
    task is kept as the loop indices it has still to run. *)
Definition pool_tasks (total : Z) : list (list nat) :=
  let task_size :=
    wrap64 (total + build_thread_count_ - 1) / build_thread_count_ in
  (fun j : nat =>
     let begin := wrap64 (Z.of_nat j * task_size) in
     let end_ := Z.min (wrap64 (begin + task_size)) total in
     let first := Z.to_nat (begin mod 2 ^ 32) in
     seq first (Z.to_nat (end_ mod 2 ^ 32) - first))
    <$> seq 0 (Z.to_nat build_thread_count_).

(** The order in which the iterations of the tasks run when the workers
    take their turns as [schedule] says: a worker that has finished lets
    its turn pass, and when the schedule is used up the tasks that are
    left run one after the other.

    The iterations take their turns as wholes.  In the source the
    promotion path runs under [add_mutex] and the unique hold of
    [global_mutex_], so that [max_level_], [entry_point_id_] and the
    number of route graphs change one iteration at a time, in the order
    in which the workers come to [add_mutex]; calls of [add_one_point] on
    the common path hold [global_mutex_] shared and can overlap each
    other, which the model does not follow. *)
Fixpoint pool_order (schedule : list nat) (tasks : list (list nat))
    : list nat :=
  match schedule with
  | [] => concat tasks
  | j :: schedule' =>
      match tasks !! j with
      | Some (i :: rest) => i :: pool_order schedule' (<[j := rest]> tasks)
      | _ => pool_order schedule' tasks
      end
  end.

(** The iterations of [build_func] for the loop indices of [order]. *)
Fixpoint build_in_order (ids : list LabelType) (datas : list Q)
    (cur_count : nat) (order : list nat) (h : HGraph) : outcome HGraph :=
  match order with
  | [] => Ok h
  | i :: rest =>
      h ← build_func ids datas cur_count 1 i h;
      build_in_order ids datas cur_count rest h
  end.

Definition hnsw_add (h : HGraph) (data : Dataset) : outcome HGraph :=
  let total := wrap64 (NumElements data) in
  datas ← of_option NullPointer (Float32Vectors data);
  let cur_count := TotalCount (bottom_graph_ h) in
  let schedule := pool_schedule h data in
  h ← resize h (wrap64 (total + Z.of_nat cur_count));
  if 1 <? build_thread_count_ then
    (* build_pool_ != nullptr: the tasks are enqueued and waited for *)
    build_in_order (Ids data) datas cur_count
      (pool_order schedule (pool_tasks total)) h
  else
    (* build_func(0, total): the bounds are passed as InnerIdType *)
    build_func (Ids data) datas cur_count (Z.to_nat (total mod 2 ^ 32)) 0 h.

(** *** Add (lines 89-121) *)

Fixpoint add_datasets (h : HGraph) (split_datasets : list Dataset)
    : outcome HGraph :=
  match split_datasets with
  | [] => Ok h
  | data_ptr :: rest =>
      vectors ← of_option NullPointer (Float32Vectors data_ptr);
      let n := NumElements data_ptr in
      let basic :=
        BatchInsertVector (Train (basic_flatten_codes_ h) vectors n)
          vectors n in
      precise ←
        (if use_reorder_ h then
           c ← of_option NullPointer (high_precise_codes_ h);
           Ok (Some (BatchInsertVector (Train c vectors n) vectors n))
         else Ok (high_precise_codes_ h));
      h ← hnsw_add (set_codecs h basic precise (extra_infos_ h)) data_ptr;
      h ←
        (if 0 <? extra_info_size_ h then
           e ← of_option NullPointer (extra_infos_ h);
           Ok (set_codecs h (basic_flatten_codes_ h) (high_precise_codes_ h)
                 (Some (BatchInsertExtraInfo e (ExtraInfos data_ptr) n)))
         else Ok h);
      add_datasets h rest
  end.

Definition Add (h : HGraph) (data : Dataset)
    : outcome (list LabelType * HGraph) :=
  _ ← check_argument (Dim data =? dim_ h);
  _ ← check_argument (bool_decide (is_Some (Float32Vectors data)));
  '(split_datasets, failed_ids) ←
    split_dataset_by_duplicate_label h data [];
  h ← add_datasets h split_datasets;
  Ok (failed_ids, h).

(** *** Serialize (lines 558-593) *)

Definition serialize_basic_info (h : HGraph) (writer : list byte)
    : list byte :=
  let writer := Stream.WriteObj 1 (Z.b2z (use_reorder_ h)) writer in
  let writer := Stream.WriteObj 8 (dim_ h) writer in
  let writer := Stream.WriteObj 4 (metric_ h) writer in
  let writer := Stream.WriteObj 8 (max_level_ h) writer in
  let writer := Stream.WriteObj 4 (Z.of_nat (entry_point_id_ h)) writer in
  let writer := Stream.WriteObj 8 (ef_construct_ h) writer in
  let writer := Stream.WriteObj 8 (mult_ h) writer in
  let writer := Stream.WriteObj 8 (max_capacity_ h) writer in
  let writer := Stream.WriteVector 8 (labels_ h) writer in
  let size := Z.of_nat (size (label_lookup_ h)) in
  let writer := Stream.WriteObj 8 size writer in
  foldl (fun writer (pair : LabelType * InnerIdType) =>
           let writer := Stream.WriteObj 8 pair.1 writer in
           Stream.WriteObj 4 (Z.of_nat pair.2) writer)
        writer (map_to_list (label_lookup_ h)).

(** Lines 587-589: [route_graphs_[i]] for [i < max_level_]. *)
Fixpoint serialize_route_graphs (h : HGraph) (n : nat) (i : nat)
    (writer : list byte) : outcome (list byte) :=
  match n with
  | O => Ok writer
  | S n' =>
      g ← of_option OutOfBounds (route_graphs_ h !! i);
      serialize_route_graphs h n' (S i) (writer ++ graph_Serialize g)
  end.

Definition Serialize_writer (h : HGraph) (writer : list byte)
    : outcome (list byte) :=
  let writer := serialize_basic_info h writer in
  let writer := writer ++ codec_Serialize (basic_flatten_codes_ h) in
  let writer := writer ++ graph_Serialize (bottom_graph_ h) in
  writer ←
    (if use_reorder_ h then
       c ← of_option NullPointer (high_precise_codes_ h);
       Ok (writer ++ codec_Serialize c)
     else Ok writer);
  writer ←
    serialize_route_graphs h (Z.to_nat (wrap64 (max_level_ h))) 0 writer;
  if 0 <? extra_info_size_ h then
    e ← of_option NullPointer (extra_infos_ h);
    Ok (writer ++ extra_Serialize e)
  else Ok writer.

Definition cal_serialize_size (h : HGraph) : outcome nat :=
  length <$> Serialize_writer h [].

Inductive BinaryName := INDEX_HGRAPH | BLANK_INDEX.
Definition BinarySet : Type := BinaryName -> option (list byte).

(** Modelled from the spec: [EmptyIndexBinarySet::Make] is declared
    outside the translated files; by section 6 an empty index is emitted
    as a single marker payload that is recognised on load. *)
Definition EmptyIndexBinarySet (marker : list byte) : BinarySet :=
  fun name =>
    match name with
    | BLANK_INDEX => Some marker
    | INDEX_HGRAPH => None
    end.

Definition EMPTY_HGRAPH : list byte :=
  [x45; x4d; x50; x54; x59; x5f; x48; x47; x52; x41; x50; x48].

(** [Serialize() const], lines 262-286. *)
Definition Serialize_binary_set (h : HGraph) : outcome BinarySet :=
  if GetNumElements h =? 0 then Ok (EmptyIndexBinarySet EMPTY_HGRAPH)
  else
    num_bytes ← cal_serialize_size h;
    bin ← Serialize_writer h [];
    Ok (fun name =>
          match name with
          | INDEX_HGRAPH => Some bin
          | BLANK_INDEX => None
          end).

(** [Serialize(std::ostream&)], lines 649-659. *)
Definition Serialize_ostream (h : HGraph) (out_stream : list byte)
    : outcome (list byte) :=
  Serialize_writer h out_stream.

(** *** Deserialize (lines 595-639)

    Loading threads the index and the reader.  A step that fails leaves
    both as they were before that step: the members stored by the earlier
    steps stay overwritten. *)
Definition load (A : Type) : Type :=
  HGraph * list byte -> HGraph * list byte * outcome A.

Definition load_then {A B} (m : load A) (k : A -> load B) : load B :=
  fun s =>
    let '(s', r) := m s in
    match r with
    | Ok a => k a s'
    | Fault f => (s', Fault f)
    end.

Definition load_step
    (step : HGraph -> list byte -> outcome (HGraph * list byte))
    : load unit :=
  fun '(h, reader) =>
    match step h reader with
    | Ok s' => (s', Ok tt)
    | Fault f => ((h, reader), Fault f)
    end.

Definition read_scalar (width : nat) (field : scalar_field) : load unit :=
  load_step (fun h reader =>
    '(v, reader) ← Stream.ReadObj width reader;
    Ok (with_scalar field v h, reader)).

(** [label_lookup_.emplace(key, value)]: an existing key keeps its
    value. *)
Definition emplace_label (key : LabelType) (value : InnerIdType)
    (m : gmap LabelType InnerIdType) : gmap LabelType InnerIdType :=
  match m !! key with
  | Some _ => m
  | None => <[key := value]> m
  end.

(** Lines 632-638. *)
Fixpoint read_label_lookup (n : nat) : load unit :=
  match n with
  | O => fun s => (s, Ok tt)
  | S n' =>
      load_then
        (load_step (fun h reader =>
           '(key, reader) ← Stream.ReadObj 8 reader;
           '(value, reader) ← Stream.ReadObj 4 reader;
           Ok (set_id_space h (labels_ h)
                 (emplace_label (sint64 key) (Z.to_nat value)
                    (label_lookup_ h)), reader)))
        (fun _ => read_label_lookup n')
  end.

Definition deserialize_basic_info : load unit :=
  load_then (read_scalar 1 USE_REORDER) (fun _ =>
  load_then (read_scalar 8 DIM) (fun _ =>
  load_then (read_scalar 4 METRIC) (fun _ =>
  load_then (read_scalar 8 MAX_LEVEL) (fun _ =>
  load_then (read_scalar 4 ENTRY_POINT_ID) (fun _ =>
  load_then (read_scalar 8 EF_CONSTRUCT) (fun _ =>
  load_then (read_scalar 8 MULT) (fun _ =>
  load_then (read_scalar 8 MAX_CAPACITY) (fun _ =>
  load_then (load_step (fun h reader =>
    '(labels, reader) ← Stream.ReadVector 8 reader;
    Ok (set_id_space h (sint64 <$> labels) (label_lookup_ h), reader)))
    (fun _ =>
  fun '(h, reader) =>
    match Stream.ReadObj 8 reader with
    | Ok (size, reader) => read_label_lookup (Z.to_nat size) (h, reader)
    | Fault f => ((h, reader), Fault f)
    end))))))))).

(** Lines 608-610: [route_graphs_[i]->Deserialize(reader)]. *)
Fixpoint deserialize_route_graphs (n : nat) (i : nat) : load unit :=
  match n with
  | O => fun s => (s, Ok tt)
  | S n' =>
      load_then
        (load_step (fun h reader =>
           g ← of_option OutOfBounds (route_graphs_ h !! i);
           '(g, reader) ← graph_Deserialize g reader;
           Ok (set_levels h (max_level_ h) (<[i := g]> (route_graphs_ h)),
               reader)))
        (fun _ => deserialize_route_graphs n' (S i))
  end.

Definition Deserialize_reader : load unit :=
  load_then deserialize_basic_info (fun _ =>
  load_then (load_step (fun h reader =>
    '(c, reader) ← codec_Deserialize (basic_flatten_codes_ h) reader;
    Ok (set_codecs h c (high_precise_codes_ h) (extra_infos_ h), reader)))
    (fun _ =>
  load_then (load_step (fun h reader =>
    '(g, reader) ← graph_Deserialize (bottom_graph_ h) reader;
    Ok (set_bottom_graph h g, reader))) (fun _ =>
  load_then (load_step (fun h reader =>
    if use_reorder_ h then
      c ← of_option NullPointer (high_precise_codes_ h);
      '(c, reader) ← codec_Deserialize c reader;
      Ok (set_codecs h (basic_flatten_codes_ h) (Some c) (extra_infos_ h),
          reader)
    else Ok (h, reader))) (fun _ =>
  load_then (load_step (fun h reader =>
    Ok (set_levels h (max_level_ h)
          (route_graphs_ h ++
             replicate (Z.to_nat (max_level_ h))
               (generate_one_route_graph h)), reader))) (fun _ =>
  load_then (fun s =>
    deserialize_route_graphs (Z.to_nat (max_level_ s.1)) 0 s) (fun _ =>
  load_then (load_step (fun h reader =>
    Ok (set_pool h (Z.to_nat (max_capacity_ h)), reader))) (fun _ =>
  load_step (fun h reader =>
    if 0 <? extra_info_size_ h then
      e ← of_option NullPointer (extra_infos_ h);
      '(e, reader) ← extra_Deserialize e reader;
      Ok (set_codecs h (basic_flatten_codes_ h) (high_precise_codes_ h)
            (Some e), reader)
    else Ok (h, reader))))))))).

(** [catch (const std::runtime_error&)]: the error is reported as
    [READ_ERROR]; anything else escapes. *)
Definition catch_runtime_error {A} (r : outcome A) : outcome A :=
  match r with
  | Fault RuntimeError => Fault (Raised READ_ERROR)
  | _ => r
  end.

(** The three public overloads.  Each returns the index and the payload
    as they are afterwards (what is left of the payload is what has not
    been read), and the value returned to the caller. *)

(** [Deserialize(const ReaderSet&)], lines 288-308. *)
Definition Deserialize_reader_set (h : HGraph)
    (reader_set : BinaryName -> option (list byte))
    : HGraph * option (list byte) * outcome unit :=
  if 0 <? GetNumElements h
  then (h, reader_set INDEX_HGRAPH, Fault (Raised INDEX_NOT_EMPTY))
  else
    match reader_set INDEX_HGRAPH with
    | None => (h, None, Fault NullPointer)
    | Some payload =>
        let '(h', rest, r) := Deserialize_reader (h, payload) in
        (h', Some rest, catch_runtime_error r)
    end.

(** [Deserialize(const BinarySet&)], lines 661-688. *)
Definition Deserialize_binary_set (h : HGraph) (binary_set : BinarySet)
    : HGraph * option (list byte) * outcome unit :=
  if 0 <? GetNumElements h
  then (h, binary_set INDEX_HGRAPH, Fault (Raised INDEX_NOT_EMPTY))
  else if bool_decide (is_Some (binary_set BLANK_INDEX))
  then (h, binary_set INDEX_HGRAPH, Ok tt)
  else
    match binary_set INDEX_HGRAPH with
    | None => (h, None, Fault NullPointer)
    | Some payload =>
        let '(h', rest, r) := Deserialize_reader (h, payload) in
        (h', Some rest, catch_runtime_error r)
    end.

(** [Deserialize(std::istream&)], lines 690-705. *)
Definition Deserialize_istream (h : HGraph) (in_stream : list byte)
    : HGraph * list byte * outcome unit :=
  if 0 <? GetNumElements h
  then (h, in_stream, Fault (Raised INDEX_NOT_EMPTY))
  else Deserialize_reader (h, in_stream).

(** *** The constructor (lines 42-73)

    Modelled from the spec: the initial values of [max_level_],
    [entry_point_id_] and [max_capacity_] are member initialisers of
    hgraph.h; an index starts without levels and without capacity, and
    the constructor grows it to the capacity of the bottom graph. *)
Definition HGraph_new (dim metric : Z) (use_reorder : bool)
    (ef_construction extra_info_size resize_bit mult : Z)
    (basic precise : Codec) (bottom : GraphCell) (extra : Extra)
    : outcome HGraph :=
  resize
    {| extra_info_size_ := extra_info_size;
       resize_increase_count_bit_ := resize_bit;
       use_reorder_ := use_reorder;
       dim_ := dim;
       metric_ := metric;
       max_level_ := 0;
       entry_point_id_ := O;
       ef_construct_ := ef_construction;
       mult_ := mult;
       max_capacity_ := 0;
       labels_ := [];
       label_lookup_ := ∅;
       basic_flatten_codes_ := basic;
       high_precise_codes_ := if use_reorder then Some precise else None;
       bottom_graph_ := bottom;
       route_graphs_ := [];
       extra_infos_ := if 0 <? extra_info_size then Some extra else None;
       pool_ := O |}
    (graph_max_capacity_ bottom).

(** A sequence of batches handed to [hnsw_add] one after the other. *)
Fixpoint hnsw_add_all (h : HGraph) (batches : list Dataset)
    : outcome HGraph :=
  match batches with
  | [] => Ok h
  | data :: rest => h ← hnsw_add h data; hnsw_add_all h rest
  end.
End HGraph.

Arguments HGraph : clear implicits.

(** ** A small concrete world

    One-dimensional points, a codec that keeps the integer part of each
    coordinate and reports squared differences, a linker that connects a new
    element to every candidate found, and length-prefixed byte formats.
    The theorems below hold for every collaborator; this world is where
    they are run. *)
Module OneDim.

Definition Codec : Type := list Z.

Definition toy_computer (c : Codec) (query : list Q) (id : InnerIdType) : Q :=
  let q := hd 0%Q query in
  let v := inject_Z (default 0 (c !! id)) in
  ((q - v) * (q - v))%Q.

Definition toy_read_codec (c : Codec) (reader : list byte)
    : outcome (Codec * list byte) :=
  match Stream.ReadVector 8 reader with
  | Ok (vs, reader) => Ok (sint64 <$> vs, reader)
  | Fault f => Fault f
  end.

#[global] Instance toy_flatten : FlattenInterface Codec := {|
  Train c _ _ := c;
  BatchInsertVector c vectors n := c ++ (Qfloor <$> take (Z.to_nat n) vectors);
  FactoryComputer := toy_computer;
  codec_Serialize c := Stream.WriteVector 8 c [];
  codec_Deserialize := toy_read_codec
|}.

#[global] Instance toy_extra : ExtraInfoInterface unit := {|
  BatchInsertExtraInfo e _ _ := e;
  GetExtraInfoById _ _ := [];
  extra_Serialize _ := [];
  extra_Deserialize e reader := Ok (e, reader)
|}.

(** A cell is written as its degree, count and capacity, then the number
    of adjacency lists, then each list as its owner and its members. *)
Definition toy_write_graph (g : GraphCell) : list byte :=
  let w := Stream.WriteObj 8 (Z.of_nat (maximum_degree_ g)) [] in
  let w := Stream.WriteObj 8 (Z.of_nat (total_count_ g)) w in
  let w := Stream.WriteObj 8 (graph_max_capacity_ g) w in
  let lists := map_to_list (adjacency_ g) in
  let w := Stream.WriteObj 8 (Z.of_nat (length lists)) w in
  foldl (fun w (p : InnerIdType * list InnerIdType) =>
           Stream.WriteVector 4 (Z.of_nat <$> p.2)
             (Stream.WriteObj 4 (Z.of_nat p.1) w))
        w lists.

Fixpoint toy_read_lists (n : nat) (reader : list byte)
    (adj : gmap InnerIdType (list InnerIdType))
    : outcome (gmap InnerIdType (list InnerIdType) * list byte) :=
  match n with
  | O => Ok (adj, reader)
  | S n' =>
      match Stream.ReadObj 4 reader with
      | Ok (id, reader) =>
          match Stream.ReadVector 4 reader with
          | Ok (ns, reader) =>
              toy_read_lists n' reader
                (<[Z.to_nat id := Z.to_nat <$> ns]> adj)
          | Fault f => Fault f
          end
      | Fault f => Fault f
      end
  end.

Definition toy_read_graph (g : GraphCell) (reader : list byte)
    : outcome (GraphCell * list byte) :=
  '(degree, reader) ← Stream.ReadObj 8 reader;
  '(count, reader) ← Stream.ReadObj 8 reader;
  '(capacity, reader) ← Stream.ReadObj 8 reader;
  '(n, reader) ← Stream.ReadObj 8 reader;
  '(adj, reader) ← toy_read_lists (Z.to_nat n) reader ∅;
  Ok ({| maximum_degree_ := Z.to_nat degree;
         total_count_ := Z.to_nat count;
         graph_max_capacity_ := capacity;
         adjacency_ := adj |}, reader).

#[global] Instance toy_graph : GraphInterface := {|
  graph_Serialize := toy_write_graph;
  graph_Deserialize := toy_read_graph
|}.

(** Link the new element with every candidate, both ways, and hand back
    the closest candidate (the bottom of the max-heap). *)
Definition toy_connect (inner_id : InnerIdType) (result : MaxHeap)
    (g : GraphCell) (c : Codec)
    : gmap InnerIdType (list InnerIdType) * InnerIdType :=
  let found := result.*2 in
  let adj :=
    foldl (fun adj w => <[w := default [] (adj !! w) ++ [inner_id]]> adj)
          (<[inner_id := found]> (adjacency_ g)) found in
  (adj, default inner_id (last found)).

#[global] Instance toy_pruning : PruningStrategy Codec := {|
  mutually_connect_new_element := toy_connect
|}.

Definition toy_num_elements (h : HGraph Codec unit) : Z :=
  Z.of_nat (length (basic_flatten_codes_ h)).

(** A parameter string that is a decimal number gives [ef_search]; any
    other string is refused with [std::invalid_argument]. *)
Fixpoint toy_digits (s : string) (acc : Z) : option Z :=
  match s with
  | EmptyString => Some acc
  | String c s' =>
      let d := Z.of_nat (nat_of_ascii c) - 48 in
      if (0 <=? d) && (d <=? 9) then toy_digits s' (10 * acc + d) else None
  end.

Definition toy_FromJson (parameters : string)
    : outcome HGraphSearchParameters :=
  match parameters with
  | EmptyString => Fault (Raised INVALID_ARGUMENT)
  | _ =>
      match toy_digits parameters 0 with
      | Some ef => Ok {| ef_search := ef |}
      | None => Fault (Raised INVALID_ARGUMENT)
      end
  end.

(** The filter object asks the callback. *)
Definition toy_filter (callback : LabelType -> bool) : LabelType -> bool :=
  callback.

(** The workers run one after the other. *)
Definition in_turn (h : HGraph Codec unit) (data : Dataset) : list nat :=
  [].

(** The second worker goes first. *)
Definition second_first (h : HGraph Codec unit) (data : Dataset)
    : list nat :=
  [1%nat].

(** An empty bottom graph of degree 4 with room for 8 elements. *)
Definition empty_bottom : GraphCell :=
  {| maximum_degree_ := 4;
     total_count_ := 0;
     graph_max_capacity_ := 8;
     adjacency_ := ∅ |}.

(** A freshly constructed index: dimension 1, no reorder, no blobs,
    capacity growing in steps of 8. *)
Definition empty_index : outcome (HGraph Codec unit) :=
  HGraph_new 1 0 false 10 0 3 0 [] [] empty_bottom tt.

(** What the constructor returns. *)
Definition blank : HGraph Codec unit :=
  {| extra_info_size_ := 0;
     resize_increase_count_bit_ := 3;
     use_reorder_ := false;
     dim_ := 1;
     metric_ := 0;
     max_level_ := 0;
     entry_point_id_ := O;
     ef_construct_ := 10;
     mult_ := 0;
     max_capacity_ := 8;
     labels_ := replicate 8 0;
     label_lookup_ := ∅;
     basic_flatten_codes_ := [];
     high_precise_codes_ := None;
     bottom_graph_ := Resize empty_bottom 8;
     route_graphs_ := [];
     extra_infos_ := None;
     pool_ := 8 |}.

Definition points (labels : list LabelType) (coordinates : list Q)
    : Dataset :=
  {| NumElements := Z.of_nat (length labels);
     Dim := 1;
     Ids := labels;
     Float32Vectors := Some coordinates;
     ExtraInfos := None |}.

Definition query_at (q : Q) : Dataset := points [0] [q].

(** The index after one [Add] to the blank one, with KNN as the default
    mode of [search_one_graph] and the given level draws. *)
Definition built (levels : InnerIdType -> nat) (labels : list LabelType)
    (coordinates : list Q) : outcome (HGraph Codec unit) :=
  snd <$>
    Add KNN_SEARCH_MODE 0%Q levels 1 in_turn blank
      (points labels coordinates).

Definition ok_or {A} (d : A) (o : outcome A) : A :=
  match o with
  | Ok a => a
  | Fault _ => d
  end.

(** Points at 0 and 5 under labels 7 and 8, both on the bottom layer
    only. *)
Definition two_points : HGraph Codec unit :=
  Eval vm_compute in ok_or blank (built (fun _ => O) [7; 8] [0%Q; 5%Q]).

(** Points at 0, 5 and 9 under labels 7, 8 and 9; the first one also
    reaches the first route graph. *)
Definition first_on_top (id : InnerIdType) : nat :=
  match id with
  | O => 1%nat
  | _ => O
  end.

Definition two_levels : HGraph Codec unit :=
  Eval vm_compute in
    ok_or blank (built first_on_top [7; 8; 9] [0%Q; 5%Q; 9%Q]).

(** The batch of scenario S3: labels 1, 2 and 1 again, all on the bottom
    layer only. *)
Definition after_duplicate : HGraph Codec unit :=
  Eval vm_compute in
    ok_or blank (built (fun _ => O) [1; 2; 1] [0%Q; 5%Q; 9%Q]).

(** The blank index once its codec holds the coordinates 0 and 5, as
    [Add] leaves it before it calls [hnsw_add]. *)
Definition trained : HGraph Codec unit :=
  set_codecs blank [0; 5] None None.

(** Both points draw 1. *)
Definition both_draw_one (id : InnerIdType) : nat := 1%nat.


End OneDim.

(** * Notions used in the statements *)

(** A log of queried ids in which nothing repeats and nothing had been
    visited when the log began. *)
Definition queried_once (vl : VisitedList) (log : list InnerIdType) : Prop :=
  NoDup log /\ forall x, x ∈ log -> ~ is_visited vl x.

(** The number of cells that do not carry the current tag. *)
Definition unvisited_count (vl : VisitedList) : nat :=
  length (filter (fun t => t <> curV vl) (mass vl)).

Section Notions.
Context {Codec Extra : Type}.
Context `{!FlattenInterface Codec} `{!ExtraInfoInterface Extra}.
Context `{!GraphInterface}.

(** The byte layout in the words of section 6 of the specification; the
    pairs of the label lookup come in the order [pairs]. *)
Definition normative_layout (h : HGraph Codec Extra)
    (pairs : list (LabelType * InnerIdType)) : list byte :=
  (* 1. the eight scalars *)
  encode_le 1 (Z.b2z (use_reorder_ h)) ++
  encode_le 8 (dim_ h) ++
  encode_le 4 (metric_ h) ++
  encode_le 8 (max_level_ h) ++
  encode_le 4 (Z.of_nat (entry_point_id_ h)) ++
  encode_le 8 (ef_construct_ h) ++
  encode_le 8 (mult_ h) ++
  encode_le 8 (max_capacity_ h) ++
  (* 2. the labels: their number, then each *)
  encode_le 8 (Z.of_nat (length (labels_ h))) ++
  (labels_ h ≫= encode_le 8) ++
  (* 3. the label lookup: its size, then the pairs *)
  encode_le 8 (Z.of_nat (length pairs)) ++
  (pairs ≫= fun p => encode_le 8 p.1 ++ encode_le 4 (Z.of_nat p.2)) ++
  (* 4. basic codec, bottom graph, precise codec iff use_reorder *)
  codec_Serialize (basic_flatten_codes_ h) ++
  graph_Serialize (bottom_graph_ h) ++
  (if use_reorder_ h
   then from_option codec_Serialize [] (high_precise_codes_ h) else []) ++
  (* 5. the route graphs of levels 0 .. max_level - 1 *)
  (take (Z.to_nat (max_level_ h)) (route_graphs_ h) ≫= graph_Serialize) ++
  (* 6. the blobs iff extra_info_size > 0 *)
  (if 0 <? extra_info_size_ h
   then from_option extra_Serialize [] (extra_infos_ h) else []).

(** What any index that [Add] has built satisfies, as far as the byte
    format is concerned: one route graph per level, and the optional
    collaborators present exactly when they are configured. *)
Definition consistent (h : HGraph Codec Extra) : Prop :=
  0 <= max_level_ h < 2 ^ 64 /\
  Z.to_nat (max_level_ h) = length (route_graphs_ h) /\
  (if use_reorder_ h then is_Some (high_precise_codes_ h)
   else high_precise_codes_ h = None) /\
  (if 0 <? extra_info_size_ h then is_Some (extra_infos_ h)
   else extra_infos_ h = None).

(** Every member holds a value of its C++ type, and the visited lists have
    the capacity of the index. *)
Definition fits_types (h : HGraph Codec Extra) : Prop :=
  - 2 ^ 63 <= dim_ h < 2 ^ 63 /\
  0 <= metric_ h < 2 ^ 32 /\
  Z.of_nat (entry_point_id_ h) < 2 ^ 32 /\
  0 <= ef_construct_ h < 2 ^ 64 /\
  0 <= mult_ h < 2 ^ 64 /\
  0 <= max_capacity_ h < 2 ^ 64 /\
  Forall (fun l => - 2 ^ 63 <= l < 2 ^ 63) (labels_ h) /\
  Z.of_nat (length (labels_ h)) < 2 ^ 64 /\
  map_Forall (fun (k : LabelType) (v : InnerIdType) =>
                - 2 ^ 63 <= k < 2 ^ 63 /\ Z.of_nat v < 2 ^ 32)
             (label_lookup_ h) /\
  Z.of_nat (size (label_lookup_ h)) < 2 ^ 64 /\
  pool_ h = Z.to_nat (max_capacity_ h).

(** [y] holds nothing and was constructed with the parameters of [x]. *)
Definition blank_like (y x : HGraph Codec Extra) : Prop :=
  extra_info_size_ y = extra_info_size_ x /\
  resize_increase_count_bit_ y = resize_increase_count_bit_ x /\
  label_lookup_ y = ∅ /\
  route_graphs_ y = [] /\
  (high_precise_codes_ y = None <-> high_precise_codes_ x = None) /\
  (extra_infos_ y = None <-> extra_infos_ x = None).

(** The collaborators of [y] read back what those of [x] wrote. *)
Definition collaborators_round_trip (y x : HGraph Codec Extra) : Prop :=
  (forall rest,
     codec_Deserialize (basic_flatten_codes_ y)
       (codec_Serialize (basic_flatten_codes_ x) ++ rest)
     = Ok (basic_flatten_codes_ x, rest)) /\
  (forall rest,
     graph_Deserialize (bottom_graph_ y)
       (graph_Serialize (bottom_graph_ x) ++ rest)
     = Ok (bottom_graph_ x, rest)) /\
  (forall cy cx rest,
     high_precise_codes_ y = Some cy -> high_precise_codes_ x = Some cx ->
     codec_Deserialize cy (codec_Serialize cx ++ rest) = Ok (cx, rest)) /\
  (forall g rest,
     g ∈ route_graphs_ x ->
     graph_Deserialize
       {| maximum_degree_ := MaximumDegree (bottom_graph_ x) / 2;
          total_count_ := 0;
          graph_max_capacity_ := 0;
          adjacency_ := ∅ |}
       (graph_Serialize g ++ rest)
     = Ok (g, rest)) /\
  (forall ey ex rest,
     extra_infos_ y = Some ey -> extra_infos_ x = Some ex ->
     extra_Deserialize ey (extra_Serialize ex ++ rest) = Ok (ex, rest)).
End Notions.

(** ** Duplicate labels *)

(** Element [i] of a batch is a duplicate when its label is already in the
    index or occurs earlier in the batch. *)
Definition duplicate_at (lookup : gmap LabelType InnerIdType)
    (labels : list LabelType) (i : nat) : bool :=
  match labels !! i with
  | Some l => bool_decide (is_Some (lookup !! l)) ||
              bool_decide (l ∈ take i labels)
  | None => false
  end.

(** The input indices of the duplicates, in input order. *)
Definition rejected_indices (lookup : gmap LabelType InnerIdType)
    (labels : list LabelType) : list nat :=
  filter (fun i => duplicate_at lookup labels i = true)
         (seq 0 (length labels)).

(** The labels of the duplicates, in input order. *)
Definition rejected_labels (lookup : gmap LabelType InnerIdType)
    (labels : list LabelType) : list LabelType :=
  omap (fun i => labels !! i) (rejected_indices lookup labels).

(** ** Level draws *)

Section LevelNotions.
Context {Codec Extra : Type}.
Variable get_random_level : InnerIdType -> nat.

(** The highest level among the first [n] points. *)
Definition highest_level_drawn (n : nat) : nat :=
  max_list_with get_random_level (seq 0 n).

(** The points among the first [n] that drew it, in insertion order. *)
Definition reaching_highest (n : nat) : list InnerIdType :=
  filter (fun id => get_random_level id = highest_level_drawn n) (seq 0 n).

Definition earliest_reaching (n : nat) : InnerIdType :=
  default O (head (reaching_highest n)).


(** What [build_func] maintains: once a point has been inserted,
    [max_level_] is the highest draw so far and [entry_point_id_] the
    first point that drew it. *)
Definition tracks_levels (h : HGraph Codec Extra) : Prop :=
  let count := TotalCount (bottom_graph_ h) in
  (0 < count)%nat ->
  max_level_ h = Z.of_nat (highest_level_drawn count) /\
  entry_point_id_ h = earliest_reaching count.
End LevelNotions.

(** ** Indexes as they are built *)

Section BuiltNotions.
Context {Codec Extra : Type}.
Context `{!FlattenInterface Codec} `{!ExtraInfoInterface Extra}.
Context `{!GraphInterface}.

(** [h'] has the levels and the optional collaborators of [h]. *)
Definition same_shape (h h' : HGraph Codec Extra) : Prop :=
  max_level_ h' = max_level_ h /\
  length (route_graphs_ h') = length (route_graphs_ h) /\
  use_reorder_ h' = use_reorder_ h /\
  extra_info_size_ h' = extra_info_size_ h /\
  high_precise_codes_ h' = high_precise_codes_ h /\
  extra_infos_ h' = extra_infos_ h.

(** What the constructor establishes and [Add] maintains. *)
Definition as_built (h : HGraph Codec Extra) : Prop :=
  consistent h /\
  max_level_ h < 2 ^ 31 /\
  (TotalCount (bottom_graph_ h) = O -> max_level_ h = 0).
End BuiltNotions.

(** ** Scored ids *)

(** An inner id with the distance the computer reports for it. *)
Definition scored (computer : InnerIdType -> Q) (id : InnerIdType)
    : Heap.item :=
  (computer id, id).


(** A run that returns, or that ends in an access past the end of a
    vector. *)
Definition returns_or_out_of_bounds {A} (r : outcome A) : Prop :=
  match r with
  | Ok _ => True
  | Fault f => f = OutOfBounds
  end.

(** ** Sample runs of the searchers

    The bottom graph of [OneDim.two_levels] (points at 0, 5 and 9, each
    linked to the other two), a query at 3, and the labels 7, 8 and 9. *)
Module Sample.

Definition graph : GraphCell := bottom_graph_ OneDim.two_levels.

Definition computer : InnerIdType -> Q :=
  OneDim.toy_computer [0; 5; 9] [3%Q].

Definition get_label (id : InnerIdType) : option LabelType :=
  [7; 8; 9] !! id.

(** Beam width 2, a filter that rejects label 8. *)
Definition hgraph_param : HGraphSearch.InnerSearchParam :=
  {| HGraphSearch.ep_ := 0%nat;
     HGraphSearch.ef_ := 2;
     HGraphSearch.is_id_allowed_ := Some (fun l => negb (l =? 8));
     HGraphSearch.radius_ := 1%Q |}.

(** Beam width 2, one result wanted, radius 10, a filter that rejects
    inner id 1. *)
Definition basic_param : BasicSearcher.InnerSearchParam :=
  {| BasicSearcher.ep := 0%nat;
     BasicSearcher.ef := 2;
     BasicSearcher.topk := 1;
     BasicSearcher.radius := 10%Q;
     BasicSearcher.is_inner_id_allowed := Some (fun id => negb (id =? 1)%nat);
     BasicSearcher.search_mode := KNN_SEARCH_MODE;
     BasicSearcher.range_search_limit_size := 1 |}.

End Sample.

(** ** Order of the distances of a result *)

(** No distance is smaller than one before it. *)
Fixpoint ascending (ds : list Q) : Prop :=
  match ds with
  | [] => True
  | d :: ds' => Forall (fun d' => (d <= d')%Q) ds' /\ ascending ds'
  end.

(** The labels of a result pass the filter that was given. *)
Definition passes (filter : option (LabelType -> bool))
    (ids : list LabelType) : Prop :=
  match filter with
  | None => True
  | Some f => Forall (fun l => f l = true) ids
  end.


(** Sample searches on [OneDim.two_levels]: the query at 3, a filter
    that rejects label 8. *)
Module SampleSearch.

Definition not_8 (l : LabelType) : bool := negb (l =? 8).

Definition knn_result : SearchResult :=
  {| result_ids := [7; 9];
     result_dists := [9%Q; 36%Q];
     result_extra_infos := None |}.

Definition range_result : SearchResult :=
  {| result_ids := [7];
     result_dists := [9%Q];
     result_extra_infos := None |}.

(** The batch of scenario S3. *)
Definition batch_with_duplicate : Dataset :=
  OneDim.points [1; 2; 1] [0%Q; 5%Q; 9%Q].

(** What [split_dataset_by_duplicate_label] makes of it on the blank
    index. *)
Definition split_of_batch : list Dataset * list Z :=
  Eval vm_compute in
    OneDim.ok_or ([], [])
      (split_dataset_by_duplicate_label OneDim.blank batch_with_duplicate
         []).

End SampleSearch.

(** ** The id space *)

(** The labels of a dataset that the index reads: the first
    [NumElements]. *)
Definition effective_ids (d : Dataset) : list LabelType :=
  take (Z.to_nat (NumElements d)) (Ids d).

(** The input indices that are not duplicates, in input order, and the
    labels found there. *)
Definition accepted_indices (lookup : gmap LabelType InnerIdType)
    (labels : list LabelType) : list nat :=
  filter (fun i => duplicate_at lookup labels i <> true)
         (seq 0 (length labels)).

Definition accepted_labels (lookup : gmap LabelType InnerIdType)
    (labels : list LabelType) : list LabelType :=
  omap (fun i => labels !! i) (accepted_indices lookup labels).

Section IdSpace.
Context {Codec Extra : Type}.

(** The label lookup and the label vector describe the same id space: a
    label is looked up to an inner id exactly when that id is below the
    element count and carries the label; the label vector has the
    capacity of the index and room for every element. *)
Definition id_space (h : HGraph Codec Extra) : Prop :=
  length (labels_ h) = Z.to_nat (max_capacity_ h) /\
  (TotalCount (bottom_graph_ h) <= length (labels_ h))%nat /\
  forall l id,
    label_lookup_ h !! l = Some id <->
    (id < TotalCount (bottom_graph_ h))%nat /\ labels_ h !! id = Some l.

(** The id space while the iterations of [build_func] for a batch run in
    whatever order the workers take: [ran] holds the loop indices that
    have run since [h0], whose element count was [cur_count].  Each of
    them has written its label at its own inner id, and nothing else has
    changed. *)
Definition id_space_after (h0 : HGraph Codec Extra) (ids : list LabelType)
    (cur_count : nat) (ran : list nat) (h : HGraph Codec Extra) : Prop :=
  length (labels_ h) = length (labels_ h0) /\
  max_capacity_ h = max_capacity_ h0 /\
  TotalCount (bottom_graph_ h) = (cur_count + length ran)%nat /\
  Forall (fun i => is_Some (ids !! i) /\
                   (i + cur_count < length (labels_ h0))%nat) ran /\
  (forall l id,
     label_lookup_ h !! l = Some id <->
     (exists i, i ∈ ran /\ ids !! i = Some l /\ id = (i + cur_count)%nat) \/
     label_lookup_ h0 !! l = Some id) /\
  (forall id l,
     labels_ h !! id = Some l <->
     (exists i, i ∈ ran /\ ids !! i = Some l /\ id = (i + cur_count)%nat) \/
     ((forall i, i ∈ ran -> id <> (i + cur_count)%nat) /\
      labels_ h0 !! id = Some l)).
End IdSpace.

(** ** Layers *)

Section Layers.
Context {Codec Extra : Type}.
Variable get_random_level : InnerIdType -> nat.

(** Route graph [j] counts the points that drew more than [j]. *)
Definition levels_populated (h : HGraph Codec Extra) : Prop :=
  forall j g,
    route_graphs_ h !! j = Some g ->
    TotalCount g
    = length (filter (fun id => (j < get_random_level id)%nat)
                     (seq 0 (TotalCount (bottom_graph_ h)))).

(** The bookkeeping of the levels, as [Add] keeps it. *)
Definition layered (h : HGraph Codec Extra) : Prop :=
  as_built h /\ tracks_levels get_random_level h /\ levels_populated h.
End Layers.

(** ** Errors that a call reports *)

(** A run that does not end in an [Error] value: it returns, or it ends
    in one of the faults that no [catch] of the index turns into an
    error. *)
Definition unraised {A} (r : outcome A) : Prop :=
  forall e, r <> Fault (Raised e).

(** ** CalculateDistanceById (algorithm/hgraph.cpp, lines 706-725) *)

Section CalculateDistance.
Context {Codec Extra : Type} `{!FlattenInterface Codec}.

(** [flat]: the precise codec when reordering is on. *)
Definition distance_codec (h : HGraph Codec Extra) : option Codec :=
  if use_reorder_ h then high_precise_codes_ h
  else Some (basic_flatten_codes_ h).

Definition CalculateDistanceById (h : HGraph Codec Extra) (vector : list Q)
    (id : LabelType) : outcome Q :=
  flat ← of_option NullPointer (distance_codec h);
  let computer := FactoryComputer flat vector in
  match label_lookup_ h !! id with
  | None => Fault (Raised INVALID_ARGUMENT)
  | Some new_id => Ok (computer new_id)     (* flat->Query(.., &new_id, 1) *)
  end.
End CalculateDistance.

(** A search without a filter and with a beam of one, as the descent
    through the route graphs runs it. *)
Module SampleDescent.
Definition greedy_param : HGraphSearch.InnerSearchParam :=
  {| HGraphSearch.ep_ := 0%nat;
     HGraphSearch.ef_ := 1;
     HGraphSearch.is_id_allowed_ := None;
     HGraphSearch.radius_ := 1%Q |}.
End SampleDescent.

(** * Test fixtures (tests/fixtures/fixtures.cpp) *)

Module Fixtures.

(** What a call of a fixture comes to: it returns, it stops at an
    [assert] that does not hold, [new] throws for a negative length, or
    it leaves defined behaviour. *)
Inductive run (A : Type) :=
| Returns (a : A)
| AssertFailed
| BadArrayNewLength
| Undefined (f : fault).
Arguments Returns {A} a.
Arguments AssertFailed {A}.
Arguments BadArrayNewLength {A}.
Arguments Undefined {A} f.

(** ** The queue of brute_force

    [std::priority_queue<std::pair<float, int64_t>>]: pairs are compared
    by distance, then by id, and the largest is on top.  The queue is
    kept as the list of its elements, largest first. *)
Definition item : Type := Q * Z.

Definition pair_ltb (x y : item) : bool :=
  Qltb x.1 y.1 || (negb (Qltb y.1 x.1) && (x.2 <? y.2)).

Fixpoint emplace (p : item) (h : list item) : list item :=
  match h with
  | [] => [p]
  | y :: h' => if pair_ltb p y then y :: emplace p h' else p :: y :: h'
  end.

Definition top (h : list item) : outcome item :=
  match h with
  | [] => Fault TopOnEmptyHeap
  | x :: _ => Ok x
  end.

Definition pop (h : list item) : outcome (list item) :=
  match h with
  | [] => Fault PopOnEmptyHeap
  | _ :: h' => Ok h'
  end.

(** Distances from the top down do not grow. *)
Fixpoint descending (h : list item) : Prop :=
  match h with
  | [] => True
  | x :: h' => Forall (fun y => (y.1 <= x.1)%Q) h' /\ descending h'
  end.

(** The dataset [brute_force] makes: [NumElements], and the arrays
    behind [Ids] and [Distances] as far as they were written. *)
Record Neighbors := {
  num_elements : Z;
  ids : list Z;
  distances : list Q
}.

Definition wrap32 (z : Z) : Z := z mod 2 ^ 32.

(** The [dim] floats that a distance function reads at [data + offset]. *)
Definition read_floats (data : option (list Q)) (offset dim : Z)
    : outcome (list Q) :=
  if dim =? 0 then Ok []
  else
    v ← of_option NullPointer data;
    if (offset <? 0) || (Z.of_nat (length v) <? offset + dim)
    then Fault OutOfBounds
    else Ok (take (Z.to_nat dim) (drop (Z.to_nat offset) v)).

Section brute_force.
(** Whether the fixtures are compiled with [NDEBUG], which turns
    [assert] into nothing. *)
Variable NDEBUG : bool.
(** [vsag::L2Sqr] on the floats it reads at its two pointers. *)
Variable L2Sqr : list Q -> list Q -> Q.

(** ** brute_force with four arguments (lines 301-338) *)

(** Lines 318-329.  [i] is a [uint32_t]; [fuel] bounds the number of
    iterations. *)
Fixpoint scan (query base : Dataset) (k : Z) (fuel : nat) (i : Z)
    (bf_result : list item) : outcome (list item) :=
  if i <? NumElements base then
    match fuel with
    | O => Fault OutOfFuel
    | S fuel' =>
        let dim := wrap64 (Dim query) in
        q ← read_floats (Float32Vectors query) 0 dim;
        b ← read_floats (Float32Vectors base) (i * Dim base) dim;
        let dist := L2Sqr q b in
        bf_result ←
          (if Z.of_nat (length bf_result) <? wrap64 k then
             id ← of_option OutOfBounds (Ids base !! Z.to_nat i);
             Ok (emplace (dist, id) bf_result)
           else
             t ← top bf_result;
             if Qltb dist t.1 then
               bf_result ← pop bf_result;
               id ← of_option OutOfBounds (Ids base !! Z.to_nat i);
               Ok (emplace (dist, id) bf_result)
             else Ok bf_result);
        scan query base k fuel' (wrap32 (i + 1)) bf_result
    end
  else Ok bf_result.

(** Lines 331-335: [n] iterations remain; the slot written is the one
    before those already written. *)
Fixpoint drain (n : nat) (bf_result : list item) (ids : list Z)
    (dists : list Q) : outcome (list Z * list Q) :=
  match n with
  | O => Ok (ids, dists)
  | S n' =>
      t ← top bf_result;
      bf_result ← pop bf_result;
      drain n' bf_result (t.2 :: ids) (t.1 :: dists)
  end.

Definition brute_force (query base : Dataset) (k : Z)
    (metric_type : string) : run Neighbors :=
  if negb NDEBUG &&
     negb (bool_decide (metric_type = "l2") &&
           (Dim query =? Dim base) && (NumElements query =? 1))
  then AssertFailed
  else if k <? 0 then BadArrayNewLength
  else
    match
      bf_result ← scan query base k (Z.to_nat (NumElements base)) 0 [];
      (* for (int i = k - 1; i >= 0; i--) *)
      drain (Z.to_nat (sint32 (k - 1) + 1)) bf_result [] []
    with
    | Ok (ids, dists) =>
        Returns {| num_elements := k; ids := ids; distances := dists |}
    | Fault f => Undefined f
    end.

(** The base as [brute_force] scores it: the distance of the query to
    every vector, with the id of the vector. *)
Definition vector_at (base : Dataset) (dim : Z) (i : nat) : list Q :=
  take (Z.to_nat dim)
    (drop (Z.to_nat (Z.of_nat i * Dim base))
       (default [] (Float32Vectors base))).

Definition scored_base (query base : Dataset) : list item :=
  let dim := Dim query in
  (fun i => (L2Sqr (take (Z.to_nat dim) (default [] (Float32Vectors query)))
                   (vector_at base dim i),
             default 0 (Ids base !! i)))
    <$> seq 0 (Z.to_nat (NumElements base)).
End brute_force.

(** ** SplitString (lines 378-389) *)

(** [std::getline(ss, token, delimiter)] on the unread part [s] of the
    stream: the characters up to the delimiter, and what is left behind
    it. *)
Fixpoint read_token (delimiter : ascii) (s : list ascii)
    : list ascii * list ascii :=
  match s with
  | [] => ([], [])
  | c :: s' =>
      if Ascii.eqb c delimiter then ([], s')
      else let '(token, rest) := read_token delimiter s' in
           (c :: token, rest)
  end.

(** The stream fails when nothing is left to extract. *)
Definition getline (delimiter : ascii) (s : list ascii)
    : option (list ascii * list ascii) :=
  match s with
  | [] => None
  | _ => Some (read_token delimiter s)
  end.

Fixpoint split_loop (delimiter : ascii) (fuel : nat) (s : list ascii)
    (tokens : list (list ascii)) : outcome (list (list ascii)) :=
  match getline delimiter s with
  | None => Ok tokens
  | Some (token, rest) =>
      match fuel with
      | O => Fault OutOfFuel
      | S fuel' => split_loop delimiter fuel' rest (tokens ++ [token])
      end
  end.

Definition SplitString (s : list ascii) (delimiter : ascii)
    : outcome (list (list ascii)) :=
  split_loop delimiter (length s) s [].

(** The tokens with the delimiter put back between them. *)
Definition join_with (delimiter : ascii) (tokens : list (list ascii))
    : list ascii :=
  match tokens with
  | [] => []
  | t :: ts => t ++ concat ((fun u => delimiter :: u) <$> ts)
  end.

(** A base of four points on a line and a query at 3. *)
Definition line_base : Dataset :=
  {| NumElements := 4;
     Dim := 1;
     Ids := [10; 11; 12; 13];
     Float32Vectors := Some [0%Q; 5%Q; 9%Q; 2%Q];
     ExtraInfos := None |}.

Definition line_query : Dataset :=
  {| NumElements := 1;
     Dim := 1;
     Ids := [];
     Float32Vectors := Some [3%Q];
     ExtraInfos := None |}.

Definition line_L2Sqr (a b : list Q) : Q :=
  let d := (hd 0%Q a - hd 0%Q b)%Q in (d * d)%Q.

End Fixtures.

(** * The recall monitor (tools/eval/monitor/recall_monitor.cpp) *)

Module RecallMonitor.

(** [std::sort] on a vector of distances. *)
Fixpoint insert_sorted (d : Q) (l : list Q) : list Q :=
  match l with
  | [] => [d]
  | x :: l' => if Qle_bool d x then d :: x :: l' else x :: insert_sorted d l'
  end.

Definition sort (l : list Q) : list Q := foldr insert_sorted [] l.

Section get_recall.
(** [threshold + THRESHOLD_ERROR]: the sum of a [float] and the
    [double] 2e-6, rounded to a [double]. *)
Variable add_threshold_error : Q -> Q.

(** Lines 35-39: [n] iterations remain, [i] is the loop index. *)
Fixpoint count_within (bound : Q) (distances : list Q) (n i count : nat)
    : outcome nat :=
  match n with
  | O => Ok count
  | S n' =>
      d ← of_option OutOfBounds (distances !! i);
      count_within bound distances n' (S i)
        (if Qle_bool d bound then S count else count)
  end.

(** Lines 26-41.  The sizes are [size_t]; the quotient is the real
    number that the [double] returned is nearest to. *)
Definition get_recall (distances ground_truth_distances : list Q)
    (recall_num top_k : nat) : outcome Q :=
  if decide (length ground_truth_distances < top_k)%nat
  then Fault OutOfBounds
  else
    let gt_distances := sort (take top_k ground_truth_distances) in
    (* gt_distances[top_k - 1], the index a size_t *)
    threshold ←
      match top_k with
      | O => Fault OutOfBounds
      | S last => of_option OutOfBounds (gt_distances !! last)
      end;
    count ←
      count_within (add_threshold_error threshold) distances recall_num 0 0;
    Ok (inject_Z (Z.of_nat count) / inject_Z (Z.of_nat top_k))%Q.
End get_recall.

(** The number of the first [recall_num] distances within a bound. *)
Definition within (bound : Q) (distances : list Q) (recall_num : nat)
    : nat :=
  length (filter (fun d => Qle_bool d bound = true)
                 (take recall_num distances)).

(** Two ground-truth distances, and the tolerance added exactly. *)
Definition sample_truth : list Q := [1%Q; 4%Q].
Definition sample_add (t : Q) : Q := (t + (2 # 1000000))%Q.

End RecallMonitor.

(** * Properties *)

(** ** Outcomes, integers, distances *)

Lemma bind_Ok_inv {A B} (m : outcome A) (k : A -> outcome B) (b : B) :
  m ≫= k = Ok b -> exists a, m = Ok a /\ k a = Ok b.
Proof. destruct m as [a|f]; simpl; [eauto | discriminate]. Qed.

Lemma round_up_to_multiple_least (x n m : Z) :
  0 <= n -> x <= 2 ^ n * m ->
  x <= round_up_to_multiple x n /\ round_up_to_multiple x n <= 2 ^ n * m.
Proof.
  intros Hn Hm. unfold round_up_to_multiple.
  assert (Hp : 0 < 2 ^ n) by (apply Z.pow_pos_nonneg; lia).
  set (p := 2 ^ n) in *.
  pose proof (Z.div_mod (x + p - 1) p ltac:(lia)) as Hdm.
  pose proof (Z.mod_pos_bound (x + p - 1) p Hp) as Hb.
  split; [lia|].
  assert ((x + p - 1) / p < m + 1); [|nia].
  apply Z.div_lt_upper_bound; lia.
Qed.

Lemma sint32_small (z : Z) : 0 <= z < 2 ^ 31 -> sint32 z = z.
Proof.
  intros H. unfold sint32. rewrite Z.mod_small by lia.
  destruct (z <? 2 ^ 31) eqn:E; [reflexivity | apply Z.ltb_ge in E; lia].
Qed.

Lemma land_not64_ones (a n : Z) :
  0 <= n <= 64 -> 0 <= a < 2 ^ 64 ->
  Z.land a (not64 (2 ^ n - 1)) = 2 ^ n * (a / 2 ^ n).
Proof.
  intros Hn Ha. unfold not64, wrap64.
  rewrite <- Z.land_ones by lia.
  rewrite Z.land_assoc, (Z.land_comm a), <- Z.land_assoc.
  rewrite (Z.land_ones a 64), (Z.mod_small a) by lia.
  rewrite Z.land_comm.
  replace (2 ^ n - 1) with (Z.ones n) by (rewrite Z.ones_equiv; lia).
  rewrite <- Z.ldiff_land, Z.ldiff_ones_r by lia.
  rewrite Z.shiftl_mul_pow2, Z.shiftr_div_pow2 by lia. lia.
Qed.

(** Inside the range where the [int] shift is exact and the sum does not
    wrap, the function rounds up as intended. *)
Lemma next_multiple_of_power_of_two_small (x n : Z) :
  0 <= n <= 30 -> 0 <= x -> x + 2 ^ n - 1 < 2 ^ 64 ->
  next_multiple_of_power_of_two x n = Ok (round_up_to_multiple x n).
Proof.
  intros Hn Hx Hs. unfold next_multiple_of_power_of_two, int_one_shl.
  assert (Hp : 0 < 2 ^ n) by (apply Z.pow_pos_nonneg; lia).
  assert (Hp31 : 2 ^ n < 2 ^ 31) by (apply Z.pow_lt_mono_r; lia).
  destruct (63 <? n) eqn:E1; [apply Z.ltb_lt in E1; lia|].
  destruct (32 <=? n) eqn:E2; [apply Z.leb_le in E2; lia|].
  simpl. rewrite Z.shiftl_1_l, sint32_small by lia.
  assert (Hw : wrap64 (2 ^ n) = 2 ^ n).
  { unfold wrap64. apply Z.mod_small. lia. }
  rewrite Hw. unfold wrap64 at 1. rewrite Z.mod_small by lia.
  rewrite land_not64_ones by lia. reflexivity.
Qed.

Lemma Qltb_lt (a b : Q) : Qltb a b = true <-> (a < b)%Q.
Proof.
  unfold Qltb. rewrite negb_true_iff, <- not_true_iff_false, Qle_bool_iff.
  split; [apply Qnot_le_lt | apply Qlt_not_le].
Qed.

Lemma Qltb_ge (a b : Q) : Qltb a b = false <-> (b <= a)%Q.
Proof. unfold Qltb. rewrite negb_false_iff. apply Qle_bool_iff. Qed.

(** ** Visited lists *)

Lemma vl_Get_fault vl id f : vl_Get vl id = Fault f -> f = OutOfBounds.
Proof. unfold vl_Get. destruct (mass vl !! id); [discriminate|]. congruence. Qed.

Lemma vl_Set_fault vl id f : vl_Set vl id = Fault f -> f = OutOfBounds.
Proof. unfold vl_Set. case_decide; [discriminate|]. congruence. Qed.

Lemma vl_Get_visited vl id b :
  vl_Get vl id = Ok b -> (b = true <-> is_visited vl id).
Proof.
  unfold vl_Get, is_visited. destruct (mass vl !! id) as [t|]; [|discriminate].
  intros [= <-]. rewrite Z.eqb_eq. split; congruence.
Qed.

Lemma vl_Set_visited vl id vl' :
  vl_Set vl id = Ok vl' ->
  is_visited vl' id /\
  (forall j, is_visited vl' j <-> j = id \/ is_visited vl j).
Proof.
  unfold vl_Set, is_visited. case_decide as Hlt; [|discriminate].
  intros [= <-]. simpl. split.
  - by apply list_lookup_insert_eq.
  - intros j. destruct (decide (j = id)) as [->|Hne].
    + rewrite list_lookup_insert_eq by done. tauto.
    + rewrite list_lookup_insert_ne by done. split; [tauto|].
      intros [?|?]; [congruence|done].
Qed.

(** The scan of a neighbour list: what it appends was unvisited before and
    is visited after, without repetition, and nothing else changes. *)
Lemma visit_loop_spec maxdeg neighbors tbv vl tbv' vl' :
  BasicSearcher.visit_loop maxdeg neighbors tbv vl = Ok (tbv', vl') ->
  exists new,
    tbv' = tbv ++ new /\ NoDup new /\
    (forall x, x ∈ new -> ~ is_visited vl x) /\
    (forall j, is_visited vl' j <-> is_visited vl j \/ j ∈ new).
Proof.
  revert tbv vl. induction neighbors as [|n ns IH]; intros tbv vl; simpl.
  - intros [= <- <-]. exists []. rewrite app_nil_r.
    split_and!; [done|constructor|by intros x ?%elem_of_nil|].
    intros j. rewrite elem_of_nil. tauto.
  - destruct (vl_Get vl n) as [seen|] eqn:Hget; [|discriminate]. simpl.
    apply vl_Get_visited in Hget. destruct seen.
    + apply IH.
    + assert (Hn : ~ is_visited vl n) by (intros Hv; apply Hget in Hv; done).
      case_decide; [|discriminate].
      destruct (vl_Set vl n) as [vl1|] eqn:Hset; [|discriminate]. simpl.
      apply vl_Set_visited in Hset as [Hin Hiff].
      intros Hrec. apply IH in Hrec as (new & -> & Hnd & Hun & Hvis).
      exists (n :: new). split_and!.
      * by rewrite <- app_assoc.
      * constructor; [|done]. intros Hin'. apply Hun in Hin'.
        apply Hin'. done.
      * intros x [->|Hx]%elem_of_cons; [done|].
        intros Hv. apply (Hun x Hx). apply Hiff. by right.
      * intros j. rewrite Hvis, Hiff, elem_of_cons. tauto.
Qed.

Lemma collect_unvisited_visit_loop g neighbors tbv vl :
  HGraphSearch.collect_unvisited g neighbors tbv vl =
  BasicSearcher.visit_loop (MaximumDegree g) neighbors tbv vl.
Proof.
  revert tbv vl. induction neighbors as [|n ns IH]; intros; simpl; [done|].
  destruct (vl_Get vl n) as [[]|]; simpl; [done| |done].
  case_decide; [|done]. destruct (vl_Set vl n); simpl; done.
Qed.

Lemma queried_once_app vl vl' new log :
  NoDup new ->
  (forall x, x ∈ new -> ~ is_visited vl x) ->
  (forall j, is_visited vl' j <-> is_visited vl j \/ j ∈ new) ->
  queried_once vl' log -> queried_once vl (new ++ log).
Proof.
  intros Hnd Hun Hvis [Hnd' Hun']. split.
  - apply NoDup_app. split_and!; [done| |done].
    intros x Hx Hx'. apply (Hun' x Hx'). apply Hvis. by right.
  - intros x [Hx|Hx]%elem_of_app; [by apply Hun|].
    intros Hv. apply (Hun' x Hx). apply Hvis. by left.
Qed.

Lemma HGraphSearch_search_loop_once mode computer get_label g param fuel :
  forall cand res lb vl,
    queried_once vl
      (HGraphSearch.search_loop mode computer get_label g param fuel
         cand res lb vl).1.
Proof.
  induction fuel as [|fuel IH]; intros cand res lb vl;
    destruct cand as [|c cand]; simpl;
    try (split; [constructor | set_solver]).
  - destruct (_ && _ && _); split; simpl; (constructor || set_solver).
  - destruct (_ && _ && _); [split; simpl; (constructor || set_solver)|].
    rewrite collect_unvisited_visit_loop.
    destruct (BasicSearcher.visit_loop _ _ _ _) as [[tbv vl']|] eqn:Hv;
      [|split; simpl; (constructor || set_solver)].
    apply visit_loop_spec in Hv as (new & -> & Hnd & Hun & Hvis). simpl.
    destruct (HGraphSearch.relax _ _ _ _ _ _ _ _) as [[[cand' res'] lb']|];
      simpl.
    + specialize (IH cand' res' lb' vl').
      destruct (HGraphSearch.search_loop _ _ _ _ _ _ _ _ _ _) as [log r].
      simpl in *. by eapply queried_once_app.
    + split; [done|done].
Qed.

Lemma HGraphSearch_search_init_visited mode computer get_label param vl
    cand res lb vl' :
  HGraphSearch.search_init mode computer get_label param vl
    = Ok (cand, res, lb, vl') ->
  is_visited vl' (HGraphSearch.ep_ param).
Proof.
  unfold HGraphSearch.search_init.
  destruct (HGraphSearch.id_allowed _ _ _) as [ok|]; [simpl|discriminate].
  destruct (if _ && _ then _ else _) as [res0|]; [simpl|discriminate].
  destruct (vl_Set vl _) as [vl1|] eqn:Hset; [simpl|discriminate].
  intros [= _ _ _ <-]. by apply vl_Set_visited in Hset as [? _].
Qed.

Lemma HGraphSearch_search_one_graph_once mode computer get_label g param vl :
  NoDup (HGraphSearch.search_one_graph mode computer get_label g param vl).1.
Proof.
  unfold HGraphSearch.search_one_graph.
  destruct (HGraphSearch.search_init _ _ _ _ _) as [[[[cand res] lb] vl']|]
    eqn:Hinit; [|simpl; apply NoDup_singleton].
  apply HGraphSearch_search_init_visited in Hinit.
  pose proof (HGraphSearch_search_loop_once mode computer get_label g param
                (length (mass vl)) cand res lb vl') as [Hnd Hun].
  destruct (HGraphSearch.search_loop _ _ _ _ _ _ _ _ _ _) as [log r].
  simpl in *. constructor; [|done]. intros Hin. by apply Hun in Hin.
Qed.

Lemma BasicSearcher_search_loop_once prefetch mode param g computer fuel :
  forall cand res lb vl,
    queried_once vl
      (BasicSearcher.search_loop prefetch mode param g computer fuel
         cand res lb vl).1.
Proof.
  induction fuel as [|fuel IH]; intros cand res lb vl;
    destruct cand as [|c cand]; simpl;
    try (split; [constructor | set_solver]).
  - destruct (_ && _ && _); split; simpl; (constructor || set_solver).
  - destruct (_ && _ && _); [split; simpl; (constructor || set_solver)|].
    unfold BasicSearcher.visit. case_decide;
      [split; simpl; (constructor || set_solver)|].
    destruct (BasicSearcher.visit_loop _ _ _ _) as [[tbv vl']|] eqn:Hv;
      [|split; simpl; (constructor || set_solver)].
    apply visit_loop_spec in Hv as (new & -> & Hnd & Hun & Hvis). simpl.
    destruct (BasicSearcher.relax _ _ _ _ _ _ _) as [[[cand' res'] lb']|];
      simpl.
    + specialize (IH cand' res' lb' vl').
      destruct (BasicSearcher.search_loop _ _ _ _ _ _ _ _ _ _) as [log r].
      simpl in *. by eapply queried_once_app.
    + split; [done|done].
Qed.

Lemma BasicSearcher_search_impl_once prefetch mode g flatten param vl :
  NoDup (BasicSearcher.search_impl prefetch mode g flatten param vl).1.
Proof.
  unfold BasicSearcher.search_impl.
  destruct g as [g|]; [|apply NoDup_nil_2].
  destruct flatten as [computer|]; [|apply NoDup_nil_2].
  destruct (BasicSearcher.search_init _ _ _ _) as [[[[cand res] lb] vl']|]
    eqn:Hinit; [|simpl; apply NoDup_singleton].
  assert (Hv : is_visited vl' (BasicSearcher.ep param)).
  { revert Hinit. unfold BasicSearcher.search_init.
    destruct (if _ && _ && _ then _ else _) as [res0|]; [simpl|discriminate].
    destruct (vl_Set vl _) as [vl1|] eqn:Hset; [simpl|discriminate].
    intros [= _ _ _ <-]. by apply vl_Set_visited in Hset as [? _]. }
  pose proof (BasicSearcher_search_loop_once prefetch mode param g computer
                (length (mass vl)) cand res lb vl') as [Hnd Hun].
  destruct (BasicSearcher.search_loop _ _ _ _ _ _ _ _ _ _) as [log r].
  simpl in *. constructor; [|done]. intros Hin. by apply Hun in Hin.
Qed.

(** ** Heaps *)

Lemma Forall_emplace (P : Heap.item -> Prop) d id h :
  Forall P (Heap.emplace d id h) <-> P (d, id) /\ Forall P h.
Proof.
  induction h as [|y h IH]; simpl.
  - rewrite Forall_singleton, Forall_nil. tauto.
  - destruct (Qle_bool y.1 d).
    + rewrite !Forall_cons. tauto.
    + rewrite !Forall_cons, IH. tauto.
Qed.

Lemma emplace_descending d id h :
  Heap.descending h -> Heap.descending (Heap.emplace d id h).
Proof.
  induction h as [|y h IH]; simpl; [intros; split; [constructor|done]|].
  intros [Hall Hdesc]. destruct (Qle_bool y.1 d) eqn:E.
  - apply Qle_bool_iff in E. simpl. split_and!; [|done|done].
    constructor; [done|]. eapply Forall_impl; [exact Hall|].
    intros z Hz. simpl in *. by eapply Qle_trans.
  - simpl. split; [|by apply IH]. apply Forall_emplace. split; [|done].
    simpl. apply Qlt_le_weak, Qltb_lt. unfold Qltb. by rewrite E.
Qed.

Lemma pop_descending h h' :
  Heap.pop h = Ok h' -> Heap.descending h -> Heap.descending h'.
Proof. destruct h; [discriminate|]. intros [= <-] [_ ?]. done. Qed.

Lemma length_emplace d id h : length (Heap.emplace d id h) = S (length h).
Proof.
  induction h as [|y h IH]; simpl; [done|].
  destruct (Qle_bool y.1 d); simpl; by rewrite ?IH.
Qed.

Lemma pop_while_larger_descending k h :
  Heap.descending h -> Heap.descending (pop_while_larger k h).
Proof.
  induction h as [|x h IH]; [done|]. intros Hd. simpl.
  destruct (k <? Heap.size (x :: h)); [|done]. apply IH. by destruct Hd.
Qed.

Lemma pop_while_beyond_within bound h :
  Heap.descending h ->
  Forall (fun x : Heap.item => (x.1 <= bound)%Q) (pop_while_beyond bound h).
Proof.
  induction h as [|x h IH]; [constructor|]. intros [Hall Hd]. simpl.
  destruct (Qltb bound x.1) eqn:E; [by apply IH|].
  apply Qltb_ge in E. constructor; [done|].
  eapply Forall_impl; [exact Hall|]. intros z Hz. simpl in *.
  by eapply Qle_trans.
Qed.

(** ** The stand-alone searcher keeps its promises *)

Lemma BasicSearcher_relax_descending mode param computer tbv :
  forall cand res lb cand' res' lb',
    BasicSearcher.relax mode param computer tbv cand res lb
      = Ok (cand', res', lb') ->
    Heap.descending res -> Heap.descending res'.
Proof.
  induction tbv as [|id tbv IH]; intros cand res lb cand' res' lb'; simpl.
  - intros [= _ <- _]. done.
  - destruct (_ || _ || _); [|apply IH].
    set (res1 := if BasicSearcher.id_allowed param id then _ else _).
    destruct (if _ && _ then _ else _) as [res2|] eqn:Hpop;
      [simpl|discriminate].
    intros Hrec Hd. eapply IH; [exact Hrec|].
    assert (Hd1 : Heap.descending res1).
    { subst res1. destruct (BasicSearcher.id_allowed param id); [|done].
      by apply emplace_descending. }
    destruct (_ && _); [by eapply pop_descending|]. by injection Hpop as <-.
Qed.

Lemma BasicSearcher_search_loop_descending prefetch mode param g computer fuel :
  forall cand res lb vl res',
    (BasicSearcher.search_loop prefetch mode param g computer fuel
       cand res lb vl).2 = Ok res' ->
    Heap.descending res -> Heap.descending res'.
Proof.
  induction fuel as [|fuel IH]; intros cand res lb vl res';
    destruct cand as [|c cand]; simpl.
  - by intros [= <-].
  - destruct (_ && _ && _); simpl; [by intros [= <-]|discriminate].
  - by intros [= <-].
  - destruct (_ && _ && _); simpl; [by intros [= <-]|].
    destruct (BasicSearcher.visit _ _ _ _) as [[tbv vl']|]; [|discriminate].
    destruct (BasicSearcher.relax _ _ _ _ _ _ _) as [[[cand' res1] lb']|]
      eqn:Hrelax; [|discriminate].
    specialize (IH cand' res1 lb' vl' res').
    destruct (BasicSearcher.search_loop _ _ _ _ _ _ _ _ _ _) as [log r].
    simpl in *. intros Hr Hd. apply IH; [done|].
    by eapply BasicSearcher_relax_descending.
Qed.

(** The range filter of basic_searcher.cpp, lines 169-172, does what
    section 8 asks of a range search. *)
Lemma BasicSearcher_range_within_radius prefetch g flatten param vl res :
  (BasicSearcher.search_impl prefetch RANGE_SEARCH_MODE g flatten param vl).2
    = Ok res ->
  Forall (fun x : Heap.item =>
            (x.1 <= BasicSearcher.radius param + THRESHOLD_ERROR)%Q) res.
Proof.
  unfold BasicSearcher.search_impl.
  destruct g as [g|]; [|by intros [= <-]].
  destruct flatten as [computer|]; [|by intros [= <-]].
  destruct (BasicSearcher.search_init _ _ _ _) as [[[[cand res0] lb] vl']|]
    eqn:Hinit; [|discriminate].
  assert (Hd0 : Heap.descending res0).
  { revert Hinit. unfold BasicSearcher.search_init.
    destruct (vl_Set vl (BasicSearcher.ep param));
      destruct (BasicSearcher.id_allowed param (BasicSearcher.ep param));
      simpl; try destruct (Qltb _ _); simpl; try discriminate;
      intros [= _ <- _ _]; simpl; auto using Forall_nil. }
  pose proof (BasicSearcher_search_loop_descending prefetch RANGE_SEARCH_MODE
                param g computer (length (mass vl)) cand res0 lb vl') as Hloop.
  destruct (BasicSearcher.search_loop _ _ _ _ _ _ _ _ _ _) as [log [r|]];
    [|discriminate].
  simpl in *. intros [= <-]. unfold BasicSearcher.post_process.
  apply pop_while_beyond_within.
  destruct (0 <? _); [apply pop_while_larger_descending|]; by apply Hloop.
Qed.

Lemma wrap64_nonneg z : 0 <= wrap64 z.
Proof. unfold wrap64. apply Z.mod_pos_bound. lia. Qed.

Lemma pop_nonempty (h : MaxHeap) k :
  0 <= k -> (k <? Heap.size h) = true -> Heap.pop h <> Fault PopOnEmptyHeap.
Proof.
  intros Hk Hlt. apply Z.ltb_lt in Hlt. destruct h; [|discriminate].
  unfold Heap.size in Hlt. simpl in Hlt. lia.
Qed.

Lemma BasicSearcher_relax_never_pops_empty mode param computer tbv :
  forall cand res lb,
    BasicSearcher.relax mode param computer tbv cand res lb
      <> Fault PopOnEmptyHeap.
Proof.
  induction tbv as [|id tbv IH]; intros cand res lb; simpl; [discriminate|].
  destruct (_ || _ || _); [|apply IH].
  set (res1 := if BasicSearcher.id_allowed param id then _ else _).
  destruct (is_knn mode && _) eqn:E; simpl.
  - apply andb_true_iff in E as [_ E].
    pose proof (pop_nonempty res1 _ (wrap64_nonneg _) E) as Hpop.
    destruct (Heap.pop res1) as [res2|f]; simpl; [apply IH|congruence].
  - apply IH.
Qed.

Lemma BasicSearcher_visit_never_pops_empty prefetch g vl c :
  BasicSearcher.visit prefetch g vl c <> Fault PopOnEmptyHeap.
Proof.
  unfold BasicSearcher.visit. case_decide as Hlen; [discriminate|].
  clear Hlen. generalize (@nil InnerIdType). generalize vl.
  induction (GetNeighbors g c.2) as [|n ns IH]; intros vl0 tbv; simpl;
    [discriminate|].
  destruct (vl_Get vl0 n) as [[]|f] eqn:Hget; cbn [mbind outcome_bind];
    [apply IH| |].
  - case_decide; [|discriminate].
    destruct (vl_Set vl0 n) as [vl1|f] eqn:Hset; simpl; [apply IH|].
    apply vl_Set_fault in Hset as ->. discriminate.
  - apply vl_Get_fault in Hget as ->. discriminate.
Qed.

(** The guard of basic_searcher.cpp, line 108, and the size tests before
    every other pop: the stand-alone searcher never pops an empty heap. *)
Lemma BasicSearcher_never_pops_empty prefetch mode g flatten param vl :
  (BasicSearcher.search_impl prefetch mode g flatten param vl).2
    <> Fault PopOnEmptyHeap.
Proof.
  unfold BasicSearcher.search_impl.
  destruct g as [g|]; [|discriminate].
  destruct flatten as [computer|]; [|discriminate].
  destruct (BasicSearcher.search_init _ _ _ _) as [[[[cand res] lb] vl']|f]
    eqn:Hinit.
  - assert (Hloop : forall fuel cand res lb vl,
        (BasicSearcher.search_loop prefetch mode param g computer fuel
           cand res lb vl).2 <> Fault PopOnEmptyHeap).
    { clear. induction fuel as [|fuel IH]; intros [|c cand] res lb vl; simpl;
        try discriminate.
      - destruct (_ && _ && _); discriminate.
      - destruct (_ && _ && _); [discriminate|].
        pose proof (BasicSearcher_visit_never_pops_empty prefetch g vl c).
        destruct (BasicSearcher.visit _ _ _ _) as [[tbv vl']|f];
          [|simpl; congruence].
        pose proof (BasicSearcher_relax_never_pops_empty mode param computer
                      tbv cand res lb).
        destruct (BasicSearcher.relax _ _ _ _ _ _ _) as [[[cand' res'] lb']|];
          [|simpl; congruence].
        specialize (IH cand' res' lb' vl').
        destruct (BasicSearcher.search_loop _ _ _ _ _ _ _ _ _ _). done. }
    specialize (Hloop (length (mass vl)) cand res lb vl').
    destruct (BasicSearcher.search_loop _ _ _ _ _ _ _ _ _ _) as [log [r|f]];
      simpl in *; [discriminate|congruence].
  - simpl. revert Hinit. unfold BasicSearcher.search_init.
    destruct (vl_Set vl (BasicSearcher.ep param)) eqn:Hset;
      destruct (BasicSearcher.id_allowed param (BasicSearcher.ep param));
      simpl; try destruct (Qltb _ _); destruct (is_range mode); simpl;
      try discriminate;
      apply vl_Set_fault in Hset as ->; intros [= <-]; discriminate.
Qed.

(** ** The searcher of the index pops without looking *)

Lemma HGraphSearch_pop_on_empty computer get_label graph param vl f l :
  HGraphSearch.is_id_allowed_ param = Some f ->
  get_label (HGraphSearch.ep_ param) = Some l ->
  f l = false ->
  (HGraphSearch.radius_ param < computer (HGraphSearch.ep_ param))%Q ->
  HGraphSearch.search_one_graph RANGE_SEARCH_MODE computer get_label graph
    param vl = ([HGraphSearch.ep_ param], Fault PopOnEmptyHeap).
Proof.
  intros Hf Hl Hrej Hfar. apply Qltb_lt in Hfar.
  unfold HGraphSearch.search_one_graph, HGraphSearch.search_init,
    HGraphSearch.id_allowed.
  rewrite Hf, Hl. simpl. rewrite Hrej, Hfar. reflexivity.
Qed.

(** ** The loop bound of the model is never reached *)

Lemma length_filter_tag (c : Z) (l : list Z) (i : nat) (t : Z) :
  l !! i = Some t ->
  (length (filter (fun t => t <> c) (<[i := c]> l))
   + (if decide (t = c) then 0 else 1)
   = length (filter (fun t => t <> c) l))%nat.
Proof.
  revert i. induction l as [|y l IH]; intros [|i]; simpl; try discriminate.
  - intros [= ->]. rewrite (filter_cons_False _ c) by tauto.
    rewrite filter_cons. destruct (decide (t = c)), (decide (t <> c));
      simpl; try tauto; lia.
  - intros Hl. specialize (IH i Hl).
    rewrite !filter_cons. destruct (decide (y <> c)); simpl; lia.
Qed.

Lemma vl_Set_count vl id vl' :
  vl_Set vl id = Ok vl' ->
  length (mass vl') = length (mass vl) /\
  (unvisited_count vl' < length (mass vl'))%nat /\
  (~ is_visited vl id -> unvisited_count vl = S (unvisited_count vl')).
Proof.
  unfold vl_Set, unvisited_count, is_visited, InnerIdType in *.
  case_decide as Hlt; [|discriminate].
  intros [= <-]. simpl. rewrite length_insert.
  destruct (lookup_lt_is_Some_2 _ _ Hlt) as [t Ht].
  pose proof (length_filter_tag (curV vl) (mass vl) id t Ht) as Hc.
  pose proof (length_filter (fun t => t <> curV vl) (mass vl)) as Hle.
  assert (Hset : <[id := curV vl]> (mass vl) !! id = Some (curV vl))
    by (by apply list_lookup_insert_eq).
  pose proof (length_filter_tag (curV vl) _ id _ Hset) as Hc'.
  rewrite list_insert_insert_eq in Hc'.
  pose proof (length_filter (fun t => t <> curV vl)
                (<[id := curV vl]> (mass vl))) as Hle'.
  rewrite length_insert in Hle'.
  split_and!; [done| |].
  - destruct (decide (t = curV vl)) as [->|]; [|lia].
    rewrite list_insert_id in * by done.
    clear Hc Hc' Hle Hle' Hset. revert id Ht Hlt.
    induction (mass vl) as [|y l IH]; intros [|i]; simpl; try discriminate.
    + intros [= ->] _. rewrite filter_cons_False by tauto.
      pose proof (length_filter (fun t => t <> curV vl) l). lia.
    + intros Hl Hi. specialize (IH i Hl ltac:(lia)).
      rewrite filter_cons. destruct (decide _); simpl; lia.
  - intros Hnv. destruct (decide (t = curV vl)) as [->|]; [|lia].
    by rewrite Ht in Hnv.
Qed.

Lemma visit_loop_count maxdeg neighbors tbv vl tbv' vl' :
  BasicSearcher.visit_loop maxdeg neighbors tbv vl = Ok (tbv', vl') ->
  length (mass vl') = length (mass vl) /\
  (length tbv' + unvisited_count vl' = length tbv + unvisited_count vl)%nat.
Proof.
  revert tbv vl. induction neighbors as [|n ns IH]; intros tbv vl; simpl.
  - by intros [= <- <-].
  - destruct (vl_Get vl n) as [seen|] eqn:Hget; [|discriminate].
    cbn [mbind outcome_bind].
    apply vl_Get_visited in Hget. destruct seen; [apply IH|].
    case_decide; [|discriminate].
    destruct (vl_Set vl n) as [vl1|] eqn:Hset; [|discriminate].
    cbn [mbind outcome_bind].
    apply vl_Set_count in Hset as (Hlen & _ & Hcnt).
    intros Hrec. apply IH in Hrec as [Hlen' Hsum].
    rewrite length_app in Hsum. simpl in Hsum.
    rewrite Hcnt by (intros Hv; apply Hget in Hv; done). split; [congruence|lia].
Qed.

Lemma HGraphSearch_relax_length mode computer get_label param tbv :
  forall cand res lb cand' res' lb',
    HGraphSearch.relax mode computer get_label param tbv cand res lb
      = Ok (cand', res', lb') ->
    (length cand' <= length cand + length tbv)%nat.
Proof.
  induction tbv as [|id tbv IH]; intros cand res lb cand' res' lb'; simpl.
  - intros [= <- _ _]. lia.
  - destruct (_ || _ || _).
    + destruct (HGraphSearch.id_allowed _ _ _) as [ok|]; [|discriminate].
      cbn [mbind outcome_bind].
      destruct (if _ && _ then _ else _) as [res2|]; [|discriminate].
      cbn [mbind outcome_bind].
      intros Hrec. apply IH in Hrec. rewrite length_emplace in Hrec. lia.
    + intros Hrec. apply IH in Hrec. lia.
Qed.

Lemma BasicSearcher_relax_length mode param computer tbv :
  forall cand res lb cand' res' lb',
    BasicSearcher.relax mode param computer tbv cand res lb
      = Ok (cand', res', lb') ->
    (length cand' <= length cand + length tbv)%nat.
Proof.
  induction tbv as [|id tbv IH]; intros cand res lb cand' res' lb'; simpl.
  - intros [= <- _ _]. lia.
  - destruct (_ || _ || _).
    + destruct (if _ && _ then _ else _) as [res2|]; [|discriminate].
      cbn [mbind outcome_bind].
      intros Hrec. apply IH in Hrec. rewrite length_emplace in Hrec. lia.
    + intros Hrec. apply IH in Hrec. lia.
Qed.

Lemma pop_fault (h : MaxHeap) f : Heap.pop h = Fault f -> f = PopOnEmptyHeap.
Proof. destruct h; [|discriminate]. by intros [= <-]. Qed.

Lemma visit_loop_fault maxdeg neighbors tbv vl f :
  BasicSearcher.visit_loop maxdeg neighbors tbv vl = Fault f -> f = OutOfBounds.
Proof.
  revert tbv vl. induction neighbors as [|n ns IH]; intros tbv vl; simpl;
    [discriminate|].
  destruct (vl_Get vl n) as [[]|f0] eqn:Hget; cbn [mbind outcome_bind];
    [apply IH| |].
  - case_decide; [|by intros [= <-]].
    destruct (vl_Set vl n) as [vl1|f1] eqn:Hset; cbn [mbind outcome_bind];
      [apply IH|].
    intros [= <-]. by apply vl_Set_fault in Hset.
  - intros [= <-]. by apply vl_Get_fault in Hget.
Qed.

Lemma HGraphSearch_relax_fault mode computer get_label param tbv f :
  forall cand res lb,
    HGraphSearch.relax mode computer get_label param tbv cand res lb = Fault f ->
    f = OutOfBounds \/ f = PopOnEmptyHeap.
Proof.
  induction tbv as [|id tbv IH]; intros cand res lb; simpl; [discriminate|].
  destruct (_ || _ || _); [|apply IH].
  destruct (HGraphSearch.id_allowed _ _ _) as [ok|f0] eqn:Ha;
    cbn [mbind outcome_bind].
  - destruct (if _ && _ then _ else _) as [res2|f1] eqn:Hp;
      cbn [mbind outcome_bind]; [apply IH|].
    intros [= <-]. right. destruct (_ && _); [|discriminate].
    by apply pop_fault in Hp.
  - intros [= <-]. left. revert Ha. unfold HGraphSearch.id_allowed.
    destruct (HGraphSearch.is_id_allowed_ param); [|discriminate].
    destruct (get_label id); simpl; [discriminate|]. by intros [= <-].
Qed.

Lemma BasicSearcher_relax_fault mode param computer tbv f :
  forall cand res lb,
    BasicSearcher.relax mode param computer tbv cand res lb = Fault f ->
    f = PopOnEmptyHeap.
Proof.
  induction tbv as [|id tbv IH]; intros cand res lb; simpl; [discriminate|].
  destruct (_ || _ || _); [|apply IH].
  destruct (if _ && _ then _ else _) as [res2|f1] eqn:Hp;
    cbn [mbind outcome_bind]; [apply IH|].
  intros [= <-]. destruct (_ && _); [|discriminate]. by apply pop_fault in Hp.
Qed.

Lemma HGraphSearch_search_loop_fuel mode computer get_label g param fuel :
  forall cand res lb vl,
    (length cand + unvisited_count vl <= fuel)%nat ->
    (HGraphSearch.search_loop mode computer get_label g param fuel
       cand res lb vl).2 <> Fault OutOfFuel.
Proof.
  induction fuel as [|fuel IH]; intros [|c cand] res lb vl Hm; simpl in *;
    try discriminate; try lia.
  destruct (_ && _ && _); [discriminate|].
  rewrite collect_unvisited_visit_loop.
  destruct (BasicSearcher.visit_loop _ _ _ _) as [[tbv vl']|f] eqn:Hv.
  - apply visit_loop_count in Hv as [_ Hsum]. simpl in Hsum.
    destruct (HGraphSearch.relax _ _ _ _ _ _ _ _) as [[[cand' res'] lb']|f]
      eqn:Hrelax.
    + apply HGraphSearch_relax_length in Hrelax.
      specialize (IH cand' res' lb' vl' ltac:(lia)).
      by destruct (HGraphSearch.search_loop _ _ _ _ _ _ _ _ _ _).
    + simpl. intros [= ->]. by apply HGraphSearch_relax_fault in Hrelax as [|].
  - simpl. intros [= ->]. by apply visit_loop_fault in Hv.
Qed.

Lemma BasicSearcher_search_loop_fuel prefetch mode param g computer fuel :
  forall cand res lb vl,
    (length cand + unvisited_count vl <= fuel)%nat ->
    (BasicSearcher.search_loop prefetch mode param g computer fuel
       cand res lb vl).2 <> Fault OutOfFuel.
Proof.
  induction fuel as [|fuel IH]; intros [|c cand] res lb vl Hm; simpl in *;
    try discriminate; try lia.
  destruct (_ && _ && _); [discriminate|].
  unfold BasicSearcher.visit. case_decide; [discriminate|].
  destruct (BasicSearcher.visit_loop _ _ _ _) as [[tbv vl']|f] eqn:Hv.
  - apply visit_loop_count in Hv as [_ Hsum]. simpl in Hsum.
    destruct (BasicSearcher.relax _ _ _ _ _ _ _) as [[[cand' res'] lb']|f]
      eqn:Hrelax.
    + apply BasicSearcher_relax_length in Hrelax.
      specialize (IH cand' res' lb' vl' ltac:(lia)).
      by destruct (BasicSearcher.search_loop _ _ _ _ _ _ _ _ _ _).
    + simpl. intros [= ->]. by apply BasicSearcher_relax_fault in Hrelax.
  - simpl. intros [= ->]. by apply visit_loop_fault in Hv.
Qed.

(** Both searchers come to an end within the bound the model gives them:
    the number of cells of the visited list. *)
Lemma HGraphSearch_terminates mode computer get_label g param vl :
  (HGraphSearch.search_one_graph mode computer get_label g param vl).2
    <> Fault OutOfFuel.
Proof.
  unfold HGraphSearch.search_one_graph.
  destruct (HGraphSearch.search_init _ _ _ _ _) as [[[[cand res] lb] vl']|f]
    eqn:Hinit.
  - revert Hinit. unfold HGraphSearch.search_init.
    destruct (HGraphSearch.id_allowed _ _ _) as [ok|]; [|discriminate].
    cbn [mbind outcome_bind].
    destruct (if _ && _ then _ else _) as [res0|]; [|discriminate].
    cbn [mbind outcome_bind].
    destruct (vl_Set vl _) as [vl1|] eqn:Hset; [|discriminate].
    cbn [mbind outcome_bind]. intros [= <- <- <- <-].
    apply vl_Set_count in Hset as (Hlen & Hlt & _).
    pose proof (HGraphSearch_search_loop_fuel mode computer get_label g param
                  (length (mass vl))
                  (Heap.emplace (- computer (HGraphSearch.ep_ param))
                     (HGraphSearch.ep_ param) []) res0
                  (if ok then computer (HGraphSearch.ep_ param) else FLT_MAX)
                  vl1) as Hfuel.
    destruct (HGraphSearch.search_loop _ _ _ _ _ _ _ _ _ _) as [log r].
    simpl in *. apply Hfuel. lia.
  - simpl. intros [= ->]. revert Hinit. unfold HGraphSearch.search_init.
    destruct (HGraphSearch.id_allowed _ _ _) as [ok|f0] eqn:Ha;
      cbn [mbind outcome_bind].
    + destruct (if _ && _ then _ else _) as [res0|f1] eqn:Hp;
        cbn [mbind outcome_bind].
      * destruct (vl_Set vl _) as [vl1|f2] eqn:Hset; [discriminate|].
        cbn [mbind outcome_bind]. intros [= ->].
        by apply vl_Set_fault in Hset.
      * intros [= ->]. destruct (_ && _); [|discriminate].
        by apply pop_fault in Hp.
    + intros [= ->]. revert Ha. unfold HGraphSearch.id_allowed.
      destruct (HGraphSearch.is_id_allowed_ param); [|discriminate].
      destruct (get_label _); simpl; discriminate.
Qed.

Lemma BasicSearcher_terminates prefetch mode g flatten param vl :
  (BasicSearcher.search_impl prefetch mode g flatten param vl).2
    <> Fault OutOfFuel.
Proof.
  unfold BasicSearcher.search_impl.
  destruct g as [g|]; [|discriminate].
  destruct flatten as [computer|]; [|discriminate].
  destruct (BasicSearcher.search_init _ _ _ _) as [[[[cand res] lb] vl']|f]
    eqn:Hinit.
  - revert Hinit. unfold BasicSearcher.search_init.
    destruct (if _ && _ && _ then _ else _) as [res0|]; [|discriminate].
    cbn [mbind outcome_bind].
    destruct (vl_Set vl _) as [vl1|] eqn:Hset; [|discriminate].
    cbn [mbind outcome_bind]. intros [= <- <- <- <-].
    apply vl_Set_count in Hset as (Hlen & Hlt & _).
    pose proof (BasicSearcher_search_loop_fuel prefetch mode param g computer
                  (length (mass vl))
                  (Heap.emplace (- computer (BasicSearcher.ep param))
                     (BasicSearcher.ep param) []) res0
                  (if BasicSearcher.id_allowed param (BasicSearcher.ep param)
                   then computer (BasicSearcher.ep param) else FLT_MAX)
                  vl1) as Hfuel.
    destruct (BasicSearcher.search_loop _ _ _ _ _ _ _ _ _ _) as [log [r|f]];
      simpl in *; [discriminate|].
    apply Hfuel. lia.
  - simpl. intros [= ->]. revert Hinit. unfold BasicSearcher.search_init.
    destruct (if _ && _ && _ then _ else _) as [res0|f1] eqn:Hp;
      cbn [mbind outcome_bind].
    + destruct (vl_Set vl _) as [vl1|f2] eqn:Hset; [discriminate|].
      cbn [mbind outcome_bind]. intros [= ->]. by apply vl_Set_fault in Hset.
    + intros [= ->]. destruct (_ && _ && _); [|discriminate].
      by apply pop_fault in Hp.
Qed.

(** ** Claims about the searchers *)

(** C9 (visited-once).  In one call of a searcher, whatever the graph, the
    entry point, the beam width, the mode, the filter and the state of the
    visited list, no inner id is handed to [Codec.Query] twice; and the
    call comes to an end, so the log is that of the whole call.  This holds
    for the searcher of the index and for the stand-alone one. *)
Theorem Codec_Query_at_most_once_per_id :
  (forall mode computer get_label_by_id graph param vl,
     let run := HGraphSearch.search_one_graph mode computer get_label_by_id
                  graph param vl in
     NoDup run.1 /\ run.2 <> Fault OutOfFuel) /\
  (forall prefetch mode graph flatten param vl,
     let run := BasicSearcher.search_impl prefetch mode graph flatten
                  param vl in
     NoDup run.1 /\ run.2 <> Fault OutOfFuel).
Proof.
  split; intros; subst run; split.
  - apply HGraphSearch_search_one_graph_once.
  - apply HGraphSearch_terminates.
  - apply BasicSearcher_search_impl_once.
  - apply BasicSearcher_terminates.
Qed.

(** C4 (the first pop in RANGE mode), at the failing inputs.  When the
    filter rejects the entry point, nothing has been pushed; if the entry
    point is also farther than the radius, [search_one_graph] pops the
    empty heap (hgraph.cpp, lines 394-398).  The stand-alone searcher tests
    for emptiness first, see [BasicSearcher_never_pops_empty]. *)
Theorem search_one_graph_pops_empty_heap computer get_label_by_id graph
    param vl f l :
  HGraphSearch.is_id_allowed_ param = Some f ->
  get_label_by_id (HGraphSearch.ep_ param) = Some l ->
  f l = false ->
  (HGraphSearch.radius_ param < computer (HGraphSearch.ep_ param))%Q ->
  HGraphSearch.search_one_graph RANGE_SEARCH_MODE computer get_label_by_id
    graph param vl = ([HGraphSearch.ep_ param], Fault PopOnEmptyHeap).
Proof. apply HGraphSearch_pop_on_empty. Qed.

Lemma search_one_graph_pops_empty_heap_witness :
  HGraphSearch.search_one_graph RANGE_SEARCH_MODE
    (OneDim.toy_computer [0; 5] [3%Q]) (fun id => [7; 8] !! id)
    OneDim.empty_bottom
    {| HGraphSearch.ep_ := 0%nat;
       HGraphSearch.ef_ := 10;
       HGraphSearch.is_id_allowed_ := Some (fun l => negb (l =? 7));
       HGraphSearch.radius_ := 1%Q |}
    (getFreeVisitedList 8)
  = ([0%nat], Fault PopOnEmptyHeap).
Proof.
  apply (search_one_graph_pops_empty_heap
           (OneDim.toy_computer [0; 5] [3%Q]) (fun id => [7; 8] !! id)
           OneDim.empty_bottom
           {| HGraphSearch.ep_ := 0%nat;
              HGraphSearch.ef_ := 10;
              HGraphSearch.is_id_allowed_ := Some (fun l => negb (l =? 7));
              HGraphSearch.radius_ := 1%Q |}
           (getFreeVisitedList 8) (fun l => negb (l =? 7)) 7);
    [reflexivity | reflexivity | reflexivity | vm_compute; reflexivity].
Defined.

(** C1 (radius correctness), at a failing input.  Two points, both at 0,
    are added to an empty index under labels 7 and 8.  A range search
    around 5 with radius 1 then returns label 8 at squared distance 25:
    [search_one_graph] admits every neighbour while fewer than [ef] results
    are held and, unlike the stand-alone searcher
    ([BasicSearcher_range_within_radius]), nothing drops the results beyond
    the radius afterwards.  This happens whichever mode is the default one
    of [search_one_graph]. *)
Theorem RangeSearch_returns_point_beyond_radius :
  forall mode, exists h0 h failed res,
    OneDim.empty_index = Ok h0 /\
    Add mode 0%Q (fun _ => O) 1 OneDim.in_turn h0
      (OneDim.points [7; 8] [0%Q; 0%Q]) = Ok (failed, h) /\
    RangeSearch mode 0%Q OneDim.toy_FromJson h (OneDim.query_at 5) 1%Q "10"
      None (-1) = Ok res /\
    8 ∈ result_ids res /\
    Forall (fun d => ~ (d <= 1 + THRESHOLD_ERROR)%Q) (result_dists res).
Proof.
  intros [|]; eexists _, _, _, _;
    (split; [vm_compute; reflexivity|]);
    (split; [vm_compute; reflexivity|]);
    (split; [vm_compute; reflexivity|]);
    (split; [set_solver|]);
    repeat constructor; vm_compute; intros H; apply H; reflexivity.
Qed.

(** ** Claims about the capacity arithmetic *)

(** C8 (rounding up), at a failing input.  With [n = 31] the [int] shift
    yields [INT_MIN], [y] becomes [2^64 - 2^31], and for
    [x = 2^31 + 1] the sum wraps: the function returns 0 where the least
    multiple of [2^31] that is at least [x] is [2^32].  With [n] from 32
    on the shift itself is undefined.  Up to [n = 30] the function is
    right, see [next_multiple_of_power_of_two_small]. *)
Theorem next_multiple_of_power_of_two_wrong_from_31 :
  next_multiple_of_power_of_two (2 ^ 31 + 1) 31 = Ok 0 /\
  round_up_to_multiple (2 ^ 31 + 1) 31 = 2 ^ 32 /\
  next_multiple_of_power_of_two 1 32 = Fault UndefinedShift /\
  next_multiple_of_power_of_two 1 63 = Fault UndefinedShift.
Proof. repeat split; vm_compute; reflexivity. Qed.

(** ** Byte streams *)

Lemma Z_of_byte_of_Z z : Z_of_byte (byte_of_Z z) = z mod 256.
Proof.
  unfold Z_of_byte, byte_of_Z.
  pose proof (Z.mod_pos_bound z 256 ltac:(lia)) as Hb.
  destruct (Byte.of_N (Z.to_N (z mod 256))) as [b|] eqn:E; simpl.
  - apply Byte.to_of_N in E. rewrite E. lia.
  - apply Byte.of_N_None_iff in E. lia.
Qed.

Lemma length_encode_le w z : length (encode_le w z) = w.
Proof. revert z. induction w as [|w IH]; intros z; simpl; [done|]. by rewrite IH. Qed.

Lemma decode_encode_le w z :
  decode_le (encode_le w z) = z mod 2 ^ (8 * Z.of_nat w).
Proof.
  revert z. induction w as [|w IH]; intros z; simpl decode_le.
  - simpl. by rewrite Z.mod_1_r.
  - rewrite Z_of_byte_of_Z, IH.
    replace (8 * Z.of_nat (S w)) with (8 + 8 * Z.of_nat w) by lia.
    rewrite Z.pow_add_r by lia. change (2 ^ 8) with 256.
    rewrite Z.rem_mul_r by lia. lia.
Qed.

Lemma read_bytes_app bs rest :
  Stream.read_bytes (length bs) (bs ++ rest) = Ok (bs, rest).
Proof. induction bs as [|b bs IH]; simpl; [done|]. by rewrite IH. Qed.

Lemma ReadObj_encode_le w z rest :
  Stream.ReadObj w (encode_le w z ++ rest)
  = Ok (z mod 2 ^ (8 * Z.of_nat w), rest).
Proof.
  unfold Stream.ReadObj.
  rewrite <- (length_encode_le w z) at 1. rewrite read_bytes_app. simpl.
  by rewrite decode_encode_le.
Qed.

Lemma WriteVector_app w vs writer :
  Stream.WriteVector w vs writer
  = writer ++ encode_le 8 (Z.of_nat (length vs)) ++ (vs ≫= encode_le w).
Proof.
  unfold Stream.WriteVector, Stream.WriteObj.
  generalize (encode_le 8 (Z.of_nat (length vs))). intros hdr.
  rewrite app_assoc. generalize (writer ++ hdr). clear.
  induction vs as [|v vs IH]; intros acc; [by rewrite app_nil_r|].
  rewrite bind_cons. cbn [foldl]. rewrite IH. by rewrite <- app_assoc.
Qed.

Lemma read_elements_app w vs rest :
  Stream.read_elements w (length vs) ((vs ≫= encode_le w) ++ rest)
  = Ok ((fun v => v mod 2 ^ (8 * Z.of_nat w)) <$> vs, rest).
Proof.
  induction vs as [|v vs IH]; [done|].
  rewrite bind_cons. cbn [length Stream.read_elements].
  rewrite <- app_assoc, ReadObj_encode_le. cbn [mbind outcome_bind].
  rewrite IH. done.
Qed.

Lemma ReadVector_app w vs rest :
  Z.of_nat (length vs) < 2 ^ 64 ->
  Stream.ReadVector w
    (encode_le 8 (Z.of_nat (length vs)) ++ (vs ≫= encode_le w) ++ rest)
  = Ok ((fun v => v mod 2 ^ (8 * Z.of_nat w)) <$> vs, rest).
Proof.
  intros Hlen. unfold Stream.ReadVector. rewrite ReadObj_encode_le. simpl.
  change (2 ^ (8 * Z.of_nat 8)) with (2 ^ 64). rewrite Z.mod_small by lia.
  rewrite Nat2Z.id. apply read_elements_app.
Qed.

Lemma sint64_wrap z : - 2 ^ 63 <= z < 2 ^ 63 -> sint64 (z mod 2 ^ 64) = z.
Proof.
  intros Hz. unfold sint64, wrap64. rewrite Z.mod_mod by lia.
  destruct (Z_lt_le_dec z 0).
  - replace (z mod 2 ^ 64) with (z + 2 ^ 64).
    + destruct (_ <? _) eqn:E; [apply Z.ltb_lt in E|]; lia.
    + apply Z.mod_unique with (-1); lia.
  - rewrite Z.mod_small by lia.
    destruct (_ <? _) eqn:E; [|apply Z.ltb_ge in E]; lia.
Qed.

(** ** The byte format *)

Section SerializeProps.
Context {Codec Extra : Type}.
Context `{!FlattenInterface Codec} `{!ExtraInfoInterface Extra}.
Context `{!GraphInterface}.
Implicit Types h : HGraph Codec Extra.

Lemma write_pairs_app (pairs : list (LabelType * InnerIdType)) writer :
  foldl (fun writer (pair : LabelType * InnerIdType) =>
           let writer := Stream.WriteObj 8 pair.1 writer in
           Stream.WriteObj 4 (Z.of_nat pair.2) writer) writer pairs
  = writer ++
    (pairs ≫= fun p => encode_le 8 p.1 ++ encode_le 4 (Z.of_nat p.2)).
Proof.
  revert writer. induction pairs as [|p pairs IH]; intros writer;
    [by rewrite app_nil_r|].
  rewrite bind_cons. cbn [foldl]. rewrite IH. unfold Stream.WriteObj.
  by rewrite <- !app_assoc.
Qed.

Lemma serialize_route_graphs_app h n : forall i writer,
  (i + n <= length (route_graphs_ h))%nat ->
  serialize_route_graphs h n i writer
  = Ok (writer ++ (take n (drop i (route_graphs_ h)) ≫= graph_Serialize)).
Proof.
  induction n as [|n IH]; intros i writer Hle; simpl.
  - by rewrite app_nil_r.
  - destruct (lookup_lt_is_Some_2 (route_graphs_ h) i ltac:(lia)) as [g Hg].
    rewrite Hg. cbn [of_option mbind outcome_bind]. rewrite IH by lia.
    rewrite (drop_S _ _ _ Hg). rewrite firstn_cons, bind_cons.
    by rewrite <- app_assoc.
Qed.

Lemma Serialize_writer_layout h writer :
  consistent h ->
  Serialize_writer h writer
  = Ok (writer ++ normative_layout h (map_to_list (label_lookup_ h))).
Proof.
  intros ((Hl0 & Hl1) & Hlen & Hre & Hex).
  unfold Serialize_writer, serialize_basic_info, normative_layout.
  rewrite write_pairs_app, WriteVector_app. unfold Stream.WriteObj.
  rewrite length_map_to_list.
  assert (Hw : wrap64 (max_level_ h) = max_level_ h)
    by (apply Z.mod_small; lia).
  rewrite Hw.
  destruct (use_reorder_ h), (0 <? extra_info_size_ h).
  - destruct Hre as [c Hre], Hex as [e Hex]. rewrite ?Hre, ?Hex.
    cbn [mbind outcome_bind of_option from_option].
    rewrite serialize_route_graphs_app by lia.
    cbn [mbind outcome_bind of_option from_option].
    by rewrite drop_0, <- ?app_assoc.
  - destruct Hre as [c Hre]. rewrite ?Hre, ?Hex.
    cbn [mbind outcome_bind of_option from_option].
    rewrite serialize_route_graphs_app by lia.
    cbn [mbind outcome_bind of_option from_option].
    by rewrite drop_0, <- ?app_assoc, ?app_nil_r.
  - destruct Hex as [e Hex]. rewrite ?Hre, ?Hex.
    cbn [mbind outcome_bind of_option from_option].
    rewrite serialize_route_graphs_app by lia.
    cbn [mbind outcome_bind of_option from_option].
    by rewrite drop_0, <- ?app_assoc.
  - rewrite ?Hre, ?Hex.
    cbn [mbind outcome_bind of_option from_option].
    rewrite serialize_route_graphs_app by lia.
    cbn [mbind outcome_bind of_option from_option].
    by rewrite drop_0, <- ?app_assoc, ?app_nil_r.
Qed.
End SerializeProps.

Ltac proj_simpl :=
  cbn [extra_info_size_ resize_increase_count_bit_ use_reorder_ dim_ metric_
       max_level_ entry_point_id_ ef_construct_ mult_ max_capacity_ labels_
       label_lookup_ basic_flatten_codes_ high_precise_codes_ bottom_graph_
       route_graphs_ extra_infos_ pool_].

Section DeserializeProps.
Context {Codec Extra : Type}.
Context `{!FlattenInterface Codec} `{!ExtraInfoInterface Extra}.
Context `{!GraphInterface}.
Implicit Types h x y : HGraph Codec Extra.

Lemma load_then_step_ok {B} step (k : unit -> @load Codec Extra B)
    h r h' r' :
  step h r = Ok (h', r') ->
  load_then (load_step step) k (h, r) = k tt (h', r').
Proof. intros Hs. unfold load_then, load_step. by rewrite Hs. Qed.

Lemma read_scalar_encode {B} w field v h rest
    (k : unit -> @load Codec Extra B) :
  load_then (read_scalar w field) k (h, encode_le w v ++ rest)
  = k tt (with_scalar field (v mod 2 ^ (8 * Z.of_nat w)) h, rest).
Proof.
  unfold read_scalar. apply load_then_step_ok.
  by rewrite ReadObj_encode_le.
Qed.

Lemma emplace_all_union (pairs : list (LabelType * InnerIdType)) :
  forall m : gmap LabelType InnerIdType,
    NoDup pairs.*1 ->
    (forall k, k ∈ pairs.*1 -> m !! k = None) ->
    foldl (fun m p => emplace_label p.1 p.2 m) m pairs
    = list_to_map pairs ∪ m.
Proof.
  induction pairs as [|[k v] pairs IH]; intros m Hnd Hfresh.
  - simpl. by rewrite (left_id_L ∅ (∪)).
  - rewrite fmap_cons in Hnd, Hfresh. cbn [fst] in Hnd, Hfresh.
    apply NoDup_cons in Hnd as [Hk Hnd].
    cbn [foldl fst snd]. unfold emplace_label at 2.
    rewrite Hfresh by (apply elem_of_cons; by left).
    rewrite IH; [|done|].
    + rewrite list_to_map_cons, <- insert_union_l. symmetry.
      apply insert_union_r. by apply not_elem_of_list_to_map_1.
    + intros k' Hk'. rewrite lookup_insert_ne by (intros ->; done).
      apply Hfresh. apply elem_of_cons. by right.
Qed.

Lemma emplace_all_map_to_list (m : gmap LabelType InnerIdType) :
  foldl (fun m p => emplace_label p.1 p.2 m) ∅ (map_to_list m) = m.
Proof.
  rewrite emplace_all_union.
  - by rewrite (right_id_L ∅ (∪)), list_to_map_to_list.
  - apply NoDup_fst_map_to_list.
  - intros k _. apply lookup_empty.
Qed.

Lemma read_label_lookup_pairs (pairs : list (LabelType * InnerIdType)) :
  forall h rest,
    Forall (fun p : LabelType * InnerIdType =>
              - 2 ^ 63 <= p.1 < 2 ^ 63 /\ Z.of_nat p.2 < 2 ^ 32) pairs ->
    read_label_lookup (length pairs)
      (h, (pairs ≫= fun p => encode_le 8 p.1 ++ encode_le 4 (Z.of_nat p.2))
          ++ rest)
    = ((set_id_space h (labels_ h)
          (foldl (fun m p => emplace_label p.1 p.2 m) (label_lookup_ h)
             pairs), rest), Ok tt).
Proof.
  induction pairs as [|[k v] pairs IH]; intros h rest Hall.
  - simpl. by destruct h.
  - apply Forall_cons in Hall as [[Hk Hv] Hall]. simpl in Hk, Hv.
    rewrite bind_cons. cbn [length read_label_lookup].
    erewrite load_then_step_ok; cycle 1.
    { rewrite <- !app_assoc. rewrite ReadObj_encode_le.
      cbn [mbind outcome_bind]. rewrite ReadObj_encode_le.
      cbn [mbind outcome_bind]. reflexivity. }
    rewrite IH by done. cbn [foldl fst snd].
    change (2 ^ (8 * Z.of_nat 8)) with (2 ^ 64).
    change (2 ^ (8 * Z.of_nat 4)) with (2 ^ 32).
    rewrite sint64_wrap by done. rewrite Z.mod_small by lia.
    rewrite Nat2Z.id. reflexivity.
Qed.

Lemma deserialize_route_graphs_app (fresh : GraphCell) (gs : list GraphCell) :
  forall (pre : list GraphCell) h rest,
    route_graphs_ h = pre ++ replicate (length gs) fresh ->
    (forall g r, g ∈ gs ->
       graph_Deserialize fresh (graph_Serialize g ++ r) = Ok (g, r)) ->
    deserialize_route_graphs (length gs) (length pre)
      (h, (gs ≫= graph_Serialize) ++ rest)
    = ((set_levels h (max_level_ h) (pre ++ gs), rest), Ok tt).
Proof.
  induction gs as [|g gs IH]; intros pre h rest Hrg Hrt.
  - simpl in *. rewrite app_nil_r in *. rewrite <- Hrg. by destruct h.
  - cbn [length replicate deserialize_route_graphs] in *.
    rewrite bind_cons, <- app_assoc.
    assert (Hlook : route_graphs_ h !! length pre = Some fresh).
    { rewrite Hrg. by apply list_lookup_middle. }
    erewrite load_then_step_ok; cycle 1.
    { rewrite Hlook. cbn [of_option mbind outcome_bind].
      rewrite Hrt by (apply elem_of_cons; by left).
      cbn [mbind outcome_bind]. reflexivity. }
    replace (S (length pre)) with (length (pre ++ [g]))
      by (rewrite length_app; simpl; lia).
    rewrite IH.
    + cbn [route_graphs_ max_level_ set_levels].
      by rewrite <- app_assoc.
    + cbn [route_graphs_ set_levels]. rewrite Hrg.
      rewrite insert_app_r_alt by lia. rewrite Nat.sub_diag.
      by rewrite <- app_assoc.
    + intros g' r Hg'. apply Hrt. apply elem_of_cons. by right.
Qed.

Lemma load_then_ok {A B} (m : @load Codec Extra A)
    (k : A -> @load Codec Extra B) s s' a :
  m s = (s', Ok a) -> load_then m k s = k a s'.
Proof. intros Hm. unfold load_then. by rewrite Hm. Qed.

Lemma deserialize_basic_info_layout x y rest :
  fits_types x -> 0 <= max_level_ x < 2 ^ 64 -> label_lookup_ y = ∅ ->
  deserialize_basic_info
    (y, encode_le 1 (Z.b2z (use_reorder_ x)) ++
        encode_le 8 (dim_ x) ++
        encode_le 4 (metric_ x) ++
        encode_le 8 (max_level_ x) ++
        encode_le 4 (Z.of_nat (entry_point_id_ x)) ++
        encode_le 8 (ef_construct_ x) ++
        encode_le 8 (mult_ x) ++
        encode_le 8 (max_capacity_ x) ++
        encode_le 8 (Z.of_nat (length (labels_ x))) ++
        (labels_ x ≫= encode_le 8) ++
        encode_le 8 (Z.of_nat (length (map_to_list (label_lookup_ x)))) ++
        (map_to_list (label_lookup_ x)
           ≫= fun p => encode_le 8 p.1 ++ encode_le 4 (Z.of_nat p.2)) ++
        rest)
  = ((Build_HGraph (extra_info_size_ y) (resize_increase_count_bit_ y)
        (use_reorder_ x) (dim_ x) (metric_ x) (max_level_ x)
        (entry_point_id_ x) (ef_construct_ x) (mult_ x) (max_capacity_ x)
        (labels_ x) (label_lookup_ x)
        (basic_flatten_codes_ y) (high_precise_codes_ y) (bottom_graph_ y)
        (route_graphs_ y) (extra_infos_ y) (pool_ y), rest), Ok tt).
Proof.
  intros (Hdim & Hmetric & Hep & Hef & Hmult & Hcap & Hlabels & Hnlabels &
          Hlookup & Hsize & Hpool) Hlevel Hy.
  unfold deserialize_basic_info.
  destruct y as [y1 y2 y3 y4 y5 y6 y7 y8 y9 y10 y11 y12 y13 y14 y15 y16 y17
                   y18].
  proj_simpl.
  cbn [label_lookup_] in Hy.
  do 8 (rewrite read_scalar_encode; cbv beta; unfold with_scalar; proj_simpl).
  erewrite load_then_step_ok; cycle 1.
  { rewrite ReadVector_app by done. cbn [mbind outcome_bind]. reflexivity. }
  cbv beta. unfold set_id_space at 1. proj_simpl.
  rewrite ReadObj_encode_le.
  change (2 ^ (8 * Z.of_nat 8)) with (2 ^ 64).
  change (2 ^ (8 * Z.of_nat 4)) with (2 ^ 32).
  change (2 ^ (8 * Z.of_nat 1)) with 256.
  rewrite length_map_to_list, (Z.mod_small (Z.of_nat (size _))) by lia.
  rewrite Nat2Z.id, <- length_map_to_list.
  rewrite read_label_lookup_pairs; cycle 1.
  { apply Forall_forall. intros [k v] Hkv%elem_of_map_to_list.
    apply (Hlookup k v Hkv). }
  unfold set_id_space. proj_simpl.
  rewrite Hy, emplace_all_map_to_list.
  rewrite sint64_wrap by done.
  rewrite (Z.mod_small (metric_ x)), (Z.mod_small (max_level_ x)),
    (Z.mod_small (Z.of_nat (entry_point_id_ x))),
    (Z.mod_small (ef_construct_ x)), (Z.mod_small (mult_ x)),
    (Z.mod_small (max_capacity_ x)) by lia.
  rewrite Nat2Z.id.
  assert (Hl : sint64 <$> ((fun v => v mod 2 ^ 64) <$> labels_ x) = labels_ x).
  { clear -Hlabels. induction Hlabels as [|l ls Hl _ IH]; [done|].
    rewrite !fmap_cons, IH. by rewrite sint64_wrap. }
  rewrite Hl.
  assert (Hb : negb (Z.b2z (use_reorder_ x) mod 256 =? 0) = use_reorder_ x)
    by (by destruct (use_reorder_ x)).
  rewrite Hb. reflexivity.
Qed.

Lemma Deserialize_reader_layout x y rest :
  consistent x -> fits_types x -> blank_like y x ->
  collaborators_round_trip y x ->
  Deserialize_reader
    (y, normative_layout x (map_to_list (label_lookup_ x)) ++ rest)
  = ((x, rest), Ok tt).
Proof.
  intros ((Hl0 & Hl1) & Hlen & Hre & Hex) Hfits
         (Hy1 & Hy2 & Hy3 & Hy4 & Hy5 & Hy6)
         (Hbasic & Hbottom & Hprecise & Hroute & Hextra).
  unfold Deserialize_reader, normative_layout.
  rewrite <- !app_assoc.
  erewrite load_then_ok; [|by apply deserialize_basic_info_layout].
  destruct Hfits as (_ & _ & _ & _ & _ & _ & _ & _ & _ & _ & Hpool).
  assert (Htake : take (Z.to_nat (max_level_ x)) (route_graphs_ x)
                  = route_graphs_ x) by (apply take_ge; lia).
  rewrite Htake.
  set (mk := fun (basic : Codec) (precise : option Codec) bottom routes
                 (extra : option Extra) pool =>
    Build_HGraph (extra_info_size_ y) (resize_increase_count_bit_ y)
      (use_reorder_ x) (dim_ x) (metric_ x) (max_level_ x)
      (entry_point_id_ x) (ef_construct_ x) (mult_ x) (max_capacity_ x)
      (labels_ x) (label_lookup_ x) basic precise bottom routes extra pool).
  set (tail := (if 0 <? extra_info_size_ x
                then from_option extra_Serialize [] (extra_infos_ x) else [])
               ++ rest).
  (* basic codec *)
  erewrite (load_then_step_ok _ _ _ _
             (mk (basic_flatten_codes_ x) (high_precise_codes_ y)
                (bottom_graph_ y) (route_graphs_ y) (extra_infos_ y)
                (pool_ y)) _); cycle 1.
  { proj_simpl. rewrite Hbasic. cbn [mbind outcome_bind].
    unfold set_codecs. proj_simpl. reflexivity. }
  (* bottom graph *)
  erewrite (load_then_step_ok _ _ _ _
             (mk (basic_flatten_codes_ x) (high_precise_codes_ y)
                (bottom_graph_ x) (route_graphs_ y) (extra_infos_ y)
                (pool_ y)) _); cycle 1.
  { subst mk. proj_simpl. rewrite Hbottom. cbn [mbind outcome_bind].
    unfold set_bottom_graph. proj_simpl. reflexivity. }
  (* precise codec *)
  rewrite (load_then_step_ok _ _ _ _
             (mk (basic_flatten_codes_ x) (high_precise_codes_ x)
                (bottom_graph_ x) (route_graphs_ y) (extra_infos_ y)
                (pool_ y))
             ((route_graphs_ x ≫= graph_Serialize) ++ tail)); cycle 1.
  { subst mk. proj_simpl. destruct (use_reorder_ x).
    - destruct Hre as [cx Hcx].
      destruct (high_precise_codes_ y) as [cy|] eqn:Hcy;
        [|destruct Hy5 as [Hy5 _]; specialize (Hy5 eq_refl); congruence].
      rewrite Hcx. cbn [from_option of_option mbind outcome_bind].
      rewrite (Hprecise cy cx) by done. cbn [mbind outcome_bind].
      reflexivity.
    - destruct Hy5 as [_ Hy5]. rewrite (Hy5 Hre), Hre. reflexivity. }
  (* fresh route graphs *)
  rewrite (load_then_step_ok _ _ _ _
             (mk (basic_flatten_codes_ x) (high_precise_codes_ x)
                (bottom_graph_ x)
                (replicate (length (route_graphs_ x))
                   {| maximum_degree_ := MaximumDegree (bottom_graph_ x) / 2;
                      total_count_ := 0;
                      graph_max_capacity_ := 0;
                      adjacency_ := ∅ |})
                (extra_infos_ y) (pool_ y))
             ((route_graphs_ x ≫= graph_Serialize) ++ tail)); cycle 1.
  { subst mk. unfold set_levels, generate_one_route_graph. proj_simpl.
    by rewrite Hy4, Hlen. }
  (* their contents *)
  rewrite (load_then_ok _ _ _
             (mk (basic_flatten_codes_ x) (high_precise_codes_ x)
                (bottom_graph_ x) (route_graphs_ x) (extra_infos_ y)
                (pool_ y), tail) tt); cycle 1.
  { subst mk. cbn [fst]. proj_simpl. rewrite Hlen.
    erewrite (deserialize_route_graphs_app _ (route_graphs_ x) []).
    - unfold set_levels. proj_simpl. reflexivity.
    - proj_simpl. reflexivity.
    - intros g r Hg. by apply Hroute. }
  (* the pool *)
  rewrite (load_then_step_ok _ _ _ _
             (mk (basic_flatten_codes_ x) (high_precise_codes_ x)
                (bottom_graph_ x) (route_graphs_ x) (extra_infos_ y)
                (pool_ x)) tail); cycle 1.
  { subst mk. unfold set_pool. proj_simpl. by rewrite Hpool. }
  (* the blobs *)
  unfold load_step. subst mk tail. proj_simpl. rewrite Hy1.
  destruct (0 <? extra_info_size_ x).
  - destruct Hex as [ex Hex].
    destruct (extra_infos_ y) as [ey|] eqn:Hey;
      [|destruct Hy6 as [Hy6 _]; specialize (Hy6 eq_refl); congruence].
    rewrite Hex. cbn [from_option of_option mbind outcome_bind].
    rewrite (Hextra ey ex) by done. cbn [mbind outcome_bind].
    unfold set_codecs. proj_simpl.
    rewrite <- Hex, Hy2. by destruct x.
  - destruct Hy6 as [_ Hy6]. rewrite (Hy6 Hex).
    rewrite <- Hex at 1. rewrite app_nil_l, Hy2. by destruct x.
Qed.
End DeserializeProps.

(** ** The concrete world *)

Lemma empty_index_blank : OneDim.empty_index = Ok OneDim.blank.
Proof. vm_compute. reflexivity. Qed.

Lemma two_points_built :
  OneDim.built (fun _ => O) [7; 8] [0%Q; 5%Q] = Ok OneDim.two_points.
Proof. vm_compute. reflexivity. Qed.

Lemma two_levels_built :
  OneDim.built OneDim.first_on_top [7; 8; 9] [0%Q; 5%Q; 9%Q]
  = Ok OneDim.two_levels.
Proof. vm_compute. reflexivity. Qed.

Lemma two_levels_consistent : consistent OneDim.two_levels.
Proof. unfold consistent. simpl. split_and!; (lia || reflexivity). Qed.

Lemma two_levels_fits_types : fits_types OneDim.two_levels.
Proof.
  unfold fits_types.
  split_and!; try (simpl; lia).
  - repeat constructor; lia.
  - intros k v Hkv%elem_of_map_to_list.
    vm_compute (map_to_list _) in Hkv.
    repeat (apply elem_of_cons in Hkv as [[= -> ->]|Hkv]; [simpl; lia|]).
    by apply elem_of_nil in Hkv.
  - vm_compute. congruence.
Qed.

Lemma blank_like_two_levels : blank_like OneDim.blank OneDim.two_levels.
Proof. unfold blank_like; simpl. repeat split; done. Qed.

Lemma two_levels_round_trip :
  collaborators_round_trip OneDim.blank OneDim.two_levels.
Proof.
  unfold collaborators_round_trip. split_and!.
  - intros rest. vm_compute. reflexivity.
  - intros rest. vm_compute. reflexivity.
  - intros cy cx rest Hy. discriminate.
  - intros g rest Hg. apply list_elem_of_singleton in Hg as ->.
    vm_compute. reflexivity.
  - intros ey ex rest Hy. discriminate.
Qed.

(** ** Claims about the byte format *)

Section FormatClaims.
Context {Codec Extra : Type}.
Context `{!FlattenInterface Codec} `{!ExtraInfoInterface Extra}.
Context `{!GraphInterface}.
Variable GetNumElements : HGraph Codec Extra -> Z.
Variable default_mode : InnerSearchMode.
Variable default_radius_ : Q.
Variable FromJson : string -> outcome HGraphSearchParameters.
Variable BitsetOrCallbackFilter : (LabelType -> bool) -> LabelType -> bool.

(** C6 (field order).  For a non-empty index with one route graph per
    level and its optional collaborators in place, [Serialize] emits
    exactly the layout of section 6: the eight scalars in their order, the
    labels, the label lookup as its size followed by its pairs in some
    order, the basic codec, the bottom graph, the precise codec iff
    [use_reorder], the route graphs of levels [0 .. max_level - 1], and the
    blobs iff [extra_info_size > 0].  The writer only appends. *)
Theorem Serialize_emits_normative_layout (h : HGraph Codec Extra) :
  GetNumElements h <> 0 ->
  consistent h ->
  exists pairs,
    pairs ≡ₚ map_to_list (label_lookup_ h) /\
    (forall writer,
       Serialize_writer h writer = Ok (writer ++ normative_layout h pairs)) /\
    exists binary_set,
      Serialize_binary_set GetNumElements h = Ok binary_set /\
      binary_set INDEX_HGRAPH = Some (normative_layout h pairs) /\
      binary_set BLANK_INDEX = None.
Proof.
  intros Hne Hcons. exists (map_to_list (label_lookup_ h)).
  split; [done|]. split; [intros; by apply Serialize_writer_layout|].
  unfold Serialize_binary_set, cal_serialize_size.
  destruct (GetNumElements h =? 0) eqn:E; [apply Z.eqb_eq in E; done|].
  rewrite (Serialize_writer_layout h [] Hcons).
  cbn [fmap outcome_fmap mbind outcome_bind app]. eauto.
Qed.

(** C7 (INDEX_NOT_EMPTY).  On an index that reports at least one element,
    each of the three [Deserialize] overloads returns [INDEX_NOT_EMPTY],
    leaves the index as it was, and has read nothing: the payload is whole
    afterwards. *)
Theorem Deserialize_rejects_non_empty_index (h : HGraph Codec Extra)
    (reader_set : BinaryName -> option (list byte)) (binary_set : BinarySet)
    (in_stream : list byte) :
  0 < GetNumElements h ->
  Deserialize_reader_set GetNumElements h reader_set
    = (h, reader_set INDEX_HGRAPH, Fault (Raised INDEX_NOT_EMPTY)) /\
  Deserialize_binary_set GetNumElements h binary_set
    = (h, binary_set INDEX_HGRAPH, Fault (Raised INDEX_NOT_EMPTY)) /\
  Deserialize_istream GetNumElements h in_stream
    = (h, in_stream, Fault (Raised INDEX_NOT_EMPTY)).
Proof.
  intros Hpos. apply Z.ltb_lt in Hpos.
  unfold Deserialize_reader_set, Deserialize_binary_set, Deserialize_istream.
  by rewrite Hpos.
Qed.

(** C5 (round trip).  Let [x] be an index as [Add] leaves it (one route
    graph per level, optional collaborators in place, members within their
    C++ types) and [y] an empty index constructed with the parameters of
    [x], whose collaborators read back what those of [x] write.  Then
    [Deserialize] applied to [y] and the bytes of [Serialize(x)] consumes
    all of them and yields an index that answers every KNN and range query
    as [x] does. *)
Theorem Deserialize_Serialize_round_trip (x y : HGraph Codec Extra) :
  consistent x -> fits_types x ->
  blank_like y x -> GetNumElements y = 0 ->
  collaborators_round_trip y x ->
  exists bytes x',
    Serialize_ostream x [] = Ok bytes /\
    Deserialize_istream GetNumElements y bytes = (x', [], Ok tt) /\
    forall query k radius parameters filter limited_size,
      KnnSearch GetNumElements default_mode default_radius_ FromJson
        BitsetOrCallbackFilter x' query k parameters filter
      = KnnSearch GetNumElements default_mode default_radius_ FromJson
          BitsetOrCallbackFilter x query k parameters filter /\
      RangeSearch default_mode default_radius_ FromJson x' query radius
        parameters filter limited_size
      = RangeSearch default_mode default_radius_ FromJson x query radius
          parameters filter limited_size.
Proof.
  intros Hcons Hfits Hblank Hempty Hrt.
  exists (normative_layout x (map_to_list (label_lookup_ x))), x.
  split; [|split; [|done]].
  - unfold Serialize_ostream. by rewrite Serialize_writer_layout.
  - unfold Deserialize_istream. rewrite Hempty. cbn [Z.ltb Z.compare].
    rewrite <- (app_nil_r (normative_layout _ _)).
    by apply Deserialize_reader_layout.
Qed.
End FormatClaims.

Lemma Serialize_emits_normative_layout_witness :
  exists pairs,
    pairs ≡ₚ map_to_list (label_lookup_ OneDim.two_levels) /\
    (forall writer,
       Serialize_writer OneDim.two_levels writer
       = Ok (writer ++ normative_layout OneDim.two_levels pairs)) /\
    exists binary_set,
      Serialize_binary_set OneDim.toy_num_elements OneDim.two_levels
        = Ok binary_set /\
      binary_set INDEX_HGRAPH
        = Some (normative_layout OneDim.two_levels pairs) /\
      binary_set BLANK_INDEX = None.
Proof.
  apply (Serialize_emits_normative_layout OneDim.toy_num_elements
           OneDim.two_levels).
  - vm_compute. discriminate.
  - exact two_levels_consistent.
Defined.

Lemma Deserialize_rejects_non_empty_index_witness :
  Deserialize_reader_set OneDim.toy_num_elements OneDim.two_points
    (fun _ => Some [x01; x02])
    = (OneDim.two_points, Some [x01; x02], Fault (Raised INDEX_NOT_EMPTY)) /\
  Deserialize_binary_set OneDim.toy_num_elements OneDim.two_points
    (fun _ => Some [x01; x02])
    = (OneDim.two_points, Some [x01; x02], Fault (Raised INDEX_NOT_EMPTY)) /\
  Deserialize_istream OneDim.toy_num_elements OneDim.two_points [x01; x02]
    = (OneDim.two_points, [x01; x02], Fault (Raised INDEX_NOT_EMPTY)).
Proof.
  apply (Deserialize_rejects_non_empty_index OneDim.toy_num_elements
           OneDim.two_points (fun _ => Some [x01; x02])
           (fun _ => Some [x01; x02]) [x01; x02]).
  vm_compute. reflexivity.
Defined.

Lemma Deserialize_Serialize_round_trip_witness :
  exists bytes x',
    Serialize_ostream OneDim.two_levels [] = Ok bytes /\
    Deserialize_istream OneDim.toy_num_elements OneDim.blank bytes
      = (x', [], Ok tt) /\
    forall query k radius parameters filter limited_size,
      KnnSearch OneDim.toy_num_elements KNN_SEARCH_MODE 0%Q
        OneDim.toy_FromJson OneDim.toy_filter x' query k parameters filter
      = KnnSearch OneDim.toy_num_elements KNN_SEARCH_MODE 0%Q
          OneDim.toy_FromJson OneDim.toy_filter OneDim.two_levels query k
          parameters filter /\
      RangeSearch KNN_SEARCH_MODE 0%Q OneDim.toy_FromJson x' query radius
        parameters filter limited_size
      = RangeSearch KNN_SEARCH_MODE 0%Q OneDim.toy_FromJson
          OneDim.two_levels query radius parameters filter limited_size.
Proof.
  apply (Deserialize_Serialize_round_trip OneDim.toy_num_elements
           KNN_SEARCH_MODE 0%Q OneDim.toy_FromJson OneDim.toy_filter
           OneDim.two_levels OneDim.blank).
  - exact two_levels_consistent.
  - exact two_levels_fits_types.
  - exact blank_like_two_levels.
  - reflexivity.
  - exact two_levels_round_trip.
Defined.

(** ** Adding points *)

Section AddProps.
Context {Codec Extra : Type}.
Context `{!FlattenInterface Codec} `{!ExtraInfoInterface Extra}.
Context `{!GraphInterface} `{!PruningStrategy Codec}.
Implicit Types h : HGraph Codec Extra.

Lemma scan_duplicates_spec h labels n : forall i temp acc,
  (i + n = length labels)%nat ->
  (forall l, is_Some (label_lookup_ h !! l) \/ l ∈ temp <->
             is_Some (label_lookup_ h !! l) \/ l ∈ take i labels) ->
  scan_duplicates h labels n i temp acc
  = Ok (acc ++ (Z.of_nat <$>
                  filter (fun j => duplicate_at (label_lookup_ h) labels j
                                   = true) (seq i n))).
Proof.
  induction n as [|n IH]; intros i temp acc Hlen Hinv.
  - simpl. by rewrite app_nil_r.
  - cbn [scan_duplicates seq].
    destruct (lookup_lt_is_Some_2 labels i ltac:(lia)) as [l Hl].
    rewrite Hl. cbn [of_option mbind outcome_bind].
    assert (Htake : take (S i) labels = take i labels ++ [l])
      by (by apply take_S_r).
    assert (Hdup : duplicate_at (label_lookup_ h) labels i
                   = bool_decide (is_Some (label_lookup_ h !! l)) ||
                     bool_decide (l ∈ temp)).
    { unfold duplicate_at. rewrite Hl.
      apply eq_true_iff_eq. rewrite !orb_true_iff, !bool_decide_eq_true.
      symmetry. apply Hinv. }
    rewrite <- Hdup.
    destruct (duplicate_at (label_lookup_ h) labels i) eqn:Hd.
    + rewrite IH; [|lia|].
      * rewrite filter_cons_True by done. rewrite fmap_cons.
        by rewrite <- app_assoc.
      * intros l'. rewrite Htake, elem_of_app, list_elem_of_singleton.
        symmetry in Hdup. apply orb_true_iff in Hdup.
        rewrite !bool_decide_eq_true in Hdup.
        specialize (Hinv l'). destruct (decide (l' = l)) as [->|]; tauto.
    + rewrite IH; [|lia|].
      * by rewrite filter_cons_False by (by rewrite Hd).
      * intros l'. rewrite Htake, elem_of_app, list_elem_of_singleton.
        rewrite elem_of_union, elem_of_singleton.
        specialize (Hinv l'). tauto.
Qed.

Lemma read_rejected_labels (labels : list LabelType) (js : list nat) :
  Forall (fun j => (j < length labels)%nat) js ->
  mapM (M := outcome)
       (fun failed_id =>
          if failed_id <? 0 then Fault OutOfBounds
          else of_option OutOfBounds (labels !! Z.to_nat failed_id))
       (Z.of_nat <$> js)
  = Ok (omap (fun j => labels !! j) js).
Proof.
  induction 1 as [|j js Hj _ IH]; [done|].
  rewrite fmap_cons. cbn [mapM omap].
  destruct (Z.of_nat j <? 0) eqn:E; [apply Z.ltb_lt in E; lia|].
  rewrite Nat2Z.id.
  destruct (lookup_lt_is_Some_2 labels j Hj) as [l Hl]. rewrite Hl.
  cbn [of_option mbind outcome_bind]. rewrite IH.
  cbn [mbind outcome_bind mret outcome_ret]. simpl. by rewrite Hl.
Qed.

Lemma split_dataset_rejected_labels h data datasets failed :
  NumElements data = Z.of_nat (length (Ids data)) ->
  Z.of_nat (length (Ids data)) < 2 ^ 64 ->
  rejected_indices (label_lookup_ h) (Ids data) <> [] ->
  split_dataset_by_duplicate_label h data [] = Ok (datasets, failed) ->
  failed = rejected_labels (label_lookup_ h) (Ids data).
Proof.
  intros Hn Hlt Hne. unfold split_dataset_by_duplicate_label.
  rewrite Hn. unfold wrap64. rewrite Z.mod_small by lia. rewrite Nat2Z.id.
  rewrite scan_duplicates_spec; [|lia|].
  2:{ intros l. by rewrite take_0, elem_of_nil, elem_of_empty. }
  cbn [mbind outcome_bind]. rewrite app_nil_l.
  fold (rejected_indices (label_lookup_ h) (Ids data)).
  set (r := rejected_indices (label_lookup_ h) (Ids data)) in *.
  destruct (length _ =? 1)%nat eqn:E.
  { apply Nat.eqb_eq in E. rewrite length_app, length_fmap in E. simpl in E.
    destruct r; [done|simpl in E; lia]. }
  rewrite removelast_last.
  rewrite read_rejected_labels; [by intros [= _ <-]|].
  subst r. unfold rejected_indices. apply Forall_forall.
  intros j [_ Hj]%list_elem_of_filter. apply elem_of_seq in Hj. lia.
Qed.

Variable default_mode : InnerSearchMode.
Variable default_radius_ : Q.
Variable FromJson : string -> outcome HGraphSearchParameters.
Variable BitsetOrCallbackFilter : (LabelType -> bool) -> LabelType -> bool.
Variable get_random_level : InnerIdType -> nat.
Variable build_thread_count_ : Z.
Variable pool_schedule : HGraph Codec Extra -> Dataset -> list nat.

(** C2 (what [Add] returns), as amended.  When at least one element of the
    batch is rejected, the list that [Add] returns holds the labels of the
    rejected elements, in input order: [split_dataset_by_duplicate_label]
    replaces every collected index by the label found there
    (hgraph.cpp, lines 874-876).  For the batch
    [(1, v1), (2, v2), (1, v3)] that list is [1]. *)
Theorem Add_returns_labels_of_duplicates h data failed h' :
  NumElements data = Z.of_nat (length (Ids data)) ->
  Z.of_nat (length (Ids data)) < 2 ^ 64 ->
  rejected_indices (label_lookup_ h) (Ids data) <> [] ->
  Add default_mode default_radius_ get_random_level
    build_thread_count_ pool_schedule h data = Ok (failed, h') ->
  failed = rejected_labels (label_lookup_ h) (Ids data).
Proof.
  intros Hn Hlt Hne. unfold Add.
  destruct (check_argument (Dim data =? dim_ h)); [|discriminate].
  cbn [mbind outcome_bind].
  destruct (check_argument (bool_decide _)); [|discriminate].
  cbn [mbind outcome_bind].
  destruct (split_dataset_by_duplicate_label h data [])
    as [[datasets failed0]|] eqn:Hsplit; [|discriminate].
  cbn [mbind outcome_bind].
  destruct (add_datasets _ _ _ _ _); [|discriminate].
  cbn [mbind outcome_bind]. intros [= <- _].
  by eapply split_dataset_rejected_labels.
Qed.

(** C10 (beam width of a range search).  Once the arguments have passed
    the checks, the route graphs have been descended and [FromJson] has
    read [ef_search] from the parameter string, [RangeSearch] is one call
    of [search_one_graph] on the bottom graph with
    [ef = max(ef_search, limited_size)], followed by the optional reorder,
    the trim to [limited_size] and the emission of the result.  Hence two
    calls whose [ef_search] give the same maximum with [limited_size]
    return the same: a [limited_size] above [ef_search] is the beam
    width. *)
Theorem RangeSearch_beam_width_is_max h query q radius parameters params
    filter limited_size param :
  Dim query = dim_ h ->
  (0 <= radius)%Q ->
  NumElements query = 1 ->
  limited_size <> 0 ->
  Float32Vectors query = Some q ->
  descend_route_graphs default_mode h q (reverse (route_graphs_ h))
    {| HGraphSearch.ep_ := entry_point_id_ h;
       HGraphSearch.ef_ := 1;
       HGraphSearch.is_id_allowed_ := None;
       HGraphSearch.radius_ := default_radius_ |} = Ok param ->
  FromJson parameters = Ok params ->
  RangeSearch default_mode default_radius_ FromJson h query radius
    parameters filter limited_size
  = (search_result ←
       search_one_graph h default_mode q (bottom_graph_ h)
         (Some (basic_flatten_codes_ h))
         {| HGraphSearch.ep_ := HGraphSearch.ep_ param;
            HGraphSearch.ef_ := Z.max (ef_search params) limited_size;
            HGraphSearch.is_id_allowed_ := filter;
            HGraphSearch.radius_ := radius |};
     search_result ←
       (if use_reorder_ h
        then reorder q (high_precise_codes_ h) search_result limited_size
        else Ok search_result);
     emit_result h
       (if 0 <? limited_size
        then pop_while_larger (wrap64 limited_size) search_result
        else search_result)) /\
  forall parameters' params',
    FromJson parameters' = Ok params' ->
    Z.max (ef_search params') limited_size
      = Z.max (ef_search params) limited_size ->
    RangeSearch default_mode default_radius_ FromJson h query radius
      parameters' filter limited_size
    = RangeSearch default_mode default_radius_ FromJson h query radius
        parameters filter limited_size.
Proof.
  intros Hdim Hrad Hnum Hlim Hq Hdescend Hparams.
  assert (Hdescent :
            descend_from_top default_mode h (Float32Vectors query)
              {| HGraphSearch.ep_ := entry_point_id_ h;
                 HGraphSearch.ef_ := 1;
                 HGraphSearch.is_id_allowed_ := None;
                 HGraphSearch.radius_ := default_radius_ |} = Ok param).
  { unfold descend_from_top. rewrite Hq. revert Hdescend.
    by destruct (route_graphs_ h). }
  assert (Hrun : forall p ps,
            FromJson p = Ok ps ->
            RangeSearch default_mode default_radius_ FromJson h query radius
              p filter limited_size
            = (search_result ←
                 search_one_graph h default_mode q (bottom_graph_ h)
                   (Some (basic_flatten_codes_ h))
                   {| HGraphSearch.ep_ := HGraphSearch.ep_ param;
                      HGraphSearch.ef_ := Z.max (ef_search ps) limited_size;
                      HGraphSearch.is_id_allowed_ := filter;
                      HGraphSearch.radius_ := radius |};
               search_result ←
                 (if use_reorder_ h
                  then reorder q (high_precise_codes_ h) search_result
                         limited_size
                  else Ok search_result);
               emit_result h
                 (if 0 <? limited_size
                  then pop_while_larger (wrap64 limited_size) search_result
                  else search_result))).
  { intros p ps Hp. unfold RangeSearch, check_argument.
    rewrite Hdim, Z.eqb_refl, Hnum.
    apply Qle_bool_iff in Hrad. rewrite Hrad.
    apply Z.eqb_neq in Hlim. rewrite Hlim.
    cbn [negb Z.eqb Pos.eqb of_option mbind outcome_bind].
    rewrite Hdescent, Hp, Hq. reflexivity. }
  split; [by apply Hrun|].
  intros parameters' params' Hparams' Hmax.
  by rewrite (Hrun _ _ Hparams), (Hrun _ _ Hparams'), Hmax.
Qed.
End AddProps.

(** ** Levels and the entry point *)

Section LevelProps.
Variable get_random_level : InnerIdType -> nat.
Local Abbreviation highest := (highest_level_drawn get_random_level).
Local Abbreviation reaching := (reaching_highest get_random_level).
Local Abbreviation earliest := (earliest_reaching get_random_level).

Lemma max_list_with_snoc (l : list nat) (x : nat) :
  max_list_with get_random_level (l ++ [x])
  = (max_list_with get_random_level l `max` get_random_level x)%nat.
Proof. induction l as [|y l IH]; simpl; [lia|]. rewrite IH. lia. Qed.

Lemma max_list_with_ge (l : list nat) (x : nat) :
  x ∈ l -> (get_random_level x <= max_list_with get_random_level l)%nat.
Proof.
  induction l as [|y l IH]; [by intros ?%elem_of_nil|].
  intros [->|Hx]%elem_of_cons; simpl; [lia|]. specialize (IH Hx). lia.
Qed.

Lemma highest_S n :
  highest (S n) = (highest n `max` get_random_level n)%nat.
Proof. unfold highest_level_drawn. by rewrite seq_S, max_list_with_snoc. Qed.

Lemma highest_ge n id : (id < n)%nat -> (get_random_level id <= highest n)%nat.
Proof.
  intros Hid. apply max_list_with_ge. apply elem_of_seq. lia.
Qed.

Lemma highest_attained n :
  (0 < n)%nat -> exists id, (id < n)%nat /\ get_random_level id = highest n.
Proof.
  induction n as [|n IH]; [lia|]. intros _. rewrite highest_S.
  destruct (decide (highest n <= get_random_level n)%nat) as [Hle|Hgt].
  - exists n. split; [lia|lia].
  - destruct n as [|n]; [unfold highest_level_drawn in Hgt; simpl in Hgt; lia|].
    destruct (IH ltac:(lia)) as (id & Hid & Heq). exists id. split; lia.
Qed.

Lemma reaching_nonempty n : (0 < n)%nat -> reaching n <> [].
Proof.
  intros Hn. destruct (highest_attained n Hn) as (id & Hid & Heq).
  intros Hnil.
  assert (Hin : id ∈ reaching n).
  { apply list_elem_of_filter. split; [done|]. apply elem_of_seq. lia. }
  rewrite Hnil in Hin. by apply elem_of_nil in Hin.
Qed.

Lemma earliest_first : earliest 1 = O.
Proof.
  unfold earliest_reaching, reaching_highest, highest_level_drawn. simpl.
  rewrite filter_cons_True by lia. done.
Qed.

Lemma earliest_S_higher n :
  (highest n < get_random_level n)%nat -> earliest (S n) = n.
Proof.
  intros Hlt. unfold earliest_reaching, reaching_highest.
  rewrite highest_S, seq_S, filter_app. cbn [Nat.add].
  assert (Hmax : (highest n `max` get_random_level n)%nat
                 = get_random_level n) by lia.
  rewrite Hmax.
  match goal with
  | |- context [@filter ?A ?B ?F ?P ?D (seq 0 n)] =>
      destruct (@filter A B F P D (seq 0 n)) as [|id l] eqn:Hf
  end.
  - by rewrite filter_cons_True by done.
  - assert (Hin : id ∈ id :: l) by (apply elem_of_cons; by left).
    rewrite <- Hf in Hin. apply list_elem_of_filter in Hin as [Heq Hid].
    apply elem_of_seq in Hid. pose proof (highest_ge n id ltac:(lia)). lia.
Qed.

Lemma head_app_nonempty {A} (l l' : list A) :
  l <> [] -> head (l ++ l') = head l.
Proof. by destruct l. Qed.

Lemma earliest_S_not_higher n :
  (0 < n)%nat -> (get_random_level n <= highest n)%nat ->
  earliest (S n) = earliest n.
Proof.
  intros Hn Hle. unfold earliest_reaching.
  pose proof (reaching_nonempty n Hn) as Hne.
  assert (Hh : highest (S n) = highest n) by (rewrite highest_S; lia).
  unfold reaching_highest at 1. rewrite Hh, seq_S, filter_app.
  f_equal. apply head_app_nonempty. exact Hne.
Qed.
End LevelProps.

Section LevelBookkeeping.
Context {Codec Extra : Type}.
Context `{!FlattenInterface Codec} `{!ExtraInfoInterface Extra}.
Context `{!GraphInterface} `{!PruningStrategy Codec}.
Implicit Types h : HGraph Codec Extra.
Variable default_mode : InnerSearchMode.
Variable default_radius_ : Q.
Variable FromJson : string -> outcome HGraphSearchParameters.
Variable BitsetOrCallbackFilter : (LabelType -> bool) -> LabelType -> bool.
Variable get_random_level : InnerIdType -> nat.
Variable build_thread_count_ : Z.
Variable pool_schedule : HGraph Codec Extra -> Dataset -> list nat.
Local Abbreviation highest := (highest_level_drawn get_random_level).
Local Abbreviation earliest := (earliest_reaching get_random_level).

Local Ltac setters_simpl :=
  unfold set_bottom_graph, set_levels, set_entry_point_id, set_id_space;
  proj_simpl.

Lemma resize_keeps_levels h new_size h' :
  resize h new_size = Ok h' ->
  max_level_ h' = max_level_ h /\
  entry_point_id_ h' = entry_point_id_ h /\
  TotalCount (bottom_graph_ h') = TotalCount (bottom_graph_ h).
Proof.
  unfold resize. intros (p & _ & Hk)%bind_Ok_inv. revert Hk.
  case (_ <? _); intros [= <-]; done.
Qed.

Lemma connect_route_layers_keeps_levels data fc id n : forall h param h' ep,
  connect_route_layers default_mode h data fc id n param = Ok (h', ep) ->
  max_level_ h' = max_level_ h /\
  entry_point_id_ h' = entry_point_id_ h /\
  bottom_graph_ h' = bottom_graph_ h.
Proof.
  induction n as [|j IH]; intros h param h' ep.
  - simpl. by intros [= <- _].
  - cbn [connect_route_layers].
    intros (g & _ & Hk)%bind_Ok_inv.
    apply bind_Ok_inv in Hk as ([g' ep'] & _ & Hk).
    apply IH in Hk as (Hm & He & Hb). revert Hm He Hb. by setters_simpl.
Qed.

Lemma add_one_point_keeps_levels h data level id h' :
  add_one_point default_mode default_radius_ h data level id = Ok h' ->
  max_level_ h' = max_level_ h /\
  entry_point_id_ h' = entry_point_id_ h /\
  TotalCount (bottom_graph_ h') = S (TotalCount (bottom_graph_ h)).
Proof.
  unfold add_one_point.
  intros (param & _ & Hk)%bind_Ok_inv.
  apply bind_Ok_inv in Hk as ([h1 ep] & Hc & Hk).
  apply connect_route_layers_keeps_levels in Hc as (Hm & He & Hb).
  apply bind_Ok_inv in Hk as (bottom & Hbot & Hk).
  injection Hk as <-. setters_simpl. split; [done|]. split; [done|].
  rewrite <- Hb. unfold TotalCount, IncreaseTotalCount. cbn [total_count_].
  assert (Ht : total_count_ bottom = total_count_ (bottom_graph_ h1)).
  { revert Hbot. case (negb _).
    - intros (result & _ & Hk)%bind_Ok_inv.
      apply bind_Ok_inv in Hk as (codec & _ & Hk). revert Hk.
      destruct (mutually_connect_new_element _ _ _ _) as [adj ?].
      by intros [= <-].
    - by intros [= <-]. }
  rewrite Ht. lia.
Qed.

Hypothesis levels_are_ints : forall id, Z.of_nat (get_random_level id) < 2 ^ 31.

Lemma highest_is_int n : Z.of_nat (highest n) < 2 ^ 31.
Proof.
  destruct n as [|n]; [done|].
  destruct (highest_attained get_random_level (S n) ltac:(lia))
    as (id & _ & <-).
  apply levels_are_ints.
Qed.

Lemma build_func_tracks_levels ids datas cur_count n : forall i h h',
  TotalCount (bottom_graph_ h) = (i + cur_count)%nat ->
  tracks_levels get_random_level h ->
  build_func default_mode default_radius_ get_random_level ids datas
    cur_count n i h = Ok h' ->
  TotalCount (bottom_graph_ h') = (i + n + cur_count)%nat /\
  tracks_levels get_random_level h'.
Proof.
  induction n as [|n IH]; intros i h h' Hcount Htracks.
  - simpl. intros [= <-]. split; [lia|done].
  - cbn [build_func].
    intros (label & _ & Hk)%bind_Ok_inv.
    apply bind_Ok_inv in Hk as (? & _ & Hk).
    apply bind_Ok_inv in Hk as (h1 & Hstep & Hk).
    apply IH in Hk as [Hc Ht]; [split; [lia|done]| |].
    + revert Hstep. setters_simpl.
      case (_ || _).
      * intros (h2 & Ha & Hset)%bind_Ok_inv. injection Hset as <-.
        apply add_one_point_keeps_levels in Ha as (_ & _ & Hb).
        revert Hb. setters_simpl. intros ->. lia.
      * intros (_ & _ & ->)%add_one_point_keeps_levels. setters_simpl. lia.
    + revert Hstep. setters_simpl. rewrite Hcount.
      set (c := (i + cur_count)%nat) in *.
      pose proof (highest_is_int c) as Hint.
      pose proof (levels_are_ints c) as Hint'.
      destruct (_ || _) eqn:Hcond.
      * intros (h2 & Ha & Hset)%bind_Ok_inv. injection Hset as <-.
        apply add_one_point_keeps_levels in Ha as (Hm & _ & Hb).
        revert Hm Hb. setters_simpl. intros Hm Hb.
        unfold tracks_levels. setters_simpl. rewrite Hb, Hcount. intros _.
        rewrite Hm. apply orb_true_iff in Hcond as [Hle|Hzero].
        -- destruct (decide (c = O)) as [Hc0|Hc0].
           ++ rewrite Hc0. rewrite earliest_first. split; [|done].
              unfold highest_level_drawn. simpl. lia.
           ++ destruct (Htracks ltac:(lia)) as [Hmax _].
              rewrite Hcount in Hmax. rewrite Hmax in Hle.
              apply Z.leb_le in Hle. unfold sint64, wrap64 in Hle.
              rewrite Z.mod_small in Hle by lia.
              destruct (_ <? _) eqn:E in Hle;
                [|apply Z.ltb_ge in E; lia].
              rewrite highest_S, earliest_S_higher by lia. split; lia.
        -- apply Nat.eqb_eq in Hzero.
           rewrite Hzero. rewrite earliest_first. split; [|done].
           unfold highest_level_drawn. simpl. lia.
      * apply orb_false_iff in Hcond as [Hle Hzero].
        apply Nat.eqb_neq in Hzero.
        destruct (Htracks ltac:(lia)) as [Hmax Hep].
        rewrite Hcount in Hmax, Hep. rewrite Hmax in Hle.
        apply Z.leb_gt in Hle. unfold sint64, wrap64 in Hle.
        rewrite Z.mod_small in Hle by lia.
        destruct (_ <? _) eqn:E in Hle; [|apply Z.ltb_ge in E; lia].
        intros (Hm & He & Hb)%add_one_point_keeps_levels.
        revert Hm He Hb. setters_simpl. intros Hm He Hb.
        unfold tracks_levels. rewrite Hb, Hcount. intros _.
        rewrite Hm, He, Hmax, Hep.
        rewrite highest_S, earliest_S_not_higher by lia. split; [lia|done].
Qed.



End LevelBookkeeping.

(** ** What the constructor and [Add] establish *)

Section BuiltProps.
Context {Codec Extra : Type}.
Context `{!FlattenInterface Codec} `{!ExtraInfoInterface Extra}.
Context `{!GraphInterface} `{!PruningStrategy Codec}.
Implicit Types h : HGraph Codec Extra.
Variable default_mode : InnerSearchMode.
Variable default_radius_ : Q.
Variable FromJson : string -> outcome HGraphSearchParameters.
Variable BitsetOrCallbackFilter : (LabelType -> bool) -> LabelType -> bool.
Variable get_random_level : InnerIdType -> nat.
Variable build_thread_count_ : Z.
Variable pool_schedule : HGraph Codec Extra -> Dataset -> list nat.
Hypothesis levels_are_ints : forall id, Z.of_nat (get_random_level id) < 2 ^ 31.

Local Ltac setters_simpl :=
  unfold set_bottom_graph, set_levels, set_entry_point_id, set_id_space,
    set_codecs;
  proj_simpl.

Lemma same_shape_refl h : same_shape h h.
Proof. by repeat split. Qed.

Lemma same_shape_trans h1 h2 h3 :
  same_shape h1 h2 -> same_shape h2 h3 -> same_shape h1 h3.
Proof.
  intros (?&?&?&?&?&?) (?&?&?&?&?&?). repeat split; congruence.
Qed.

Lemma same_shape_consistent h h' :
  same_shape h h' -> consistent h -> consistent h'.
Proof.
  intros (Hm & Hl & Hu & He & Hp & Hx). unfold consistent.
  by rewrite Hm, Hl, Hu, He, Hp, Hx.
Qed.

Lemma resize_same_shape h new_size h' :
  resize h new_size = Ok h' -> same_shape h h'.
Proof.
  unfold resize. intros (p & _ & Hk)%bind_Ok_inv. revert Hk.
  case (_ <? _); intros [= <-]; by repeat split.
Qed.

Lemma connect_route_layers_same_shape data fc id n : forall h param h' ep,
  connect_route_layers default_mode h data fc id n param = Ok (h', ep) ->
  same_shape h h'.
Proof.
  induction n as [|j IH]; intros h param h' ep.
  - simpl. intros [= <- _]. apply same_shape_refl.
  - cbn [connect_route_layers].
    intros (g & _ & Hk)%bind_Ok_inv.
    apply bind_Ok_inv in Hk as ([g' ep'] & _ & Hk).
    apply IH in Hk. eapply same_shape_trans; [|exact Hk].
    repeat split. setters_simpl. apply length_insert.
Qed.

Lemma add_one_point_same_shape h data level id h' :
  add_one_point default_mode default_radius_ h data level id = Ok h' ->
  same_shape h h'.
Proof.
  unfold add_one_point.
  intros (param & _ & Hk)%bind_Ok_inv.
  apply bind_Ok_inv in Hk as ([h1 ep] & Hc & Hk).
  apply connect_route_layers_same_shape in Hc.
  apply bind_Ok_inv in Hk as (bottom & _ & Hk).
  injection Hk as <-. eapply same_shape_trans; [exact Hc|]. by repeat split.
Qed.

Lemma build_func_as_built ids datas cur_count n : forall i h h',
  as_built h ->
  build_func default_mode default_radius_ get_random_level ids datas
    cur_count n i h = Ok h' ->
  as_built h' /\
  use_reorder_ h' = use_reorder_ h /\
  extra_info_size_ h' = extra_info_size_ h /\
  high_precise_codes_ h' = high_precise_codes_ h /\
  extra_infos_ h' = extra_infos_ h.
Proof.
  induction n as [|n IH]; intros i h h' Hbuilt.
  - simpl. by intros [= <-].
  - cbn [build_func].
    intros (label & _ & Hk)%bind_Ok_inv.
    apply bind_Ok_inv in Hk as (? & _ & Hk).
    apply bind_Ok_inv in Hk as (h1 & Hstep & Hk).
    cut (as_built h1 /\
         use_reorder_ h1 = use_reorder_ h /\
         extra_info_size_ h1 = extra_info_size_ h /\
         high_precise_codes_ h1 = high_precise_codes_ h /\
         extra_infos_ h1 = extra_infos_ h).
    { intros (Hb1 & Hu & He & Hp & Hx).
      apply IH in Hk as (Hb' & Hu' & He' & Hp' & Hx'); [|done].
      repeat split; [apply Hb'|apply Hb'|apply Hb'|apply Hb'|apply Hb'
                    |apply Hb'|apply Hb'|congruence..]. }
    clear Hk IH. revert Hstep. setters_simpl.
    destruct Hbuilt as ((Hrange & Hlen & Hpre & Hext) & Hint & Hzero).
    pose proof (levels_are_ints (i + cur_count)%nat) as Hlevel.
    set (level := Z.of_nat (get_random_level (i + cur_count)%nat) - 1) in *.
    assert (Hs : sint64 (max_level_ h) = max_level_ h).
    { unfold sint64, wrap64. rewrite Z.mod_small by lia.
      destruct (Z.ltb_spec (max_level_ h) (2 ^ 63)); [done|lia]. }
    rewrite Hs.
    destruct (_ || _) eqn:Hcond.
    + intros (h2 & Ha & Hset)%bind_Ok_inv. injection Hset as <-.
      pose proof (add_one_point_keeps_levels _ _ _ _ _ _ _ Ha)
        as (_ & _ & Hcount).
      apply add_one_point_same_shape in Ha
        as (Hm2 & Hl2 & Hu2 & He2 & Hp2 & Hx2).
      revert Hm2 Hl2 Hu2 He2 Hp2 Hx2 Hcount. setters_simpl.
      intros Hm2 Hl2 Hu2 He2 Hp2 Hx2 Hcount.
      assert (Hfresh : Z.to_nat (level + 1)
                       = (length (route_graphs_ h) +
                          Z.to_nat (level - max_level_ h + 1))%nat).
      { apply orb_true_iff in Hcond as [Hle|Hz].
        - apply Z.leb_le in Hle. lia.
        - apply Nat.eqb_eq in Hz. rewrite (Hzero Hz) in *. lia. }
      unfold as_built, consistent. setters_simpl.
      rewrite Hm2, Hl2, Hu2, He2, Hp2, Hx2, Hcount.
      rewrite length_app, length_replicate.
      repeat split; try done; try lia.
    + intros Ha.
      pose proof (add_one_point_keeps_levels _ _ _ _ _ _ _ Ha)
        as (_ & _ & Hcount).
      apply add_one_point_same_shape in Ha
        as (Hm2 & Hl2 & Hu2 & He2 & Hp2 & Hx2).
      revert Hm2 Hl2 Hu2 He2 Hp2 Hx2 Hcount. setters_simpl.
      intros Hm2 Hl2 Hu2 He2 Hp2 Hx2 Hcount.
      unfold as_built, consistent.
      rewrite Hm2, Hl2, Hu2, He2, Hp2, Hx2, Hcount.
      repeat split; try done; try lia.
Qed.

Lemma build_in_order_as_built ids datas cur_count order : forall h h',
  as_built h ->
  build_in_order default_mode default_radius_ get_random_level ids datas
    cur_count order h = Ok h' ->
  as_built h' /\
  use_reorder_ h' = use_reorder_ h /\
  extra_info_size_ h' = extra_info_size_ h /\
  high_precise_codes_ h' = high_precise_codes_ h /\
  extra_infos_ h' = extra_infos_ h.
Proof.
  induction order as [|i order IH]; intros h h' Hbuilt.
  - simpl. by intros [= <-].
  - cbn [build_in_order]. intros (h1 & Hstep & Hk)%bind_Ok_inv.
    apply build_func_as_built in Hstep as (Hb1 & Hu & He & Hp & Hx); [|done].
    apply IH in Hk as (Hb' & Hu' & He' & Hp' & Hx'); [|done].
    split; [done|]. repeat split; congruence.
Qed.

Lemma hnsw_add_as_built h data h' :
  as_built h ->
  hnsw_add default_mode default_radius_ get_random_level
    build_thread_count_ pool_schedule h data = Ok h' ->
  as_built h' /\
  use_reorder_ h' = use_reorder_ h /\
  extra_info_size_ h' = extra_info_size_ h /\
  high_precise_codes_ h' = high_precise_codes_ h /\
  extra_infos_ h' = extra_infos_ h.
Proof.
  intros Hbuilt. unfold hnsw_add.
  intros (datas & _ & Hk)%bind_Ok_inv.
  apply bind_Ok_inv in Hk as (h1 & Hr & Hk).
  pose proof (resize_keeps_levels _ _ _ Hr) as (_ & _ & Hcount).
  apply resize_same_shape in Hr.
  assert (Hbuilt1 : as_built h1).
  { destruct Hbuilt as (Hc & Hint & Hzero).
    split; [by eapply same_shape_consistent|].
    destruct Hr as (Hm&?&?&?&?&?). rewrite Hm, Hcount. done. }
  assert (Hrun : as_built h' /\
                 use_reorder_ h' = use_reorder_ h1 /\
                 extra_info_size_ h' = extra_info_size_ h1 /\
                 high_precise_codes_ h' = high_precise_codes_ h1 /\
                 extra_infos_ h' = extra_infos_ h1).
  { destruct (1 <? build_thread_count_).
    - by eapply build_in_order_as_built.
    - by eapply build_func_as_built. }
  destruct Hrun as (Hb & Hu & He & Hp & Hx).
  destruct Hr as (?&?&?&?&?&?). repeat split; try apply Hb; congruence.
Qed.

Lemma add_datasets_as_built datasets : forall h h',
  as_built h ->
  add_datasets default_mode default_radius_ get_random_level
    build_thread_count_ pool_schedule h datasets
    = Ok h' ->
  as_built h'.
Proof.
  induction datasets as [|data rest IH]; intros h h' Hbuilt.
  - simpl. by intros [= <-].
  - cbn [add_datasets].
    intros (vectors & _ & Hk)%bind_Ok_inv.
    apply bind_Ok_inv in Hk as (precise & Hprecise & Hk).
    apply bind_Ok_inv in Hk as (h1 & Hadd & Hk).
    apply bind_Ok_inv in Hk as (h2 & Hextra & Hk).
    apply IH in Hk; [done|]. clear IH.
    destruct Hbuilt as ((Hrange & Hlen & Hpre & Hext) & Hint & Hzero).
    apply hnsw_add_as_built in Hadd
      as (((Hrange1 & Hlen1 & Hpre1 & Hext1) & Hint1 & Hzero1)
          & Hu & He & Hp & Hx).
    + revert Hu He Hp Hx. setters_simpl. intros Hu He Hp Hx.
      revert Hextra. destruct (0 <? extra_info_size_ h1) eqn:E.
      * intros (e & _ & [= <-])%bind_Ok_inv.
        unfold as_built, consistent. setters_simpl. rewrite E.
        repeat split; try done; try lia.
      * intros [= <-]. unfold as_built, consistent. rewrite E.
        repeat split; try done; try lia.
    + unfold as_built, consistent. setters_simpl.
      repeat split; try done; try lia.
      revert Hprecise Hpre. destruct (use_reorder_ h).
      * intros (c & _ & [= <-])%bind_Ok_inv. done.
      * by intros [= <-].
Qed.

Lemma Add_as_built h data failed h' :
  as_built h ->
  Add default_mode default_radius_ get_random_level
    build_thread_count_ pool_schedule h data
    = Ok (failed, h') ->
  as_built h'.
Proof.
  intros Hbuilt. unfold Add.
  intros (? & _ & Hk)%bind_Ok_inv.
  apply bind_Ok_inv in Hk as (? & _ & Hk).
  apply bind_Ok_inv in Hk as ([datasets failed0] & _ & Hk).
  apply bind_Ok_inv in Hk as (h1 & Hadd & [= _ <-]).
  by eapply add_datasets_as_built.
Qed.
End BuiltProps.

Section NewProps.
Context {Codec Extra : Type}.
Context `{!FlattenInterface Codec} `{!ExtraInfoInterface Extra}.
Context `{!GraphInterface}.

Lemma HGraph_new_as_built dim metric use_reorder ef_construction
    extra_info_size resize_bit mult (basic precise : Codec) bottom
    (extra : Extra) h :
  HGraph_new dim metric use_reorder ef_construction extra_info_size
    resize_bit mult basic precise bottom extra = Ok h ->
  as_built h.
Proof.
  unfold HGraph_new. intros Hr.
  pose proof (resize_same_shape _ _ _ Hr) as Hs.
  split; [eapply same_shape_consistent; [exact Hs|]|].
  - unfold consistent. proj_simpl.
    repeat split; try done; [by destruct use_reorder|by case (_ <? _)].
  - destruct Hs as (-> & _). proj_simpl. split; [done|done].
Qed.
End NewProps.

(** ** The concrete world, continued *)

Lemma after_duplicate_built :
  Add KNN_SEARCH_MODE 0%Q (fun _ => O) 1 OneDim.in_turn OneDim.blank
    (OneDim.points [1; 2; 1] [0%Q; 5%Q; 9%Q])
  = Ok ([1], OneDim.after_duplicate).
Proof. vm_compute. reflexivity. Qed.


(** Without a duplicate in the batch, the list that [Add] hands back is
    not empty: it holds the sentinel of line 852, the number of elements,
    because the early return of lines 854-857 comes before the
    [pop_back] of line 873. *)
Lemma Add_without_duplicates_returns_count :
  Add KNN_SEARCH_MODE 0%Q (fun _ => O) 1 OneDim.in_turn OneDim.blank
    (OneDim.points [7; 8] [0%Q; 5%Q])
  = Ok ([2], OneDim.two_points).
Proof. vm_compute. reflexivity. Qed.

(** With [ef_search = 1], a [limited_size] of 2 makes the traversal keep
    two candidates, exactly as [ef_search = 2] does without a limit; with
    no limit and [ef_search = 1] it keeps one. *)
Lemma limited_size_widens_the_beam :
  let search parameters limited_size :=
    result_ids <$>
      RangeSearch KNN_SEARCH_MODE 0%Q OneDim.toy_FromJson OneDim.two_points
        (OneDim.query_at 0) 100%Q parameters None limited_size in
  search "1" (-1) = Ok [7] /\
  search "1" 2 = Ok [7; 8] /\
  search "2" (-1) = Ok [7; 8].
Proof. vm_compute. done. Qed.

(** ** Claims about adding points, run *)

(** C2 (what [Add] returns), as stated, on scenario S3.  The batch
    [(1, v1), (2, v2), (1, v3)] has its duplicate at input index 2, and
    [Add] returns the list [1], the label found there, not [2]. *)
Lemma Add_S3_returns_the_label_not_the_index :
  exists failed h',
    Add KNN_SEARCH_MODE 0%Q (fun _ => O) 1 OneDim.in_turn OneDim.blank
      (OneDim.points [1; 2; 1] [0%Q; 5%Q; 9%Q]) = Ok (failed, h') /\
    rejected_indices (label_lookup_ OneDim.blank) [1; 2; 1] = [2%nat] /\
    failed = [1] /\
    failed <> [2].
Proof.
  exists [1], OneDim.after_duplicate.
  split; [exact after_duplicate_built|].
  split; [vm_compute; reflexivity|]. split; [reflexivity|discriminate].
Qed.

Lemma Add_returns_labels_of_duplicates_witness :
  [1] = rejected_labels (label_lookup_ OneDim.blank)
          (Ids (OneDim.points [1; 2; 1] [0%Q; 5%Q; 9%Q])).
Proof.
  apply (Add_returns_labels_of_duplicates KNN_SEARCH_MODE 0%Q (fun _ => O)
           1 OneDim.in_turn
           OneDim.blank (OneDim.points [1; 2; 1] [0%Q; 5%Q; 9%Q])
           [1] OneDim.after_duplicate).
  - reflexivity.
  - vm_compute. reflexivity.
  - vm_compute. discriminate.
  - exact after_duplicate_built.
Defined.

Lemma RangeSearch_beam_width_is_max_witness :
  RangeSearch KNN_SEARCH_MODE 0%Q OneDim.toy_FromJson OneDim.two_points
    (OneDim.query_at 0) 100%Q "1" None 2
  = (search_result ←
       search_one_graph OneDim.two_points KNN_SEARCH_MODE [0%Q]
         (bottom_graph_ OneDim.two_points)
         (Some (basic_flatten_codes_ OneDim.two_points))
         {| HGraphSearch.ep_ := 0%nat;
            HGraphSearch.ef_ := Z.max (ef_search {| ef_search := 1 |}) 2;
            HGraphSearch.is_id_allowed_ := None;
            HGraphSearch.radius_ := 100%Q |};
     search_result ←
       (if use_reorder_ OneDim.two_points
        then reorder [0%Q] (high_precise_codes_ OneDim.two_points)
               search_result 2
        else Ok search_result);
     emit_result OneDim.two_points
       (if 0 <? 2
        then pop_while_larger (wrap64 2) search_result
        else search_result)) /\
  forall parameters' params',
    OneDim.toy_FromJson parameters' = Ok params' ->
    Z.max (ef_search params') 2 = Z.max (ef_search {| ef_search := 1 |}) 2 ->
    RangeSearch KNN_SEARCH_MODE 0%Q OneDim.toy_FromJson OneDim.two_points
      (OneDim.query_at 0) 100%Q parameters' None 2
    = RangeSearch KNN_SEARCH_MODE 0%Q OneDim.toy_FromJson OneDim.two_points
        (OneDim.query_at 0) 100%Q "1" None 2.
Proof.
  apply (RangeSearch_beam_width_is_max KNN_SEARCH_MODE 0%Q
           OneDim.toy_FromJson
           OneDim.two_points (OneDim.query_at 0) [0%Q] 100%Q "1"
           {| ef_search := 1 |} None 2
           {| HGraphSearch.ep_ := 0%nat;
              HGraphSearch.ef_ := 1;
              HGraphSearch.is_id_allowed_ := None;
              HGraphSearch.radius_ := 0%Q |}).
  - reflexivity.
  - vm_compute. discriminate.
  - reflexivity.
  - lia.
  - reflexivity.
  - reflexivity.
  - reflexivity.
Defined.



(** C3 does not extend to a pool of workers.  The same two points, in
    an index that builds with two workers: worker 0 is given the point
    with inner id 0 and worker 1 the point with inner id 1.  When worker
    1 comes first to [add_mutex] it finds the index empty and makes its
    point the entry point; the point of worker 0 draws the same level,
    which is not above [max_level_] any more, and the entry point stays
    1, although 0 is the smallest inner id that drew the highest level. *)
Lemma pool_entry_point_follows_the_schedule :
  exists h',
    hnsw_add_all KNN_SEARCH_MODE 0%Q OneDim.both_draw_one 2
      OneDim.second_first OneDim.trained
      [OneDim.points [7; 8] [0%Q; 5%Q]] = Ok h' /\
    TotalCount (bottom_graph_ h') = 2%nat /\
    max_level_ h' = 1 /\
    earliest_reaching OneDim.both_draw_one (TotalCount (bottom_graph_ h'))
      = 0%nat /\
    entry_point_id_ h' = 1%nat.
Proof.
  eexists. split; [vm_compute; reflexivity|]. vm_compute. done.
Qed.

(** * Further properties of the code *)

(** ** What the searchers return *)

Lemma emplace_Permutation d id (h : MaxHeap) :
  Heap.emplace d id h ≡ₚ (d, id) :: h.
Proof.
  induction h as [|y h IH]; simpl; [done|].
  destruct (Qle_bool y.1 d); [done|]. rewrite IH. apply Permutation_swap.
Qed.

Lemma Forall_submseteq {A} (P : A -> Prop) (l k : list A) :
  l ⊆+ k -> Forall P k -> Forall P l.
Proof.
  intros Hsub Hall. apply Forall_forall. intros x Hx.
  eapply (proj1 (Forall_forall P k)); [done|]. by eapply elem_of_submseteq.
Qed.

Lemma NoDup_submseteq_inv {A} (l k : list A) : l ⊆+ k -> NoDup k -> NoDup l.
Proof.
  intros (k' & Hk)%submseteq_Permutation Hnd. rewrite Hk in Hnd.
  by apply NoDup_app in Hnd as [? _].
Qed.

Lemma pop_submseteq (h h' : MaxHeap) : Heap.pop h = Ok h' -> h' ⊆+ h.
Proof. destruct h; [discriminate|]. intros [= <-]. by apply submseteq_cons. Qed.

Lemma pop_while_larger_submseteq k (h : MaxHeap) : pop_while_larger k h ⊆+ h.
Proof.
  induction h as [|x h IH]; [done|]. cbn [pop_while_larger].
  destruct (_ <? _); [by apply submseteq_cons|done].
Qed.

Lemma pop_while_beyond_submseteq bound (h : MaxHeap) :
  pop_while_beyond bound h ⊆+ h.
Proof.
  induction h as [|x h IH]; [done|]. cbn [pop_while_beyond].
  destruct (Qltb _ _); [by apply submseteq_cons|done].
Qed.

Lemma pop_while_larger_size k (h : MaxHeap) :
  0 <= k -> Heap.size (pop_while_larger k h) <= k.
Proof.
  intros Hk. induction h as [|x h IH]; [unfold Heap.size; simpl; lia|].
  cbn [pop_while_larger].
  destruct (Z.ltb_spec k (Heap.size (x :: h))); [done|lia].
Qed.

Section HGraphSearchResults.
Variable mode : InnerSearchMode.
Variable computer : InnerIdType -> Q.
Variable get_label : InnerIdType -> option LabelType.
Variable graph : GraphCell.
Variable param : HGraphSearch.InnerSearchParam.

Local Abbreviation allowed :=
  (fun x : Heap.item => HGraphSearch.id_allowed get_label param x.2 = Ok true).
Local Abbreviation beam := (Z.max (wrap64 (HGraphSearch.ef_ param)) 1).

(** One step of [relax], opened up. *)
Lemma HGraphSearch_relax_step id rest cand res lb cand' res' lb' :
  HGraphSearch.relax mode computer get_label param (id :: rest) cand res lb
    = Ok (cand', res', lb') ->
  exists cand1 res1 lb1,
    HGraphSearch.relax mode computer get_label param rest cand1 res1 lb1
      = Ok (cand', res', lb') /\
    res1 ⊆+ scored computer id :: res /\
    (Forall allowed res -> Forall allowed res1) /\
    (is_knn mode = true -> Heap.size res <= beam -> Heap.size res1 <= beam).
Proof.
  cbn [HGraphSearch.relax].
  destruct (_ || _ || _); [|intros Hrec; exists cand, res, lb;
    split; [done|]; split; [by apply submseteq_cons|done]].
  destruct (HGraphSearch.id_allowed get_label param id) as [ok|] eqn:Hok;
    [|discriminate]. cbn [mbind outcome_bind].
  set (res1 := if ok then _ else _).
  assert (H1 : res1 ⊆+ scored computer id :: res).
  { subst res1. destruct ok; [|by apply submseteq_cons].
    by rewrite emplace_Permutation. }
  assert (H2 : Forall allowed res -> Forall allowed res1).
  { subst res1. destruct ok; [|done]. intros Hall.
    by apply Forall_emplace. }
  assert (H3 : Heap.size res1 <= Heap.size res + 1).
  { subst res1. unfold Heap.size. destruct ok; [rewrite length_emplace|]; lia. }
  destruct (is_knn mode && _) eqn:Hk.
  - destruct (Heap.pop res1) as [res2|] eqn:Hpop; [|discriminate].
    cbn [mbind outcome_bind]. intros Hrec. eexists _, res2, _.
    split; [exact Hrec|].
    pose proof (pop_submseteq _ _ Hpop) as Hsub.
    split; [by etrans|]. split.
    + intros Hall. eapply Forall_submseteq; [exact Hsub|]. by apply H2.
    + intros _ Hsize. destruct res1; [discriminate|]. injection Hpop as <-.
      unfold Heap.size in *. simpl in *. lia.
  - cbn [mbind outcome_bind]. intros Hrec. eexists _, res1, _.
    split; [exact Hrec|]. split; [done|]. split; [done|].
    intros Hknn Hsize. rewrite Hknn in Hk. simpl in Hk.
    apply Z.ltb_ge in Hk. lia.
Qed.

Lemma HGraphSearch_relax_result tbv : forall cand res lb cand' res' lb',
  HGraphSearch.relax mode computer get_label param tbv cand res lb
    = Ok (cand', res', lb') ->
  res' ⊆+ res ++ (scored computer <$> tbv) /\
  (Forall allowed res -> Forall allowed res') /\
  (is_knn mode = true -> Heap.size res <= beam -> Heap.size res' <= beam).
Proof.
  induction tbv as [|id rest IH]; intros cand res lb cand' res' lb'.
  - simpl. intros [= _ <- _]. by rewrite app_nil_r.
  - intros (cand1 & res1 & lb1 & Hrec & Hsub & Hall & Hsize)
      %HGraphSearch_relax_step.
    apply IH in Hrec as (Hsub' & Hall' & Hsize').
    split; [|split; [tauto|tauto]].
    etrans; [exact Hsub'|]. rewrite fmap_cons.
    rewrite <- Permutation_middle. rewrite app_comm_cons.
    by apply submseteq_app; [|done].
Qed.

Lemma HGraphSearch_search_loop_result fuel : forall cand res lb vl log res',
  HGraphSearch.search_loop mode computer get_label graph param fuel
    cand res lb vl = (log, Ok res') ->
  res' ⊆+ res ++ (scored computer <$> log) /\
  (Forall allowed res -> Forall allowed res') /\
  (is_knn mode = true -> Heap.size res <= beam -> Heap.size res' <= beam).
Proof.
  induction fuel as [|fuel IH]; intros cand res lb vl log res';
    destruct cand as [|c cand]; cbn [HGraphSearch.search_loop].
  - intros [= <- <-]. by rewrite app_nil_r.
  - destruct (_ && _ && _); [|discriminate].
    intros [= <- <-]. by rewrite app_nil_r.
  - intros [= <- <-]. by rewrite app_nil_r.
  - destruct (_ && _ && _); [intros [= <- <-]; by rewrite app_nil_r|].
    destruct (HGraphSearch.collect_unvisited _ _ _ _) as [[tbv vl']|];
      [|discriminate].
    destruct (HGraphSearch.relax _ _ _ _ _ _ _ _) as [[[cand1 res1] lb1]|]
      eqn:Hrelax; [|discriminate].
    apply HGraphSearch_relax_result in Hrelax as (Hsub & Hall & Hsize).
    specialize (IH cand1 res1 lb1 vl').
    destruct (HGraphSearch.search_loop _ _ _ _ _ _ _ _ _ _) as [log1 r].
    intros [= <- ->]. destruct (IH _ _ eq_refl) as (Hsub' & Hall' & Hsize').
    split; [|split; [tauto|tauto]].
    etrans; [exact Hsub'|]. rewrite fmap_app, app_assoc.
    by apply submseteq_app.
Qed.

Lemma HGraphSearch_search_init_result vl cand res lb vl' :
  HGraphSearch.search_init mode computer get_label param vl
    = Ok (cand, res, lb, vl') ->
  res ⊆+ [scored computer (HGraphSearch.ep_ param)] /\
  Forall allowed res.
Proof.
  unfold HGraphSearch.search_init.
  destruct (HGraphSearch.id_allowed get_label param (HGraphSearch.ep_ param))
    as [ok|] eqn:Hok; [|discriminate]. cbn [mbind outcome_bind].
  assert (Hep : ok = true -> allowed (scored computer (HGraphSearch.ep_ param)))
    by (by intros ->).
  destruct ok, (is_range mode && _); cbn [Heap.pop mbind outcome_bind];
    try discriminate;
    destruct (vl_Set vl _); cbn [mbind outcome_bind]; try discriminate;
    intros [= _ <- _ _];
    (split; [first [done | apply submseteq_nil_l]|]);
    first [done | by constructor; [apply Hep|]].
Qed.

Lemma HGraphSearch_search_one_graph_result vl log res :
  HGraphSearch.search_one_graph mode computer get_label graph param vl
    = (log, Ok res) ->
  res ⊆+ scored computer <$> log /\
  Forall allowed res /\
  (is_knn mode = true -> Heap.size res <= beam).
Proof.
  unfold HGraphSearch.search_one_graph.
  destruct (HGraphSearch.search_init _ _ _ _ _) as [[[[cand res0] lb] vl']|]
    eqn:Hinit; [|discriminate].
  apply HGraphSearch_search_init_result in Hinit as [Hsub0 Hall0].
  destruct (HGraphSearch.search_loop _ _ _ _ _ _ _ _ _ _) as [log1 r] eqn:Hloop.
  intros [= <- ->].
  apply HGraphSearch_search_loop_result in Hloop as (Hsub & Hall & Hsize).
  split; [|split; [tauto|]].
  - etrans; [exact Hsub|]. rewrite fmap_cons.
    change (?x :: ?l) with ([x] ++ l). by apply submseteq_app.
  - intros Hknn. apply Hsize; [done|].
    apply submseteq_length in Hsub0. unfold Heap.size. simpl in Hsub0. lia.
Qed.
End HGraphSearchResults.

Section BasicSearcherResults.
Variable prefetch : nat.
Variable mode : InnerSearchMode.
Variable param : BasicSearcher.InnerSearchParam.
Variable computer : InnerIdType -> Q.

Local Abbreviation allowed :=
  (fun x : Heap.item => BasicSearcher.id_allowed param x.2 = true).
Local Abbreviation beam := (Z.max (wrap64 (BasicSearcher.ef param)) 1).

Lemma BasicSearcher_relax_step id rest cand res lb cand' res' lb' :
  BasicSearcher.relax mode param computer (id :: rest) cand res lb
    = Ok (cand', res', lb') ->
  exists cand1 res1 lb1,
    BasicSearcher.relax mode param computer rest cand1 res1 lb1
      = Ok (cand', res', lb') /\
    res1 ⊆+ scored computer id :: res /\
    (Forall allowed res -> Forall allowed res1) /\
    (is_knn mode = true -> Heap.size res <= beam -> Heap.size res1 <= beam).
Proof.
  cbn [BasicSearcher.relax].
  destruct (_ || _ || _); [|intros Hrec; exists cand, res, lb;
    split; [done|]; split; [by apply submseteq_cons|done]].
  destruct (BasicSearcher.id_allowed param id) eqn:Hok.
  - set (res1 := Heap.emplace (computer id) id res).
    assert (H1 : res1 ⊆+ scored computer id :: res)
      by (subst res1; by rewrite emplace_Permutation).
    assert (H2 : Forall allowed res -> Forall allowed res1)
      by (intros Hall; subst res1; apply Forall_emplace; split;
          [exact Hok|done]).
    assert (H3 : Heap.size res1 <= Heap.size res + 1)
      by (subst res1; unfold Heap.size; rewrite length_emplace; lia).
    destruct (is_knn mode && _) eqn:Hk.
    + destruct (Heap.pop res1) as [res2|] eqn:Hpop; [|discriminate].
      cbn [mbind outcome_bind]. intros Hrec. eexists _, res2, _.
      split; [exact Hrec|].
      pose proof (pop_submseteq _ _ Hpop) as Hsub.
      split; [by etrans|]. split.
      * intros Hall. eapply Forall_submseteq; [exact Hsub|]. by apply H2.
      * intros _ Hsize. destruct res1; [discriminate|]. injection Hpop as <-.
        unfold Heap.size in *. simpl in *. lia.
    + cbn [mbind outcome_bind]. intros Hrec. eexists _, res1, _.
      split; [exact Hrec|]. split; [done|]. split; [done|].
      intros Hknn Hsize. rewrite Hknn in Hk. simpl in Hk.
      apply Z.ltb_ge in Hk. lia.
  - destruct (is_knn mode && _) eqn:Hk.
    + destruct (Heap.pop res) as [res2|] eqn:Hpop; [|discriminate].
      cbn [mbind outcome_bind]. intros Hrec. eexists _, res2, _.
      split; [exact Hrec|].
      pose proof (pop_submseteq _ _ Hpop) as Hsub.
      split; [etrans; [exact Hsub|by apply submseteq_cons]|]. split.
      * intros Hall. by eapply Forall_submseteq.
      * intros _ Hsize. apply submseteq_length in Hsub.
        unfold Heap.size in *. lia.
    + cbn [mbind outcome_bind]. intros Hrec. eexists _, res, _.
      split; [exact Hrec|]. split; [by apply submseteq_cons|done].
Qed.

Lemma BasicSearcher_relax_result tbv : forall cand res lb cand' res' lb',
  BasicSearcher.relax mode param computer tbv cand res lb
    = Ok (cand', res', lb') ->
  res' ⊆+ res ++ (scored computer <$> tbv) /\
  (Forall allowed res -> Forall allowed res') /\
  (is_knn mode = true -> Heap.size res <= beam -> Heap.size res' <= beam).
Proof.
  induction tbv as [|id rest IH]; intros cand res lb cand' res' lb'.
  - simpl. intros [= _ <- _]. by rewrite app_nil_r.
  - intros (cand1 & res1 & lb1 & Hrec & Hsub & Hall & Hsize)
      %BasicSearcher_relax_step.
    apply IH in Hrec as (Hsub' & Hall' & Hsize').
    split; [|split; [tauto|tauto]].
    etrans; [exact Hsub'|]. rewrite fmap_cons.
    rewrite <- Permutation_middle. rewrite app_comm_cons.
    by apply submseteq_app; [|done].
Qed.

Lemma BasicSearcher_search_loop_result g fuel :
  forall cand res lb vl log res',
  BasicSearcher.search_loop prefetch mode param g computer fuel
    cand res lb vl = (log, Ok res') ->
  res' ⊆+ res ++ (scored computer <$> log) /\
  (Forall allowed res -> Forall allowed res') /\
  (is_knn mode = true -> Heap.size res <= beam -> Heap.size res' <= beam).
Proof.
  induction fuel as [|fuel IH]; intros cand res lb vl log res';
    destruct cand as [|c cand]; cbn [BasicSearcher.search_loop].
  - intros [= <- <-]. by rewrite app_nil_r.
  - destruct (_ && _ && _); [|discriminate].
    intros [= <- <-]. by rewrite app_nil_r.
  - intros [= <- <-]. by rewrite app_nil_r.
  - destruct (_ && _ && _); [intros [= <- <-]; by rewrite app_nil_r|].
    destruct (BasicSearcher.visit _ _ _ _) as [[tbv vl']|];
      [|discriminate].
    destruct (BasicSearcher.relax _ _ _ _ _ _ _) as [[[cand1 res1] lb1]|]
      eqn:Hrelax; [|discriminate].
    apply BasicSearcher_relax_result in Hrelax as (Hsub & Hall & Hsize).
    specialize (IH cand1 res1 lb1 vl').
    destruct (BasicSearcher.search_loop _ _ _ _ _ _ _ _ _ _) as [log1 r].
    intros [= <- ->]. destruct (IH _ _ eq_refl) as (Hsub' & Hall' & Hsize').
    split; [|split; [tauto|tauto]].
    etrans; [exact Hsub'|]. rewrite fmap_app, app_assoc.
    by apply submseteq_app.
Qed.

Lemma BasicSearcher_search_init_result vl cand res lb vl' :
  BasicSearcher.search_init mode param computer vl
    = Ok (cand, res, lb, vl') ->
  res ⊆+ [scored computer (BasicSearcher.ep param)] /\
  Forall allowed res.
Proof.
  unfold BasicSearcher.search_init.
  destruct (BasicSearcher.id_allowed param (BasicSearcher.ep param)) eqn:Hok;
    destruct (is_range mode && _ && _);
    cbn [Heap.pop mbind outcome_bind]; try discriminate;
    destruct (vl_Set vl _); cbn [mbind outcome_bind]; try discriminate;
    intros [= _ <- _ _];
    (split; [first [done | apply submseteq_nil_l]|]);
    first [done | by constructor].
Qed.

Lemma post_process_submseteq res :
  BasicSearcher.post_process mode param res ⊆+ res.
Proof.
  unfold BasicSearcher.post_process. destruct mode.
  - apply pop_while_larger_submseteq.
  - etrans; [apply pop_while_beyond_submseteq|].
    destruct (0 <? _); [apply pop_while_larger_submseteq|done].
Qed.

Lemma BasicSearcher_search_impl_result g vl log res :
  BasicSearcher.search_impl prefetch mode (Some g) (Some computer) param vl
    = (log, Ok res) ->
  res ⊆+ scored computer <$> log /\
  Forall allowed res /\
  (is_knn mode = true ->
   Heap.size res <= beam /\ Heap.size res <= wrap64 (BasicSearcher.topk param)).
Proof.
  unfold BasicSearcher.search_impl.
  destruct (BasicSearcher.search_init _ _ _ _) as [[[[cand res0] lb] vl']|]
    eqn:Hinit; [|discriminate].
  apply BasicSearcher_search_init_result in Hinit as [Hsub0 Hall0].
  destruct (BasicSearcher.search_loop _ _ _ _ _ _ _ _ _ _) as [log1 [r|]]
    eqn:Hloop; [|discriminate].
  cbn [fmap outcome_fmap]. intros [= <- <-].
  apply BasicSearcher_search_loop_result in Hloop as (Hsub & Hall & Hsize).
  pose proof (post_process_submseteq r) as Hpost.
  split; [|split].
  - etrans; [exact Hpost|]. etrans; [exact Hsub|]. rewrite fmap_cons.
    change (?x :: ?l) with ([x] ++ l). by apply submseteq_app.
  - eapply Forall_submseteq; [exact Hpost|]. by apply Hall.
  - intros Hknn. split.
    + apply submseteq_length in Hpost.
      assert (Heap.size r <= beam); [|unfold Heap.size in *; lia].
      apply Hsize; [done|].
      apply submseteq_length in Hsub0. unfold Heap.size. simpl in Hsub0. lia.
    + unfold BasicSearcher.post_process. destruct mode; [|discriminate].
      apply pop_while_larger_size. unfold wrap64.
      apply Z.mod_pos_bound. lia.
Qed.
End BasicSearcherResults.

Lemma scored_ids computer (log : list InnerIdType) :
  (scored computer <$> log).*2 = log.
Proof.
  induction log as [|id log IH]; [done|].
  rewrite !fmap_cons. by f_equal.
Qed.

Lemma NoDup_result_ids computer (res : MaxHeap) (log : list InnerIdType) :
  res ⊆+ scored computer <$> log -> NoDup log -> NoDup res.*2.
Proof.
  intros Hsub Hnd. eapply NoDup_submseteq_inv; [|exact Hnd].
  apply (fmap_submseteq snd) in Hsub. by rewrite scored_ids in Hsub.
Qed.

(** X1.  What [HGraph::search_one_graph] returns is a sub-multiset of the
    ids it handed to [Codec.Query], each paired with the distance reported
    for it: a returned pair never carries a distance of another id or an
    id that was not scored, and no id is returned twice. *)
Theorem search_one_graph_returns_scored_ids mode computer get_label graph
    param vl log res :
  HGraphSearch.search_one_graph mode computer get_label graph param vl
    = (log, Ok res) ->
  res ⊆+ scored computer <$> log /\ NoDup res.*2.
Proof.
  intros Hrun.
  pose proof (HGraphSearch_search_one_graph_once mode computer get_label
                graph param vl) as Hnd.
  rewrite Hrun in Hnd.
  apply HGraphSearch_search_one_graph_result in Hrun as (Hsub & _ & _).
  split; [done|]. by eapply NoDup_result_ids.
Qed.

Lemma search_one_graph_returns_scored_ids_witness :
  [(36%Q, 2%nat); (9%Q, 0%nat)]
    ⊆+ scored Sample.computer <$> [0%nat; 1%nat; 2%nat] /\
  NoDup ([(36%Q, 2%nat); (9%Q, 0%nat)] : MaxHeap).*2.
Proof.
  apply (search_one_graph_returns_scored_ids KNN_SEARCH_MODE Sample.computer
           Sample.get_label Sample.graph Sample.hgraph_param
           (getFreeVisitedList 8)).
  vm_compute. reflexivity.
Defined.

(** X2.  [HGraph::search_one_graph] respects the filter: every id it
    returns has a label, and the filter admits that label (with a null
    filter every id is admitted). *)
Theorem search_one_graph_respects_filter mode computer get_label graph
    param vl log res :
  HGraphSearch.search_one_graph mode computer get_label graph param vl
    = (log, Ok res) ->
  Forall (fun x : Heap.item =>
            match HGraphSearch.is_id_allowed_ param with
            | None => True
            | Some f => exists l, get_label x.2 = Some l /\ f l = true
            end) res.
Proof.
  intros (_ & Hall & _)%HGraphSearch_search_one_graph_result.
  eapply Forall_impl; [exact Hall|]. intros [d id].
  unfold HGraphSearch.id_allowed. simpl.
  destruct (HGraphSearch.is_id_allowed_ param) as [f|]; [|done].
  destruct (get_label id) as [l|]; [|discriminate].
  simpl. intros [= Hf]. by exists l.
Qed.

Lemma search_one_graph_respects_filter_witness :
  Forall (fun x : Heap.item =>
            exists l, Sample.get_label x.2 = Some l /\ negb (l =? 8) = true)
         [(36%Q, 2%nat); (9%Q, 0%nat)].
Proof.
  apply (search_one_graph_respects_filter KNN_SEARCH_MODE Sample.computer
           Sample.get_label Sample.graph Sample.hgraph_param
           (getFreeVisitedList 8) [0%nat; 1%nat; 2%nat]).
  vm_compute. reflexivity.
Defined.

(** X3.  In KNN mode [HGraph::search_one_graph] returns at most [ef]
    results, [ef] read as the [size_t] it is compared with; the one
    exception is [ef = 0], where the entry point alone may be returned. *)
Theorem search_one_graph_knn_at_most_ef computer get_label graph param vl
    log res :
  HGraphSearch.search_one_graph KNN_SEARCH_MODE computer get_label graph
    param vl = (log, Ok res) ->
  Heap.size res <= Z.max (wrap64 (HGraphSearch.ef_ param)) 1.
Proof.
  intros (_ & _ & Hsize)%HGraphSearch_search_one_graph_result.
  by apply Hsize.
Qed.

Lemma search_one_graph_knn_at_most_ef_witness :
  Heap.size [(36%Q, 2%nat); (9%Q, 0%nat)]
    <= Z.max (wrap64 (HGraphSearch.ef_ Sample.hgraph_param)) 1.
Proof.
  apply (search_one_graph_knn_at_most_ef Sample.computer Sample.get_label
           Sample.graph Sample.hgraph_param (getFreeVisitedList 8)
           [0%nat; 1%nat; 2%nat]).
  vm_compute. reflexivity.
Defined.

(** X4.  What [BasicSearcher::search_impl] returns is a sub-multiset of
    the ids it handed to [Codec.Query], each paired with the distance
    reported for it; no id is returned twice, and every returned id passed
    [CheckValid]. *)
Theorem search_impl_returns_scored_valid_ids prefetch mode g computer param
    vl log res :
  BasicSearcher.search_impl prefetch mode (Some g) (Some computer) param vl
    = (log, Ok res) ->
  res ⊆+ scored computer <$> log /\
  NoDup res.*2 /\
  Forall (fun x : Heap.item => BasicSearcher.id_allowed param x.2 = true) res.
Proof.
  intros Hrun.
  pose proof (BasicSearcher_search_impl_once prefetch mode (Some g)
                (Some computer) param vl) as Hnd.
  rewrite Hrun in Hnd.
  apply BasicSearcher_search_impl_result in Hrun as (Hsub & Hall & _).
  split; [done|]. split; [by eapply NoDup_result_ids|done].
Qed.

Lemma search_impl_returns_scored_valid_ids_witness :
  ([(9%Q, 0%nat)] : MaxHeap)
    ⊆+ scored Sample.computer <$> [0%nat; 1%nat; 2%nat] /\
  NoDup ([(9%Q, 0%nat)] : MaxHeap).*2 /\
  Forall (fun x : Heap.item =>
            BasicSearcher.id_allowed Sample.basic_param x.2 = true)
         [(9%Q, 0%nat)].
Proof.
  apply (search_impl_returns_scored_valid_ids 1 KNN_SEARCH_MODE Sample.graph
           Sample.computer Sample.basic_param (getFreeVisitedList 8)).
  vm_compute. reflexivity.
Defined.

(** X5.  The sizes of what [BasicSearcher::search_impl] returns: in KNN
    mode at most [topk] results; in RANGE mode at most
    [range_search_limit_size] when that limit is positive, and none
    farther than [radius + THRESHOLD_ERROR]. *)
Theorem search_impl_result_bounds prefetch mode g computer param vl log
    res :
  BasicSearcher.search_impl prefetch mode (Some g) (Some computer) param vl
    = (log, Ok res) ->
  match mode with
  | KNN_SEARCH_MODE => Heap.size res <= wrap64 (BasicSearcher.topk param)
  | RANGE_SEARCH_MODE =>
      (0 < BasicSearcher.range_search_limit_size param ->
       Heap.size res
         <= wrap64 (BasicSearcher.range_search_limit_size param)) /\
      Forall (fun x : Heap.item =>
                (x.1 <= BasicSearcher.radius param + THRESHOLD_ERROR)%Q) res
  end.
Proof.
  intros Hrun. destruct mode.
  - apply BasicSearcher_search_impl_result in Hrun as (_ & _ & Hsize).
    by apply Hsize.
  - split.
    + intros Hlimit. revert Hrun. unfold BasicSearcher.search_impl.
      destruct (BasicSearcher.search_init _ _ _ _) as [[[[? ?] ?] ?]|];
        [|discriminate].
      destruct (BasicSearcher.search_loop _ _ _ _ _ _ _ _ _ _) as [? [r|]];
        [|discriminate].
      cbn [fmap outcome_fmap]. intros [= _ <-].
      unfold BasicSearcher.post_process.
      apply Z.ltb_lt in Hlimit. rewrite Hlimit.
      pose proof (pop_while_beyond_submseteq
                    (BasicSearcher.radius param + THRESHOLD_ERROR)
                    (pop_while_larger
                       (wrap64 (BasicSearcher.range_search_limit_size param))
                       r)) as Hsub.
      apply submseteq_length in Hsub.
      pose proof (pop_while_larger_size
                    (wrap64 (BasicSearcher.range_search_limit_size param)) r
                    (wrap64_nonneg _)) as Hle.
      unfold Heap.size in *. lia.
    + eapply BasicSearcher_range_within_radius. by rewrite Hrun.
Qed.

Lemma search_impl_result_bounds_witness :
  (0 < BasicSearcher.range_search_limit_size Sample.basic_param ->
   Heap.size [(9%Q, 0%nat)]
     <= wrap64 (BasicSearcher.range_search_limit_size Sample.basic_param)) /\
  Forall (fun x : Heap.item =>
            (x.1 <= BasicSearcher.radius Sample.basic_param
                    + THRESHOLD_ERROR)%Q) [(9%Q, 0%nat)].
Proof.
  apply (search_impl_result_bounds 1 RANGE_SEARCH_MODE Sample.graph
           Sample.computer Sample.basic_param (getFreeVisitedList 8)
           [0%nat; 1%nat; 2%nat]).
  vm_compute. reflexivity.
Defined.

(** ** How the searchers can fail *)

Lemma HGraphSearch_id_allowed_fault get_label param id f :
  HGraphSearch.id_allowed get_label param id = Fault f -> f = OutOfBounds.
Proof.
  unfold HGraphSearch.id_allowed.
  destruct (HGraphSearch.is_id_allowed_ param); [|discriminate].
  destruct (get_label id); [discriminate|]. by intros [= <-].
Qed.

Lemma HGraphSearch_relax_out_of_bounds mode computer get_label param tbv f :
  forall cand res lb,
    HGraphSearch.relax mode computer get_label param tbv cand res lb
      = Fault f ->
    f = OutOfBounds.
Proof.
  induction tbv as [|id tbv IH]; intros cand res lb; simpl; [discriminate|].
  destruct (_ || _ || _); [|apply IH].
  destruct (HGraphSearch.id_allowed _ _ _) as [ok|f0] eqn:Ha;
    cbn [mbind outcome_bind];
    [|apply HGraphSearch_id_allowed_fault in Ha as ->; by intros [= <-]].
  set (res1 := if ok then _ else _).
  destruct (is_knn mode && _) eqn:E; cbn [mbind outcome_bind]; [|apply IH].
  apply andb_true_iff in E as [_ E].
  pose proof (pop_nonempty res1 _ (wrap64_nonneg _) E) as Hpop.
  destruct (Heap.pop res1) as [res2|f1] eqn:Hp; cbn [mbind outcome_bind];
    [apply IH|].
  apply pop_fault in Hp as ->. done.
Qed.

Lemma HGraphSearch_search_loop_faults mode computer get_label g param fuel :
  forall cand res lb vl f,
    (HGraphSearch.search_loop mode computer get_label g param fuel
       cand res lb vl).2 = Fault f ->
    f = OutOfBounds \/ f = OutOfFuel.
Proof.
  induction fuel as [|fuel IH]; intros [|c cand] res lb vl f;
    cbn [HGraphSearch.search_loop]; try discriminate.
  - destruct (_ && _ && _); [discriminate|]. intros [= <-]. by right.
  - destruct (_ && _ && _); [discriminate|].
    destruct (HGraphSearch.collect_unvisited _ _ _ _) as [[tbv vl']|f0]
      eqn:Hc.
    + destruct (HGraphSearch.relax _ _ _ _ _ _ _ _) as [[[cand' res'] lb']|f1]
        eqn:Hr.
      * specialize (IH cand' res' lb' vl' f).
        by destruct (HGraphSearch.search_loop _ _ _ _ _ _ _ _ _ _).
      * apply HGraphSearch_relax_out_of_bounds in Hr as ->.
        intros [= <-]. by left.
    + rewrite collect_unvisited_visit_loop in Hc.
      apply visit_loop_fault in Hc as ->. intros [= <-]. by left.
Qed.

Lemma HGraphSearch_knn_faults computer get_label g param vl f :
  (HGraphSearch.search_one_graph KNN_SEARCH_MODE computer get_label g
     param vl).2 = Fault f ->
  f = OutOfBounds.
Proof.
  intros Hrun.
  pose proof (HGraphSearch_terminates KNN_SEARCH_MODE computer get_label g
                param vl) as Hfuel.
  rewrite Hrun in Hfuel. revert Hrun Hfuel.
  unfold HGraphSearch.search_one_graph.
  destruct (HGraphSearch.search_init _ _ _ _ _) as [[[[cand res] lb] vl']|f0]
    eqn:Hinit.
  - pose proof (HGraphSearch_search_loop_faults KNN_SEARCH_MODE computer
                  get_label g param (length (mass vl)) cand res lb vl' f)
      as Hloop.
    destruct (HGraphSearch.search_loop _ _ _ _ _ _ _ _ _ _) as [log r].
    simpl in *. intros Hr Hfuel. destruct (Hloop Hr); congruence.
  - simpl. intros [= ->] _. revert Hinit. unfold HGraphSearch.search_init.
    destruct (HGraphSearch.id_allowed _ _ _) as [ok|f1] eqn:Ha;
      cbn [mbind outcome_bind is_range andb];
      [|apply HGraphSearch_id_allowed_fault in Ha as ->; by intros [= <-]].
    destruct (vl_Set vl _) as [?|f2] eqn:Hs; cbn [mbind outcome_bind];
      [discriminate|].
    apply vl_Set_fault in Hs as ->. by intros [= <-].
Qed.

Lemma BasicSearcher_search_loop_faults prefetch mode param g computer fuel :
  forall cand res lb vl f,
    (BasicSearcher.search_loop prefetch mode param g computer fuel
       cand res lb vl).2 = Fault f ->
    f = OutOfBounds \/ f = PopOnEmptyHeap \/ f = OutOfFuel.
Proof.
  induction fuel as [|fuel IH]; intros [|c cand] res lb vl f;
    cbn [BasicSearcher.search_loop]; try discriminate.
  - destruct (_ && _ && _); [discriminate|]. intros [= <-]. auto.
  - destruct (_ && _ && _); [discriminate|].
    destruct (BasicSearcher.visit _ _ _ _) as [[tbv vl']|f0] eqn:Hv.
    + destruct (BasicSearcher.relax _ _ _ _ _ _ _) as [[[cand' res'] lb']|f1]
        eqn:Hr.
      * specialize (IH cand' res' lb' vl' f).
        by destruct (BasicSearcher.search_loop _ _ _ _ _ _ _ _ _ _).
      * apply BasicSearcher_relax_fault in Hr as ->. intros [= <-]. auto.
    + intros [= <-]. left. revert Hv. unfold BasicSearcher.visit.
      case_decide; [by intros [= <-]|]. apply visit_loop_fault.
Qed.

Lemma BasicSearcher_faults prefetch mode g flatten param vl f :
  (BasicSearcher.search_impl prefetch mode g flatten param vl).2 = Fault f ->
  f = OutOfBounds.
Proof.
  intros Hrun.
  pose proof (BasicSearcher_terminates prefetch mode g flatten param vl)
    as Hfuel.
  pose proof (BasicSearcher_never_pops_empty prefetch mode g flatten param vl)
    as Hpop.
  rewrite Hrun in Hfuel, Hpop. revert Hrun Hfuel Hpop.
  unfold BasicSearcher.search_impl.
  destruct g as [g|]; [|discriminate].
  destruct flatten as [computer|]; [|discriminate].
  destruct (BasicSearcher.search_init _ _ _ _) as [[[[cand res] lb] vl']|f0]
    eqn:Hinit.
  - pose proof (BasicSearcher_search_loop_faults prefetch mode param g
                  computer (length (mass vl)) cand res lb vl' f) as Hloop.
    destruct (BasicSearcher.search_loop _ _ _ _ _ _ _ _ _ _) as [log [r|f1]];
      simpl in *; [discriminate|].
    intros [= ->] Hfuel Hpop. destruct (Hloop eq_refl) as [?|[?|?]]; congruence.
  - simpl. intros [= ->] _ Hpop. revert Hinit.
    unfold BasicSearcher.search_init.
    destruct (if _ && _ && _ then _ else _) as [?|f1] eqn:Hp;
      cbn [mbind outcome_bind].
    + destruct (vl_Set vl _) as [?|f2] eqn:Hs; cbn [mbind outcome_bind];
        [discriminate|].
      apply vl_Set_fault in Hs as ->. by intros [= <-].
    + intros [= <-]. destruct (_ && _ && _); [|discriminate].
      apply pop_fault in Hp. congruence.
Qed.

(** X6.  The stand-alone searcher in either mode, and the searcher of the
    index in KNN mode, test the size of a queue before they pop it: a call
    either returns or ends in an access past the end of a vector (the
    visited list, [to_be_visited] or the labels); it never pops or reads
    an empty queue, and it never runs forever. *)
Theorem searchers_fail_only_out_of_bounds :
  (forall prefetch mode g flatten param vl,
     returns_or_out_of_bounds
       (BasicSearcher.search_impl prefetch mode g flatten param vl).2) /\
  (forall computer get_label g param vl,
     returns_or_out_of_bounds
       (HGraphSearch.search_one_graph KNN_SEARCH_MODE computer get_label g
          param vl).2).
Proof.
  split; intros; unfold returns_or_out_of_bounds.
  - destruct (BasicSearcher.search_impl _ _ _ _ _ _).2 eqn:Hrun; [done|].
    by eapply BasicSearcher_faults.
  - destruct (HGraphSearch.search_one_graph _ _ _ _ _ _).2 eqn:Hrun; [done|].
    by eapply HGraphSearch_knn_faults.
Qed.

(** X7.  [BasicSearcher::visit] prefetches [neighbors[i]] for every
    [i < prefetch_jump_visit_size_] without looking at the length of
    [neighbors] (basic_searcher.cpp, lines 42-44): when the entry point
    has fewer neighbours than that, the search reads past the end of the
    vector right after the entry point has been scored. *)
Theorem search_impl_prefetch_reads_past_neighbors prefetch mode g computer
    param vl :
  (length (GetNeighbors g (BasicSearcher.ep param)) < prefetch)%nat ->
  (BasicSearcher.ep param < length (mass vl))%nat ->
  (computer (BasicSearcher.ep param) <= FLT_MAX)%Q ->
  BasicSearcher.search_impl prefetch mode (Some g) (Some computer) param vl
  = ([BasicSearcher.ep param], Fault OutOfBounds).
Proof.
  intros Hshort Hep Hfinite. unfold BasicSearcher.search_impl.
  unfold BasicSearcher.search_init.
  set (ep := BasicSearcher.ep param) in *. set (d := computer ep) in *.
  destruct (if _ && _ && _ then _ else _) as [res|f] eqn:Hp.
  2:{ exfalso. revert Hp. destruct (BasicSearcher.id_allowed param ep);
        destruct (is_range mode && _); simpl; discriminate. }
  cbn [mbind outcome_bind]. unfold vl_Set. rewrite decide_True by done.
  cbn [mbind outcome_bind Heap.emplace].
  destruct (length (mass vl)) as [|fuel] eqn:Hlen; [lia|].
  cbn [BasicSearcher.search_loop fst snd].
  assert (Hgo : is_knn mode &&
                Qltb (if BasicSearcher.id_allowed param ep then d else FLT_MAX)
                     (- - d) && (Heap.size res =? wrap64 (BasicSearcher.ef param))
                = false).
  { apply andb_false_iff. left. apply andb_false_iff. right.
    unfold Qltb. apply negb_false_iff. apply Qle_bool_iff.
    rewrite Qopp_involutive. destruct (BasicSearcher.id_allowed param ep);
      [apply Qle_refl|done]. }
  rewrite Hgo. unfold BasicSearcher.visit. cbn [snd].
  by rewrite decide_True by done.
Qed.

Lemma search_impl_prefetch_reads_past_neighbors_witness :
  BasicSearcher.search_impl 3 RANGE_SEARCH_MODE (Some Sample.graph)
    (Some Sample.computer) Sample.basic_param (getFreeVisitedList 8)
  = ([BasicSearcher.ep Sample.basic_param], Fault OutOfBounds).
Proof.
  apply (search_impl_prefetch_reads_past_neighbors 3 RANGE_SEARCH_MODE
           Sample.graph Sample.computer Sample.basic_param
           (getFreeVisitedList 8)).
  - vm_compute. lia.
  - vm_compute. lia.
  - vm_compute. discriminate.
Defined.

(** ** Capacity *)

(** X8.  For a shift count up to 30, and as long as the sum does not wrap,
    [next_multiple_of_power_of_two x n] is the least multiple of [2^n]
    that is at least [x]. *)
Theorem next_multiple_of_power_of_two_rounds_up (x n : Z) :
  0 <= n <= 30 -> 0 <= x -> x + 2 ^ n - 1 < 2 ^ 64 ->
  exists r,
    next_multiple_of_power_of_two x n = Ok r /\
    (2 ^ n | r) /\ x <= r /\
    forall m, x <= 2 ^ n * m -> r <= 2 ^ n * m.
Proof.
  intros Hn Hx Hsum. exists (round_up_to_multiple x n).
  split; [by apply next_multiple_of_power_of_two_small|].
  split; [exists ((x + 2 ^ n - 1) / 2 ^ n); unfold round_up_to_multiple; lia|].
  assert (H0 : x <= 2 ^ n * ((x + 2 ^ n - 1) / 2 ^ n)).
  { assert (Hp : 0 < 2 ^ n) by (apply Z.pow_pos_nonneg; lia).
    pose proof (Z.mul_div_le (x + 2 ^ n - 1) (2 ^ n) Hp).
    pose proof (Z.mod_pos_bound (x + 2 ^ n - 1) (2 ^ n) Hp).
    pose proof (Z.div_mod (x + 2 ^ n - 1) (2 ^ n) ltac:(lia)). lia. }
  split; [exact H0|]. intros m Hm.
  apply (round_up_to_multiple_least x n m); [lia|done].
Qed.

Lemma next_multiple_of_power_of_two_rounds_up_witness :
  exists r,
    next_multiple_of_power_of_two 9 3 = Ok r /\
    (2 ^ 3 | r) /\ 9 <= r /\
    forall m, 9 <= 2 ^ 3 * m -> r <= 2 ^ 3 * m.
Proof.
  apply (next_multiple_of_power_of_two_rounds_up 9 3); lia.
Defined.

Section ResizeProps.
Context {Codec Extra : Type}.
Implicit Types h : HGraph Codec Extra.

(** X9.  [resize] never shrinks the index and loses no label: with a
    growth step of at most [2^30], the capacity afterwards is the larger
    of the old capacity and the requested size rounded up to the growth
    step; the labels stored below the new capacity, the label lookup and
    the element count are as before, and after a growth the label vector
    and the visited lists have the new capacity. *)
Theorem resize_grows_and_keeps_labels h new_size h' :
  0 <= resize_increase_count_bit_ h <= 30 ->
  0 <= new_size ->
  new_size + 2 ^ resize_increase_count_bit_ h - 1 < 2 ^ 64 ->
  resize h new_size = Ok h' ->
  max_capacity_ h'
    = Z.max (max_capacity_ h)
        (round_up_to_multiple new_size (resize_increase_count_bit_ h)) /\
  (max_capacity_ h < max_capacity_ h' ->
   length (labels_ h') = Z.to_nat (max_capacity_ h') /\
   pool_ h' = Z.to_nat (max_capacity_ h')) /\
  (forall id l,
     labels_ h !! id = Some l -> (id < Z.to_nat (max_capacity_ h'))%nat ->
     labels_ h' !! id = Some l) /\
  label_lookup_ h' = label_lookup_ h /\
  TotalCount (bottom_graph_ h') = TotalCount (bottom_graph_ h).
Proof.
  intros Hbit Hsize Hsum. unfold resize.
  rewrite next_multiple_of_power_of_two_small by done.
  cbn [mbind outcome_bind].
  set (r := round_up_to_multiple new_size (resize_increase_count_bit_ h)).
  destruct (Z.ltb_spec (max_capacity_ h) r) as [Hlt|Hge]; intros [= <-];
    proj_simpl.
  - split; [lia|]. split; [intros _; by rewrite length_resize|].
    split; [|done]. intros id l Hl Hid. rewrite lookup_resize; [done|done|].
    by eapply lookup_lt_Some.
  - split; [lia|]. split; [lia|]. by split.
Qed.
End ResizeProps.

Lemma resize_grows_and_keeps_labels_witness :
  let h' := OneDim.ok_or OneDim.blank (resize OneDim.blank 9) in
  max_capacity_ h'
    = Z.max (max_capacity_ OneDim.blank)
        (round_up_to_multiple 9 (resize_increase_count_bit_ OneDim.blank)) /\
  (max_capacity_ OneDim.blank < max_capacity_ h' ->
   length (labels_ h') = Z.to_nat (max_capacity_ h') /\
   pool_ h' = Z.to_nat (max_capacity_ h')) /\
  (forall id l,
     labels_ OneDim.blank !! id = Some l ->
     (id < Z.to_nat (max_capacity_ h'))%nat ->
     labels_ h' !! id = Some l) /\
  label_lookup_ h' = label_lookup_ OneDim.blank /\
  TotalCount (bottom_graph_ h') = TotalCount (bottom_graph_ OneDim.blank).
Proof.
  apply (resize_grows_and_keeps_labels OneDim.blank 9).
  - vm_compute. split; discriminate.
  - lia.
  - vm_compute. reflexivity.
  - vm_compute. reflexivity.
Defined.

(** ** Results in order *)

Lemma HGraphSearch_relax_descending mode computer get_label param tbv :
  forall cand res lb cand' res' lb',
    HGraphSearch.relax mode computer get_label param tbv cand res lb
      = Ok (cand', res', lb') ->
    Heap.descending res -> Heap.descending res'.
Proof.
  induction tbv as [|id tbv IH]; intros cand res lb cand' res' lb'; simpl.
  - intros [= _ <- _]. done.
  - destruct (_ || _ || _); [|apply IH].
    destruct (HGraphSearch.id_allowed _ _ _) as [ok|]; [|discriminate].
    cbn [mbind outcome_bind].
    set (res1 := if ok then _ else _).
    destruct (if _ && _ then _ else _) as [res2|] eqn:Hpop;
      [cbn [mbind outcome_bind]|discriminate].
    intros Hrec Hd. eapply IH; [exact Hrec|].
    assert (Hd1 : Heap.descending res1).
    { subst res1. destruct ok; [|done]. by apply emplace_descending. }
    destruct (_ && _); [by eapply pop_descending|]. by injection Hpop as <-.
Qed.

Lemma HGraphSearch_search_loop_descending mode computer get_label g param
    fuel :
  forall cand res lb vl res',
    (HGraphSearch.search_loop mode computer get_label g param fuel
       cand res lb vl).2 = Ok res' ->
    Heap.descending res -> Heap.descending res'.
Proof.
  induction fuel as [|fuel IH]; intros cand res lb vl res';
    destruct cand as [|c cand]; simpl.
  - by intros [= <-].
  - destruct (_ && _ && _); simpl; [by intros [= <-]|discriminate].
  - by intros [= <-].
  - destruct (_ && _ && _); simpl; [by intros [= <-]|].
    destruct (HGraphSearch.collect_unvisited _ _ _ _) as [[tbv vl']|];
      [|discriminate].
    destruct (HGraphSearch.relax _ _ _ _ _ _ _ _) as [[[cand' res1] lb']|]
      eqn:Hrelax; [|discriminate].
    specialize (IH cand' res1 lb' vl' res').
    destruct (HGraphSearch.search_loop _ _ _ _ _ _ _ _ _ _) as [log r].
    simpl in *. intros Hr Hd. apply IH; [done|].
    by eapply HGraphSearch_relax_descending.
Qed.

Lemma HGraphSearch_search_one_graph_descending mode computer get_label g
    param vl res :
  (HGraphSearch.search_one_graph mode computer get_label g param vl).2
    = Ok res ->
  Heap.descending res.
Proof.
  unfold HGraphSearch.search_one_graph.
  destruct (HGraphSearch.search_init _ _ _ _ _) as [[[[cand res0] lb] vl']|]
    eqn:Hinit; [|discriminate].
  assert (Hd0 : Heap.descending res0).
  { apply HGraphSearch_search_init_result in Hinit as [Hsub _].
    apply submseteq_length in Hsub. simpl in Hsub.
    destruct res0 as [|x [|y res0]]; simpl in *; [done| |lia].
    split; [constructor|done]. }
  pose proof (HGraphSearch_search_loop_descending mode computer get_label g
                param (length (mass vl)) cand res0 lb vl' res) as Hloop.
  destruct (HGraphSearch.search_loop _ _ _ _ _ _ _ _ _ _) as [log r].
  simpl in *. intros Hr. by apply Hloop.
Qed.

Lemma ascending_snoc (ds : list Q) (d : Q) :
  ascending ds -> Forall (fun d' => (d' <= d)%Q) ds -> ascending (ds ++ [d]).
Proof.
  induction ds as [|x ds IH]; simpl; [by split; [constructor|]|].
  intros [Hall Hasc] Hle. apply Forall_cons in Hle as [Hx Hle].
  split; [|by apply IH]. apply Forall_app. split; [done|by constructor].
Qed.

Lemma descending_reverse_ascending (h : MaxHeap) :
  Heap.descending h -> ascending (reverse h).*1.
Proof.
  induction h as [|x h IH]; [by constructor|].
  intros [Hall Hd]. rewrite reverse_cons, fmap_app. simpl.
  apply ascending_snoc; [by apply IH|].
  apply Forall_fmap. apply Forall_reverse.
  eapply Forall_impl; [exact Hall|]. done.
Qed.

(** ** reorder *)

Lemma descending_head_bound (x : Heap.item) (h : MaxHeap) :
  Heap.descending (x :: h) -> Forall (fun y : Heap.item => (y.1 <= x.1)%Q) (x :: h).
Proof. intros [Hall _]. constructor; [apply Qle_refl|done]. Qed.

Lemma reorder_refill_spec k scored_ids :
  forall (heap : MaxHeap) (dropped : list Heap.item) res,
    Heap.descending heap ->
    Heap.size heap <= wrap64 k ->
    Forall (fun x : Heap.item =>
              Forall (fun y : Heap.item => (y.1 <= x.1)%Q) heap) dropped ->
    (dropped <> [] -> Heap.size heap = wrap64 k) ->
    reorder_refill k scored_ids heap = Ok res ->
    exists dropped',
      Heap.descending res /\
      Heap.size res <= wrap64 k /\
      res ++ dropped' ≡ₚ heap ++ dropped ++ scored_ids /\
      Forall (fun x : Heap.item =>
                Forall (fun y : Heap.item => (y.1 <= x.1)%Q) res) dropped' /\
      (dropped' <> [] -> Heap.size res = wrap64 k).
Proof.
  induction scored_ids as [|[d id] rest IH];
    intros heap dropped res Hdesc Hsize Hdropped Hfull.
  - simpl. intros [= <-]. exists dropped. rewrite app_nil_r. by repeat split.
  - cbn [reorder_refill].
    destruct (Z.ltb_spec (Heap.size heap) (wrap64 k)) as [Hlt|Hge].
    + cbn [mbind outcome_bind].
      assert (Hnone : dropped = []).
      { destruct dropped; [done|]. specialize (Hfull ltac:(done)). lia. }
      subst dropped.
      assert (Hs1 : Heap.size (Heap.emplace d id heap) = Heap.size heap + 1)
        by (unfold Heap.size; rewrite length_emplace; lia).
      destruct (Z.ltb_spec (wrap64 k) (Heap.size (Heap.emplace d id heap)));
        [lia|].
      cbn [mbind outcome_bind]. intros Hrec.
      apply (IH _ []) in Hrec as (dropped' & Hd & Hs & Hperm & Hall & Hf);
        [|by apply emplace_descending|lia|done|done].
      exists dropped'. repeat split; try done.
      rewrite Hperm, emplace_Permutation. solve_Permutation.
    + destruct heap as [|t heap]; [discriminate|].
      cbn [Heap.top mbind outcome_bind].
      destruct (Qle_bool d t.1) eqn:Hkeep.
      * apply Qle_bool_iff in Hkeep.
        assert (Hs1 : Heap.size (Heap.emplace d id (t :: heap))
                      = Heap.size (t :: heap) + 1)
          by (unfold Heap.size; rewrite length_emplace; lia).
        destruct (Z.ltb_spec (wrap64 k)
                    (Heap.size (Heap.emplace d id (t :: heap)))); [|lia].
        pose proof (emplace_descending d id _ Hdesc) as Hd1.
        pose proof (emplace_Permutation d id (t :: heap)) as Hp1.
        destruct (Heap.emplace d id (t :: heap)) as [|m heap1] eqn:He;
          [discriminate|].
        cbn [Heap.pop mbind outcome_bind]. intros Hrec.
        pose proof (descending_head_bound _ _ Hd1) as Hm.
        apply Forall_cons in Hm as [_ Hm].
        apply (IH _ (m :: dropped)) in Hrec
          as (dropped' & Hd & Hs & Hperm & Hall & Hf).
        -- exists dropped'. repeat split; try done.
           rewrite Hperm.
           etrans; [|etrans;
             [apply (Permutation_app_tail (dropped ++ rest) Hp1)|]];
             solve_Permutation.
        -- apply Hd1.
        -- unfold Heap.size in *. simpl in *. lia.
        -- constructor; [done|].
           eapply Forall_impl; [exact Hdropped|]. intros x Hx.
           apply Forall_cons in Hx as [Hxt Hx].
           assert (Hall1 : Forall (fun y : Heap.item => (y.1 <= x.1)%Q)
                             (m :: heap1)).
           { rewrite Hp1. constructor; [|by constructor].
             simpl. by eapply Qle_trans. }
           by apply Forall_cons in Hall1 as [_ ?].
        -- intros _. unfold Heap.size in *. simpl in *. lia.
      * assert (Hlt : (t.1 < d)%Q).
        { apply Qnot_le_lt. intros Hle. apply Qle_bool_iff in Hle. congruence. }
        destruct (Z.ltb_spec (wrap64 k) (Heap.size (t :: heap))); [lia|].
        cbn [mbind outcome_bind]. intros Hrec.
        apply (IH _ ((d, id) :: dropped)) in Hrec
          as (dropped' & Hd & Hs & Hperm & Hall & Hf).
        -- exists dropped'. repeat split; try done.
           rewrite Hperm. solve_Permutation.
        -- done.
        -- done.
        -- constructor; [|done].
           pose proof (descending_head_bound _ _ Hdesc) as Hb.
           eapply Forall_impl; [exact Hb|]. intros y Hy. simpl.
           apply Qlt_le_weak. eapply Qle_lt_trans; [exact Hy|exact Hlt].
        -- intros _. lia.
Qed.

Section ReorderProps.
Context {Codec : Type} `{!FlattenInterface Codec}.

Lemma reorder_result query (codec : Codec) (heap : MaxHeap) k res :
  k < 2 ^ 63 -> Heap.size heap < 2 ^ 64 ->
  reorder query (Some codec) heap k = Ok res ->
  exists dropped,
    Heap.descending res /\
    res ++ dropped ≡ₚ scored (FactoryComputer codec query) <$> heap.*2 /\
    Heap.size res
      = Z.min (if k <=? 0 then Heap.size heap else k) (Heap.size heap) /\
    Forall (fun x : Heap.item =>
              Forall (fun y : Heap.item => (y.1 <= x.1)%Q) res) dropped.
Proof.
  intros Hk Hn. unfold reorder. cbn [of_option mbind outcome_bind].
  set (k' := if k <=? 0 then Heap.size heap else k).
  assert (Hk' : wrap64 k' = k').
  { unfold wrap64. apply Z.mod_small. subst k'. unfold Heap.size in *.
    destruct (Z.leb_spec k 0); lia. }
  intros Hrec.
  apply (reorder_refill_spec _ _ [] []) in Hrec
    as (dropped & Hd & Hs & Hperm & Hall & Hf);
    [|done|unfold Heap.size; simpl; pose proof (wrap64_nonneg k'); lia
     |done|done].
  simpl in Hperm. rewrite Hk' in *.
  exists dropped. split; [done|]. split; [done|]. split; [|done].
  apply Permutation_length in Hperm.
  rewrite length_app, !length_fmap in Hperm.
  clearbody k'. unfold Heap.size, MaxHeap, Heap.t, Heap.item, InnerIdType in *.
  destruct dropped as [|x dropped]; simpl in Hperm.
  - clear Hf. lia.
  - specialize (Hf ltac:(done)). lia.
Qed.

(** X10.  [reorder] rescored: what it leaves in the heap are candidates
    of the heap it was given, each with the distance the precise codec
    reports for it; there are [min(k, size)] of them ([size] of them when
    [k <= 0]), and no candidate that was dropped is nearer, by the precise
    distance, than one that was kept. *)
Theorem reorder_keeps_the_nearest query (codec : Codec) (heap : MaxHeap) k
    res :
  k < 2 ^ 63 -> Heap.size heap < 2 ^ 64 ->
  reorder query (Some codec) heap k = Ok res ->
  exists dropped,
    res ++ dropped ≡ₚ scored (FactoryComputer codec query) <$> heap.*2 /\
    Heap.size res
      = Z.min (if k <=? 0 then Heap.size heap else k) (Heap.size heap) /\
    Forall (fun x : Heap.item =>
              Forall (fun y : Heap.item => (y.1 <= x.1)%Q) res) dropped.
Proof.
  intros Hk Hn Hrun.
  destruct (reorder_result _ _ _ _ _ Hk Hn Hrun) as (dropped & _ & H).
  by exists dropped.
Qed.
End ReorderProps.

Lemma reorder_keeps_the_nearest_witness :
  exists dropped,
    [(4%Q, 1%nat)] ++ dropped
      ≡ₚ scored (FactoryComputer ([0; 5; 9] : OneDim.Codec) [3%Q])
           <$> ([(36%Q, 2%nat); (9%Q, 0%nat); (4%Q, 1%nat)] : MaxHeap).*2 /\
    Heap.size [(4%Q, 1%nat)]
      = Z.min (if 1 <=? 0
               then Heap.size [(36%Q, 2%nat); (9%Q, 0%nat); (4%Q, 1%nat)]
               else 1)
          (Heap.size [(36%Q, 2%nat); (9%Q, 0%nat); (4%Q, 1%nat)]) /\
    Forall (fun x : Heap.item =>
              Forall (fun y : Heap.item => (y.1 <= x.1)%Q) [(4%Q, 1%nat)])
           dropped.
Proof.
  apply (reorder_keeps_the_nearest [3%Q] ([0; 5; 9] : OneDim.Codec)
           [(36%Q, 2%nat); (9%Q, 0%nat); (4%Q, 1%nat)] 1).
  - lia.
  - vm_compute. reflexivity.
  - vm_compute. reflexivity.
Defined.

(** ** What KnnSearch and RangeSearch return *)

Lemma reorder_refill_weak k scored_ids : forall (heap res : MaxHeap),
  reorder_refill k scored_ids heap = Ok res ->
  (Heap.descending heap -> Heap.descending res) /\
  res ⊆+ heap ++ scored_ids.
Proof.
  induction scored_ids as [|[d id] rest IH]; intros heap res.
  - simpl. intros [= <-]. by rewrite app_nil_r.
  - cbn [reorder_refill].
    destruct (if _ <? _ then _ else _) as [keep|]; [|discriminate].
    cbn [mbind outcome_bind].
    set (heap1 := if keep then _ else _).
    assert (H1 : (Heap.descending heap -> Heap.descending heap1) /\
                 heap1 ⊆+ (d, id) :: heap).
    { subst heap1. destruct keep.
      - split; [apply emplace_descending|by rewrite emplace_Permutation].
      - split; [done|by apply submseteq_cons]. }
    destruct H1 as [Hd1 Hs1].
    destruct (if _ <? _ then _ else _) as [heap2|] eqn:Hpop; [|discriminate].
    cbn [mbind outcome_bind]. intros Hrec.
    apply IH in Hrec as [Hd Hs].
    assert (H2 : (Heap.descending heap1 -> Heap.descending heap2) /\
                 heap2 ⊆+ heap1).
    { destruct (_ <? _).
      - split; [by eapply pop_descending|by apply pop_submseteq].
      - by injection Hpop as <-. }
    destruct H2 as [Hd2 Hs2]. split; [tauto|].
    etrans; [exact Hs|]. rewrite <- Permutation_middle, app_comm_cons.
    apply submseteq_app; [|done]. by etrans.
Qed.

Lemma mapM_outcome_Forall2 {A B} (f : A -> outcome B) (l : list A)
    (ks : list B) :
  mapM f l = Ok ks -> Forall2 (fun x k => f x = Ok k) l ks.
Proof.
  revert ks. induction l as [|x l IH]; intros ks; cbn [mapM].
  - intros [= <-]. constructor.
  - destruct (f x) as [y|] eqn:Hx; [|discriminate]. cbn [mbind outcome_bind].
    destruct (mapM f l) as [ks'|]; [|discriminate].
    cbn [mbind outcome_bind mret outcome_ret]. intros [= <-].
    constructor; [done|by apply IH].
Qed.

Section SearchResults.
Context {Codec Extra : Type}.
Context `{!FlattenInterface Codec} `{!ExtraInfoInterface Extra}.
Implicit Types h : HGraph Codec Extra.
Variable GetNumElements : HGraph Codec Extra -> Z.
Variable default_mode : InnerSearchMode.
Variable default_radius_ : Q.
Variable FromJson : string -> outcome HGraphSearchParameters.
Variable BitsetOrCallbackFilter : (LabelType -> bool) -> LabelType -> bool.

Lemma search_one_graph_member_result h mode q g codec param res :
  search_one_graph h mode q g (Some codec) param = Ok res ->
  Heap.descending res /\
  Forall (fun x : Heap.item =>
            HGraphSearch.id_allowed (get_label_by_id h) param x.2 = Ok true)
         res.
Proof.
  unfold search_one_graph. cbn [of_option mbind outcome_bind].
  intros Hrun. split.
  - by eapply HGraphSearch_search_one_graph_descending.
  - destruct (HGraphSearch.search_one_graph _ _ _ _ _ _) as [log r] eqn:Hr.
    simpl in Hrun. subst r.
    by apply HGraphSearch_search_one_graph_result in Hr as (_ & ? & _).
Qed.

Lemma reorder_member_result q precise (heap : MaxHeap) k res
    (P : InnerIdType -> Prop) :
  reorder q precise heap k = Ok res ->
  Heap.descending res /\
  (Forall (fun x : Heap.item => P x.2) heap ->
   Forall (fun x : Heap.item => P x.2) res).
Proof.
  unfold reorder. destruct precise as [codec|]; [|discriminate].
  cbn [of_option mbind outcome_bind].
  intros [Hd Hs]%reorder_refill_weak. split; [by apply Hd|].
  intros Hall. eapply Forall_submseteq; [exact Hs|]. simpl.
  apply Forall_fmap. apply Forall_fmap in Hall.
  eapply Forall_impl; [exact Hall|]. done.
Qed.

Lemma emit_result_shape h (heap : MaxHeap) filter param r :
  HGraphSearch.is_id_allowed_ param = filter ->
  Heap.descending heap ->
  Forall (fun x : Heap.item =>
            HGraphSearch.id_allowed (get_label_by_id h) param x.2 = Ok true)
         heap ->
  emit_result h heap = Ok r ->
  length (result_ids r) = length heap /\
  length (result_dists r) = length heap /\
  ascending (result_dists r) /\
  passes filter (result_ids r).
Proof.
  intros Hfilter Hd Hall. unfold emit_result.
  destruct (mapM _ _) as [ids|] eqn:Hids; [|discriminate].
  cbn [mbind outcome_bind].
  destruct (if 0 <? _ then _ else _) as [extra|]; [|discriminate].
  cbn [mbind outcome_bind]. intros [= <-]. cbn [result_ids result_dists].
  apply mapM_outcome_Forall2 in Hids.
  split; [by rewrite <- (Forall2_length _ _ _ Hids), length_reverse|].
  split; [by rewrite length_fmap, length_reverse|].
  split; [by apply descending_reverse_ascending|].
  unfold passes. destruct filter as [f|]; [|done].
  apply Forall_reverse in Hall.
  revert Hids Hall. generalize (reverse heap). intros l Hids.
  induction Hids as [|x k l ks Hx _ IH]; [done|].
  intros [Hax Hal]%Forall_cons. constructor; [|by apply IH].
  revert Hax. unfold HGraphSearch.id_allowed, get_label_by_id.
  rewrite Hfilter. destruct (labels_ h !! x.2) as [l0|]; [|discriminate].
  simpl in *. injection Hx as <-. by intros [= ->].
Qed.

(** X11.  A successful [KnnSearch] returns as many labels as distances,
    at most [min(k, GetNumElements())] of them, in ascending order of
    distance, and every label is admitted by the filter object that
    [KnnSearch] builds from the callback it was given. *)
Theorem KnnSearch_result_shape h query k parameters filter r :
  KnnSearch GetNumElements default_mode default_radius_ FromJson
    BitsetOrCallbackFilter h query k parameters
    filter = Ok r ->
  length (result_ids r) = length (result_dists r) /\
  Z.of_nat (length (result_ids r)) <= wrap64 (Z.min k (GetNumElements h)) /\
  ascending (result_dists r) /\
  passes (BitsetOrCallbackFilter <$> filter) (result_ids r).
Proof.
  unfold KnnSearch.
  intros (_ & _ & Hk)%bind_Ok_inv.
  apply bind_Ok_inv in Hk as (_ & _ & Hk).
  apply bind_Ok_inv in Hk as (_ & _ & Hk).
  apply bind_Ok_inv in Hk as (param & _ & Hk).
  apply bind_Ok_inv in Hk as (params & _ & Hk).
  apply bind_Ok_inv in Hk as (q & _ & Hk).
  apply bind_Ok_inv in Hk as (res & Hsearch & Hk).
  apply bind_Ok_inv in Hk as (res' & Hreorder & Hk).
  apply search_one_graph_member_result in Hsearch as [Hd Hall].
  set (bottom_param := HGraphSearch.Build_InnerSearchParam _ _ _ _) in *.
  assert (H' : Heap.descending res' /\
               Forall (fun x : Heap.item =>
                         HGraphSearch.id_allowed (get_label_by_id h)
                           bottom_param x.2 = Ok true) res').
  { destruct (use_reorder_ h); [|by injection Hreorder as <-].
    apply (reorder_member_result _ _ _ _ _
             (fun id => HGraphSearch.id_allowed (get_label_by_id h)
                          bottom_param id = Ok true)) in Hreorder
      as [? Hkeep].
    split; [done|by apply Hkeep]. }
  destruct H' as [Hd' Hall'].
  set (k' := wrap64 (Z.min k (GetNumElements h))) in *.
  pose proof (pop_while_larger_size k' res' (wrap64_nonneg _)) as Hsize.
  pose proof (pop_while_larger_submseteq k' res') as Hsub.
  pose proof (pop_while_larger_descending k' res' Hd') as Hd''.
  destruct (Heap.empty (pop_while_larger k' res')).
  - revert Hk. intros [= <-]. simpl.
    pose proof (wrap64_nonneg (Z.min k (GetNumElements h))).
    split; [done|]. split; [subst k'; lia|]. split; [done|].
    destruct filter; [constructor|done].
  - apply (emit_result_shape _ _ (BitsetOrCallbackFilter <$> filter)
             bottom_param) in Hk
      as (Hids & Hdists & Hasc & Hpass);
      [|done|done|by eapply Forall_submseteq].
    split; [congruence|]. split; [|done].
    rewrite Hids. unfold Heap.size in Hsize. done.
Qed.

(** X12.  A successful [RangeSearch] returns as many labels as
    distances, at most [limited_size] of them when that limit is positive,
    in ascending order of distance, and every label passed the filter. *)
Theorem RangeSearch_result_shape h query radius parameters filter
    limited_size r :
  RangeSearch default_mode default_radius_ FromJson h query radius parameters
    filter limited_size = Ok r ->
  length (result_ids r) = length (result_dists r) /\
  (0 < limited_size ->
   Z.of_nat (length (result_ids r)) <= wrap64 limited_size) /\
  ascending (result_dists r) /\
  passes filter (result_ids r).
Proof.
  unfold RangeSearch.
  intros (_ & _ & Hk)%bind_Ok_inv.
  apply bind_Ok_inv in Hk as (_ & _ & Hk).
  apply bind_Ok_inv in Hk as (_ & _ & Hk).
  apply bind_Ok_inv in Hk as (_ & _ & Hk).
  apply bind_Ok_inv in Hk as (param & _ & Hk).
  apply bind_Ok_inv in Hk as (params & _ & Hk).
  apply bind_Ok_inv in Hk as (q & _ & Hk).
  apply bind_Ok_inv in Hk as (res & Hsearch & Hk).
  apply bind_Ok_inv in Hk as (res' & Hreorder & Hk).
  apply search_one_graph_member_result in Hsearch as [Hd Hall].
  set (bottom_param := HGraphSearch.Build_InnerSearchParam _ _ _ _) in *.
  assert (H' : Heap.descending res' /\
               Forall (fun x : Heap.item =>
                         HGraphSearch.id_allowed (get_label_by_id h)
                           bottom_param x.2 = Ok true) res').
  { destruct (use_reorder_ h); [|by injection Hreorder as <-].
    apply (reorder_member_result _ _ _ _ _
             (fun id => HGraphSearch.id_allowed (get_label_by_id h)
                          bottom_param id = Ok true)) in Hreorder
      as [? Hkeep].
    split; [done|by apply Hkeep]. }
  destruct H' as [Hd' Hall'].
  pose proof (pop_while_larger_size (wrap64 limited_size) res'
                (wrap64_nonneg _)) as Hsize.
  pose proof (pop_while_larger_submseteq (wrap64 limited_size) res') as Hsub.
  pose proof (pop_while_larger_descending (wrap64 limited_size) res' Hd')
    as Hd''.
  destruct (Z.ltb_spec 0 limited_size) as [Hpos|Hneg].
  - apply (emit_result_shape _ _ filter bottom_param) in Hk
      as (Hids & Hdists & Hasc & Hpass);
      [|done|done|by eapply Forall_submseteq].
    split; [congruence|]. split; [|done].
    intros _. rewrite Hids. unfold Heap.size in Hsize. done.
  - apply (emit_result_shape _ _ filter bottom_param) in Hk
      as (Hids & Hdists & Hasc & Hpass); [|done|done|done].
    split; [congruence|]. split; [lia|done].
Qed.
End SearchResults.

Lemma KnnSearch_result_shape_witness :
  length (result_ids SampleSearch.knn_result)
    = length (result_dists SampleSearch.knn_result) /\
  Z.of_nat (length (result_ids SampleSearch.knn_result))
    <= wrap64 (Z.min 2 (OneDim.toy_num_elements OneDim.two_levels)) /\
  ascending (result_dists SampleSearch.knn_result) /\
  passes (OneDim.toy_filter <$> Some SampleSearch.not_8)
    (result_ids SampleSearch.knn_result).
Proof.
  apply (KnnSearch_result_shape OneDim.toy_num_elements KNN_SEARCH_MODE 0%Q
           OneDim.toy_FromJson OneDim.toy_filter
           OneDim.two_levels (OneDim.query_at 3) 2 "10"
           (Some SampleSearch.not_8)).
  vm_compute. reflexivity.
Defined.

Lemma RangeSearch_result_shape_witness :
  length (result_ids SampleSearch.range_result)
    = length (result_dists SampleSearch.range_result) /\
  (0 < 1 ->
   Z.of_nat (length (result_ids SampleSearch.range_result)) <= wrap64 1) /\
  ascending (result_dists SampleSearch.range_result) /\
  passes (Some SampleSearch.not_8) (result_ids SampleSearch.range_result).
Proof.
  apply (RangeSearch_result_shape KNN_SEARCH_MODE 0%Q OneDim.toy_FromJson
           OneDim.two_levels (OneDim.query_at 3) 100%Q "10"
           (Some SampleSearch.not_8) 1).
  vm_compute. reflexivity.
Defined.

(** ** The id space under Add *)

Section CutRuns.
Variable data : Dataset.
Variable P : nat -> Prop.
Context `{!forall i, Decision (P i)}.

Lemma cut_runs_shift (e : Z) (ends : list Z) (a : nat) (l : LabelType) :
  Ids data !! a = Some l ->
  Z.of_nat a < e ->
  concat (effective_ids <$> cut_runs data (e :: ends) (Z.of_nat a - 1))
  = l :: concat (effective_ids <$> cut_runs data (e :: ends) (Z.of_nat a)).
Proof.
  intros Hl He. cbn [cut_runs].
  destruct (Z.eqb_spec (e - (Z.of_nat a - 1)) 1) as [|_]; [lia|].
  rewrite fmap_cons. cbn [concat]. unfold effective_ids at 1.
  cbn [NumElements Ids].
  replace (Z.to_nat (Z.of_nat a - 1 + 1)) with a by lia.
  rewrite (drop_S _ _ _ Hl).
  replace (Z.to_nat (e - (Z.of_nat a - 1) - 1))
    with (S (Z.to_nat (e - Z.of_nat a - 1))) by lia.
  cbn [take app]. f_equal.
  destruct (Z.eqb_spec (e - Z.of_nat a) 1) as [Heq|Hne].
  - replace (Z.to_nat (e - Z.of_nat a - 1)) with O by lia. by rewrite take_0.
  - rewrite fmap_cons. cbn [concat]. unfold effective_ids at 2.
    cbn [NumElements Ids].
    by replace (Z.to_nat (Z.of_nat a + 1)) with (S a) by lia.
Qed.

(** Cutting at the indices that satisfy [P] leaves, in order, the labels
    at the indices that do not. *)
Lemma cut_runs_filter m : forall a,
  (a + m <= length (Ids data))%nat ->
  concat (effective_ids <$>
            cut_runs data
              ((Z.of_nat <$> filter P (seq a m)) ++ [Z.of_nat (a + m)])
              (Z.of_nat a - 1))
  = omap (fun i => Ids data !! i) (filter (fun i => ~ P i) (seq a m)).
Proof.
  induction m as [|m IH]; intros a Hlen.
  - simpl. replace (Z.of_nat (a + 0)) with (Z.of_nat a) by lia.
    destruct (Z.eqb_spec (Z.of_nat a - (Z.of_nat a - 1)) 1); [done|lia].
  - cbn [seq]. destruct (lookup_lt_is_Some_2 (Ids data) a ltac:(lia))
      as [l Hl].
    replace (Z.of_nat (a + S m)) with (Z.of_nat (S a + m)) by lia.
    destruct (decide (P a)) as [Hp|Hp].
    + rewrite filter_cons_True by done.
      rewrite (filter_cons_False (fun i => ~ P i)) by tauto.
      rewrite fmap_cons. cbn [app cut_runs].
      destruct (Z.eqb_spec (Z.of_nat a - (Z.of_nat a - 1)) 1); [|lia].
      etrans; [|apply (IH (S a)); lia].
      by replace (Z.of_nat (S a) - 1) with (Z.of_nat a) by lia.
    + rewrite filter_cons_False by done.
      rewrite (filter_cons_True (fun i => ~ P i)) by done.
      cbn [omap list_omap]. rewrite Hl.
      rewrite <- (IH (S a)) by lia.
      replace (Z.of_nat (S a) - 1) with (Z.of_nat a) by lia.
      set (F := filter P (seq (S a) m)).
      assert (HF : Forall (fun i => (a < i)%nat) F).
      { apply Forall_forall. intros i [_ Hi]%list_elem_of_filter.
        apply elem_of_seq in Hi. lia. }
      destruct F as [|e F'].
      * cbn [fmap list_fmap app]. apply cut_runs_shift; [done|lia].
      * rewrite fmap_cons. cbn [app]. apply Forall_cons in HF as [He _].
        apply cut_runs_shift; [done|lia].
Qed.

Lemma cut_runs_shift_bounds (e hi : Z) (ends : list Z) (a : nat) :
  Z.of_nat a < e <= hi ->
  Forall (fun d => 0 <= NumElements d <= hi - Z.of_nat a - 1)
         (cut_runs data (e :: ends) (Z.of_nat a)) ->
  Forall (fun d => 0 <= NumElements d <= hi - Z.of_nat a)
         (cut_runs data (e :: ends) (Z.of_nat a - 1)).
Proof.
  intros He. cbn [cut_runs].
  destruct (Z.eqb_spec (e - (Z.of_nat a - 1)) 1) as [|_]; [lia|].
  intros Hall. constructor; [cbn [NumElements]; lia|].
  assert (Htail : Forall (fun d => 0 <= NumElements d <= hi - Z.of_nat a - 1)
                    (cut_runs data ends e)).
  { destruct (_ =? _); [done|]. by apply Forall_cons in Hall as [_ ?]. }
  eapply Forall_impl; [exact Htail|]. simpl. lia.
Qed.

Lemma cut_runs_filter_bounds m : forall a,
  Forall (fun d => 0 <= NumElements d <= Z.of_nat m)
    (cut_runs data
       ((Z.of_nat <$> filter P (seq a m)) ++ [Z.of_nat (a + m)])
       (Z.of_nat a - 1)).
Proof.
  induction m as [|m IH]; intros a.
  - simpl. replace (Z.of_nat (a + 0)) with (Z.of_nat a) by lia.
    destruct (Z.eqb_spec (Z.of_nat a - (Z.of_nat a - 1)) 1); [done|lia].
  - cbn [seq].
    replace (Z.of_nat (a + S m)) with (Z.of_nat (S a + m)) by lia.
    specialize (IH (S a)).
    replace (Z.of_nat (S a) - 1) with (Z.of_nat a) in IH by lia.
    destruct (decide (P a)) as [Hp|Hp].
    + rewrite filter_cons_True by done.
      rewrite fmap_cons. cbn [app cut_runs].
      destruct (Z.eqb_spec (Z.of_nat a - (Z.of_nat a - 1)) 1); [|lia].
      eapply Forall_impl; [exact IH|]. simpl. lia.
    + rewrite filter_cons_False by done.
      set (F := filter P (seq (S a) m)) in *.
      assert (HF : Forall (fun i => (a < i < S a + m)%nat) F).
      { apply Forall_forall. intros i [_ Hi]%list_elem_of_filter.
        apply elem_of_seq in Hi. lia. }
      replace (Z.of_nat (S m))
        with (Z.of_nat (S a + m) - Z.of_nat a) by lia.
      destruct F as [|e F'].
      * cbn [fmap list_fmap app] in *.
        apply cut_runs_shift_bounds; [lia|].
        eapply Forall_impl; [exact IH|]. simpl. lia.
      * rewrite fmap_cons in *. cbn [app] in *.
        apply Forall_cons in HF as [He _].
        apply cut_runs_shift_bounds; [lia|].
        eapply Forall_impl; [exact IH|]. simpl. lia.
Qed.
End CutRuns.

Section AcceptedLabels.
Variable lookup : gmap LabelType InnerIdType.
Variable labels : list LabelType.

Lemma duplicate_at_spec i l :
  labels !! i = Some l ->
  duplicate_at lookup labels i <> true <->
  lookup !! l = None /\ l ∉ take i labels.
Proof.
  intros Hl. unfold duplicate_at. rewrite Hl.
  rewrite not_true_iff_false, orb_false_iff, !bool_decide_eq_false.
  rewrite <- eq_None_not_Some. done.
Qed.

Lemma accepted_prefix m :
  (m <= length labels)%nat ->
  NoDup (omap (fun i => labels !! i)
           (filter (fun i => duplicate_at lookup labels i <> true)
                   (seq 0 m))) /\
  forall l,
    l ∈ omap (fun i => labels !! i)
          (filter (fun i => duplicate_at lookup labels i <> true) (seq 0 m))
    <-> l ∈ take m labels /\ lookup !! l = None.
Proof.
  induction m as [|m IH]; intros Hm.
  - simpl. split; [constructor|]. intros l. rewrite take_0.
    split; [by intros ?%elem_of_nil|by intros [?%elem_of_nil _]].
  - destruct (IH ltac:(lia)) as [Hnd Hel]. clear IH.
    destruct (lookup_lt_is_Some_2 labels m ltac:(lia)) as [lm Hlm].
    rewrite seq_S, filter_app, omap_app. cbn [Nat.add].
    rewrite (take_S_r _ _ _ Hlm).
    destruct (decide (duplicate_at lookup labels m <> true)) as [Hacc|Hdup].
    + rewrite filter_cons_True by done. rewrite filter_nil.
      cbn [omap list_omap]. rewrite Hlm.
      apply (duplicate_at_spec m lm Hlm) in Hacc as [Hfresh Hnew].
      split.
      * apply NoDup_app. split; [done|]. split; [|apply NoDup_singleton].
        intros l Hl ->%list_elem_of_singleton. apply Hel in Hl as [? _].
        done.
      * intros l. rewrite !elem_of_app, Hel, list_elem_of_singleton.
        split; [intros [[? ?]| ->]; auto|].
        intros [[?| ->] ?]; auto.
    + rewrite filter_cons_False by done. rewrite filter_nil, app_nil_r.
      split; [done|]. intros l. rewrite Hel, elem_of_app,
        list_elem_of_singleton.
      split; [intros [? ?]; auto|]. intros [[?| ->] Hfresh]; [done|].
      split; [|done].
      destruct (decide (lm ∈ take m labels)) as [|Hnew]; [done|].
      exfalso. apply Hdup. by apply (duplicate_at_spec m lm Hlm).
Qed.

Lemma accepted_labels_NoDup : NoDup (accepted_labels lookup labels).
Proof. by apply accepted_prefix. Qed.

Lemma elem_of_accepted_labels l :
  l ∈ accepted_labels lookup labels <-> l ∈ labels /\ lookup !! l = None.
Proof.
  unfold accepted_labels, accepted_indices.
  rewrite (proj2 (accepted_prefix (length labels) ltac:(done))).
  by rewrite firstn_all.
Qed.
End AcceptedLabels.

Lemma filter_none_all {A} (P : A -> Prop) `{!forall x, Decision (P x)}
    (l : list A) :
  filter P l = [] -> filter (fun x => ~ P x) l = l.
Proof.
  induction l as [|x l IH]; [done|].
  destruct (decide (P x)).
  - by rewrite filter_cons_True.
  - rewrite filter_cons_False by done. intros Hl.
    rewrite filter_cons_True by done. by rewrite IH.
Qed.

Lemma omap_lookup_seq {A} (l : list A) (a m : nat) :
  (a + m <= length l)%nat ->
  omap (fun i => l !! i) (seq a m) = take m (drop a l).
Proof.
  revert a. induction m as [|m IH]; intros a Hlen; [by rewrite take_0|].
  destruct (lookup_lt_is_Some_2 l a ltac:(lia)) as [x Hx].
  cbn [seq omap list_omap]. rewrite Hx, IH by lia.
  by rewrite (drop_S _ _ _ Hx).
Qed.

Section AddIdSpace.
Context {Codec Extra : Type}.
Context `{!FlattenInterface Codec} `{!ExtraInfoInterface Extra}.
Context `{!GraphInterface} `{!PruningStrategy Codec}.
Implicit Types h : HGraph Codec Extra.
Variable default_mode : InnerSearchMode.
Variable default_radius_ : Q.
Variable FromJson : string -> outcome HGraphSearchParameters.
Variable BitsetOrCallbackFilter : (LabelType -> bool) -> LabelType -> bool.
Variable get_random_level : InnerIdType -> nat.
Variable build_thread_count_ : Z.
Variable pool_schedule : HGraph Codec Extra -> Dataset -> list nat.

Local Ltac setters_simpl :=
  unfold set_bottom_graph, set_levels, set_entry_point_id, set_id_space,
    set_codecs;
  proj_simpl.

Lemma split_dataset_spec h data datasets failed :
  NumElements data = Z.of_nat (length (Ids data)) ->
  Z.of_nat (length (Ids data)) < 2 ^ 64 ->
  split_dataset_by_duplicate_label h data [] = Ok (datasets, failed) ->
  concat (effective_ids <$> datasets)
    = accepted_labels (label_lookup_ h) (Ids data) /\
  Forall (fun d => 0 <= NumElements d <= Z.of_nat (length (Ids data)))
         datasets.
Proof.
  intros Hn Hlt. unfold split_dataset_by_duplicate_label.
  rewrite Hn. unfold wrap64. rewrite Z.mod_small by lia. rewrite Nat2Z.id.
  rewrite scan_duplicates_spec; [|lia|].
  2:{ intros l. by rewrite take_0, elem_of_nil, elem_of_empty. }
  cbn [mbind outcome_bind]. rewrite app_nil_l.
  set (n := length (Ids data)).
  set (F := filter (fun j => duplicate_at (label_lookup_ h) (Ids data) j
                             = true) (seq 0 n)).
  unfold accepted_labels, accepted_indices. fold n.
  destruct (length _ =? 1)%nat eqn:E.
  - apply Nat.eqb_eq in E. rewrite length_app, length_fmap in E.
    simpl in E. assert (HF : F = []) by (destruct F; [done|simpl in E; lia]).
    intros [= <- _]. split.
    + simpl. rewrite app_nil_r. unfold effective_ids. rewrite Hn, Nat2Z.id.
      rewrite (filter_none_all _ _ HF). subst n.
      rewrite omap_lookup_seq by lia. by rewrite drop_0.
    + constructor; [lia|constructor].
  - destruct (mapM _ _); [|discriminate]. cbn [mbind outcome_bind].
    intros [= <- _].
    pose proof (cut_runs_filter data
                  (fun j => duplicate_at (label_lookup_ h) (Ids data) j = true)
                  n O ltac:(fold n; lia)) as Hcut.
    pose proof (cut_runs_filter_bounds data
                  (fun j => duplicate_at (label_lookup_ h) (Ids data) j = true)
                  n O) as Hb.
    split; [exact Hcut|exact Hb].
Qed.

Lemma connect_route_layers_keeps_id_space data fc id n :
  forall h param h' ep,
  connect_route_layers default_mode h data fc id n param = Ok (h', ep) ->
  labels_ h' = labels_ h /\ label_lookup_ h' = label_lookup_ h /\
  max_capacity_ h' = max_capacity_ h.
Proof.
  induction n as [|j IH]; intros h param h' ep.
  - simpl. by intros [= <- _].
  - cbn [connect_route_layers].
    intros (g & _ & Hk)%bind_Ok_inv.
    apply bind_Ok_inv in Hk as ([g' ep'] & _ & Hk).
    by apply IH in Hk.
Qed.

Lemma add_one_point_keeps_id_space h data level id h' :
  add_one_point default_mode default_radius_ h data level id = Ok h' ->
  labels_ h' = labels_ h /\ label_lookup_ h' = label_lookup_ h /\
  max_capacity_ h' = max_capacity_ h.
Proof.
  unfold add_one_point.
  intros (param & _ & Hk)%bind_Ok_inv.
  apply bind_Ok_inv in Hk as ([h1 ep] & Hc & Hk).
  apply connect_route_layers_keeps_id_space in Hc.
  apply bind_Ok_inv in Hk as (bottom & _ & Hk).
  by injection Hk as <-.
Qed.

(** The effect of one iteration of [build_func] on the id space. *)
Lemma build_func_step_id_space h label id h1 :
  id_space h ->
  TotalCount (bottom_graph_ h) = id ->
  (id < length (labels_ h))%nat ->
  label_lookup_ h !! label = None ->
  labels_ h1 = <[id := label]> (labels_ h) ->
  label_lookup_ h1 = <[label := id]> (label_lookup_ h) ->
  max_capacity_ h1 = max_capacity_ h ->
  TotalCount (bottom_graph_ h1) = S id ->
  id_space h1.
Proof.
  intros (Hlen & Hroom & Hspace) Hcount Hid Hfresh Hlabels Hlookup Hcap Hcount1.
  unfold id_space. rewrite Hlabels, Hlookup, Hcap, Hcount1, length_insert.
  split; [done|]. split; [lia|]. intros l i.
  destruct (decide (l = label)) as [->|Hl].
  - rewrite lookup_insert_eq. split.
    + intros [= <-]. split; [lia|]. by rewrite list_lookup_insert_eq.
    + intros [Hi Hli]. destruct (decide (i = id)) as [->|Hne]; [done|].
      rewrite list_lookup_insert_ne in Hli by done.
      assert (Hsome : label_lookup_ h !! label = Some i)
        by (apply Hspace; split; [lia|done]).
      pose proof (eq_trans (eq_sym Hfresh) Hsome). discriminate.
  - rewrite lookup_insert_ne by done. rewrite Hspace, Hcount. split.
    + intros [Hi Hli]. split; [lia|].
      by rewrite list_lookup_insert_ne by lia.
    + intros [Hi Hli]. destruct (decide (i = id)) as [->|Hne].
      * rewrite list_lookup_insert_eq in Hli by done. congruence.
      * rewrite list_lookup_insert_ne in Hli by done. split; [lia|done].
Qed.

Lemma build_func_id_space ids datas cur_count n : forall i h h',
  TotalCount (bottom_graph_ h) = (i + cur_count)%nat ->
  id_space h ->
  NoDup (take n (drop i ids)) ->
  (forall l, l ∈ take n (drop i ids) -> label_lookup_ h !! l = None) ->
  build_func default_mode default_radius_ get_random_level ids datas
    cur_count n i h = Ok h' ->
  id_space h' /\
  TotalCount (bottom_graph_ h') = (i + n + cur_count)%nat /\
  (forall l id, label_lookup_ h !! l = Some id ->
                label_lookup_ h' !! l = Some id) /\
  (forall l, is_Some (label_lookup_ h' !! l) <->
             is_Some (label_lookup_ h !! l) \/ l ∈ take n (drop i ids)) /\
  length (take n (drop i ids)) = n.
Proof.
  induction n as [|n IH]; intros i h h' Hcount Hspace Hnd Hfresh.
  - cbn [build_func]. intros [= <-]. rewrite take_0.
    split; [done|]. split; [lia|]. split; [done|]. split; [|done].
    intros l. rewrite elem_of_nil. tauto.
  - cbn [build_func].
    intros (label & Hlabel & Hk)%bind_Ok_inv.
    apply bind_Ok_inv in Hk as (? & Hroom & Hk).
    apply bind_Ok_inv in Hk as (h1 & Hstep & Hk).
    destruct (ids !! i) as [label0|] eqn:Hi; [|discriminate].
    injection Hlabel as ->.
    rewrite (drop_S _ _ _ Hi), firstn_cons in Hnd.
    assert (Hfresh' : forall l, l = label \/ l ∈ take n (drop (S i) ids) ->
                                label_lookup_ h !! l = None).
    { intros l Hl. apply Hfresh. rewrite (drop_S _ _ _ Hi), firstn_cons.
      by apply elem_of_cons. }
    clear Hfresh.
    apply NoDup_cons in Hnd as [Hnew Hnd].
    case_decide as Hlt; [clear Hroom|discriminate].
    assert (H1 : labels_ h1 = <[(i + cur_count)%nat := label]> (labels_ h) /\
                 label_lookup_ h1
                   = <[label := (i + cur_count)%nat]> (label_lookup_ h) /\
                 max_capacity_ h1 = max_capacity_ h /\
                 TotalCount (bottom_graph_ h1) = S (i + cur_count)).
    { revert Hstep. setters_simpl. case (_ || _).
      - intros (h2 & Ha & Hset)%bind_Ok_inv. injection Hset as <-.
        pose proof (add_one_point_keeps_levels _ _ _ _ _ _ _ Ha)
          as (_ & _ & Hc).
        apply add_one_point_keeps_id_space in Ha as (Hl & Hm & Hcap).
        revert Hl Hm Hcap Hc. setters_simpl. intros -> -> -> ->.
        by rewrite Hcount.
      - intros Ha.
        pose proof (add_one_point_keeps_levels _ _ _ _ _ _ _ Ha)
          as (_ & _ & Hc).
        apply add_one_point_keeps_id_space in Ha as (Hl & Hm & Hcap).
        revert Hl Hm Hcap Hc. setters_simpl. intros -> -> -> ->.
        by rewrite Hcount. }
    destruct H1 as (Hlabels & Hlookup & Hcap & Hcount1).
    assert (Hfresh0 : label_lookup_ h !! label = None)
      by (apply Hfresh'; by left).
    pose proof (build_func_step_id_space h label _ h1 Hspace Hcount Hlt
                  Hfresh0 Hlabels Hlookup Hcap Hcount1) as Hspace1.
    apply IH in Hk as (Hspace' & Hcount' & Hkeep & Hdom & Hlen);
      [|by rewrite Hcount1|done|done|].
    2:{ intros l Hl. rewrite Hlookup.
        rewrite lookup_insert_ne by (intros ->; done).
        apply Hfresh'. by right. }
    split; [done|]. split; [lia|]. split; [|split].
    + intros l id Hl. apply Hkeep. rewrite Hlookup.
      rewrite lookup_insert_ne by (intros ->; congruence). done.
    + intros l. rewrite Hdom, Hlookup, (drop_S _ _ _ Hi), firstn_cons,
        elem_of_cons.
      destruct (decide (l = label)) as [->|Hne].
      * rewrite lookup_insert_eq. split; [auto|]. intros _. by left.
      * rewrite lookup_insert_ne by done. split; [tauto|].
        intros [?|[?|?]]; [tauto|congruence|tauto].
    + rewrite (drop_S _ _ _ Hi), firstn_cons. simpl. by rewrite Hlen.
Qed.

Lemma resize_id_space h new_size h' :
  id_space h ->
  resize h new_size = Ok h' ->
  id_space h' /\
  label_lookup_ h' = label_lookup_ h /\
  TotalCount (bottom_graph_ h') = TotalCount (bottom_graph_ h).
Proof.
  intros (Hlen & Hroom & Hspace). unfold resize.
  intros (p & _ & Hk)%bind_Ok_inv. revert Hk.
  destruct (Z.ltb_spec (max_capacity_ h) p) as [Hlt|Hge]; intros [= <-];
    [|done].
  split; [|done]. unfold id_space. proj_simpl.
  rewrite length_resize. split; [done|].
  unfold TotalCount, Resize in *. cbn [total_count_].
  split; [lia|]. intros l id. rewrite Hspace. split.
  - intros [Hid Hl]. split; [done|]. rewrite lookup_resize; [done|lia|lia].
  - intros [Hid Hl]. split; [done|].
    rewrite lookup_resize in Hl; [done|lia|lia].
Qed.

(** One iteration of [build_func], wherever the element count stands. *)
Lemma build_func_once ids datas cur_count i h h' :
  build_func default_mode default_radius_ get_random_level ids datas
    cur_count 1 i h = Ok h' ->
  exists label,
    ids !! i = Some label /\
    (i + cur_count < length (labels_ h))%nat /\
    labels_ h' = <[(i + cur_count)%nat := label]> (labels_ h) /\
    label_lookup_ h'
      = <[label := (i + cur_count)%nat]> (label_lookup_ h) /\
    max_capacity_ h' = max_capacity_ h /\
    TotalCount (bottom_graph_ h') = S (TotalCount (bottom_graph_ h)).
Proof.
  cbn [build_func].
  intros (label & Hlabel & Hk)%bind_Ok_inv.
  apply bind_Ok_inv in Hk as (? & Hroom & Hk).
  apply bind_Ok_inv in Hk as (h1 & Hstep & [= <-]).
  destruct (ids !! i) as [label0|] eqn:Hi; [|discriminate].
  injection Hlabel as ->. exists label. split; [done|].
  case_decide as Hlt; [clear Hroom|discriminate]. split; [done|].
  revert Hstep. setters_simpl. case (_ || _).
  - intros (h2 & Ha & Hset)%bind_Ok_inv. injection Hset as <-.
    pose proof (add_one_point_keeps_levels _ _ _ _ _ _ _ Ha)
      as (_ & _ & Hc).
    apply add_one_point_keeps_id_space in Ha as (Hl & Hm & Hcap).
    revert Hl Hm Hcap Hc. setters_simpl. by intros -> -> -> ->.
  - intros Ha.
    pose proof (add_one_point_keeps_levels _ _ _ _ _ _ _ Ha)
      as (_ & _ & Hc).
    apply add_one_point_keeps_id_space in Ha as (Hl & Hm & Hcap).
    revert Hl Hm Hcap Hc. setters_simpl. by intros -> -> -> ->.
Qed.

Section AnyOrder.
Variable ids : list LabelType.
Variable datas : list Q.
Variable cur_count n : nat.
Variable h0 : HGraph Codec Extra.
Hypothesis count0 : TotalCount (bottom_graph_ h0) = cur_count.
Hypothesis space0 : id_space h0.
Hypothesis distinct : NoDup (take n ids).
Hypothesis fresh :
  forall l, l ∈ take n ids -> label_lookup_ h0 !! l = None.

Lemma id_space_after_none : id_space_after h0 ids cur_count [] h0.
Proof.
  split; [done|]. split; [done|]. split; [simpl; lia|].
  split; [constructor|]. split.
  - intros l id. split; [by right|].
    by intros [(i & ?%elem_of_nil & _)|?].
  - intros id l. split.
    + intros ?. right. split; [|done]. by intros i ?%elem_of_nil.
    + by intros [(i & ?%elem_of_nil & _)|[_ ?]].
Qed.

Lemma one_index_per_label i j l :
  (i < n)%nat -> (j < n)%nat ->
  ids !! i = Some l -> ids !! j = Some l -> i = j.
Proof.
  intros Hi Hj Hli Hlj.
  apply (NoDup_lookup (take n ids) i j l distinct).
  - apply lookup_take_Some. by split.
  - apply lookup_take_Some. by split.
Qed.

Lemma id_space_after_step ran h i h1 :
  id_space_after h0 ids cur_count ran h ->
  Forall (fun j => (j < n)%nat) ran ->
  (i < n)%nat ->
  i ∉ ran ->
  build_func default_mode default_radius_ get_random_level ids datas
    cur_count 1 i h = Ok h1 ->
  id_space_after h0 ids cur_count (i :: ran) h1.
Proof.
  intros (Hlen & Hcap & Hcount & Hran & Hlookup & Hlabels) Hbelow Hi Hnew.
  intros (label & Hl & Hroom & Hlabels1 & Hlookup1 & Hcap1 & Hcount1)
           %build_func_once.
  rewrite Forall_forall in Hbelow.
  assert (Hfresh : label_lookup_ h0 !! label = None).
  { apply fresh. apply list_elem_of_lookup. exists i.
    apply lookup_take_Some. by split. }
  unfold id_space_after.
  rewrite Hlabels1, Hlookup1, Hcap1, Hcount1, length_insert.
  split; [done|]. split; [done|]. split; [simpl; lia|]. split.
  { constructor; [|done]. split; [by eexists|lia]. }
  split.
  - intros l id. destruct (decide (l = label)) as [->|Hne].
    + rewrite lookup_insert_eq. split.
      * intros [= <-]. left. exists i. split; [by left|done].
      * intros [(j & Hj & Hlj & ->)|Hold].
        -- assert (j = i) as ->; [|done].
           apply elem_of_cons in Hj as [->|Hj]; [done|].
           apply (one_index_per_label j i label); [by apply Hbelow|done..].
        -- pose proof (eq_trans (eq_sym Hfresh) Hold). discriminate.
    + rewrite lookup_insert_ne by done. rewrite Hlookup. split.
      * intros [(j & Hj & Hlj & ->)|Hold]; [|by right].
        left. exists j. split; [by right|done].
      * intros [(j & Hj & Hlj & ->)|Hold]; [|by right].
        apply elem_of_cons in Hj as [->|Hj]; [congruence|].
        left. by exists j.
  - intros id l. destruct (decide (id = (i + cur_count)%nat)) as [->|Hne].
    + rewrite list_lookup_insert_eq by done. split.
      * intros [= <-]. left. exists i. split; [by left|done].
      * intros [(j & Hj & Hlj & Heq)|[Hno _]].
        -- assert (j = i) as -> by lia. congruence.
        -- exfalso. apply (Hno i); [by left|done].
    + rewrite list_lookup_insert_ne by done. rewrite Hlabels. split.
      * intros [(j & Hj & Hlj & ->)|[Hno Hold]].
        -- left. exists j. split; [by right|done].
        -- right. split; [|done].
           intros j [->|Hj]%elem_of_cons; [done|by apply Hno].
      * intros [(j & Hj & Hlj & ->)|[Hno Hold]].
        -- apply elem_of_cons in Hj as [->|Hj]; [done|].
           left. by exists j.
        -- right. split; [|done]. intros j Hj. apply Hno. by right.
Qed.

Lemma build_in_order_id_space_after order : forall ran h h',
  id_space_after h0 ids cur_count ran h ->
  NoDup (ran ++ order) ->
  Forall (fun j => (j < n)%nat) (ran ++ order) ->
  build_in_order default_mode default_radius_ get_random_level ids datas
    cur_count order h = Ok h' ->
  exists ran', ran' ≡ₚ ran ++ order /\
               id_space_after h0 ids cur_count ran' h'.
Proof.
  induction order as [|i order IH]; intros ran h h' Hafter Hnd Hbelow.
  - simpl. intros [= <-]. exists ran. by rewrite app_nil_r.
  - cbn [build_in_order]. intros (h1 & Hstep & Hk)%bind_Ok_inv.
    rewrite <- Permutation_middle in Hnd, Hbelow.
    assert (Hafter1 : id_space_after h0 ids cur_count (i :: ran) h1).
    { apply Forall_cons in Hbelow as [Hi [Hran _]%Forall_app].
      apply NoDup_cons in Hnd as [[Hnew _]%not_elem_of_app _].
      by eapply id_space_after_step. }
    apply (IH (i :: ran)) in Hk as (ran' & Hperm & Hafter');
      [|done|done|done].
    exists ran'. split; [|done]. by rewrite Hperm, <- Permutation_middle.
Qed.

(** When every loop index below [n] has run once, the id space is the one
    that [build_func(0, n)] leaves. *)
Lemma id_space_after_all ran h :
  ran ≡ₚ seq 0 n ->
  id_space_after h0 ids cur_count ran h ->
  id_space h /\
  TotalCount (bottom_graph_ h) = (0 + n + cur_count)%nat /\
  (forall l id, label_lookup_ h0 !! l = Some id ->
                label_lookup_ h !! l = Some id) /\
  (forall l, is_Some (label_lookup_ h !! l) <->
             is_Some (label_lookup_ h0 !! l) \/ l ∈ take n ids) /\
  length (take n ids) = n.
Proof.
  intros Hperm (Hlen & Hcap & Hcount & Hran & Hlookup & Hlabels).
  destruct space0 as (Hlen0 & Hroom0 & Hspace0).
  assert (Hin : forall i, i ∈ ran <-> (i < n)%nat).
  { intros i. rewrite Hperm, elem_of_seq. lia. }
  assert (Hn : length ran = n) by (by rewrite Hperm, length_seq).
  rewrite Forall_forall in Hran.
  assert (Hfit : (n <= length ids /\ cur_count + n <= length (labels_ h0))
                 %nat).
  { destruct n as [|m] eqn:En; [split; lia|].
    destruct (Hran m) as [[l Hl%lookup_lt_Some] ?]; [apply Hin; lia|].
    split; lia. }
  split; [|split; [lia|split; [|split]]].
  - unfold id_space. rewrite Hlen, Hcap, Hcount, Hn.
    split; [done|]. split; [lia|]. intros l id.
    rewrite Hlookup, Hlabels. split.
    + intros [(i & Hi & Hl & ->)|Hold].
      * split; [apply Hin in Hi; lia|]. left. by exists i.
      * apply Hspace0 in Hold as [Hid Hl]. split; [lia|]. right.
        split; [|done]. intros i _. lia.
    + intros [Hid [(i & Hi & Hl & ->)|[Hno Hold]]].
      * left. by exists i.
      * right. apply Hspace0. split; [|done].
        destruct (decide (id < cur_count)%nat) as [|Hge]; [lia|].
        exfalso. apply (Hno (id - cur_count)%nat); [apply Hin|]; lia.
  - intros l id Hold. apply Hlookup. by right.
  - intros l. split.
    + intros [id [(i & Hi & Hl & ->)|Hold]%Hlookup]; [|left; by eexists].
      right. apply list_elem_of_lookup. exists i.
      apply lookup_take_Some. split; [done|by apply Hin].
    + intros [[id Hold]|(i & [Hl Hi]%lookup_take_Some)%list_elem_of_lookup].
      * exists id. apply Hlookup. by right.
      * exists (i + cur_count)%nat. apply Hlookup. left. exists i.
        split; [by apply Hin|done].
  - rewrite length_take. lia.
Qed.
End AnyOrder.

(** Every iteration of a task runs once, whatever the turns. *)
Lemma concat_insert_tail (tasks : list (list nat)) j i rest :
  tasks !! j = Some (i :: rest) ->
  concat tasks ≡ₚ i :: concat (<[j := rest]> tasks).
Proof.
  intros Hj. rewrite insert_take_drop by (by eapply lookup_lt_Some).
  rewrite <- (take_drop_middle _ _ _ Hj) at 1.
  rewrite !concat_app. cbn [concat].
  by rewrite <- app_comm_cons, <- Permutation_middle.
Qed.

Lemma pool_order_Permutation schedule : forall tasks,
  pool_order schedule tasks ≡ₚ concat tasks.
Proof.
  induction schedule as [|j schedule IH]; intros tasks; [done|].
  cbn [pool_order]. destruct (tasks !! j) as [[|i rest]|] eqn:Hj; [done| |done].
  by rewrite (concat_insert_tail _ _ _ _ Hj), IH.
Qed.

Lemma concat_ranges (task_size total : nat) m :
  concat ((fun j => seq (j * task_size)
                      (Nat.min (j * task_size + task_size) total
                       - j * task_size))
            <$> seq 0 m)
  = seq 0 (Nat.min (m * task_size) total).
Proof.
  induction m as [|m IH]; [done|].
  rewrite seq_S, fmap_app, concat_app, IH. cbn [fmap list_fmap concat Nat.add].
  rewrite app_nil_r.
  destruct (decide (m * task_size <= total)%nat) as [Hle|Hgt].
  - rewrite (Nat.min_l _ _ Hle).
    replace (Nat.min (S m * task_size) total)
      with (m * task_size
            + (Nat.min (m * task_size + task_size) total - m * task_size))%nat
      by lia.
    by rewrite seq_app.
  - replace (Nat.min (m * task_size + task_size) total - m * task_size)%nat
      with O by lia.
    rewrite app_nil_r. f_equal. lia.
Qed.

(** The tasks of the pool share out the loop indices of the batch, as
    long as no bound wraps as an [InnerIdType]. *)
Lemma pool_tasks_cover total :
  1 < build_thread_count_ ->
  0 <= total ->
  total + build_thread_count_ <= 2 ^ 32 ->
  concat (pool_tasks build_thread_count_ total) = seq 0 (Z.to_nat total).
Proof.
  intros Hpool Htotal Hfit. unfold pool_tasks.
  assert (Hwrap : wrap64 (total + build_thread_count_ - 1)
                  = total + build_thread_count_ - 1).
  { unfold wrap64. apply Z.mod_small. lia. }
  rewrite Hwrap.
  set (task_size := (total + build_thread_count_ - 1) / build_thread_count_).
  assert (Hlow : build_thread_count_ * task_size
                 <= total + build_thread_count_ - 1)
    by (apply Z.mul_div_le; lia).
  assert (Hhigh : total + build_thread_count_ - 1
                  < build_thread_count_ * Z.succ task_size)
    by (apply Z.mul_succ_div_gt; lia).
  assert (Hsize : 0 <= task_size) by (apply Z.div_pos; lia).
  rewrite <- (proj1 (Forall_fmap_ext
                      (fun j : nat =>
                         seq (j * Z.to_nat task_size)
                           (Nat.min (j * Z.to_nat task_size
                                     + Z.to_nat task_size)
                                    (Z.to_nat total)
                            - j * Z.to_nat task_size)) _ _)).
  - rewrite concat_ranges. f_equal. nia.
  - apply Forall_forall. intros j [_ Hj]%elem_of_seq. simpl in Hj.
    assert (Hbegin : 0 <= Z.of_nat j * task_size
                     /\ Z.of_nat j * task_size + task_size
                        <= total + build_thread_count_ - 1) by nia.
    unfold wrap64.
    rewrite (Z.mod_small (Z.of_nat j * task_size) (2 ^ 64)) by lia.
    rewrite (Z.mod_small (Z.of_nat j * task_size + task_size) (2 ^ 64))
      by lia.
    rewrite (Z.mod_small (Z.of_nat j * task_size) (2 ^ 32)) by lia.
    rewrite (Z.mod_small (Z.min _ _) (2 ^ 32)) by lia.
    f_equal; nia.
Qed.

Lemma hnsw_add_id_space h data h' :
  id_space h ->
  0 <= NumElements data < 2 ^ 32 ->
  (1 < build_thread_count_ ->
   NumElements data + build_thread_count_ <= 2 ^ 32) ->
  NoDup (effective_ids data) ->
  (forall l, l ∈ effective_ids data -> label_lookup_ h !! l = None) ->
  hnsw_add default_mode default_radius_ get_random_level
    build_thread_count_ pool_schedule h data = Ok h' ->
  id_space h' /\
  TotalCount (bottom_graph_ h')
    = (TotalCount (bottom_graph_ h) + length (effective_ids data))%nat /\
  (forall l id, label_lookup_ h !! l = Some id ->
                label_lookup_ h' !! l = Some id) /\
  (forall l, is_Some (label_lookup_ h' !! l) <->
             is_Some (label_lookup_ h !! l) \/ l ∈ effective_ids data).
Proof.
  intros Hspace Hn Hfit Hnd Hfresh. unfold hnsw_add.
  intros (datas & _ & Hk)%bind_Ok_inv.
  apply bind_Ok_inv in Hk as (h1 & Hr & Hk).
  apply resize_id_space in Hr as (Hspace1 & Hl1 & Hc1); [|done].
  assert (Htotal : wrap64 (NumElements data) = NumElements data).
  { unfold wrap64. apply Z.mod_small. lia. }
  rewrite Htotal in Hk. rewrite <- Hc1 in Hk.
  assert (Hbuilt :
    id_space h' /\
    TotalCount (bottom_graph_ h')
      = (0 + Z.to_nat (NumElements data)
         + TotalCount (bottom_graph_ h1))%nat /\
    (forall l id, label_lookup_ h1 !! l = Some id ->
                  label_lookup_ h' !! l = Some id) /\
    (forall l, is_Some (label_lookup_ h' !! l) <->
               is_Some (label_lookup_ h1 !! l) \/ l ∈ effective_ids data) /\
    length (effective_ids data) = Z.to_nat (NumElements data)).
  { assert (Hfresh1 : forall l, l ∈ effective_ids data ->
                                label_lookup_ h1 !! l = None)
      by (intros l Hl; rewrite Hl1; by apply Hfresh).
    destruct (Z.ltb_spec 1 build_thread_count_) as [Hpool|Hnone].
    - pose proof (pool_order_Permutation (pool_schedule h data)
                    (pool_tasks build_thread_count_ (NumElements data)))
        as Hturns.
      rewrite pool_tasks_cover in Hturns by (try done; lia).
      apply (build_in_order_id_space_after (Ids data) datas _
               (Z.to_nat (NumElements data)) h1 eq_refl Hnd Hfresh1 _ [])
        in Hk as (ran & Hran & Hafter).
      + rewrite app_nil_l, Hturns in Hran.
        exact (id_space_after_all (Ids data) _ _ h1 eq_refl Hspace1 Hnd
                 Hfresh1 ran h' Hran Hafter).
      + by apply id_space_after_none.
      + rewrite app_nil_l, Hturns. apply NoDup_seq.
      + rewrite app_nil_l, Hturns. apply Forall_forall.
        intros j ?%elem_of_seq. lia.
    - rewrite Z.mod_small in Hk by lia.
      apply build_func_id_space in Hk; [|done|done|by rewrite drop_0|].
      + by rewrite drop_0 in Hk.
      + intros l Hl. apply Hfresh1. by rewrite drop_0 in Hl. }
  destruct Hbuilt as (Hspace' & Hcount & Hkeep & Hdom & Hlen).
  rewrite Hl1 in Hkeep, Hdom.
  split; [done|]. split; [rewrite Hcount, Hlen, Hc1; lia|]. by split.
Qed.

Lemma add_datasets_id_space datasets : forall h h',
  id_space h ->
  Forall (fun d => 0 <= NumElements d < 2 ^ 32 /\
                   (1 < build_thread_count_ ->
                    NumElements d + build_thread_count_ <= 2 ^ 32))
         datasets ->
  NoDup (concat (effective_ids <$> datasets)) ->
  (forall l, l ∈ concat (effective_ids <$> datasets) ->
             label_lookup_ h !! l = None) ->
  add_datasets default_mode default_radius_ get_random_level
    build_thread_count_ pool_schedule h datasets
    = Ok h' ->
  id_space h' /\
  TotalCount (bottom_graph_ h')
    = (TotalCount (bottom_graph_ h)
       + length (concat (effective_ids <$> datasets)))%nat /\
  (forall l id, label_lookup_ h !! l = Some id ->
                label_lookup_ h' !! l = Some id) /\
  (forall l, is_Some (label_lookup_ h' !! l) <->
             is_Some (label_lookup_ h !! l) \/
             l ∈ concat (effective_ids <$> datasets)).
Proof.
  induction datasets as [|data rest IH]; intros h h' Hspace Hbounds Hnd Hfresh.
  - simpl. intros [= <-]. split; [done|]. split; [lia|]. split; [done|].
    intros l. rewrite elem_of_nil. tauto.
  - cbn [add_datasets].
    intros (vectors & _ & Hk)%bind_Ok_inv.
    apply bind_Ok_inv in Hk as (precise & _ & Hk).
    apply bind_Ok_inv in Hk as (h1 & Hadd & Hk).
    apply bind_Ok_inv in Hk as (h2 & Hextra & Hk).
    apply Forall_cons in Hbounds as [[Hb Hfit] Hbounds].
    rewrite fmap_cons in Hnd, Hfresh. cbn [concat] in Hnd, Hfresh.
    apply NoDup_app in Hnd as (Hnd1 & Hdisj & Hnd2).
    apply hnsw_add_id_space in Hadd as (Hspace1 & Hc1 & Hkeep1 & Hdom1);
      [|done|done|done|done|].
    2:{ intros l Hl. setters_simpl. apply Hfresh. apply elem_of_app. by left. }
    revert Hc1 Hkeep1 Hdom1. setters_simpl. intros Hc1 Hkeep1 Hdom1.
    assert (H2 : id_space h2 /\ label_lookup_ h2 = label_lookup_ h1 /\
                 TotalCount (bottom_graph_ h2) = TotalCount (bottom_graph_ h1)).
    { revert Hextra. destruct (0 <? extra_info_size_ h1); [|by intros [= <-]].
      intros (e & _ & [= <-])%bind_Ok_inv. done. }
    destruct H2 as (Hspace2 & Hl2 & Hc2).
    apply IH in Hk as (Hspace' & Hc' & Hkeep' & Hdom'); [|done|done|done|].
    2:{ intros l Hl. rewrite Hl2.
        destruct (label_lookup_ h1 !! l) as [id|] eqn:Hsome; [|done].
        exfalso. assert (His : is_Some (label_lookup_ h1 !! l)) by eauto.
        apply Hdom1 in His as [[id' Hid']|Hin].
        - rewrite Hfresh in Hid'; [done|]. apply elem_of_app. by right.
        - by apply (Hdisj l). }
    split; [done|]. split; [rewrite Hc', Hc2, Hc1, fmap_cons; cbn [concat];
                            rewrite length_app; lia|].
    split.
    + intros l id Hl. apply Hkeep'. rewrite Hl2. by apply Hkeep1.
    + intros l. rewrite Hdom', Hl2, Hdom1, fmap_cons. cbn [concat].
      rewrite elem_of_app. tauto.
Qed.

(** X13.  [Add] and the id space.  On an index whose label lookup and
    label vector agree, a successful [Add] of a batch of fewer than
    [2^32] elements leaves them in agreement, never changes the inner id
    of a label that was already in the index, grows the element count by
    the number of labels that were new (each counted once), and leaves
    every label of the batch in the index.  This holds without a pool of
    workers and, whatever turns the workers take, with one, as long as
    the batch and the number of workers together stay within [2^32], so
    that no bound of a task wraps as an [InnerIdType]. *)
Theorem Add_registers_new_labels h data failed h' :
  id_space h ->
  NumElements data = Z.of_nat (length (Ids data)) ->
  Z.of_nat (length (Ids data)) < 2 ^ 32 ->
  (1 < build_thread_count_ ->
   Z.of_nat (length (Ids data)) + build_thread_count_ <= 2 ^ 32) ->
  Add default_mode default_radius_ get_random_level
    build_thread_count_ pool_schedule h data
    = Ok (failed, h') ->
  id_space h' /\
  TotalCount (bottom_graph_ h')
    = (TotalCount (bottom_graph_ h)
       + length (accepted_labels (label_lookup_ h) (Ids data)))%nat /\
  (forall l id, label_lookup_ h !! l = Some id ->
                label_lookup_ h' !! l = Some id) /\
  (forall l, is_Some (label_lookup_ h' !! l) <->
             is_Some (label_lookup_ h !! l) \/ l ∈ Ids data).
Proof.
  intros Hspace Hn Hlt Hfit. unfold Add.
  intros (? & _ & Hk)%bind_Ok_inv.
  apply bind_Ok_inv in Hk as (? & _ & Hk).
  apply bind_Ok_inv in Hk as ([datasets failed0] & Hsplit & Hk).
  apply bind_Ok_inv in Hk as (h1 & Hadd & [= _ <-]).
  apply split_dataset_spec in Hsplit as [Hids Hbounds]; [|done|lia].
  apply add_datasets_id_space in Hadd as (Hspace' & Hc & Hkeep & Hdom);
    [|done| | |].
  - rewrite Hids in Hc, Hdom. split; [done|]. split; [done|].
    split; [done|]. intros l. rewrite Hdom, elem_of_accepted_labels.
    destruct (label_lookup_ h !! l) eqn:Hl.
    + split; [eauto|eauto].
    + split; [intros [[? ?]|[? _]]; [done|by right]|].
      intros [[? ?]|?]; [done|by right].
  - eapply Forall_impl; [exact Hbounds|]. simpl. intros d Hd.
    split; [lia|]. intros Hpool. specialize (Hfit Hpool). lia.
  - rewrite Hids. apply accepted_labels_NoDup.
  - intros l. rewrite Hids. by intros [_ ?]%elem_of_accepted_labels.
Qed.
End AddIdSpace.

Lemma blank_id_space : id_space OneDim.blank.
Proof.
  split; [done|]. split; [simpl; lia|]. intros l id. simpl.
  rewrite lookup_empty. split; [done|]. intros [Hid _]. lia.
Qed.

Lemma Add_registers_new_labels_witness :
  id_space OneDim.after_duplicate /\
  TotalCount (bottom_graph_ OneDim.after_duplicate)
    = (TotalCount (bottom_graph_ OneDim.blank)
       + length (accepted_labels (label_lookup_ OneDim.blank)
                   (Ids SampleSearch.batch_with_duplicate)))%nat /\
  (forall l id, label_lookup_ OneDim.blank !! l = Some id ->
                label_lookup_ OneDim.after_duplicate !! l = Some id) /\
  (forall l, is_Some (label_lookup_ OneDim.after_duplicate !! l) <->
             is_Some (label_lookup_ OneDim.blank !! l) \/
             l ∈ Ids SampleSearch.batch_with_duplicate).
Proof.
  apply (Add_registers_new_labels KNN_SEARCH_MODE 0%Q (fun _ => O) 1
           OneDim.in_turn OneDim.blank SampleSearch.batch_with_duplicate
           [1]).
  - exact blank_id_space.
  - reflexivity.
  - vm_compute. reflexivity.
  - intros. lia.
  - exact after_duplicate_built.
Defined.

Section AddMore.
Context {Codec Extra : Type}.
Context `{!FlattenInterface Codec} `{!ExtraInfoInterface Extra}.
Context `{!GraphInterface} `{!PruningStrategy Codec}.
Implicit Types h : HGraph Codec Extra.
Variable default_mode : InnerSearchMode.
Variable default_radius_ : Q.
Variable FromJson : string -> outcome HGraphSearchParameters.
Variable BitsetOrCallbackFilter : (LabelType -> bool) -> LabelType -> bool.
Variable get_random_level : InnerIdType -> nat.
Variable build_thread_count_ : Z.
Variable pool_schedule : HGraph Codec Extra -> Dataset -> list nat.

(** X14.  [split_dataset_by_duplicate_label] cuts the batch at the
    duplicates: the datasets it returns hold, in input order, exactly the
    labels that are neither in the index nor repeated earlier in the
    batch; no label occurs twice in them. *)
Theorem split_dataset_keeps_new_labels h data datasets failed :
  NumElements data = Z.of_nat (length (Ids data)) ->
  Z.of_nat (length (Ids data)) < 2 ^ 64 ->
  split_dataset_by_duplicate_label h data [] = Ok (datasets, failed) ->
  concat (effective_ids <$> datasets)
    = accepted_labels (label_lookup_ h) (Ids data) /\
  NoDup (concat (effective_ids <$> datasets)) /\
  Forall (fun l => l ∈ Ids data /\ label_lookup_ h !! l = None)
         (concat (effective_ids <$> datasets)).
Proof.
  intros Hn Hlt [Hids _]%split_dataset_spec; [|done|done].
  rewrite Hids. split; [done|]. split; [apply accepted_labels_NoDup|].
  apply Forall_forall. intros l. by rewrite elem_of_accepted_labels.
Qed.

Lemma scan_without_duplicates h data :
  rejected_indices (label_lookup_ h) (Ids data) = [] ->
  NumElements data = Z.of_nat (length (Ids data)) ->
  Z.of_nat (length (Ids data)) < 2 ^ 64 ->
  split_dataset_by_duplicate_label h data []
  = Ok ([data], [NumElements data]).
Proof.
  intros Hnone Hn Hlt. unfold split_dataset_by_duplicate_label.
  rewrite Hn. unfold wrap64. rewrite Z.mod_small by lia. rewrite Nat2Z.id.
  rewrite scan_duplicates_spec; [|lia|].
  2:{ intros l. by rewrite take_0, elem_of_nil, elem_of_empty. }
  cbn [mbind outcome_bind]. rewrite app_nil_l.
  fold (rejected_indices (label_lookup_ h) (Ids data)). by rewrite Hnone.
Qed.

(** X15.  When no label of the batch is a duplicate, the list that a
    successful [Add] returns is not empty: it holds one entry, the number
    of elements of the batch, left there by the early return of
    [split_dataset_by_duplicate_label] (hgraph.cpp, lines 852-857). *)
Theorem Add_without_duplicates_returns_the_count h data failed h' :
  rejected_indices (label_lookup_ h) (Ids data) = [] ->
  NumElements data = Z.of_nat (length (Ids data)) ->
  Z.of_nat (length (Ids data)) < 2 ^ 64 ->
  Add default_mode default_radius_ get_random_level
    build_thread_count_ pool_schedule h data
    = Ok (failed, h') ->
  failed = [NumElements data].
Proof.
  intros Hnone Hn Hlt. unfold Add.
  intros (? & _ & Hk)%bind_Ok_inv.
  apply bind_Ok_inv in Hk as (? & _ & Hk).
  rewrite scan_without_duplicates in Hk by done.
  cbn [mbind outcome_bind] in Hk.
  by apply bind_Ok_inv in Hk as (h1 & _ & [= <- _]).
Qed.

(** X16.  One route graph per level: an index in which [max_level_] is
    the number of route graphs, below [2^31] and 0 while the index is
    empty, and whose optional codec and blob store are present exactly
    when they are configured, is again such an index after a successful
    [Add], provided every draw of [get_random_level] fits an [int]. *)
Theorem Add_keeps_one_route_graph_per_level h data failed h' :
  (forall id, Z.of_nat (get_random_level id) < 2 ^ 31) ->
  as_built h ->
  Add default_mode default_radius_ get_random_level
    build_thread_count_ pool_schedule h data
    = Ok (failed, h') ->
  as_built h'.
Proof. intros Hint Hbuilt Hadd. by eapply Add_as_built. Qed.
End AddMore.

Lemma split_dataset_keeps_new_labels_witness :
  concat (effective_ids <$> SampleSearch.split_of_batch.1)
    = accepted_labels (label_lookup_ OneDim.blank)
        (Ids SampleSearch.batch_with_duplicate) /\
  NoDup (concat (effective_ids <$> SampleSearch.split_of_batch.1)) /\
  Forall (fun l => l ∈ Ids SampleSearch.batch_with_duplicate /\
                   label_lookup_ OneDim.blank !! l = None)
         (concat (effective_ids <$> SampleSearch.split_of_batch.1)).
Proof.
  apply (split_dataset_keeps_new_labels OneDim.blank
           SampleSearch.batch_with_duplicate SampleSearch.split_of_batch.1
           SampleSearch.split_of_batch.2).
  - reflexivity.
  - vm_compute. reflexivity.
  - vm_compute. reflexivity.
Defined.

Lemma Add_without_duplicates_returns_the_count_witness :
  [2] = [NumElements (OneDim.points [7; 8] [0%Q; 5%Q])].
Proof.
  apply (Add_without_duplicates_returns_the_count KNN_SEARCH_MODE 0%Q
           (fun _ => O) 1 OneDim.in_turn OneDim.blank
           (OneDim.points [7; 8] [0%Q; 5%Q]) [2] OneDim.two_points).
  - vm_compute. reflexivity.
  - reflexivity.
  - vm_compute. reflexivity.
  - vm_compute. reflexivity.
Defined.

Lemma blank_as_built : as_built OneDim.blank.
Proof.
  split; [|split; [simpl; lia|done]].
  unfold consistent. simpl. split_and!; (lia || reflexivity).
Qed.

Lemma Add_keeps_one_route_graph_per_level_witness :
  as_built OneDim.two_levels.
Proof.
  apply (Add_keeps_one_route_graph_per_level KNN_SEARCH_MODE 0%Q
           OneDim.first_on_top 1 OneDim.in_turn OneDim.blank
           (OneDim.points [7; 8; 9] [0%Q; 5%Q; 9%Q]) [3]).
  - intros [|id]; vm_compute; reflexivity.
  - exact blank_as_built.
  - vm_compute. reflexivity.
Defined.

(** ** The element counts of the layers *)

Section LayerCounts.
Context {Codec Extra : Type}.
Context `{!FlattenInterface Codec} `{!ExtraInfoInterface Extra}.
Context `{!GraphInterface} `{!PruningStrategy Codec}.
Implicit Types h : HGraph Codec Extra.
Variable default_mode : InnerSearchMode.
Variable default_radius_ : Q.
Variable FromJson : string -> outcome HGraphSearchParameters.
Variable BitsetOrCallbackFilter : (LabelType -> bool) -> LabelType -> bool.
Variable get_random_level : InnerIdType -> nat.
Variable build_thread_count_ : Z.
Variable pool_schedule : HGraph Codec Extra -> Dataset -> list nat.
Hypothesis levels_are_ints : forall id, Z.of_nat (get_random_level id) < 2 ^ 31.

Local Ltac setters_simpl :=
  unfold set_bottom_graph, set_levels, set_entry_point_id, set_id_space,
    set_codecs;
  proj_simpl.

Lemma connect_route_layers_counts data fc id n : forall h param h' ep,
  connect_route_layers default_mode h data fc id n param = Ok (h', ep) ->
  length (route_graphs_ h') = length (route_graphs_ h) /\
  (n <= length (route_graphs_ h))%nat /\
  forall j,
    TotalCount <$> route_graphs_ h' !! j
    = (fun c => if decide (j < n)%nat then S c else c)
        <$> (TotalCount <$> route_graphs_ h !! j).
Proof.
  induction n as [|n IH]; intros h param h' ep.
  - simpl. intros [= <- _]. split; [done|]. split; [lia|]. intros j.
    by destruct (route_graphs_ h !! j).
  - cbn [connect_route_layers].
    intros (g & Hg & Hk)%bind_Ok_inv.
    destruct (route_graphs_ h !! n) as [g0|] eqn:Hn; [|discriminate].
    injection Hg as ->.
    apply bind_Ok_inv in Hk as ([g1 ep1] & Hlink & Hk).
    assert (Hc1 : TotalCount g1 = TotalCount g).
    { revert Hlink. destruct (negb _).
      - intros (res & _ & Hk')%bind_Ok_inv.
        apply bind_Ok_inv in Hk' as (codec & _ & Hk'). revert Hk'.
        destruct (mutually_connect_new_element _ _ _ _) as [adj ?].
        by intros [= <- _].
      - by intros [= <- _]. }
    apply IH in Hk as (Hlen & Hle & Hcounts). revert Hlen Hle Hcounts.
    setters_simpl. rewrite length_insert. intros Hlen Hle Hcounts.
    pose proof (lookup_lt_Some _ _ _ Hn) as Hlt.
    split; [done|]. split; [lia|]. intros j. rewrite Hcounts.
    destruct (decide (j = n)) as [->|Hne].
    + rewrite list_lookup_insert_eq by done. rewrite Hn. simpl.
      rewrite decide_False by lia. rewrite decide_True by lia.
      unfold TotalCount, IncreaseTotalCount in *. cbn [total_count_].
      f_equal. lia.
    + rewrite list_lookup_insert_ne by done.
      destruct (route_graphs_ h !! j); [|done]. simpl.
      destruct (decide (j < n)%nat), (decide (j < S n)%nat); (done || lia).
Qed.

Lemma add_one_point_counts h data level id h' :
  add_one_point default_mode default_radius_ h data level id = Ok h' ->
  length (route_graphs_ h') = length (route_graphs_ h) /\
  (Z.to_nat (level + 1) <= length (route_graphs_ h))%nat /\
  forall j,
    TotalCount <$> route_graphs_ h' !! j
    = (fun c => if decide (j < Z.to_nat (level + 1))%nat then S c else c)
        <$> (TotalCount <$> route_graphs_ h !! j).
Proof.
  unfold add_one_point.
  intros (param & _ & Hk)%bind_Ok_inv.
  apply bind_Ok_inv in Hk as ([h1 ep] & Hc & Hk).
  apply connect_route_layers_counts in Hc.
  apply bind_Ok_inv in Hk as (bottom & _ & Hk).
  by injection Hk as <-.
Qed.

Lemma build_func_unfold ids datas cur_count n i h :
  build_func default_mode default_radius_ get_random_level ids datas
    cur_count (S n) i h
  = (build_func default_mode default_radius_ get_random_level ids datas
       cur_count 1 i h
     ≫= build_func default_mode default_radius_ get_random_level ids datas
          cur_count n (S i)).
Proof.
  cbn [build_func].
  destruct (of_option OutOfBounds (ids !! i)); [|done].
  cbn [mbind outcome_bind].
  destruct (if decide _ then _ else _); [|done]. cbn [mbind outcome_bind].
  by destruct (if _ || _ then _ else _).
Qed.

Lemma count_snoc (j n : nat) :
  length (filter (fun id => (j < get_random_level id)%nat) (seq 0 (S n)))
  = if decide (j < get_random_level n)%nat
    then S (length (filter (fun id => (j < get_random_level id)%nat)
                           (seq 0 n)))
    else length (filter (fun id => (j < get_random_level id)%nat) (seq 0 n)).
Proof.
  rewrite seq_S, filter_app, length_app. cbn [Nat.add].
  destruct (decide (j < get_random_level n)%nat).
  - rewrite filter_cons_True by done. rewrite filter_nil. simpl.
    unfold InnerIdType. lia.
  - rewrite filter_cons_False by done. rewrite filter_nil. simpl.
    unfold InnerIdType. lia.
Qed.

Lemma count_none (j n : nat) :
  (highest_level_drawn get_random_level n <= j)%nat ->
  length (filter (fun id => (j < get_random_level id)%nat) (seq 0 n)) = O.
Proof.
  intros Hj. apply length_zero_iff_nil.
  destruct (filter _ _) as [|id l] eqn:Hf; [done|].
  assert (Hin : id ∈ id :: l) by (apply elem_of_cons; by left).
  rewrite <- Hf in Hin. apply list_elem_of_filter in Hin as [Hlt Hid].
  apply elem_of_seq in Hid.
  pose proof (highest_ge get_random_level n id ltac:(lia)). lia.
Qed.

Lemma build_func_one_populated ids datas cur_count i h h1 :
  TotalCount (bottom_graph_ h) = (i + cur_count)%nat ->
  layered get_random_level h ->
  build_func default_mode default_radius_ get_random_level ids datas
    cur_count 1 i h = Ok h1 ->
  levels_populated get_random_level h1.
Proof.
  intros Hcount (Hbuilt & Htracks & Hpop) Hstep.
  pose proof (build_func_tracks_levels default_mode default_radius_
                get_random_level levels_are_ints ids datas cur_count 1 i h h1
                Hcount Htracks Hstep) as [Hcount1 _].
  revert Hstep. cbn [build_func].
  intros (label & _ & Hk)%bind_Ok_inv.
  apply bind_Ok_inv in Hk as (? & _ & Hk).
  apply bind_Ok_inv in Hk as (h2 & Hstep & [= ->]).
  destruct Hbuilt as ((Hrange & Hlen & _ & _) & Hint & Hzero).
  set (id := (i + cur_count)%nat) in *.
  set (draw := get_random_level id) in *.
  pose proof (levels_are_ints id) as Hdraw. fold draw in Hdraw.
  assert (Hs : sint64 (max_level_ h) = max_level_ h).
  { unfold sint64, wrap64. rewrite Z.mod_small by lia.
    destruct (Z.ltb_spec (max_level_ h) (2 ^ 63)); [done|lia]. }
  assert (Hhigh : (0 < id)%nat ->
                  max_level_ h
                  = Z.of_nat (highest_level_drawn get_random_level id)).
  { intros Hpos. rewrite <- Hcount in Hpos.
    destruct (Htracks Hpos) as [Hm _]. by rewrite Hcount in Hm. }
  unfold levels_populated. rewrite Hcount1.
  replace (i + 1 + cur_count)%nat with (S id) by lia.
  revert Hstep. setters_simpl. rewrite Hs.
  destruct (_ || _) eqn:Hcond.
  - intros (h3 & Ha & Hset)%bind_Ok_inv. injection Hset as <-.
    apply add_one_point_counts in Ha as (Hlen3 & Hle3 & Hcounts).
    revert Hlen3 Hle3 Hcounts. setters_simpl.
    replace (Z.to_nat (Z.of_nat draw - 1 + 1)) with draw by lia.
    intros Hlen3 Hle3 Hcounts j g Hg.
    specialize (Hcounts j). rewrite Hg in Hcounts. simpl in Hcounts.
    rewrite count_snoc. fold draw.
    destruct (decide (j < length (route_graphs_ h))%nat) as [Hold|Hnew].
    + rewrite lookup_app_l in Hcounts by done.
      destruct (route_graphs_ h !! j) as [g0|] eqn:Hg0;
        [|apply lookup_ge_None in Hg0; lia].
      simpl in Hcounts. injection Hcounts as ->.
      rewrite (Hpop j g0 Hg0), Hcount. fold id.
      by destruct (decide (j < draw)%nat).
    + rewrite lookup_app_r in Hcounts by lia.
      destruct (replicate _ _ !! _) as [g0|] eqn:Hg0; [|discriminate].
      apply lookup_replicate in Hg0 as [-> Hj].
      simpl in Hcounts. injection Hcounts as ->.
      rewrite count_none; [by destruct (decide (j < draw)%nat)|].
      destruct (decide (id = O)) as [Hid0|Hpos].
      { rewrite Hid0. unfold highest_level_drawn. simpl. lia. }
      specialize (Hhigh ltac:(lia)). lia.
  - apply orb_false_iff in Hcond as [Hle Hnz].
    apply Z.leb_gt in Hle. apply Nat.eqb_neq in Hnz.
    intros (Hlen3 & Hle3 & Hcounts)%add_one_point_counts.
    revert Hlen3 Hle3 Hcounts. setters_simpl.
    replace (Z.to_nat (Z.of_nat draw - 1 + 1)) with draw by lia.
    intros Hlen3 Hle3 Hcounts j g Hg.
    specialize (Hcounts j). rewrite Hg in Hcounts. simpl in Hcounts.
    rewrite count_snoc. fold draw.
    destruct (route_graphs_ h !! j) as [g0|] eqn:Hg0; [|discriminate].
    simpl in Hcounts. injection Hcounts as ->.
    rewrite (Hpop j g0 Hg0), Hcount. fold id.
    by destruct (decide (j < draw)%nat).
Qed.

Lemma build_func_layered ids datas cur_count n : forall i h h',
  TotalCount (bottom_graph_ h) = (i + cur_count)%nat ->
  layered get_random_level h ->
  build_func default_mode default_radius_ get_random_level ids datas
    cur_count n i h = Ok h' ->
  layered get_random_level h' /\
  use_reorder_ h' = use_reorder_ h /\
  extra_info_size_ h' = extra_info_size_ h /\
  high_precise_codes_ h' = high_precise_codes_ h /\
  extra_infos_ h' = extra_infos_ h.
Proof.
  induction n as [|n IH]; intros i h h' Hcount Hlayered.
  - simpl. by intros [= <-].
  - rewrite build_func_unfold. intros (h1 & Hone & Hrest)%bind_Ok_inv.
    pose proof (build_func_one_populated _ _ _ _ _ _ Hcount Hlayered Hone)
      as Hpop1.
    destruct Hlayered as (Hbuilt & Htracks & Hpop).
    pose proof (build_func_tracks_levels default_mode default_radius_
                  get_random_level levels_are_ints ids datas cur_count 1 i
                  h h1 Hcount Htracks Hone) as [Hcount1 Htracks1].
    pose proof (build_func_as_built default_mode default_radius_
                  get_random_level levels_are_ints ids datas cur_count 1 i
                  h h1 Hbuilt Hone) as (Hbuilt1 & Hu & He & Hp & Hx).
    apply IH in Hrest as (Hl' & Hu' & He' & Hp' & Hx');
      [|lia|by split].
    split; [done|]. split; [congruence|]. split; [congruence|].
    split; congruence.
Qed.

Lemma hnsw_add_layered h data h' :
  build_thread_count_ <= 1 ->
  layered get_random_level h ->
  hnsw_add default_mode default_radius_ get_random_level
    build_thread_count_ pool_schedule h data = Ok h' ->
  layered get_random_level h' /\
  use_reorder_ h' = use_reorder_ h /\
  extra_info_size_ h' = extra_info_size_ h /\
  high_precise_codes_ h' = high_precise_codes_ h /\
  extra_infos_ h' = extra_infos_ h.
Proof.
  intros Halone Hlayered. unfold hnsw_add.
  intros (datas & _ & Hk)%bind_Ok_inv.
  apply bind_Ok_inv in Hk as (h1 & Hr & Hk).
  destruct (Z.ltb_spec 1 build_thread_count_) as [|_]; [lia|].
  assert (H1 : layered get_random_level h1 /\
               use_reorder_ h1 = use_reorder_ h /\
               extra_info_size_ h1 = extra_info_size_ h /\
               high_precise_codes_ h1 = high_precise_codes_ h /\
               extra_infos_ h1 = extra_infos_ h /\
               TotalCount (bottom_graph_ h1) = TotalCount (bottom_graph_ h)).
  { revert Hr. unfold resize. intros (p & _ & Hr)%bind_Ok_inv. revert Hr.
    case (_ <? _); intros [= <-]; done. }
  destruct H1 as (Hl1 & Hu & He & Hp & Hx & Hc).
  rewrite <- Hc in Hk.
  apply build_func_layered in Hk as (Hl' & Hu' & He' & Hp' & Hx');
    [|done|done].
  split; [done|]. split; [congruence|]. split; [congruence|].
  split; congruence.
Qed.

Lemma add_datasets_layered datasets : forall h h',
  build_thread_count_ <= 1 ->
  layered get_random_level h ->
  add_datasets default_mode default_radius_ get_random_level
    build_thread_count_ pool_schedule h datasets
    = Ok h' ->
  layered get_random_level h'.
Proof.
  induction datasets as [|data rest IH]; intros h h' Halone Hlayered.
  - simpl. by intros [= <-].
  - cbn [add_datasets].
    intros (vectors & _ & Hk)%bind_Ok_inv.
    apply bind_Ok_inv in Hk as (precise & Hprecise & Hk).
    apply bind_Ok_inv in Hk as (h1 & Hadd & Hk).
    apply bind_Ok_inv in Hk as (h2 & Hextra & Hk).
    apply IH in Hk; [done|done|]. clear IH.
    destruct Hlayered as (((Hrange & Hlen & Hpre & Hext) & Hint & Hzero)
                          & Htracks & Hpop).
    apply hnsw_add_layered in Hadd
      as ((((Hrange1 & Hlen1 & Hpre1 & Hext1) & Hint1 & Hzero1)
           & Htracks1 & Hpop1) & Hu & He & Hp & Hx); [|done|].
    + revert Hu He Hp Hx. setters_simpl. intros Hu He Hp Hx.
      revert Hextra. destruct (0 <? extra_info_size_ h1) eqn:E.
      * intros (e & _ & [= <-])%bind_Ok_inv.
        split; [|split; [exact Htracks1|exact Hpop1]].
        unfold as_built, consistent. setters_simpl. rewrite E.
        split_and!; (done || lia).
      * intros [= <-].
        split; [|split; [exact Htracks1|exact Hpop1]].
        unfold as_built, consistent. rewrite E.
        split_and!; (done || lia).
    + split; [|split; [exact Htracks|exact Hpop]].
      unfold as_built, consistent. setters_simpl.
      split_and!; try (done || lia).
      revert Hprecise Hpre. destruct (use_reorder_ h).
      * intros (c & _ & [= <-])%bind_Ok_inv. done.
      * by intros [= <-].
Qed.

(** X17.  The element counts of the layers.  On an index that builds
    without a pool of workers ([build_thread_count_] at most 1, so that
    [hnsw_add] runs [build_func(0, total)] itself), [Add] keeps the
    bookkeeping of the levels: afterwards, as before, there is one route
    graph per level, [max_level_] is the highest draw and the entry point
    the first point that drew it, and route graph [j] counts exactly the
    points that drew more than [j]. *)
Theorem Add_keeps_layer_counts h data failed h' :
  build_thread_count_ <= 1 ->
  layered get_random_level h ->
  Add default_mode default_radius_ get_random_level
    build_thread_count_ pool_schedule h data
    = Ok (failed, h') ->
  layered get_random_level h'.
Proof.
  intros Halone Hlayered. unfold Add.
  intros (? & _ & Hk)%bind_Ok_inv.
  apply bind_Ok_inv in Hk as (? & _ & Hk).
  apply bind_Ok_inv in Hk as ([datasets failed0] & _ & Hk).
  apply bind_Ok_inv in Hk as (h1 & Hadd & [= _ <-]).
  by eapply add_datasets_layered.
Qed.
End LayerCounts.

Lemma blank_layered levels : layered levels OneDim.blank.
Proof.
  split; [exact blank_as_built|]. split.
  - unfold tracks_levels. simpl. lia.
  - intros j g Hg. simpl in Hg. by rewrite lookup_nil in Hg.
Qed.

Lemma Add_keeps_layer_counts_witness :
  layered OneDim.first_on_top OneDim.two_levels.
Proof.
  apply (Add_keeps_layer_counts KNN_SEARCH_MODE 0%Q OneDim.first_on_top 1
           OneDim.in_turn
           (fun id => match id with O => eq_refl | S _ => eq_refl end)
           OneDim.blank (OneDim.points [7; 8; 9] [0%Q; 5%Q; 9%Q]) [3]).
  - lia.
  - exact (blank_layered OneDim.first_on_top).
  - vm_compute. reflexivity.
Defined.

(** ** Which calls report an error *)

Lemma unraised_Ok {A} (a : A) : unraised (Ok a).
Proof. intros e. discriminate. Qed.

Lemma unraised_bind {A B} (m : outcome A) (k : A -> outcome B) :
  unraised m -> (forall a, m = Ok a -> unraised (k a)) -> unraised (m ≫= k).
Proof.
  intros Hm Hk e. destruct m as [a|f]; cbn [mbind outcome_bind].
  - by apply Hk.
  - intros [= ->]. by eapply Hm.
Qed.

Lemma unraised_of_option {A} (o : option A) f :
  (forall e, f <> Raised e) -> unraised (of_option f o).
Proof.
  intros Hf e. destruct o; simpl; [discriminate|]. intros [= H]. by eapply Hf.
Qed.

Lemma unraised_top (h : MaxHeap) : unraised (Heap.top h).
Proof. intros e. by destruct h. Qed.

Lemma unraised_pop (h : MaxHeap) : unraised (Heap.pop h).
Proof. intros e. by destruct h. Qed.

Lemma unraised_mapM {A B} (f : A -> outcome B) (l : list A) :
  (forall a, unraised (f a)) -> unraised (mapM f l).
Proof.
  intros Hf. induction l as [|a l IH]; cbn [mapM]; [apply unraised_Ok|].
  apply unraised_bind; [apply Hf|]. intros b _.
  apply unraised_bind; [apply IH|]. intros bs _. apply unraised_Ok.
Qed.

Lemma HGraphSearch_unraised mode computer get_label g param vl :
  unraised
    (HGraphSearch.search_one_graph mode computer get_label g param vl).2.
Proof.
  intros e. unfold HGraphSearch.search_one_graph.
  destruct (HGraphSearch.search_init _ _ _ _ _) as [[[[cand res] lb] vl']|f0]
    eqn:Hinit.
  - pose proof (HGraphSearch_search_loop_faults mode computer
                  get_label g param (length (mass vl)) cand res lb vl'
                  (Raised e)) as Hloop.
    destruct (HGraphSearch.search_loop _ _ _ _ _ _ _ _ _ _) as [log r].
    simpl in *. intros Hr. by destruct (Hloop Hr).
  - simpl. intros [= ->]. revert Hinit. unfold HGraphSearch.search_init.
    destruct (HGraphSearch.id_allowed _ _ _) as [ok|f1] eqn:Ha;
      cbn [mbind outcome_bind];
      [|by apply HGraphSearch_id_allowed_fault in Ha as ->].
    destruct (if _ && _ then _ else _) as [res|f1] eqn:Hp;
      cbn [mbind outcome_bind].
    + destruct (vl_Set vl _) as [?|f2] eqn:Hs; cbn [mbind outcome_bind];
        [discriminate|].
      by apply vl_Set_fault in Hs as ->.
    + destruct (_ && _); [|discriminate].
      by apply pop_fault in Hp as ->.
Qed.

Section Reported.
Context {Codec Extra : Type}.
Context `{!FlattenInterface Codec} `{!ExtraInfoInterface Extra}.
Context `{!GraphInterface} `{!PruningStrategy Codec}.

Variable GetNumElements : HGraph Codec Extra -> Z.
Variable default_mode : InnerSearchMode.
Variable default_radius_ : Q.
Variable FromJson : string -> outcome HGraphSearchParameters.
Variable BitsetOrCallbackFilter : (LabelType -> bool) -> LabelType -> bool.
Variable get_random_level : InnerIdType -> nat.
Variable build_thread_count_ : Z.
Variable pool_schedule : HGraph Codec Extra -> Dataset -> list nat.

Lemma search_one_graph_unraised (h : HGraph Codec Extra) mode query g
    flatten param :
  unraised (search_one_graph h mode query g flatten param).
Proof.
  unfold search_one_graph.
  apply unraised_bind; [by apply unraised_of_option|].
  intros codec _. apply HGraphSearch_unraised.
Qed.

Lemma descend_route_graphs_unraised (h : HGraph Codec Extra) query graphs :
  forall param,
    unraised (descend_route_graphs default_mode h query graphs param).
Proof.
  induction graphs as [|g graphs IH]; intros param;
    cbn [descend_route_graphs]; [apply unraised_Ok|].
  apply unraised_bind; [apply search_one_graph_unraised|]. intros res _.
  apply unraised_bind; [apply unraised_top|]. intros t _. apply IH.
Qed.

Lemma reorder_refill_unraised k scored :
  forall heap, unraised (reorder_refill k scored heap).
Proof.
  induction scored as [|[d id] scored IH]; intros heap;
    cbn [reorder_refill]; [apply unraised_Ok|].
  apply unraised_bind.
  { destruct (_ <? _); [apply unraised_Ok|].
    apply unraised_bind; [apply unraised_top|]. intros; apply unraised_Ok. }
  intros keep _. apply unraised_bind; [|intros; apply IH].
  destruct (_ <? _); [apply unraised_pop|apply unraised_Ok].
Qed.

Lemma reorder_unraised query (flatten : option Codec) heap k :
  unraised (reorder query flatten heap k).
Proof.
  unfold reorder. apply unraised_bind; [by apply unraised_of_option|].
  intros codec _. apply reorder_refill_unraised.
Qed.

Lemma emit_result_unraised (h : HGraph Codec Extra) heap :
  unraised (emit_result h heap).
Proof.
  unfold emit_result. apply unraised_bind.
  { apply unraised_mapM. intros p. by apply unraised_of_option. }
  intros ids _. apply unraised_bind; [|intros; apply unraised_Ok].
  destruct (_ <? _); [|apply unraised_Ok].
  apply unraised_bind; [by apply unraised_of_option|].
  intros; apply unraised_Ok.
Qed.

Lemma descend_from_top_unraised (h : HGraph Codec Extra) vectors param :
  unraised (descend_from_top default_mode h vectors param).
Proof.
  unfold descend_from_top. destruct (route_graphs_ h); [apply unraised_Ok|].
  apply unraised_bind; [by apply unraised_of_option|]. intros q _.
  apply descend_route_graphs_unraised.
Qed.

(** What is left of a search once the parameters are read. *)
Lemma unraised_bottom_search (h : HGraph Codec Extra) vectors param k
    (finish : MaxHeap -> outcome SearchResult) :
  (forall heap, unraised (finish heap)) ->
  unraised
    (q ← of_option NullPointer vectors;
     search_result ←
       search_one_graph h default_mode q (bottom_graph_ h)
         (Some (basic_flatten_codes_ h)) param;
     search_result ←
       (if use_reorder_ h
        then reorder q (high_precise_codes_ h) search_result k
        else Ok search_result);
     finish search_result).
Proof.
  intros Hfinish.
  apply unraised_bind; [by apply unraised_of_option|]. intros q _.
  apply unraised_bind; [apply search_one_graph_unraised|]. intros res _.
  apply unraised_bind; [|intros; apply Hfinish].
  destruct (use_reorder_ h); [apply reorder_unraised|apply unraised_Ok].
Qed.

(** X18.  [KnnSearch] reports an error in two cases only.  Either the
    query has the wrong dimension, [k] is not positive or the query does
    not hold one vector, and the error is then INVALID_ARGUMENT.  Or these
    checks pass, the descent through the route graphs returns, and
    [FromJson] throws on the parameter string what the handler turns into
    the error; with [std::invalid_argument], the one exception the
    handler catches, that is INVALID_ARGUMENT again.  Whatever else goes
    wrong in the search is not turned into an error value. *)
Theorem KnnSearch_reports_only_bad_arguments h query k parameters filter e :
  KnnSearch GetNumElements default_mode default_radius_ FromJson
    BitsetOrCallbackFilter h query k parameters
    filter = Fault (Raised e)
  <-> (e = INVALID_ARGUMENT /\
       (Dim query <> dim_ h \/ k <= 0 \/ NumElements query <> 1)) \/
      (Dim query = dim_ h /\ 0 < k /\ NumElements query = 1 /\
       (exists param,
          descend_from_top default_mode h (Float32Vectors query)
            {| HGraphSearch.ep_ := entry_point_id_ h;
               HGraphSearch.ef_ := 1;
               HGraphSearch.is_id_allowed_ := None;
               HGraphSearch.radius_ := default_radius_ |} = Ok param) /\
       FromJson parameters = Fault (Raised e)).
Proof.
  unfold KnnSearch. split.
  - destruct (Z.eqb_spec (Dim query) (dim_ h)) as [Hd|Hd];
      cbn [check_argument mbind outcome_bind];
      [|intros [= <-]; left; split; [done|by left]].
    destruct (Z.ltb_spec 0 k) as [Hk|Hk];
      cbn [check_argument mbind outcome_bind];
      [|intros [= <-]; left; split; [done|right; by left]].
    destruct (Z.eqb_spec (NumElements query) 1) as [Hn|Hn];
      cbn [check_argument mbind outcome_bind];
      [|intros [= <-]; left; split; [done|right; by right]].
    destruct (descend_from_top _ _ _ _) as [param|f] eqn:Hdescent;
      cbn [mbind outcome_bind].
    2:{ intros [= ->]. by apply descend_from_top_unraised in Hdescent. }
    destruct (FromJson parameters) as [params|f] eqn:Hparams;
      cbn [mbind outcome_bind].
    + intros Hrun. exfalso. revert Hrun. apply unraised_bottom_search.
      intros heap. destruct (Heap.empty _); [apply unraised_Ok|].
      apply emit_result_unraised.
    + intros [= ->]. right. split_and!; [done..|by eexists|done].
  - intros [[-> Hbad]|(Hd & Hk & Hn & [param Hdescent] & Hparams)].
    + destruct (Z.eqb_spec (Dim query) (dim_ h));
        cbn [check_argument mbind outcome_bind]; [|done].
      destruct (Z.ltb_spec 0 k); cbn [check_argument mbind outcome_bind];
        [|done].
      destruct (Z.eqb_spec (NumElements query) 1);
        cbn [check_argument mbind outcome_bind]; [|done].
      lia.
    + rewrite (proj2 (Z.eqb_eq _ _) Hd), (proj2 (Z.ltb_lt _ _) Hk),
        (proj2 (Z.eqb_eq _ _) Hn).
      cbn [check_argument mbind outcome_bind].
      rewrite Hdescent. cbn [mbind outcome_bind].
      by rewrite Hparams.
Qed.

(** X19.  [RangeSearch] reports an error in two cases only.  Either the
    query has the wrong dimension, the radius is negative, the query does
    not hold one vector or [limited_size] is 0, and the error is then
    INVALID_ARGUMENT.  Or these checks pass, the descent through the
    route graphs returns, and [FromJson] throws on the parameter string
    what the handler turns into the error; with [std::invalid_argument],
    the one exception the handler catches, that is INVALID_ARGUMENT
    again. *)
Theorem RangeSearch_reports_only_bad_arguments h query radius parameters
    filter limited_size e :
  RangeSearch default_mode default_radius_ FromJson h query radius parameters
    filter limited_size = Fault (Raised e)
  <-> (e = INVALID_ARGUMENT /\
       (Dim query <> dim_ h \/ (radius < 0)%Q \/ NumElements query <> 1 \/
        limited_size = 0)) \/
      (Dim query = dim_ h /\ (0 <= radius)%Q /\ NumElements query = 1 /\
       limited_size <> 0 /\
       (exists param,
          descend_from_top default_mode h (Float32Vectors query)
            {| HGraphSearch.ep_ := entry_point_id_ h;
               HGraphSearch.ef_ := 1;
               HGraphSearch.is_id_allowed_ := None;
               HGraphSearch.radius_ := default_radius_ |} = Ok param) /\
       FromJson parameters = Fault (Raised e)).
Proof.
  unfold RangeSearch. split.
  - destruct (Z.eqb_spec (Dim query) (dim_ h)) as [Hd|Hd];
      cbn [check_argument mbind outcome_bind];
      [|intros [= <-]; left; split; [done|by left]].
    destruct (Qle_bool 0 radius) eqn:Hr;
      cbn [check_argument mbind outcome_bind].
    2:{ intros [= <-]. left. split; [done|right; left].
        apply Qnot_le_lt. intros Hle%Qle_bool_iff. congruence. }
    apply Qle_bool_iff in Hr.
    destruct (Z.eqb_spec (NumElements query) 1) as [Hn|Hn];
      cbn [check_argument mbind outcome_bind];
      [|intros [= <-]; left; split; [done|right; right; by left]].
    destruct (Z.eqb_spec limited_size 0) as [Hl|Hl];
      cbn [negb check_argument mbind outcome_bind];
      [intros [= <-]; left; split; [done|right; right; by right]|].
    destruct (descend_from_top _ _ _ _) as [param|f] eqn:Hdescent;
      cbn [mbind outcome_bind].
    2:{ intros [= ->]. by apply descend_from_top_unraised in Hdescent. }
    destruct (FromJson parameters) as [params|f] eqn:Hparams;
      cbn [mbind outcome_bind].
    + intros Hrun. exfalso. revert Hrun. apply unraised_bottom_search.
      intros heap. apply emit_result_unraised.
    + intros [= ->]. right. split_and!; [done..|by eexists|done].
  - intros [[-> Hbad]|(Hd & Hr & Hn & Hl & [param Hdescent] & Hparams)].
    + destruct (Z.eqb_spec (Dim query) (dim_ h));
        cbn [check_argument mbind outcome_bind]; [|done].
      destruct (Qle_bool 0 radius) eqn:Hr;
        cbn [check_argument mbind outcome_bind]; [|done].
      apply Qle_bool_iff in Hr.
      destruct (Z.eqb_spec (NumElements query) 1);
        cbn [check_argument mbind outcome_bind]; [|done].
      destruct (Z.eqb_spec limited_size 0);
        cbn [negb check_argument mbind outcome_bind]; [done|].
      destruct Hbad as [?|[?%Qlt_not_le|[?|?]]]; done.
    + rewrite (proj2 (Z.eqb_eq _ _) Hd), (proj2 (Qle_bool_iff _ _) Hr),
        (proj2 (Z.eqb_eq _ _) Hn), (proj2 (Z.eqb_neq _ _) Hl).
      cbn [negb check_argument mbind outcome_bind].
      rewrite Hdescent. cbn [mbind outcome_bind].
      by rewrite Hparams.
Qed.

End Reported.

Section ReportedAdd.
Context {Codec Extra : Type}.
Context `{!FlattenInterface Codec} `{!ExtraInfoInterface Extra}.
Context `{!GraphInterface} `{!PruningStrategy Codec}.

Variable default_mode : InnerSearchMode.
Variable default_radius_ : Q.
Variable FromJson : string -> outcome HGraphSearchParameters.
Variable BitsetOrCallbackFilter : (LabelType -> bool) -> LabelType -> bool.
Variable get_random_level : InnerIdType -> nat.
Variable build_thread_count_ : Z.
Variable pool_schedule : HGraph Codec Extra -> Dataset -> list nat.

Lemma scan_duplicates_unraised (h : HGraph Codec Extra) labels n :
  forall i temp failed, unraised (scan_duplicates h labels n i temp failed).
Proof.
  induction n as [|n IH]; intros i temp failed; cbn [scan_duplicates];
    [apply unraised_Ok|].
  apply unraised_bind; [by apply unraised_of_option|]. intros label _.
  destruct (_ || _); apply IH.
Qed.

Lemma split_dataset_unraised (h : HGraph Codec Extra) data failed :
  unraised (split_dataset_by_duplicate_label h data failed).
Proof.
  unfold split_dataset_by_duplicate_label.
  apply unraised_bind; [apply scan_duplicates_unraised|]. intros f1 _.
  destruct (_ =? _)%nat; [apply unraised_Ok|].
  apply unraised_bind; [|intros; apply unraised_Ok].
  apply unraised_mapM. intros a. destruct (a <? 0); [done|].
  by apply unraised_of_option.
Qed.

Lemma resize_unraised (h : HGraph Codec Extra) new_size :
  unraised (resize h new_size).
Proof.
  unfold resize, next_multiple_of_power_of_two, int_one_shl.
  destruct (63 <? _); [done|]. destruct (32 <=? _); [done|].
  cbn [mbind outcome_bind]. destruct (_ <? _); apply unraised_Ok.
Qed.

Lemma descend_above_unraised (h : HGraph Codec Extra) data flatten n :
  forall j param,
    unraised (descend_above default_mode h data flatten n j param).
Proof.
  induction n as [|n IH]; intros j param; cbn [descend_above];
    [apply unraised_Ok|].
  apply unraised_bind; [by apply unraised_of_option|]. intros g _.
  apply unraised_bind; [apply search_one_graph_unraised|]. intros res _.
  apply unraised_bind; [apply unraised_top|]. intros t _. apply IH.
Qed.

Lemma connect_route_layers_unraised data flatten inner_id n :
  forall (h : HGraph Codec Extra) param,
    unraised
      (connect_route_layers default_mode h data flatten inner_id n param).
Proof.
  induction n as [|n IH]; intros h param; cbn [connect_route_layers];
    [apply unraised_Ok|].
  apply unraised_bind; [by apply unraised_of_option|]. intros g _.
  apply unraised_bind; [|intros [g' ep] _; apply IH].
  destruct (negb _); [|apply unraised_Ok].
  apply unraised_bind; [apply search_one_graph_unraised|]. intros res _.
  apply unraised_bind; [by apply unraised_of_option|]. intros codec _.
  destruct (mutually_connect_new_element _ _ _ _). apply unraised_Ok.
Qed.

Lemma add_one_point_unraised (h : HGraph Codec Extra) data level inner_id :
  unraised (add_one_point default_mode default_radius_ h data level inner_id).
Proof.
  unfold add_one_point.
  apply unraised_bind; [apply descend_above_unraised|]. intros param _.
  apply unraised_bind; [apply connect_route_layers_unraised|].
  intros [h1 ep] _.
  apply unraised_bind; [|intros; apply unraised_Ok].
  destruct (negb _); [|apply unraised_Ok].
  apply unraised_bind; [apply search_one_graph_unraised|]. intros res _.
  apply unraised_bind; [by apply unraised_of_option|]. intros codec _.
  destruct (mutually_connect_new_element _ _ _ _). apply unraised_Ok.
Qed.

Lemma build_func_unraised ids datas cur_count n :
  forall i (h : HGraph Codec Extra),
    unraised
      (build_func default_mode default_radius_ get_random_level ids datas
         cur_count n i h).
Proof.
  induction n as [|n IH]; intros i h; cbn [build_func]; [apply unraised_Ok|].
  apply unraised_bind; [by apply unraised_of_option|]. intros label _.
  apply unraised_bind; [case_decide; [apply unraised_Ok|done]|]. intros _ _.
  apply unraised_bind; [|intros; apply IH].
  destruct (_ || _); [|apply add_one_point_unraised].
  apply unraised_bind; [apply add_one_point_unraised|].
  intros; apply unraised_Ok.
Qed.

Lemma build_in_order_unraised ids datas cur_count order :
  forall h : HGraph Codec Extra,
    unraised
      (build_in_order default_mode default_radius_ get_random_level ids
         datas cur_count order h).
Proof.
  induction order as [|i order IH]; intros h; cbn [build_in_order];
    [apply unraised_Ok|].
  apply unraised_bind; [apply build_func_unraised|]. intros; apply IH.
Qed.

Lemma hnsw_add_unraised (h : HGraph Codec Extra) data :
  unraised
    (hnsw_add default_mode default_radius_ get_random_level
       build_thread_count_ pool_schedule h data).
Proof.
  unfold hnsw_add.
  apply unraised_bind; [by apply unraised_of_option|]. intros datas _.
  apply unraised_bind; [apply resize_unraised|]. intros h1 _.
  destruct (1 <? build_thread_count_);
    [apply build_in_order_unraised|apply build_func_unraised].
Qed.

Lemma add_datasets_unraised datasets :
  forall h : HGraph Codec Extra,
    unraised
      (add_datasets default_mode default_radius_ get_random_level
         build_thread_count_ pool_schedule h datasets).
Proof.
  induction datasets as [|d datasets IH]; intros h; cbn [add_datasets];
    [apply unraised_Ok|].
  apply unraised_bind; [by apply unraised_of_option|]. intros vectors _.
  apply unraised_bind.
  { destruct (use_reorder_ h); [|apply unraised_Ok].
    apply unraised_bind; [by apply unraised_of_option|].
    intros; apply unraised_Ok. }
  intros precise _.
  apply unraised_bind; [apply hnsw_add_unraised|]. intros h1 _.
  apply unraised_bind; [|intros; apply IH].
  destruct (_ <? _); [|apply unraised_Ok].
  apply unraised_bind; [by apply unraised_of_option|].
  intros; apply unraised_Ok.
Qed.

(** X20.  [Add] reports an error exactly when the batch has the wrong
    dimension or no vectors, and the error is then INVALID_ARGUMENT:
    what goes wrong later (a label array shorter than the count, a
    missing codec, [resize] refusing its bit count) is never turned
    into an error value. *)
Theorem Add_reports_only_bad_arguments h data e :
  Add default_mode default_radius_ get_random_level
    build_thread_count_ pool_schedule h data
    = Fault (Raised e)
  <-> e = INVALID_ARGUMENT /\
      (Dim data <> dim_ h \/ Float32Vectors data = None).
Proof.
  unfold Add. split.
  - destruct (Dim data =? dim_ h) eqn:Hd; cbn [check_argument mbind
      outcome_bind]; [|intros [= <-]; split; [done|left; lia]].
    destruct (Float32Vectors data) as [v|] eqn:Hv;
      cbn [bool_decide check_argument mbind outcome_bind].
    2:{ rewrite bool_decide_eq_false_2 by (by intros [? ?]).
        cbn [check_argument mbind outcome_bind].
        intros [= <-]. split; [done|by right]. }
    rewrite bool_decide_eq_true_2 by eauto.
    cbn [check_argument mbind outcome_bind].
    intros Hrun. exfalso. revert Hrun.
    apply unraised_bind; [apply split_dataset_unraised|].
    intros [datasets failed] _.
    apply unraised_bind; [apply add_datasets_unraised|].
    intros; apply unraised_Ok.
  - intros [-> Hbad].
    destruct (Dim data =? dim_ h) eqn:Hd; cbn [check_argument mbind
      outcome_bind]; [|done].
    destruct Hbad as [?|Hv]; [lia|]. rewrite Hv.
    rewrite bool_decide_eq_false_2 by (by intros [? ?]). done.
Qed.

End ReportedAdd.

Section CalculateDistanceProps.
Context {Codec Extra : Type} `{!FlattenInterface Codec}.

(** X21.  [CalculateDistanceById] on an index whose label lookup and
    label vector agree: for a label carried by a stored element the
    call returns the distance the codec reports for that element; for
    any other label it reports INVALID_ARGUMENT.  The codec asked is
    the precise one when reordering is on. *)
Theorem CalculateDistanceById_by_label (h : HGraph Codec Extra) vector l
    codec :
  id_space h ->
  distance_codec h = Some codec ->
  match CalculateDistanceById h vector l with
  | Ok d =>
      exists id, (id < TotalCount (bottom_graph_ h))%nat /\
                 labels_ h !! id = Some l /\
                 d = FactoryComputer codec vector id
  | Fault f =>
      f = Raised INVALID_ARGUMENT /\
      forall id, (id < TotalCount (bottom_graph_ h))%nat ->
                 labels_ h !! id <> Some l
  end.
Proof.
  intros (_ & _ & Hspace) Hcodec. unfold CalculateDistanceById.
  rewrite Hcodec. cbn [of_option mbind outcome_bind].
  destruct (label_lookup_ h !! l) as [id|] eqn:Hl.
  - apply Hspace in Hl as [Hid Hlab]. by exists id.
  - split; [done|]. intros id Hid Hlab.
    assert (label_lookup_ h !! l = Some id) as Hl' by (by apply Hspace).
    pose proof (eq_trans (eq_sym Hl) Hl'). discriminate.
Qed.
End CalculateDistanceProps.

Lemma after_duplicate_id_space : id_space OneDim.after_duplicate.
Proof.
  split; [done|]. split; [simpl; lia|]. intros l id.
  assert (Hlk : label_lookup_ OneDim.after_duplicate
                = <[2 := 1%nat]> (<[1 := 0%nat]> ∅))
    by (vm_compute; reflexivity).
  rewrite Hlk. cbn [OneDim.after_duplicate labels_ bottom_graph_ TotalCount
                    total_count_].
  destruct (decide (l = 2)) as [->|H2].
  - rewrite lookup_insert_eq. split.
    + intros [= <-]. split; [lia|done].
    + intros [Hid Hl]. destruct id as [|[|id]]; simpl in *;
        [discriminate|done|lia].
  - rewrite lookup_insert_ne by done.
    destruct (decide (l = 1)) as [->|H1].
    + rewrite lookup_insert_eq. split.
      * intros [= <-]. split; [lia|done].
      * intros [Hid Hl]. destruct id as [|[|id]]; simpl in *;
          [done|discriminate|lia].
    + rewrite lookup_insert_ne, lookup_empty by done. split; [done|].
      intros [Hid Hl]. destruct id as [|[|id]]; simpl in *;
        [congruence|congruence|lia].
Qed.

Lemma CalculateDistanceById_by_label_witness :
  match CalculateDistanceById OneDim.after_duplicate [3%Q] 2 with
  | Ok d =>
      exists id, (id < TotalCount (bottom_graph_ OneDim.after_duplicate))%nat
                 /\ labels_ OneDim.after_duplicate !! id = Some 2
                 /\ d = OneDim.toy_computer [0; 5] [3%Q] id
  | Fault f =>
      f = Raised INVALID_ARGUMENT /\
      forall id, (id < TotalCount (bottom_graph_ OneDim.after_duplicate))%nat
                 -> labels_ OneDim.after_duplicate !! id <> Some 2
  end.
Proof.
  refine (CalculateDistanceById_by_label OneDim.after_duplicate [3%Q] 2
            [0; 5] _ _).
  - exact after_duplicate_id_space.
  - reflexivity.
Defined.

(** ** The greedy descent *)

Lemma emplace_Exists (P : Heap.item -> Prop) d id (h : MaxHeap) :
  Exists P h -> Exists P (Heap.emplace d id h).
Proof.
  rewrite !Exists_exists. intros (x & Hx & HP). exists x. split; [|done].
  rewrite emplace_Permutation. by right.
Qed.

Lemma pop_keeps_near d0 (h h' : MaxHeap) :
  Heap.descending h -> 1 < Heap.size h -> Heap.pop h = Ok h' ->
  Exists (fun x : Heap.item => (x.1 <= d0)%Q) h ->
  Exists (fun x : Heap.item => (x.1 <= d0)%Q) h'.
Proof.
  destruct h as [|x [|y h]]; unfold Heap.size; simpl;
    [intros; lia|intros; lia|].
  intros [Hall _] _ [= <-] [Hx|Hex]%Exists_cons; [|done].
  apply Exists_cons_hd. apply Forall_cons in Hall as [Hy _].
  simpl in *. by eapply Qle_trans.
Qed.

Lemma HGraphSearch_relax_near computer get_label param d0 tbv :
  1 <= wrap64 (HGraphSearch.ef_ param) ->
  forall cand res lb cand' res' lb',
    HGraphSearch.relax KNN_SEARCH_MODE computer get_label param tbv cand res
      lb = Ok (cand', res', lb') ->
    Heap.descending res ->
    Exists (fun x : Heap.item => (x.1 <= d0)%Q) res ->
    Exists (fun x : Heap.item => (x.1 <= d0)%Q) res'.
Proof.
  intros Hef.
  induction tbv as [|id tbv IH]; intros cand res lb cand' res' lb'; simpl.
  - intros [= _ <- _]. done.
  - destruct (_ || _ || _); [|apply IH].
    destruct (HGraphSearch.id_allowed _ _ _) as [ok|]; [|discriminate].
    cbn [mbind outcome_bind].
    set (res1 := if ok then _ else _).
    destruct (if _ <? _ then _ else _) as [res2|] eqn:Hpop;
      [cbn [mbind outcome_bind]|discriminate].
    intros Hrec Hd Hex.
    assert (Hd1 : Heap.descending res1).
    { subst res1. destruct ok; [|done]. by apply emplace_descending. }
    assert (Hex1 : Exists (fun x : Heap.item => (x.1 <= d0)%Q) res1).
    { subst res1. destruct ok; [|done]. by apply emplace_Exists. }
    destruct (_ <? _) eqn:Hlt.
    + apply Z.ltb_lt in Hlt. eapply IH; [exact Hrec| |].
      * by eapply pop_descending.
      * eapply pop_keeps_near; [exact Hd1| |exact Hpop|exact Hex1]. lia.
    + injection Hpop as <-. by eapply IH.
Qed.

Lemma HGraphSearch_search_loop_near computer get_label g param d0 fuel :
  1 <= wrap64 (HGraphSearch.ef_ param) ->
  forall cand res lb vl res',
    (HGraphSearch.search_loop KNN_SEARCH_MODE computer get_label g param fuel
       cand res lb vl).2 = Ok res' ->
    Heap.descending res ->
    Exists (fun x : Heap.item => (x.1 <= d0)%Q) res ->
    Exists (fun x : Heap.item => (x.1 <= d0)%Q) res'.
Proof.
  intros Hef.
  induction fuel as [|fuel IH]; intros cand res lb vl res';
    destruct cand as [|c cand]; simpl.
  - by intros [= <-].
  - destruct (_ && _); simpl; [by intros [= <-]|discriminate].
  - by intros [= <-].
  - destruct (_ && _); simpl; [by intros [= <-]|].
    destruct (HGraphSearch.collect_unvisited _ _ _ _) as [[tbv vl']|];
      [|discriminate].
    destruct (HGraphSearch.relax _ _ _ _ _ _ _ _) as [[[cand' res1] lb']|]
      eqn:Hrelax; [|discriminate].
    specialize (IH cand' res1 lb' vl' res').
    destruct (HGraphSearch.search_loop _ _ _ _ _ _ _ _ _ _) as [log r].
    simpl in *. intros Hr Hd Hex. apply IH; [done| |].
    + by eapply HGraphSearch_relax_descending.
    + by eapply HGraphSearch_relax_near.
Qed.

Lemma HGraphSearch_knn_near computer get_label g param vl res :
  HGraphSearch.is_id_allowed_ param = None ->
  1 <= wrap64 (HGraphSearch.ef_ param) ->
  (HGraphSearch.search_one_graph KNN_SEARCH_MODE computer get_label g param
     vl).2 = Ok res ->
  Exists (fun x : Heap.item => (x.1 <= computer (HGraphSearch.ep_ param))%Q)
         res.
Proof.
  intros Hfilter Hef. unfold HGraphSearch.search_one_graph.
  destruct (HGraphSearch.search_init _ _ _ _ _) as [[[[cand res0] lb] vl']|]
    eqn:Hinit; [|discriminate].
  assert (Hres0 : res0 = [(computer (HGraphSearch.ep_ param),
                           HGraphSearch.ep_ param)]).
  { revert Hinit. unfold HGraphSearch.search_init, HGraphSearch.id_allowed.
    rewrite Hfilter. cbn [mbind outcome_bind is_range andb].
    destruct (vl_Set vl _); cbn [mbind outcome_bind]; [|discriminate].
    by intros [= _ <- _ _]. }
  pose proof (HGraphSearch_search_loop_near computer get_label g param
                (computer (HGraphSearch.ep_ param)) (length (mass vl)) Hef
                cand res0 lb vl' res) as Hloop.
  destruct (HGraphSearch.search_loop _ _ _ _ _ _ _ _ _ _) as [log r].
  simpl in *. intros Hr. apply Hloop; [done| |]; subst res0.
  - split; [constructor|done].
  - apply Exists_cons_hd. simpl. apply Qle_refl.
Qed.

(** X22.  A KNN search of one graph without a filter and with a beam of
    at least one never comes back empty: the result holds an element
    that is at least as near to the query as the entry point. *)
Theorem search_one_graph_knn_no_farther_than_entry computer get_label g
    param vl res :
  HGraphSearch.is_id_allowed_ param = None ->
  1 <= wrap64 (HGraphSearch.ef_ param) ->
  (HGraphSearch.search_one_graph KNN_SEARCH_MODE computer get_label g param
     vl).2 = Ok res ->
  Exists (fun x : Heap.item => (x.1 <= computer (HGraphSearch.ep_ param))%Q)
         res.
Proof.
  intros Hfilter Hef Hrun.
  pose proof (HGraphSearch_knn_near _ _ _ _ _ _ Hfilter Hef Hrun) as Hex.
  apply Exists_exists in Hex as (x & Hx & Hle).
  apply Exists_exists. by exists x.
Qed.

Lemma search_one_graph_knn_no_farther_than_entry_witness :
  Exists (fun x : Heap.item =>
            (x.1 <= Sample.computer (HGraphSearch.ep_ SampleDescent.greedy_param))%Q)
         [(4%Q, 1%nat)].
Proof.
  apply (search_one_graph_knn_no_farther_than_entry Sample.computer
           Sample.get_label Sample.graph SampleDescent.greedy_param
           (getFreeVisitedList 8)).
  - reflexivity.
  - vm_compute. discriminate.
  - vm_compute. reflexivity.
Defined.

Section GreedyDescent.
Context {Codec Extra : Type}.
Context `{!FlattenInterface Codec}.

(** X23.  The descent through the route graphs in KNN mode, with the
    beam of one and no filter that [KnnSearch], [RangeSearch] and
    [add_one_point] give it: every layer hands on an entry point that is
    no farther from the query than the one it was given, and the
    [top()] that reads it never finds the queue empty; the descent
    either returns or ends in an access past the end of a vector. *)
Theorem descend_route_graphs_knn_moves_nearer (h : HGraph Codec Extra) query
    graphs :
  forall param,
    HGraphSearch.ef_ param = 1 ->
    HGraphSearch.is_id_allowed_ param = None ->
    match descend_route_graphs KNN_SEARCH_MODE h query graphs param with
    | Ok param' =>
        (FactoryComputer (basic_flatten_codes_ h) query
           (HGraphSearch.ep_ param')
         <= FactoryComputer (basic_flatten_codes_ h) query
              (HGraphSearch.ep_ param))%Q
    | Fault f => f = OutOfBounds
    end.
Proof.
  induction graphs as [|g graphs IH]; intros param Hef Hfilter;
    cbn [descend_route_graphs]; [apply Qle_refl|].
  unfold search_one_graph. cbn [of_option mbind outcome_bind].
  destruct (HGraphSearch.search_one_graph _ _ _ _ _ _) as [log r] eqn:Hrun.
  cbn [snd]. destruct r as [res|f]; cbn [mbind outcome_bind].
  2:{ eapply HGraphSearch_knn_faults. by rewrite Hrun. }
  assert (Hef1 : 1 <= wrap64 (HGraphSearch.ef_ param))
    by (rewrite Hef; vm_compute; discriminate).
  pose proof (HGraphSearch_knn_near _ _ _ _ _ _ Hfilter Hef1
                (f_equal snd Hrun)) as Hex.
  pose proof (HGraphSearch_search_one_graph_result _ _ _ _ _ _ _ _ Hrun)
    as (Hsub & _ & Hsize).
  specialize (Hsize eq_refl). rewrite Hef in Hsize.
  change (wrap64 1) with 1 in Hsize. unfold Heap.size in Hsize.
  destruct res as [|x [|y res]];
    [by apply Exists_nil in Hex| |simpl length in Hsize; lia].
  cbn [Heap.top mbind outcome_bind snd].
  apply Exists_cons in Hex as [Hx|[]%Exists_nil].
  assert (Hscore : x.1 = FactoryComputer (basic_flatten_codes_ h) query x.2).
  { assert (x ∈ scored (FactoryComputer (basic_flatten_codes_ h) query)
                   <$> log) as Hin.
    { eapply elem_of_submseteq; [|exact Hsub]. by left. }
    apply list_elem_of_fmap in Hin as (id & -> & _). done. }
  match goal with
  | |- context [descend_route_graphs _ _ _ _ ?p] =>
      specialize (IH p Hef Hfilter)
  end.
  destruct (descend_route_graphs _ _ _ _ _) as [param'|f]; [|done].
  cbn [HGraphSearch.ep_] in IH. eapply Qle_trans; [exact IH|].
  by rewrite <- Hscore.
Qed.
End GreedyDescent.

Lemma descend_route_graphs_knn_moves_nearer_witness :
  match descend_route_graphs KNN_SEARCH_MODE OneDim.two_levels [8%Q]
          [bottom_graph_ OneDim.two_levels] SampleDescent.greedy_param
  with
  | Ok param' =>
      (FactoryComputer (basic_flatten_codes_ OneDim.two_levels) [8%Q]
         (HGraphSearch.ep_ param')
       <= FactoryComputer (basic_flatten_codes_ OneDim.two_levels) [8%Q]
            (HGraphSearch.ep_ SampleDescent.greedy_param))%Q
  | Fault f => f = OutOfBounds
  end.
Proof.
  apply (descend_route_graphs_knn_moves_nearer OneDim.two_levels [8%Q]
           [bottom_graph_ OneDim.two_levels] SampleDescent.greedy_param);
    reflexivity.
Defined.

(** ** The fixtures *)

Module FixturesProps.
Import Fixtures.

Lemma pair_ltb_true (p y : item) : pair_ltb p y = true -> (p.1 <= y.1)%Q.
Proof.
  unfold pair_ltb. intros [H|[H _]%andb_true_iff]%orb_true_iff.
  - by apply Qlt_le_weak, Qltb_lt.
  - apply negb_true_iff in H. by apply Qltb_ge.
Qed.

Lemma pair_ltb_false (p y : item) : pair_ltb p y = false -> (y.1 <= p.1)%Q.
Proof.
  unfold pair_ltb. intros [H _]%orb_false_iff. by apply Qltb_ge.
Qed.

Lemma queue_emplace_Permutation (p : item) (h : list item) : emplace p h ≡ₚ p :: h.
Proof.
  induction h as [|y h IH]; simpl; [done|].
  destruct (pair_ltb p y); [|done]. rewrite IH. apply Permutation_swap.
Qed.

Lemma queue_length_emplace (p : item) (h : list item) :
  length (emplace p h) = S (length h).
Proof. by rewrite queue_emplace_Permutation. Qed.

Lemma queue_emplace_descending (p : item) (h : list item) :
  descending h -> descending (emplace p h).
Proof.
  induction h as [|y h IH]; simpl; [intros; split; [constructor|done]|].
  intros [Hall Hdesc]. destruct (pair_ltb p y) eqn:E.
  - apply pair_ltb_true in E. simpl. split; [|by apply IH].
    rewrite queue_emplace_Permutation. by constructor.
  - apply pair_ltb_false in E. simpl. split_and!; [|done|done].
    constructor; [done|]. eapply Forall_impl; [exact Hall|].
    intros z Hz. simpl in *. by eapply Qle_trans.
Qed.

Lemma queue_reverse_ascending (h : list item) :
  descending h -> ascending (reverse h).*1.
Proof.
  induction h as [|x h IH]; [by constructor|].
  intros [Hall Hd]. rewrite reverse_cons, fmap_app. simpl.
  apply ascending_snoc; [by apply IH|].
  apply Forall_fmap. apply Forall_reverse.
  eapply Forall_impl; [exact Hall|]. done.
Qed.

Lemma drain_enough n :
  forall (h : list item) ids dists,
    (n <= length h)%nat ->
    drain n h ids dists
    = Ok (reverse (take n h).*2 ++ ids, reverse (take n h).*1 ++ dists).
Proof.
  induction n as [|n IH]; intros h ids dists Hn; [done|].
  destruct h as [|x h]; simpl in Hn; [lia|].
  cbn [drain top pop mbind outcome_bind]. rewrite IH by lia.
  rewrite firstn_cons, !fmap_cons, !reverse_cons, <- !app_assoc. done.
Qed.

Lemma drain_short n :
  forall (h : list item) ids dists,
    (length h < n)%nat -> drain n h ids dists = Fault TopOnEmptyHeap.
Proof.
  induction n as [|n IH]; intros h ids dists Hn; [lia|].
  destruct h as [|x h]; [done|]. simpl in Hn.
  cbn [drain top pop mbind outcome_bind]. apply IH. lia.
Qed.

Section brute_force_props.
Variable NDEBUG : bool.
Variable L2Sqr : list Q -> list Q -> Q.
Variables query base : Dataset.
Variable k : Z.
Variables q b : list Q.

Hypothesis dims_agree : Dim query = Dim base.
Hypothesis dim_range : 0 <= Dim query < 2 ^ 63.
Hypothesis k_range : 0 <= k <= 2 ^ 31.
Hypothesis base_range : NumElements base <= 2 ^ 31.
Hypothesis query_vector : Float32Vectors query = Some q.
Hypothesis query_length : Dim query <= Z.of_nat (length q).
Hypothesis base_vectors : Float32Vectors base = Some b.
Hypothesis base_length :
  NumElements base * Dim base <= Z.of_nat (length b).
Hypothesis base_ids : NumElements base <= Z.of_nat (length (Ids base)).

Let N : nat := Z.to_nat (NumElements base).

Let score (i : nat) : item :=
  (L2Sqr (take (Z.to_nat (Dim query)) (default [] (Float32Vectors query)))
         (vector_at base (Dim query) i),
   default 0 (Ids base !! i)).

Lemma scored_base_score : scored_base L2Sqr query base = score <$> seq 0 N.
Proof. done. Qed.

Lemma wrap64_dim : wrap64 (Dim query) = Dim query.
Proof. unfold wrap64. apply Z.mod_small. lia. Qed.

Lemma wrap64_k : wrap64 k = k.
Proof. unfold wrap64. apply Z.mod_small. lia. Qed.

Lemma read_query :
  read_floats (Float32Vectors query) 0 (wrap64 (Dim query))
  = Ok (take (Z.to_nat (Dim query)) (default [] (Float32Vectors query))).
Proof.
  rewrite wrap64_dim. unfold read_floats.
  destruct (Z.eqb_spec (Dim query) 0) as [->|Hne]; [done|].
  rewrite query_vector. cbn [of_option mbind outcome_bind default].
  destruct (Z.ltb_spec (Z.of_nat (length q)) (0 + Dim query)); [lia|].
  done.
Qed.

Lemma read_base (i : nat) :
  (i < N)%nat ->
  read_floats (Float32Vectors base) (Z.of_nat i * Dim base)
    (wrap64 (Dim query))
  = Ok (vector_at base (Dim query) i).
Proof.
  intros Hi. rewrite wrap64_dim. unfold read_floats, vector_at.
  destruct (Z.eqb_spec (Dim query) 0) as [->|Hne]; [done|].
  rewrite base_vectors. cbn [of_option mbind outcome_bind default].
  destruct (Z.ltb_spec (Z.of_nat i * Dim base) 0) as [Hneg|_]; [nia|].
  unfold N in *.
  destruct (Z.ltb_spec (Z.of_nat (length b))
              (Z.of_nat i * Dim base + Dim query)) as [Hlt|_]; [nia|].
  done.
Qed.

Lemma read_id (i : nat) :
  (i < N)%nat ->
  of_option OutOfBounds (Ids base !! Z.to_nat (Z.of_nat i))
  = Ok (default 0 (Ids base !! i)).
Proof.
  intros Hi. rewrite Nat2Z.id.
  destruct (Ids base !! i) as [id|] eqn:Hid; [done|].
  exfalso. apply lookup_ge_None in Hid. unfold N, LabelType in *. lia.
Qed.

(** The loop of lines 318-329, from index [j] on: the queue holds the
    [min k j] nearest of the first [j] vectors. *)
Lemma scan_spec (m : nat) :
  forall (j : nat) (h dropped : list item),
    (j + m = N)%nat ->
    0 < k \/ N = 0%nat ->
    descending h ->
    Z.of_nat (length h) = Z.min k (Z.of_nat j) ->
    score <$> seq 0 j ≡ₚ h ++ dropped ->
    Forall (fun x : item => Forall (fun y : item => (y.1 <= x.1)%Q) h)
           dropped ->
    exists h' dropped',
      scan L2Sqr query base k m (Z.of_nat j) h = Ok h' /\
      descending h' /\
      Z.of_nat (length h') = Z.min k (Z.of_nat N) /\
      score <$> seq 0 N ≡ₚ h' ++ dropped' /\
      Forall (fun x : item => Forall (fun y : item => (y.1 <= x.1)%Q) h')
             dropped'.
Proof.
  induction m as [|m IH]; intros j h dropped Hj Hk Hd Hlen Hperm Hall.
  - assert (j = N) as -> by lia. exists h, dropped.
    split; [|done]. cbn [scan].
    destruct (Z.ltb_spec (Z.of_nat N) (NumElements base)); [unfold N in *; lia|].
    done.
  - assert (Hlt : (j < N)%nat) by lia.
    destruct Hk as [Hk|Hk]; [|lia].
    cbn [scan].
    destruct (Z.ltb_spec (Z.of_nat j) (NumElements base)); [|unfold N in *; lia].
    rewrite read_query. cbn [mbind outcome_bind].
    rewrite read_base by done. cbn [mbind outcome_bind].
    rewrite wrap64_k.
    assert (Hnext : wrap32 (Z.of_nat j + 1) = Z.of_nat (S j)).
    { unfold wrap32. rewrite Z.mod_small; [lia|]. unfold N in *. lia. }
    rewrite Hnext.
    assert (Hseq : score <$> seq 0 (S j) ≡ₚ score j :: h ++ dropped).
    { rewrite seq_S, fmap_app. simpl. rewrite Hperm. solve_Permutation. }
    assert (Hs : score j
                 = (L2Sqr (take (Z.to_nat (Dim query))
                             (default [] (Float32Vectors query)))
                          (vector_at base (Dim query) j),
                    default 0 (Ids base !! j))) by done.
    set (dist := L2Sqr _ _) in *. rewrite Hs in Hseq. clear Hs.
    destruct (Z.ltb_spec (Z.of_nat (length h)) k) as [Hroom|Hfull].
    + rewrite read_id by done. cbn [mbind outcome_bind].
      assert (Hnone : dropped = []).
      { destruct dropped as [|x dropped]; [done|].
        apply Permutation_length in Hperm.
        rewrite length_fmap, length_seq, length_app in Hperm.
        simpl in Hperm. lia. }
      subst dropped.
      apply (IH (S j) _ []); [lia|by left|by apply queue_emplace_descending| | |done].
      * rewrite queue_length_emplace. lia.
      * rewrite Hseq, queue_emplace_Permutation. solve_Permutation.
    + destruct h as [|t h]; [simpl in *; lia|].
      cbn [top mbind outcome_bind].
      destruct (Qltb dist t.1) eqn:Hnear.
      * cbn [pop mbind outcome_bind]. rewrite read_id by done.
        cbn [mbind outcome_bind].
        apply Qltb_lt in Hnear. destruct Hd as [Hle Hd].
        apply (IH (S j) _ (t :: dropped));
          [lia|by left|by apply queue_emplace_descending| | |].
        -- rewrite queue_length_emplace. simpl in *. lia.
        -- rewrite Hseq, queue_emplace_Permutation. solve_Permutation.
        -- assert (Hh : Forall (fun y : item => (y.1 <= t.1)%Q)
                           (emplace (score j) h)).
           { rewrite queue_emplace_Permutation.
             constructor; [by apply Qlt_le_weak|done]. }
           constructor; [done|].
           eapply Forall_impl; [exact Hall|]. intros x Hx.
           apply Forall_cons in Hx as [Hxt Hx].
           eapply Forall_impl; [exact Hh|]. intros y Hy. simpl in *.
           by eapply Qle_trans.
      * cbn [mbind outcome_bind]. apply Qltb_ge in Hnear.
        apply (IH (S j) _ ((dist, default 0 (Ids base !! j)) :: dropped));
          [lia|by left|done| | |].
        -- simpl in *. lia.
        -- rewrite Hseq. solve_Permutation.
        -- constructor; [|done]. destruct Hd as [Hle _].
           constructor; [done|].
           eapply Forall_impl; [exact Hle|]. intros y Hy. simpl in *.
           by eapply Qle_trans.
Qed.

Lemma scan_from_start :
  0 < k \/ N = 0%nat ->
  exists h dropped,
    scan L2Sqr query base k N 0 [] = Ok h /\
    descending h /\
    Z.of_nat (length h) = Z.min k (Z.of_nat N) /\
    score <$> seq 0 N ≡ₚ h ++ dropped /\
    Forall (fun x : item => Forall (fun y : item => (y.1 <= x.1)%Q) h)
           dropped.
Proof.
  intros Hk. apply (scan_spec N 0 [] []); try done. simpl. lia.
Qed.

Lemma drain_count : 0 < k -> Z.to_nat (sint32 (k - 1) + 1) = Z.to_nat k.
Proof. intros Hk. rewrite sint32_small by lia. f_equal. lia. Qed.

(** X24.  [brute_force] with a base that holds at least [k] vectors
    (and [k] positive): it returns [k] ids and [k] distances, the
    distances in ascending order, each id with the distance of its
    vector, and no vector that was left out is nearer to the query than
    one that was returned. *)
Theorem brute_force_returns_the_k_nearest metric_type :
  metric_type = "l2" ->
  NumElements query = 1 ->
  0 < k <= NumElements base ->
  exists r rest,
    brute_force NDEBUG L2Sqr query base k metric_type = Returns r /\
    num_elements r = k /\
    length (ids r) = Z.to_nat k /\
    length (distances r) = Z.to_nat k /\
    ascending (distances r) /\
    scored_base L2Sqr query base ≡ₚ zip (distances r) (ids r) ++ rest /\
    Forall (fun p : item => Forall (fun d => (d <= p.1)%Q) (distances r))
           rest.
Proof.
  intros -> Hone Hk. unfold brute_force.
  rewrite bool_decide_eq_true_2 by done.
  rewrite (proj2 (Z.eqb_eq _ _) dims_agree), (proj2 (Z.eqb_eq _ _) Hone).
  cbn [andb negb]. rewrite andb_false_r.
  destruct (Z.ltb_spec k 0); [lia|].
  destruct scan_from_start as (h & dropped & Hscan & Hd & Hlen & Hperm & Hall);
    [left; lia|].
  unfold N in Hscan. rewrite Hscan.
  cbn [mbind outcome_bind]. rewrite drain_count by lia.
  assert (Hlen' : length h = Z.to_nat k) by (unfold N in *; lia).
  rewrite drain_enough by lia. rewrite <- Hlen', firstn_all, !app_nil_r.
  eexists _, dropped. split; [done|]. cbn [num_elements ids distances].
  rewrite <- !fmap_reverse.
  split; [done|]. split; [by rewrite length_fmap, length_reverse|].
  split; [by rewrite length_fmap, length_reverse|].
  split; [by apply queue_reverse_ascending|].
  rewrite zip_fst_snd, scored_base_score, Hperm, reverse_Permutation.
  split; [done|].
  eapply Forall_impl; [exact Hall|]. intros p Hp.
  apply Forall_fmap, Forall_reverse. done.
Qed.

(** X25.  [brute_force] does not compare [k] with the size of the base:
    when the base holds fewer than [k] vectors, the loop that fills the
    result reads the top of the empty queue, and so does the scan when
    [k] is 0 and the base is not empty. *)
Theorem brute_force_reads_empty_queue_when_short metric_type :
  metric_type = "l2" ->
  NumElements query = 1 ->
  0 <= NumElements base < k \/ (k = 0 /\ 0 < NumElements base) ->
  brute_force NDEBUG L2Sqr query base k metric_type
  = Undefined TopOnEmptyHeap.
Proof.
  intros -> Hone Hk. unfold brute_force.
  rewrite bool_decide_eq_true_2 by done.
  rewrite (proj2 (Z.eqb_eq _ _) dims_agree), (proj2 (Z.eqb_eq _ _) Hone).
  cbn [andb negb]. rewrite andb_false_r.
  destruct (Z.ltb_spec k 0); [lia|].
  destruct Hk as [Hk|[-> Hpos]].
  - destruct scan_from_start
      as (h & dropped & Hscan & Hd & Hlen & Hperm & Hall).
    { destruct (decide (N = 0%nat)); [by right|left; unfold N in *; lia]. }
    unfold N in Hscan. rewrite Hscan. cbn [mbind outcome_bind]. rewrite drain_count by lia.
    rewrite drain_short; [done|]. unfold N in *. lia.
  - fold N. destruct N as [|n] eqn:HN; [unfold N in *; lia|].
    cbn [scan].
    destruct (Z.ltb_spec 0 (NumElements base)); [|lia].
    rewrite read_query. cbn [mbind outcome_bind].
    assert (Hb : (0 < N)%nat) by lia.
    apply (read_base 0) in Hb. change (Z.of_nat 0) with 0 in Hb.
    rewrite Hb. cbn [mbind outcome_bind]. done.
Qed.
End brute_force_props.

Lemma brute_force_returns_the_k_nearest_witness :
  exists r rest,
    brute_force false line_L2Sqr line_query line_base 2 "l2" = Returns r /\
    num_elements r = 2 /\
    length (ids r) = Z.to_nat 2 /\
    length (distances r) = Z.to_nat 2 /\
    ascending (distances r) /\
    scored_base line_L2Sqr line_query line_base
      ≡ₚ zip (distances r) (ids r) ++ rest /\
    Forall (fun p : item => Forall (fun d => (d <= p.1)%Q) (distances r))
           rest.
Proof.
  apply (brute_force_returns_the_k_nearest false line_L2Sqr line_query
           line_base 2 [3%Q] [0%Q; 5%Q; 9%Q; 2%Q]);
    first [reflexivity | simpl; lia].
Defined.

Lemma brute_force_reads_empty_queue_when_short_witness :
  brute_force false line_L2Sqr line_query line_base 5 "l2"
  = Undefined TopOnEmptyHeap.
Proof.
  apply (brute_force_reads_empty_queue_when_short false line_L2Sqr
           line_query line_base 5 [3%Q] [0%Q; 5%Q; 9%Q; 2%Q]);
    first [reflexivity | simpl; lia].
Defined.

(** *** SplitString *)

Lemma read_token_spec d s :
  forall t r,
    read_token d s = (t, r) ->
    (d ∉ t) /\ (s = t ++ d :: r \/ (s = t /\ r = [])).
Proof.
  induction s as [|c s IH]; intros t r; simpl.
  - intros [= <- <-]. split; [apply not_elem_of_nil|by right].
  - destruct (Ascii.eqb c d) eqn:E.
    + apply Ascii.eqb_eq in E as ->. intros [= <- <-].
      split; [apply not_elem_of_nil|by left].
    + apply Ascii.eqb_neq in E.
      destruct (read_token d s) as [t' r'] eqn:Hrt. intros [= <- <-].
      destruct (IH _ _ eq_refl) as [Hnot Hs]. split.
      * rewrite not_elem_of_cons. split; [congruence|done].
      * destruct Hs as [->|[-> ->]]; [by left|by right].
Qed.

Lemma split_loop_spec d fuel :
  forall s tokens,
    (length s <= fuel)%nat ->
    exists new,
      split_loop d fuel s tokens = Ok (tokens ++ new) /\
      Forall (fun t => d ∉ t) new /\
      (new = [] <-> s = []) /\
      join_with d new
      = (if decide (last s = Some d) then removelast s else s).
Proof.
  induction fuel as [|fuel IH]; intros s tokens Hlen.
  - destruct s; [|simpl in Hlen; lia]. exists []. rewrite app_nil_r.
    by repeat split.
  - destruct s as [|c s].
    { exists []. rewrite app_nil_r. by repeat split. }
    cbn [split_loop getline].
    destruct (read_token d (c :: s)) as [t r] eqn:Hrt.
    apply read_token_spec in Hrt as [Hnot Hs].
    destruct Hs as [Hs|[Hs ->]].
    + assert (Hr : (length r <= fuel)%nat).
      { apply (f_equal length) in Hs. rewrite length_app in Hs.
        simpl in *. lia. }
      destruct (IH r (tokens ++ [t]) Hr) as (new & Hrun & Hall & Hnil & Hjoin).
      exists (t :: new). rewrite Hrun, <- app_assoc. split; [done|].
      split; [by constructor|]. split; [by split|].
      rewrite Hs. destruct new as [|u new].
      * assert (r = []) as -> by (by apply Hnil).
        simpl. rewrite app_nil_r, last_snoc.
        rewrite decide_True by done. by rewrite removelast_last.
      * assert (Hne : r <> []) by (intros Hr0; by apply Hnil in Hr0).
        change (join_with d (t :: u :: new))
          with (t ++ d :: join_with d (u :: new)).
        rewrite Hjoin.
        assert (Hlast : last (t ++ d :: r) = last r).
        { rewrite last_app_cons. destruct r as [|x r]; [done|].
          apply last_cons_cons. }
        rewrite Hlast.
        destruct (decide (last r = Some d)); [|done].
        destruct r as [|x r]; [done|].
        by rewrite removelast_app.
    + exists [t]. split; [by destruct fuel|].
      split; [by constructor|]. split; [by split|].
      simpl. rewrite app_nil_r, <- Hs.
      rewrite decide_False; [done|]. intros Hl.
      apply Hnot. rewrite <- Hs. by apply last_Some_elem_of.
Qed.

(** X26.  [SplitString] returns: its tokens are free of the delimiter,
    and joined by the delimiter they give the string back, except that
    a delimiter at the very end of the string is lost (no empty token
    stands for what follows it).  The empty string has no tokens. *)
Theorem SplitString_tokens_rebuild_the_string s delimiter :
  exists tokens,
    SplitString s delimiter = Ok tokens /\
    Forall (fun t => delimiter ∉ t) tokens /\
    (tokens = [] <-> s = []) /\
    join_with delimiter tokens
    = (if decide (last s = Some delimiter) then removelast s else s).
Proof.
  destruct (split_loop_spec delimiter (length s) s [] (le_n _))
    as (tokens & Hrun & Hrest).
  by exists tokens.
Qed.
End FixturesProps.

(** ** The recall monitor *)

Module RecallMonitorProps.
Import RecallMonitor.

Lemma insert_sorted_Permutation d l : insert_sorted d l ≡ₚ d :: l.
Proof.
  induction l as [|x l IH]; simpl; [done|].
  destruct (Qle_bool d x); [done|]. rewrite IH. apply Permutation_swap.
Qed.

Lemma sort_Permutation l : sort l ≡ₚ l.
Proof.
  induction l as [|x l IH]; [done|]. unfold sort in *. simpl.
  by rewrite insert_sorted_Permutation, IH.
Qed.

Lemma insert_sorted_ascending d l :
  ascending l -> ascending (insert_sorted d l).
Proof.
  induction l as [|x l IH]; simpl; [by intros; split; [constructor|]|].
  intros [Hall Hasc]. destruct (Qle_bool d x) eqn:E.
  - apply Qle_bool_iff in E. simpl. split_and!; [|done|done].
    constructor; [done|]. eapply Forall_impl; [exact Hall|].
    intros y Hy. simpl in *. by eapply Qle_trans.
  - simpl. split; [|by apply IH]. rewrite insert_sorted_Permutation.
    constructor; [|done]. apply Qlt_le_weak, Qnot_le_lt.
    intros Hle%Qle_bool_iff. congruence.
Qed.

Lemma sort_ascending l : ascending (sort l).
Proof.
  induction l as [|x l IH]; [done|]. unfold sort in *. simpl.
  by apply insert_sorted_ascending.
Qed.

Lemma ascending_last l (n : nat) m :
  ascending l -> length l = S n -> l !! n = Some m ->
  Forall (fun d => (d <= m)%Q) l.
Proof.
  revert n. induction l as [|x l IH]; intros n; [done|].
  intros [Hall Hasc] Hlen Hm. destruct n as [|n].
  - destruct l; [|done]. injection Hm as ->.
    constructor; [apply Qle_refl|done].
  - simpl in Hm, Hlen. assert (Hl : Forall (fun d => (d <= m)%Q) l).
    { eapply IH; [done| |done]. lia. }
    constructor; [|done].
    apply list_elem_of_lookup_2 in Hm.
    by apply (proj1 (Forall_forall _ _) Hall).
Qed.

Lemma filter_all {A} (P : A -> Prop) `{!forall x, Decision (P x)}
    (l : list A) :
  Forall P l -> filter P l = l.
Proof.
  induction 1 as [|x l Hx _ IH]; [done|].
  by rewrite filter_cons_True, IH.
Qed.

Section get_recall_props.
Variable add_threshold_error : Q -> Q.

Lemma count_within_spec bound distances n :
  forall i count,
    (i + n <= length distances)%nat ->
    count_within bound distances n i count
    = Ok (count
          + length (filter (fun d => Qle_bool d bound = true)
                      (take n (drop i distances))))%nat.
Proof.
  induction n as [|n IH]; intros i count Hlen; cbn [count_within].
  - rewrite take_0. simpl. f_equal. lia.
  - destruct (distances !! i) as [d|] eqn:Hd.
    2:{ apply lookup_ge_None in Hd. lia. }
    cbn [of_option mbind outcome_bind]. rewrite IH by lia.
    rewrite (drop_S _ _ _ Hd), firstn_cons.
    destruct (Qle_bool d bound) eqn:E.
    + rewrite filter_cons_True by done. simpl. f_equal. lia.
    + rewrite filter_cons_False by congruence. done.
Qed.

Lemma get_recall_spec distances truth recall_num top_k :
  (0 < top_k <= length truth)%nat ->
  (recall_num <= length distances)%nat ->
  exists threshold,
    threshold ∈ take top_k truth /\
    Forall (fun d => (d <= threshold)%Q) (take top_k truth) /\
    get_recall add_threshold_error distances truth recall_num top_k
    = Ok (inject_Z (Z.of_nat
            (within (add_threshold_error threshold) distances recall_num))
          / inject_Z (Z.of_nat top_k))%Q.
Proof.
  intros [Hpos Htruth] Hdist. unfold get_recall.
  rewrite decide_False by lia.
  destruct top_k as [|last]; [lia|].
  assert (Hlen : length (sort (take (S last) truth)) = S last).
  { rewrite sort_Permutation, length_take. lia. }
  destruct (sort (take (S last) truth) !! last) as [m|] eqn:Hm.
  2:{ apply lookup_ge_None in Hm. lia. }
  cbn [of_option mbind outcome_bind]. exists m.
  pose proof (ascending_last _ _ _ (sort_ascending _) Hlen Hm) as Hmax.
  split; [|split].
  - rewrite <- (sort_Permutation (take (S last) truth)).
    by eapply list_elem_of_lookup_2.
  - by rewrite <- (sort_Permutation (take (S last) truth)).
  - rewrite count_within_spec by (simpl; lia).
    cbn [mbind outcome_bind]. by rewrite drop_0.
Qed.

(** X27.  What [get_recall] computes when [top_k] is positive and both
    arrays are long enough: the threshold is the largest of the first
    [top_k] ground-truth distances, and the recall is the number of the
    first [recall_num] distances that are within the threshold (with
    its tolerance), divided by [top_k]. *)
Theorem get_recall_counts_within_largest_truth distances truth recall_num
    top_k :
  (0 < top_k <= length truth)%nat ->
  (recall_num <= length distances)%nat ->
  exists threshold,
    threshold ∈ take top_k truth /\
    Forall (fun d => (d <= threshold)%Q) (take top_k truth) /\
    get_recall add_threshold_error distances truth recall_num top_k
    = Ok (inject_Z (Z.of_nat
            (within (add_threshold_error threshold) distances recall_num))
          / inject_Z (Z.of_nat top_k))%Q.
Proof.
  intros Htop Hdist.
  destruct (get_recall_spec distances truth recall_num top_k Htop Hdist)
    as (m & Hin & Hmax & Hrun).
  by exists m.
Qed.

(** X28.  When the tolerance does not lower the threshold, results that
    are all within the largest ground-truth distance have a recall of
    [recall_num / top_k]; so the ground truth measured against itself
    has a recall of 1. *)
Theorem get_recall_of_results_within_truth distances truth recall_num
    top_k :
  (forall t, (t <= add_threshold_error t)%Q) ->
  (0 < top_k <= length truth)%nat ->
  (recall_num <= length distances)%nat ->
  Forall (fun d => Exists (fun t => (d <= t)%Q) (take top_k truth))
         (take recall_num distances) ->
  get_recall add_threshold_error distances truth recall_num top_k
  = Ok (inject_Z (Z.of_nat recall_num) / inject_Z (Z.of_nat top_k))%Q.
Proof.
  intros Hadd Htop Hdist Hall.
  destruct (get_recall_spec distances truth
              recall_num top_k Htop Hdist) as (m & _ & Hmax & ->).
  do 3 f_equal. unfold within.
  rewrite filter_all; [rewrite length_take; lia|].
  eapply Forall_impl; [exact Hall|]. intros d Hex. simpl.
  apply Exists_exists in Hex as (t & Ht & Hle).
  apply Qle_bool_iff. eapply Qle_trans; [exact Hle|].
  eapply Qle_trans; [|apply Hadd].
  by apply (proj1 (Forall_forall _ _) Hmax).
Qed.
End get_recall_props.

Lemma get_recall_counts_within_largest_truth_witness :
  exists threshold,
    threshold ∈ take 2 sample_truth /\
    Forall (fun d => (d <= threshold)%Q) (take 2 sample_truth) /\
    get_recall sample_add [1%Q; 9%Q] sample_truth 2 2
    = Ok (inject_Z (Z.of_nat (within (sample_add threshold) [1%Q; 9%Q] 2))
          / inject_Z (Z.of_nat 2))%Q.
Proof.
  apply (get_recall_counts_within_largest_truth sample_add [1%Q; 9%Q]
           sample_truth 2 2); simpl; lia.
Defined.

Lemma get_recall_of_results_within_truth_witness :
  get_recall sample_add [4%Q; 1%Q] sample_truth 2 2
  = Ok (inject_Z (Z.of_nat 2) / inject_Z (Z.of_nat 2))%Q.
Proof.
  apply (get_recall_of_results_within_truth sample_add [4%Q; 1%Q]
           sample_truth 2 2).
  - intros t. unfold sample_add. lra.
  - simpl. lia.
  - simpl. lia.
  - repeat constructor; vm_compute; discriminate.
Defined.
End RecallMonitorProps.

(** ** The overloads of Serialize and Deserialize *)

Section FormatOverloads.
Context {Codec Extra : Type}.
Context `{!FlattenInterface Codec} `{!ExtraInfoInterface Extra}.
Context `{!GraphInterface}.
Variable GetNumElements : HGraph Codec Extra -> Z.

(** X29.  The overloads agree.  For a non-empty index [x] as [Add]
    leaves it and an empty index [y] constructed with the parameters of
    [x]: the payload that [Serialize()] stores under INDEX_HGRAPH is the
    byte sequence that [Serialize(ostream)] writes; [Deserialize] from
    the [BinarySet] and from the [ReaderSet] read it to its end and
    yield [x]; and [Deserialize(istream)] stops right behind it, so that
    bytes that follow the index in the stream are left unread. *)
Theorem Deserialize_overloads_read_back_Serialize (x y : HGraph Codec Extra) :
  consistent x -> fits_types x ->
  blank_like y x -> GetNumElements y = 0 -> GetNumElements x <> 0 ->
  collaborators_round_trip y x ->
  exists binary_set bytes,
    Serialize_binary_set GetNumElements x = Ok binary_set /\
    Serialize_ostream x [] = Ok bytes /\
    binary_set INDEX_HGRAPH = Some bytes /\
    Deserialize_binary_set GetNumElements y binary_set
      = (x, Some [], Ok tt) /\
    Deserialize_reader_set GetNumElements y binary_set
      = (x, Some [], Ok tt) /\
    forall rest,
      Deserialize_istream GetNumElements y (bytes ++ rest)
      = (x, rest, Ok tt).
Proof.
  intros Hcons Hfits Hblank Hempty Hne Hrt.
  pose proof (Deserialize_reader_layout x y [] Hcons Hfits Hblank Hrt)
    as Hread.
  rewrite app_nil_r in Hread.
  exists (fun name =>
            match name with
            | INDEX_HGRAPH =>
                Some (normative_layout x (map_to_list (label_lookup_ x)))
            | BLANK_INDEX => None
            end),
         (normative_layout x (map_to_list (label_lookup_ x))).
  split_and!.
  - unfold Serialize_binary_set, cal_serialize_size.
    destruct (GetNumElements x =? 0) eqn:E; [apply Z.eqb_eq in E; done|].
    rewrite (Serialize_writer_layout x [] Hcons).
    cbn [fmap outcome_fmap mbind outcome_bind app]. reflexivity.
  - unfold Serialize_ostream. by rewrite Serialize_writer_layout.
  - reflexivity.
  - unfold Deserialize_binary_set. rewrite Hempty. cbn [Z.ltb Z.compare].
    rewrite bool_decide_eq_false_2 by (by intros [? ?]).
    by rewrite Hread.
  - unfold Deserialize_reader_set. rewrite Hempty. cbn [Z.ltb Z.compare].
    by rewrite Hread.
  - intros rest. unfold Deserialize_istream. rewrite Hempty.
    cbn [Z.ltb Z.compare]. by apply Deserialize_reader_layout.
Qed.
End FormatOverloads.

Lemma Deserialize_overloads_read_back_Serialize_witness :
  exists binary_set bytes,
    Serialize_binary_set OneDim.toy_num_elements OneDim.two_levels
      = Ok binary_set /\
    Serialize_ostream OneDim.two_levels [] = Ok bytes /\
    binary_set INDEX_HGRAPH = Some bytes /\
    Deserialize_binary_set OneDim.toy_num_elements OneDim.blank binary_set
      = (OneDim.two_levels, Some [], Ok tt) /\
    Deserialize_reader_set OneDim.toy_num_elements OneDim.blank binary_set
      = (OneDim.two_levels, Some [], Ok tt) /\
    forall rest,
      Deserialize_istream OneDim.toy_num_elements OneDim.blank
        (bytes ++ rest)
      = (OneDim.two_levels, rest, Ok tt).
Proof.
  apply (Deserialize_overloads_read_back_Serialize OneDim.toy_num_elements
           OneDim.two_levels OneDim.blank).
  - exact two_levels_consistent.
  - exact two_levels_fits_types.
  - exact blank_like_two_levels.
  - reflexivity.
  - vm_compute. discriminate.
  - exact two_levels_round_trip.
Defined.
